(** * Library overrides (blenkernel/intern/lib_override.c)

    A shallow embedding of the library-override engine: the override record
    store, the dependency tagger, the override materializer, the resync
    engine and the apply engine, followed by the properties established
    about them. IDs live in a store addressed by their pointer; every C
    function that mutates [Main] becomes a function from [Main] to [Main]. *)

From stdpp Require Import gmap strings list fin_maps.
From Stdlib Require Import ZArith.

Local Open Scope Z_scope.

(** ** Bit flags

    Tags and flags are C [int] bit sets; [x & b], [x |= b] and [x &= ~b]
    are written with [Z.land], [Z.lor] and [Z.lnot]. *)

Definition flag_test (x b : Z) : bool := negb (Z.land x b =? 0).
Definition flag_set (x b : Z) : Z := Z.lor x b.
Definition flag_clear (x b : Z) : Z := Z.land x (Z.lnot b).

(** [id->tag] bits (DNA_ID.h). *)
Definition LIB_TAG_MISSING : Z := Z.shiftl 1 6.
Definition LIB_TAG_NEW : Z := Z.shiftl 1 8.
Definition LIB_TAG_OVERRIDE_LIBRARY_REFOK : Z := Z.shiftl 1 9.
Definition LIB_TAG_DOIT : Z := Z.shiftl 1 10.

(** [id->flag] bits (DNA_ID.h). *)
Definition LIB_EMBEDDED_DATA_LIB_OVERRIDE : Z := Z.shiftl 1 12.

(** Callback flags and return values of the ID-link walker (BKE_lib_query.h). *)
Definition IDWALK_CB_EMBEDDED : Z := Z.shiftl 1 3.
Definition IDWALK_CB_LOOPBACK : Z := Z.shiftl 1 4.
Definition IDWALK_CB_OVERRIDE_LIBRARY_REFERENCE : Z := Z.shiftl 1 5.
Definition IDWALK_CB_USER : Z := Z.shiftl 1 8.
Definition IDWALK_RET_NOP : Z := 0.
Definition IDWALK_RET_STOP_ITER : Z := Z.shiftl 1 0.
Definition IDWALK_RET_STOP_RECURSION : Z := Z.shiftl 1 1.

(** Operation flags, pose flags, object types, comparator reports. *)
Definition IDOVERRIDE_LIBRARY_FLAG_IDPOINTER_MATCH_REFERENCE : Z := Z.shiftl 1 8.
Definition POSE_RECALC : Z := Z.shiftl 1 0.
Definition OB_ARMATURE : Z := 25.
Definition RNA_OVERRIDE_MATCH_RESULT_CREATED : Z := Z.shiftl 1 0.
Definition RNA_OVERRIDE_MATCH_RESULT_RESTORED : Z := Z.shiftl 1 1.

(** ** Data model (DNA_ID.h) *)

(** Address of an ID, address of a Library. A null pointer is [None]. *)
Abbreviation ID_ptr := nat (only parsing).
Abbreviation Library_ptr := nat (only parsing).

Record IDOverrideLibraryPropertyOperation := mk_opop {
  operation : Z;
  opop_flag : Z;
  opop_tag : Z;
  subitem_reference_name : option string;
  subitem_local_name : option string;
  subitem_reference_index : Z;
  subitem_local_index : Z
}.

Record IDOverrideLibraryProperty := mk_op {
  rna_path : string;
  operations : list IDOverrideLibraryPropertyOperation;
  op_tag : Z;
  rna_prop_type : Z
}.

(** The runtime cache: the keys of the path hash (its values point into
    [properties]) and the runtime tag. *)
Record IDOverrideLibraryRuntime := mk_runtime {
  rna_path_to_override_properties : option (gset string);
  runtime_tag : Z
}.

Record bPose := mk_pose {
  chanbase : list (option ID_ptr);   (* [pchan->custom] of every channel *)
  pose_flag : Z
}.

(** The shape key of a geometry ID. For the override engine a shape key is
    embedded data of its owner (comment in [lib_override_library_create_from]),
    and it is held here by value: the fields of its ID header the engine
    touches, its [from] back pointer and its values. A pointer to the key of
    an ID is the address of that ID. *)
Record Key := mk_key {
  key_tag : Z;
  key_flag : Z;
  key_newid : option ID_ptr;
  from : option ID_ptr;
  key_values : gmap string Z
}.

(** What an ID owns besides its header: its outgoing ID pointers with the
    walker flag of each, its shape key, the object fields the engine reads,
    and the values the RNA layer reads and writes by path. *)
Record IDContents := mk_contents {
  links : list (option ID_ptr * Z);
  key : option Key;
  ob_type : Z;
  ob_data : option ID_ptr;
  pose : option bPose;
  rna_values : gmap string Z
}.

(** [storage] is the off-registry ghost ID used while writing a file; nothing
    else points to it, and it is held by value. *)
Record IDOverrideLibrary := mk_override {
  reference : option ID_ptr;
  properties : list IDOverrideLibraryProperty;
  storage : option IDContents;
  runtime : option IDOverrideLibraryRuntime
}.

Record ID := mk_ID {
  name : string;
  lib : option Library_ptr;
  tag : Z;
  flag : Z;
  us : Z;
  newid : option ID_ptr;
  override_library : option IDOverrideLibrary;
  contents : IDContents
}.

Definition set_name (v : string) (i : ID) : ID :=
  mk_ID v (lib i) (tag i) (flag i) (us i) (newid i) (override_library i) (contents i).
Definition set_tag (v : Z) (i : ID) : ID :=
  mk_ID (name i) (lib i) v (flag i) (us i) (newid i) (override_library i) (contents i).
Definition set_flag (v : Z) (i : ID) : ID :=
  mk_ID (name i) (lib i) (tag i) v (us i) (newid i) (override_library i) (contents i).
Definition set_us (v : Z) (i : ID) : ID :=
  mk_ID (name i) (lib i) (tag i) (flag i) v (newid i) (override_library i) (contents i).
Definition set_newid (v : option ID_ptr) (i : ID) : ID :=
  mk_ID (name i) (lib i) (tag i) (flag i) (us i) v (override_library i) (contents i).
Definition set_override_library (v : option IDOverrideLibrary) (i : ID) : ID :=
  mk_ID (name i) (lib i) (tag i) (flag i) (us i) (newid i) v (contents i).
Definition set_contents (v : IDContents) (i : ID) : ID :=
  mk_ID (name i) (lib i) (tag i) (flag i) (us i) (newid i) (override_library i) v.

Definition set_links (v : list (option ID_ptr * Z)) (c : IDContents) : IDContents :=
  mk_contents v (key c) (ob_type c) (ob_data c) (pose c) (rna_values c).
Definition set_key (v : option Key) (c : IDContents) : IDContents :=
  mk_contents (links c) v (ob_type c) (ob_data c) (pose c) (rna_values c).
Definition set_ob_data (v : option ID_ptr) (c : IDContents) : IDContents :=
  mk_contents (links c) (key c) (ob_type c) v (pose c) (rna_values c).
Definition set_pose (v : option bPose) (c : IDContents) : IDContents :=
  mk_contents (links c) (key c) (ob_type c) (ob_data c) v (rna_values c).

Definition set_key_tag (v : Z) (k : Key) : Key :=
  mk_key v (key_flag k) (key_newid k) (from k) (key_values k).
Definition set_key_flag (v : Z) (k : Key) : Key :=
  mk_key (key_tag k) v (key_newid k) (from k) (key_values k).
Definition set_key_newid (v : option ID_ptr) (k : Key) : Key :=
  mk_key (key_tag k) (key_flag k) v (from k) (key_values k).
Definition set_from (v : option ID_ptr) (k : Key) : Key :=
  mk_key (key_tag k) (key_flag k) (key_newid k) v (key_values k).

Definition set_reference (v : option ID_ptr) (o : IDOverrideLibrary) : IDOverrideLibrary :=
  mk_override v (properties o) (storage o) (runtime o).
Definition set_properties (v : list IDOverrideLibraryProperty) (o : IDOverrideLibrary)
    : IDOverrideLibrary :=
  mk_override (reference o) v (storage o) (runtime o).
Definition set_storage (v : option IDContents) (o : IDOverrideLibrary) : IDOverrideLibrary :=
  mk_override (reference o) (properties o) v (runtime o).
Definition set_runtime (v : option IDOverrideLibraryRuntime) (o : IDOverrideLibrary)
    : IDOverrideLibrary :=
  mk_override (reference o) (properties o) (storage o) v.

(** One entry of [MainIDRelations.id_user_to_used]: the ID a pointer slot of
    the user points at ([None] when the slot itself is null) and the usage
    flag of that slot. *)
Record MainIDRelationsEntry := mk_entry {
  id_pointer : option ID_ptr;
  usage_flag : Z
}.

(** [Main]: the IDs by address, the order in which FOREACH_MAIN_ID visits
    them (the list bases one after the other, local IDs before linked ones
    within each) and the relations built by [BKE_main_relations_create]. *)
Record Main := mk_Main {
  ids : gmap nat ID;
  order : list ID_ptr;
  relations : option (gmap nat (list MainIDRelationsEntry))
}.

Definition set_ids (v : gmap nat ID) (m : Main) : Main := mk_Main v (order m) (relations m).
Definition set_order (v : list ID_ptr) (m : Main) : Main := mk_Main (ids m) v (relations m).
Definition set_relations (v : option (gmap nat (list MainIDRelationsEntry))) (m : Main) : Main :=
  mk_Main (ids m) (order m) v.

(** [p->field = ...] on the ID at address [p]. *)
Definition update_id (p : ID_ptr) (f : ID → ID) (m : Main) : Main :=
  set_ids (alter f p (ids m)) m.

(** [p->override_library->field = ...]. *)
Definition update_override (p : ID_ptr) (f : IDOverrideLibrary → IDOverrideLibrary)
    (m : Main) : Main :=
  update_id p (λ i, set_override_library (f <$> override_library i) i) m.

(** [p->override_library] and [p->override_library->reference], null when
    there is nothing to read. *)
Definition id_override (m : Main) (p : ID_ptr) : option IDOverrideLibrary :=
  match ids m !! p with
  | Some i => override_library i
  | None => None
  end.

Definition id_reference (m : Main) (p : ID_ptr) : option ID_ptr :=
  match id_override m p with
  | Some o => reference o
  | None => None
  end.

(** ID codes: [GS(id->name)] reads the two-character prefix of the name. *)
Definition GS (n : string) : string := String.substring 0 2 n.
Definition ID_OB : string := "OB".
Definition ID_GR : string := "GR".
Definition ID_AR : string := "AR".

(** The DNA_ID.h predicates. *)
Definition ID_IS_LINKED (i : ID) : bool := bool_decide (lib i ≠ None).
Definition ID_MISSING (i : ID) : bool := flag_test (tag i) LIB_TAG_MISSING.
Definition ID_IS_OVERRIDE_LIBRARY_REAL (i : ID) : bool :=
  match override_library i with
  | Some o => bool_decide (reference o ≠ None)
  | None => false
  end.
Definition ID_IS_OVERRIDE_LIBRARY_VIRTUAL (i : ID) : bool :=
  flag_test (flag i) LIB_EMBEDDED_DATA_LIB_OVERRIDE.
Definition ID_IS_OVERRIDE_LIBRARY (i : ID) : bool :=
  ID_IS_OVERRIDE_LIBRARY_REAL i || ID_IS_OVERRIDE_LIBRARY_VIRTUAL i.
Definition ID_IS_OVERRIDE_LIBRARY_TEMPLATE (i : ID) : bool :=
  match override_library i with
  | Some o => bool_decide (reference o = None)
  | None => false
  end.

(** ** Use counts

    Modelled from the spec: [id_us_plus] and [id_us_min] (lib_id.c), the
    reference-count increment and decrement of the host registry. Both
    ignore a null ID; the decrement never goes below zero. *)
Definition id_us_plus (p : option ID_ptr) (m : Main) : Main :=
  match p with
  | Some h => update_id h (λ i, set_us (us i + 1) i) m
  | None => m
  end.

Definition id_us_min (p : option ID_ptr) (m : Main) : Main :=
  match p with
  | Some h => update_id h (λ i, set_us (if us i <=? 0 then 0 else us i - 1) i) m
  | None => m
  end.

(** ** Override record store *)

(** [BLI_duplicatelist]: every link is copied as it is, so the copies still
    share the strings and the sub-lists of the originals. *)
Definition BLI_duplicatelist {A : Type} (src : list A) : list A := src.

Definition lib_override_library_property_operation_copy
    (opop_dst opop_src : IDOverrideLibraryPropertyOperation)
    : IDOverrideLibraryPropertyOperation :=
  let refname :=
    match subitem_reference_name opop_src with
    | Some s => Some s                      (* BLI_strdup *)
    | None => subitem_reference_name opop_dst
    end in
  let locname :=
    match subitem_local_name opop_src with
    | Some s => Some s                      (* BLI_strdup *)
    | None => subitem_local_name opop_dst
    end in
  mk_opop (operation opop_dst) (opop_flag opop_dst) (opop_tag opop_dst)
          refname locname
          (subitem_reference_index opop_dst) (subitem_local_index opop_dst).

Definition lib_override_library_property_copy
    (op_dst op_src : IDOverrideLibraryProperty) : IDOverrideLibraryProperty :=
  mk_op (rna_path op_src)
        (zip_with lib_override_library_property_operation_copy
                  (BLI_duplicatelist (operations op_src)) (operations op_src))
        (op_tag op_dst) (rna_prop_type op_dst).

(** The two loops that duplicate a property list, in
    [BKE_lib_override_library_copy] and in the resync. *)
Definition override_properties_duplicate (src : list IDOverrideLibraryProperty)
    : list IDOverrideLibraryProperty :=
  zip_with lib_override_library_property_copy (BLI_duplicatelist src) src.

(** [BKE_lib_override_library_clear]: the hash is emptied when it exists,
    every property is freed and the reference loses a user on request. *)
Definition override_clear_data (o : IDOverrideLibrary) : IDOverrideLibrary :=
  let rt :=
    match runtime o with
    | Some r =>
        match rna_path_to_override_properties r with
        | Some _ => Some (mk_runtime (Some ∅) (runtime_tag r))
        | None => Some r
        end
    | None => None
    end in
  mk_override (reference o) [] (storage o) rt.

Definition BKE_lib_override_library_clear (p : ID_ptr) (do_id_user : bool) (m : Main)
    : Main :=
  match ids m !! p with
  | Some i =>
      match override_library i with
      | Some o =>
          let m := update_override p override_clear_data m in
          if do_id_user then id_us_min (reference o) m else m
      | None => m
      end
  | None => m
  end.

(** [BKE_lib_override_library_free]: clear, then release the struct. *)
Definition BKE_lib_override_library_free (p : ID_ptr) (do_id_user : bool) (m : Main)
    : Main :=
  let m := update_override p (set_runtime None) m in
  let m := BKE_lib_override_library_clear p do_id_user m in
  update_id p (set_override_library None) m.

(** The tail of [BKE_lib_override_library_init] ("Else, generate new empty
    override"). *)
Definition lib_override_library_init_empty (local_id : ID_ptr) (reference_id : option ID_ptr)
    (m : Main) : Main :=
  let m := update_id local_id
             (set_override_library (Some (mk_override None [] None None))) m in
  let m := update_override local_id (set_reference reference_id) m in
  let m := id_us_plus reference_id m in
  update_id local_id (λ i, set_tag (flag_clear (tag i) LIB_TAG_OVERRIDE_LIBRARY_REFOK) i) m.

(** [BKE_lib_override_library_copy]. Its call
    [BKE_lib_override_library_init(dst_id, NULL)] has a null reference, for
    which the ancestor walk of [init] stops at once and the empty override
    is generated (see [init_null_reference] below). *)
Definition BKE_lib_override_library_copy (dst_id src_id : ID_ptr) (do_full_copy : bool)
    (m : Main) : Main :=
  match ids m !! dst_id, ids m !! src_id with
  | Some dst, Some src =>
      let prepared :=
        match override_library dst, override_library src with
        | Some _, None => inl (BKE_lib_override_library_free dst_id true m)
        | Some _, Some _ => inr (BKE_lib_override_library_clear dst_id true m)
        | None, None => inl m
        | None, Some _ => inr (lib_override_library_init_empty dst_id None m)
        end in
      match prepared with
      | inl m => m
      | inr m =>
          let src_override := id_override m src_id in
          let ref :=
            match id_reference m src_id with
            | Some r => Some r
            | None => Some src_id
            end in
          let m := update_override dst_id (set_reference ref) m in
          let m := id_us_plus ref m in
          let m :=
            if do_full_copy then
              update_override dst_id
                (set_properties
                   (override_properties_duplicate
                      (default [] (properties <$> src_override)))) m
            else m in
          update_id dst_id
            (λ i, set_tag (flag_clear (tag i) LIB_TAG_OVERRIDE_LIBRARY_REFOK) i) m
      end
  | _, _ => m
  end.

(** The [for] loop of [BKE_lib_override_library_init]: follow the references
    of the override chain until an ID without override, or a template, is
    reached. [None] when the fuel runs out or a pointer dangles. *)
Fixpoint override_ancestor (fuel : nat) (m : Main) (ancestor_id : option ID_ptr)
    : option (option ID_ptr) :=
  match fuel with
  | O => None
  | S fuel =>
      match ancestor_id with
      | None => Some None
      | Some a =>
          match ids m !! a with
          | None => None
          | Some i =>
              match override_library i with
              | Some o =>
                  match reference o with
                  | Some r => override_ancestor fuel m (Some r)
                  | None => Some (Some a)
                  end
              | None => Some (Some a)
              end
          end
      end
  end.

(** The test [ancestor_id != NULL && ancestor_id->override_library != NULL]
    made after the walk: the ancestor when it carries an override (which is
    then a template, the walk having stopped there). *)
Definition override_template (m : Main) (ancestor_id : option ID_ptr) : option ID_ptr :=
  match ancestor_id with
  | Some a =>
      match id_override m a with
      | Some _ => Some a
      | None => None
      end
  | None => None
  end.

Definition BKE_lib_override_library_init (fuel : nat) (local_id : ID_ptr)
    (reference_id : option ID_ptr) (m : Main) : option Main :=
  match override_ancestor fuel m reference_id with
  | None => None
  | Some ancestor_id =>
      match override_template m ancestor_id with
      | Some a =>
          (* Original ID has a template, use it! *)
          let m := BKE_lib_override_library_copy local_id a true m in
          let cur := id_reference m local_id in
          if bool_decide (cur ≠ reference_id) then
            let m := id_us_min cur m in
            let m := update_override local_id (set_reference reference_id) m in
            Some (id_us_plus reference_id m)
          else Some m
      | None => Some (lib_override_library_init_empty local_id reference_id m)
      end
  end.

(** ** Operation lookup by sub-item *)

(** Modelled from the spec: [BLI_findstring_ptr] (listbase.c), the first link
    whose string pointer at the given offset holds the wanted string. *)
Fixpoint BLI_findstring_ptr {A : Type} (field : A → option string) (l : list A)
    (id : string) : option A :=
  match l with
  | [] => None
  | x :: l =>
      if bool_decide (field x = Some id) then Some x
      else BLI_findstring_ptr field l id
  end.

(** Modelled from the spec: [BLI_listbase_bytes_find] (listbase.c), the first
    link whose bytes at the given offset equal the wanted ones. *)
Fixpoint BLI_listbase_bytes_find {A : Type} (field : A → Z) (l : list A) (v : Z)
    : option A :=
  match l with
  | [] => None
  | x :: l =>
      if bool_decide (field x = v) then Some x
      else BLI_listbase_bytes_find field l v
  end.

(** [a == b] for two string pointers of which at least one is null. *)
Definition null_ptr_eq (a b : option string) : bool :=
  match a, b with
  | None, None => true
  | _, _ => false
  end.

Definition STREQ (a b : string) : bool := bool_decide (a = b).

(** [BKE_lib_override_library_property_operation_find]; the second component
    is the value left in [*r_strict]. *)
Definition BKE_lib_override_library_property_operation_find
    (override_property : IDOverrideLibraryProperty)
    (subitem_refname subitem_locname : option string)
    (subitem_refindex subitem_locindex : Z) (strict : bool)
    : option IDOverrideLibraryPropertyOperation * bool :=
  let subitem_defindex := -1 in
  let ops := operations override_property in
  match subitem_locname with
  | Some locname =>
      match BLI_findstring_ptr subitem_local_name ops locname with
      | None => (None, true)
      | Some opop =>
          match subitem_refname, subitem_reference_name opop with
          | Some r, Some r' => (if STREQ r r' then Some opop else None, true)
          | r, r' => (if null_ptr_eq r r' then Some opop else None, true)
          end
      end
  | None =>
      match subitem_refname with
      | Some refname =>
          match BLI_findstring_ptr subitem_reference_name ops refname with
          | None => (None, true)
          | Some opop =>
              match subitem_locname, subitem_local_name opop with
              | Some l, Some l' => (if STREQ l l' then Some opop else None, true)
              | l, l' => (if null_ptr_eq l l' then Some opop else None, true)
              end
          end
      | None =>
          match BLI_listbase_bytes_find subitem_local_index ops subitem_locindex with
          | Some opop =>
              (if bool_decide (subitem_refindex = -1
                               ∨ subitem_refindex = subitem_reference_index opop)
               then Some opop else None, true)
          | None =>
              match BLI_listbase_bytes_find subitem_reference_index ops
                      subitem_refindex with
              | Some opop =>
                  (if bool_decide (subitem_locindex = -1
                                   ∨ subitem_locindex = subitem_local_index opop)
                   then Some opop else None, true)
              | None =>
                  if negb strict && bool_decide (subitem_locindex ≠ subitem_defindex) then
                    match BLI_listbase_bytes_find subitem_local_index ops
                            subitem_defindex with
                    | Some opop => (Some opop, false)
                    | None => (None, true)
                    end
                  else (None, true)
              end
          end
      end
  end.

(** ** Example data *)

(** One operation recorded against the element named "Leg" in the reference
    and "LegA" locally, and a property holding only that operation. *)
Definition leg_operation : IDOverrideLibraryPropertyOperation :=
  mk_opop 1 0 0 (Some "Leg"%string) (Some "LegA"%string) (-1) (-1).

Definition legs_property : IDOverrideLibraryProperty :=
  mk_op "legs" [leg_operation] 0 0.

(** The users left to [src] once the override of [d] has released its
    reference: [BKE_lib_override_library_copy] first clears an existing
    override of the destination, which takes a user away from its former
    reference. *)
Definition released_us (d s : ID) (src : ID_ptr) : Z :=
  match override_library d with
  | Some o_d =>
      if bool_decide (reference o_d = Some src)
      then (if us s <=? 0 then 0 else us s - 1)
      else us s
  | None => us s
  end.

Definition empty_contents : IDContents := mk_contents [] None 0 None None ∅.

(** A registry with an override template and a plain local ID: the template
    "OBTemplate" at address 1 records [legs_property] and has no reference,
    "OBPlain" at address 2 has no override. *)
Definition template_main : Main :=
  mk_Main
    (<[1%nat := mk_ID "OBTemplate" None 0 0 1 None
                  (Some (mk_override None [legs_property] None None)) empty_contents]>
       (<[2%nat := mk_ID "OBPlain" None LIB_TAG_OVERRIDE_LIBRARY_REFOK 0 1 None None
                     empty_contents]> ∅))
    [1%nat; 2%nat] None.

(** A linked override chain ending on a template: "OBRig" at address 2 is a
    linked override of the linked template "OBTemplate" at address 1;
    "OBProp" at address 3 is linked and has no override; "OBLocal" at
    address 4 is local, without override, and tagged REFOK. *)
Definition chain_main : Main :=
  mk_Main
    (<[1%nat := mk_ID "OBTemplate" (Some 7%nat) 0 0 1 None
                  (Some (mk_override None [legs_property] None None)) empty_contents]>
       (<[2%nat := mk_ID "OBRig" (Some 7%nat) 0 0 1 None
                     (Some (mk_override (Some 1%nat) [] None None)) empty_contents]>
          (<[3%nat := mk_ID "OBProp" (Some 7%nat) 0 0 1 None None empty_contents]>
             (<[4%nat := mk_ID "OBLocal" None LIB_TAG_OVERRIDE_LIBRARY_REFOK 0 1 None None
                           empty_contents]> ∅))))
    [4%nat; 1%nat; 2%nat; 3%nat] None.

(** A linked chair at address 1 with two local overrides of it: "OBChair" at
    address 2 records [legs_property], "OBChair.001" at address 3 records
    nothing. *)
Definition chairs_main : Main :=
  mk_Main
    (<[1%nat := mk_ID "OBChair" (Some 7%nat) 0 0 2 None None empty_contents]>
       (<[2%nat := mk_ID "OBChair" None 0 0 1 None
                     (Some (mk_override (Some 1%nat) [legs_property] None None))
                     empty_contents]>
          (<[3%nat := mk_ID "OBChair.001" None 0 0 1 None
                        (Some (mk_override (Some 1%nat) [] None None))
                        empty_contents]> ∅)))
    [2%nat; 3%nat; 1%nat] None.

(** ** The host registry

    What the engine consumes from the rest of the program and is not decided
    by lib_override.c: whether an ID can be duplicated, the unique name given
    to a new local ID, the table of linkable ID types, the RNA apply and
    compare passes, the pose rebuild, and the placement of new overrides in
    the collections of a scene
    ([lib_override_library_create_post_process], which works on the scene,
    the view layer and the collections, none of which is modelled). *)
Record Host := mk_Host {
  id_can_copy : ID → bool;
  id_new_name : Main → string → string;
  BKE_idtype_idcode_is_linkable : string → bool;
  (* destination, source, storage, override: the destination after the apply *)
  RNA_struct_override_apply :
    IDContents → IDContents → option IDContents → IDOverrideLibrary → IDContents;
  (* local, reference, flags: the local ID after the pass, the report flags *)
  RNA_struct_override_matches : ID → ID → Z → ID * Z;
  BKE_pose_ensure : Main → ID_ptr → Main;
  lib_override_library_create_post_process : Main → ID_ptr → option ID_ptr → Main
}.

(** [MEM_callocN] for a new ID: an address no ID of the registry uses. *)
Definition new_ID_ptr (m : Main) : ID_ptr :=
  fresh (dom (ids m) ∪ list_to_set (order m)).

(** Modelled from the spec: [BKE_id_copy] (lib_id.c), the duplication of an
    entity: a full value copy with a fresh identity, local, with one user, no
    tag, no counterpart and no override of its own, registered before the
    linked IDs; its shape key is duplicated with it. The result is null when
    the ID cannot be duplicated. *)
Definition BKE_id_copy (host : Host) (m : Main) (p : ID_ptr) : option (Main * ID_ptr) :=
  match ids m !! p with
  | Some i =>
      if id_can_copy host i then
        let new := new_ID_ptr m in
        let c :=
          set_key ((λ k, mk_key 0 (key_flag k) None (Some new) (key_values k))
                     <$> key (contents i))
                  (contents i) in
        let copy := mk_ID (id_new_name host m (name i)) None 0 0 1 None None c in
        Some (mk_Main (<[new := copy]> (ids m)) (new :: order m) (relations m), new)
      else None
  | None => None
  end.

(** Modelled from the spec: [BKE_id_free_ex] and [BKE_id_delete]
    (lib_id_delete.c), the deletion of one entity: it leaves the registry,
    together with what it owns. A null ID is ignored. *)
Definition BKE_id_free_ex (p : ID_ptr) (m : Main) : Main :=
  mk_Main (delete p (ids m)) (filter (λ h, h ≠ p) (order m)) (relations m).

Definition BKE_id_delete (p : option ID_ptr) (m : Main) : Main :=
  match p with
  | Some h => BKE_id_free_ex h m
  | None => m
  end.

Definition id_tagged (m : Main) (b : Z) (h : ID_ptr) : bool :=
  match ids m !! h with
  | Some i => flag_test (tag i) b
  | None => false
  end.

(** Modelled from the spec: [BKE_id_multi_tagged_delete] (lib_id_delete.c),
    the batched deletion of every entity tagged [LIB_TAG_DOIT]. *)
Definition BKE_id_multi_tagged_delete (m : Main) : Main :=
  mk_Main (filter (λ hi, flag_test (tag hi.2) LIB_TAG_DOIT = false) (ids m))
          (filter (λ h, id_tagged m LIB_TAG_DOIT h = false) (order m))
          (relations m).

(** [BKE_lib_id_swap]: the two IDs exchange what they own, each keeps its
    header (name, library, tags, users, override). *)
Definition BKE_lib_id_swap (a b : ID_ptr) (m : Main) : Main :=
  match ids m !! a, ids m !! b with
  | Some ia, Some ib =>
      update_id b (set_contents (contents ia)) (update_id a (set_contents (contents ib)) m)
  | _, _ => m
  end.

(** ** Pointer remapping

    Modelled from the spec: [BKE_libblock_relink_ex] and [BKE_libblock_remap]
    (lib_remap.c). Relinking replaces, in the pointers of one ID, every
    pointer to [old] by a pointer to [new]; with
    [ID_REMAP_SKIP_OVERRIDE_LIBRARY] the reference of its override is left
    alone. Remapping with [ID_REMAP_SKIP_INDIRECT_USAGE] relinks every local
    ID of the registry. *)
Definition remap_ptr (old new : ID_ptr) (p : option ID_ptr) : option ID_ptr :=
  if bool_decide (p = Some old) then Some new else p.

Definition contents_remap (old new : ID_ptr) (c : IDContents) : IDContents :=
  mk_contents
    ((λ l, (remap_ptr old new l.1, l.2)) <$> links c)
    ((λ k, set_from (remap_ptr old new (from k)) k) <$> key c)
    (ob_type c)
    (remap_ptr old new (ob_data c))
    ((λ p, mk_pose (remap_ptr old new <$> chanbase p) (pose_flag p)) <$> pose c)
    (rna_values c).

Definition id_relink (old new : ID_ptr) (skip_override_library : bool) (i : ID) : ID :=
  let i := set_contents (contents_remap old new (contents i)) i in
  if skip_override_library then i
  else set_override_library
         ((λ o, set_reference (remap_ptr old new (reference o)) o) <$> override_library i) i.

Definition BKE_libblock_relink_ex (p old new : ID_ptr) (skip_override_library : bool)
    (m : Main) : Main :=
  update_id p (id_relink old new skip_override_library) m.

Definition BKE_libblock_remap (old new : ID_ptr) (m : Main) : Main :=
  set_ids ((λ i, if ID_IS_LINKED i then i else id_relink old new false i) <$> ids m) m.

(** The ID pointers of an ID, each with its walker flag: the reference of
    its override, its links, its object data and the custom shapes of its
    pose channels. *)
Definition id_link_slots (i : ID) : list (option ID_ptr * Z) :=
  match override_library i with
  | Some o =>
      [(reference o, Z.lor IDWALK_CB_USER IDWALK_CB_OVERRIDE_LIBRARY_REFERENCE)]
  | None => []
  end
  ++ links (contents i)
  ++ [(ob_data (contents i), IDWALK_CB_USER)]
  ++ match pose (contents i) with
     | Some p => (λ c, (c, IDWALK_CB_USER)) <$> chanbase p
     | None => []
     end.

(** Whether some pointer of the ID points to [p]. *)
Definition id_uses (p : ID_ptr) (i : ID) : Prop :=
  Some p ∈ (id_link_slots i).*1 ∨ (∃ k, key (contents i) = Some k ∧ from k = Some p).

(** ** Override materializer *)

(** [BKE_key_from_id]: the shape key of an ID, null when it has none. *)
Definition BKE_key_from_id (m : Main) (p : ID_ptr) : option Key :=
  match ids m !! p with
  | Some i => key (contents i)
  | None => None
  end.

(** [key->field = ...] on the shape key of the ID at address [p]. *)
Definition update_key (p : ID_ptr) (f : Key → Key) (m : Main) : Main :=
  update_id p (λ i, set_contents (set_key (f <$> key (contents i)) (contents i)) i) m.

(** [lib_override_library_create_from]. The outer option is [None] when the
    walk of [init] does not end; the pointer is the value returned, null when
    the duplication failed. *)
Definition lib_override_library_create_from (host : Host) (fuel : nat) (m : Main)
    (reference_id : ID_ptr) : option (Main * option ID_ptr) :=
  match BKE_id_copy host m reference_id with
  | None => Some (m, None)
  | Some (m, local_id) =>
      let m := id_us_min (Some local_id) m in
      match BKE_lib_override_library_init fuel local_id (Some reference_id) m with
      | None => None
      | Some m =>
          let m :=
            match BKE_key_from_id m reference_id with
            | Some _ =>
                update_key local_id
                  (λ k, set_key_flag (flag_set (key_flag k) LIB_EMBEDDED_DATA_LIB_OVERRIDE) k)
                  m
            | None => m
            end in
          Some (m, Some local_id)
      end
  end.

(** "Get all IDs we want to override": the test of the first loop of
    [BKE_lib_override_library_create_from_tag]. *)
Definition is_todo (host : Host) (m : Main) (h : ID_ptr) : bool :=
  match ids m !! h with
  | Some i =>
      flag_test (tag i) LIB_TAG_DOIT && ID_IS_LINKED i
      && BKE_idtype_idcode_is_linkable host (GS (name i))
  | None => false
  end.

Definition todo_ids (host : Host) (m : Main) : list ID_ptr :=
  filter (λ h, is_todo host m h) (order m).

(** The tagging of the shape keys in "Override the IDs": the key of the
    reference is tagged and gets the key of the new ID as counterpart, which
    is tagged too. [None] when the new ID has no key to point at. *)
Definition create_from_tag_keys (reference_id local_id : ID_ptr) (m : Main) : option Main :=
  match BKE_key_from_id m reference_id with
  | Some _ =>
      let m := update_key reference_id (λ k, set_key_tag (flag_set (key_tag k) LIB_TAG_DOIT) k) m in
      match BKE_key_from_id m local_id with
      | Some _ =>
          let m := update_key reference_id (set_key_newid (Some local_id)) m in
          Some (update_key local_id
                  (λ k, set_key_tag (flag_set (key_tag k) LIB_TAG_DOIT) k) m)
      | None => None
      end
  | None => Some m
  end.

(** The body of the loop "Override the IDs". The boolean is [success]; when
    it is false the loop is left. *)
Definition create_from_tag_override_one (host : Host) (fuel : nat) (reference_id : ID_ptr)
    (m : Main) : option (Main * bool) :=
  match ids m !! reference_id with
  | None => None
  | Some r =>
      let created :=
        match newid r with
        | None =>
            match lib_override_library_create_from host fuel m reference_id with
            | Some (m, nid) => Some (update_id reference_id (set_newid nid) m, nid)
            | None => None
            end
        | Some n => Some (m, Some n)
        end in
      match created with
      | None => None
      | Some (m, None) => Some (m, false)
      | Some (m, Some n) =>
          (* We also tag the new IDs so that in next step we can remap their
             pointers too. *)
          let m := update_id n (λ i, set_tag (flag_set (tag i) LIB_TAG_DOIT) i) m in
          match create_from_tag_keys reference_id n m with
          | Some m => Some (m, true)
          | None => None
          end
      end
  end.

Fixpoint create_from_tag_override (host : Host) (fuel : nat) (todo : list ID_ptr)
    (m : Main) : option (Main * bool) :=
  match todo with
  | [] => Some (m, true)
  | reference_id :: todo =>
      match create_from_tag_override_one host fuel reference_id m with
      | None => None
      | Some (m, false) => Some (m, false)
      | Some (m, true) => create_from_tag_override host fuel todo m
      end
  end.

(** What the materializer may do to the header of an ID that was there
    before: nothing to its name, library and override, and to its tags
    nothing but setting [LIB_TAG_DOIT]. *)
Definition kept (i i' : ID) : Prop :=
  name i' = name i ∧ lib i' = lib i ∧ override_library i' = override_library i
  ∧ (tag i' = tag i ∨ tag i' = flag_set (tag i) LIB_TAG_DOIT).

(** The inner FOREACH_MAIN_ID of the remapping loop: every tagged local ID is
    relinked from the reference to its new override. Pointers to shape keys
    are not ID pointers here, so the second relink has nothing to replace. *)
Definition create_from_tag_relink_one (reference_id local_id : ID_ptr) (m : Main) : Main :=
  foldl (λ m other_id,
           match ids m !! other_id with
           | Some other =>
               if flag_test (tag other) LIB_TAG_DOIT && negb (ID_IS_LINKED other) then
                 BKE_libblock_relink_ex other_id reference_id local_id true m
               else m
           | None => m
           end)
        m (order m).

Definition id_newid (m : Main) (p : ID_ptr) : option ID_ptr :=
  match ids m !! p with
  | Some i => newid i
  | None => None
  end.

(** "Only remap new local ID's pointers". *)
Definition create_from_tag_relink (todo : list ID_ptr) (m : Main) : Main :=
  foldl (λ m reference_id,
           match id_newid m reference_id with
           | Some local_id => create_from_tag_relink_one reference_id local_id m
           | None => m
           end)
        m todo.

(** One turn of the cleanup loop of
    [BKE_lib_override_library_create_from_tag]. *)
Definition create_from_tag_cleanup_one (m : Main) (reference_id : ID_ptr) : Main :=
  update_id reference_id (set_newid None) (BKE_id_delete (id_newid m reference_id) m).

(** "We need to cleanup potentially already created data." *)
Definition create_from_tag_cleanup (todo : list ID_ptr) (m : Main) : Main :=
  foldl create_from_tag_cleanup_one m todo.

Definition BKE_lib_override_library_create_from_tag (host : Host) (fuel : nat) (m : Main)
    : option (Main * bool) :=
  let todo := todo_ids host m in
  match create_from_tag_override host fuel todo m with
  | Some (m, true) => Some (create_from_tag_relink todo m, true)
  | Some (m, false) => Some (create_from_tag_cleanup todo m, false)
  | None => None
  end.

(** An ID with its use count forgotten: two states that agree on [no_us] at
    an address differ there by the use count at most. *)
Definition no_us (i : ID) : ID := set_us 0 i.

(** The header of an ID: everything but its use count and what it owns. *)
Definition header (i : ID) : string * option Library_ptr * Z * Z * option ID_ptr
                             * option IDOverrideLibrary :=
  (name i, lib i, tag i, flag i, newid i, override_library i).

(** An ID with what it owns forgotten. *)
Definition no_contents (i : ID) : ID := set_contents empty_contents i.

(** ** Dependency tagger *)

(** Modelled from the spec: [BKE_library_foreach_ID_link] (lib_query.c) with
    [IDWALK_READONLY | IDWALK_RECURSE], the walk over the ID pointers of an
    ID and of the IDs it reaches. The callback receives the owner, the
    pointer and its flag; an ID met for the first time is recorded, and is
    queued for its own walk unless the callback answered
    [IDWALK_RET_STOP_RECURSION]; [IDWALK_RET_STOP_ITER] ends the walk. A
    callback that dereferences a dangling pointer yields [None]. *)
Definition LibraryIDLinkCallback : Type :=
  Main → ID_ptr → option ID_ptr → Z → option (Main * Z).

Fixpoint library_foreach_ID_link_slots (callback : LibraryIDLinkCallback) (id_owner : ID_ptr)
    (slots : list (option ID_ptr * Z)) (m : Main) (ids_todo : list ID_ptr)
    (ids_handled : gset nat) : option (Main * list ID_ptr * gset nat * bool) :=
  match slots with
  | [] => Some (m, ids_todo, ids_handled, false)
  | (id_pointer, cb_flag) :: slots =>
      match callback m id_owner id_pointer cb_flag with
      | None => None
      | Some (m, callback_return) =>
          let '(ids_todo, ids_handled) :=
            match id_pointer with
            | Some old_id =>
                if bool_decide (old_id ∈ ids_handled) then (ids_todo, ids_handled)
                else
                  (if flag_test callback_return IDWALK_RET_STOP_RECURSION then ids_todo
                   else old_id :: ids_todo,
                   {[old_id]} ∪ ids_handled)
            | None => (ids_todo, ids_handled)
            end in
          if flag_test callback_return IDWALK_RET_STOP_ITER
          then Some (m, ids_todo, ids_handled, true)
          else library_foreach_ID_link_slots callback id_owner slots m ids_todo ids_handled
      end
  end.

Fixpoint library_foreach_ID_link_loop (fuel : nat) (callback : LibraryIDLinkCallback)
    (m : Main) (id : ID_ptr) (ids_todo : list ID_ptr) (ids_handled : gset nat)
    : option Main :=
  match fuel with
  | O => None
  | S fuel =>
      match ids m !! id with
      | None => None
      | Some i =>
          match library_foreach_ID_link_slots callback id (id_link_slots i) m
                  ids_todo ids_handled with
          | None => None
          | Some (m, _, _, true) => Some m
          | Some (m, [], _, false) => Some m
          | Some (m, next :: ids_todo, ids_handled, false) =>
              library_foreach_ID_link_loop fuel callback m next ids_todo ids_handled
          end
      end
  end.

Definition BKE_library_foreach_ID_link (fuel : nat) (callback : LibraryIDLinkCallback)
    (m : Main) (id : ID_ptr) : option Main :=
  library_foreach_ID_link_loop fuel callback m id [] {[id]}.

Definition is_OB_or_GR (i : ID) : bool :=
  bool_decide (GS (name i) = ID_OB) || bool_decide (GS (name i) = ID_GR).

Definition id_tag_set (p : ID_ptr) (b : Z) (m : Main) : Main :=
  update_id p (λ i, set_tag (flag_set (tag i) b) i) m.

Definition id_tag_clear (p : ID_ptr) (b : Z) (m : Main) : Main :=
  update_id p (λ i, set_tag (flag_clear (tag i) b) i) m.

Definition lib_override_linked_group_tag_cb (id_root : ID_ptr) (tag_ missing_tag : Z)
    : LibraryIDLinkCallback :=
  λ m id_owner id_pointer cb_flag,
    if flag_test cb_flag (Z.lor IDWALK_CB_EMBEDDED IDWALK_CB_LOOPBACK)
    then Some (m, IDWALK_RET_STOP_RECURSION)
    else
      match ids m !! id_root with
      | None => None
      | Some root =>
          let library_root := lib root in
          match id_pointer with
          | None => Some (m, IDWALK_RET_NOP)
          | Some id =>
              if bool_decide (id = id_owner) then Some (m, IDWALK_RET_NOP)
              else
                match ids m !! id with
                | None => None
                | Some i =>
                    if flag_test (tag i) (Z.lor tag_ missing_tag)
                    then (* Already processed and tagged, nothing else to do here. *)
                      Some (m, IDWALK_RET_STOP_RECURSION)
                    else if bool_decide (lib i ≠ library_root)
                    then Some (m, IDWALK_RET_STOP_RECURSION)
                    else if is_OB_or_GR i then
                      if flag_test (tag i) LIB_TAG_MISSING
                      then Some (id_tag_set id missing_tag m, IDWALK_RET_NOP)
                      else Some (id_tag_set id tag_ m, IDWALK_RET_NOP)
                    else Some (m, IDWALK_RET_NOP)
                end
          end
      end.

(** Modelled from the spec: [BKE_main_relations_create],
    [BKE_main_relations_free] and [BKE_main_relations_ID_remove] (main.c),
    the "who uses whom" relation of the registry: for every registered ID
    that uses something, one entry per non-null pointer, the last pointer
    first. *)
Definition relations_entries (i : ID) : list MainIDRelationsEntry :=
  rev (omap (λ s, match s.1 with
                  | Some p => Some (mk_entry (Some p) s.2)
                  | None => None
                  end) (id_link_slots i)).

Definition BKE_main_relations_create (m : Main) : Main :=
  set_relations
    (Some (foldr (λ h rel,
                    match ids m !! h with
                    | Some i =>
                        match relations_entries i with
                        | [] => rel
                        | entries => <[h := entries]> rel
                        end
                    | None => rel
                    end) ∅ (order m))) m.

Definition BKE_main_relations_free (m : Main) : Main := set_relations None m.

Definition BKE_main_relations_ID_remove (id : ID_ptr) (m : Main) : Main :=
  set_relations (delete id <$> relations m) m.

(** [lib_override_hierarchy_dependencies_recursive_tag]. [None] when the
    fuel runs out, when the relations are missing or when a pointer
    dangles. *)
Fixpoint lib_override_hierarchy_dependencies_recursive_tag (fuel : nat) (m : Main)
    (id : ID_ptr) (tag_ missing_tag : Z) : option (Main * bool) :=
  match fuel with
  | O => None
  | S fuel =>
      match relations m, ids m !! id with
      | Some id_user_to_used, Some i =>
          match id_user_to_used !! id with
          | None => (* Already processed. *) Some (m, flag_test (tag i) tag_)
          | Some entries =>
              let m := BKE_main_relations_ID_remove id m in
              let fix entries_loop (entries : list MainIDRelationsEntry) (m : Main)
                  : option Main :=
                match entries with
                | [] => Some m
                | entry :: entries =>
                    if flag_test (usage_flag entry) IDWALK_CB_LOOPBACK
                    then entries_loop entries m
                    else
                      match id_pointer entry with
                      | Some p =>
                          match ids m !! p with
                          | None => None
                          | Some target =>
                              if bool_decide (lib target = lib i) then
                                match lib_override_hierarchy_dependencies_recursive_tag
                                        fuel m p tag_ missing_tag with
                                | None => None
                                | Some (m, true) => entries_loop entries (id_tag_set id tag_ m)
                                | Some (m, false) => entries_loop entries m
                                end
                              else entries_loop entries m
                          end
                      | None => entries_loop entries m
                      end
                end in
              match entries_loop entries m with
              | None => None
              | Some m => Some (m, id_tagged m tag_ id)
              end
          end
      | _, _ => None
      end
  end.

(** "Then, we remove (untag) bone shape objects". *)
Definition linked_group_untag_bone_shapes (tag_ missing_tag : Z) (m : Main) : Main :=
  foldl (λ m ob_ptr,
           match ids m !! ob_ptr with
           | Some ob =>
               if bool_decide (GS (name ob) = ID_OB)
                  && bool_decide (ob_type (contents ob) = OB_ARMATURE)
                  && flag_test (tag ob) tag_
               then
                 match pose (contents ob) with
                 | Some p =>
                     foldl (λ m custom,
                              match custom with
                              | Some c => id_tag_clear c (Z.lor tag_ missing_tag) m
                              | None => m
                              end) m (chanbase p)
                 | None => m
                 end
               else m
           | None => m
           end) m (order m).

Definition lib_override_linked_group_tag (fuel : nat) (m : Main) (id : ID_ptr)
    (tag_ missing_tag : Z) : option Main :=
  let m := BKE_main_relations_create m in
  match ids m !! id with
  | None => None
  | Some i =>
      let walked :=
        if is_OB_or_GR i then
          match BKE_library_foreach_ID_link fuel
                  (lib_override_linked_group_tag_cb id tag_ missing_tag) m id with
          | Some m => Some (linked_group_untag_bone_shapes tag_ missing_tag m)
          | None => None
          end
        else Some m in
      match walked with
      | None => None
      | Some m =>
          match lib_override_hierarchy_dependencies_recursive_tag fuel m id tag_
                  missing_tag with
          | Some (m, _) => Some (BKE_main_relations_free m)
          | None => None
          end
      end
  end.

Definition lib_override_local_group_tag_cb (id_root : ID_ptr) (tag_ missing_tag : Z)
    : LibraryIDLinkCallback :=
  λ m id_owner id_pointer cb_flag,
    if flag_test cb_flag
         (Z.lor (Z.lor IDWALK_CB_EMBEDDED IDWALK_CB_LOOPBACK)
                IDWALK_CB_OVERRIDE_LIBRARY_REFERENCE)
    then Some (m, IDWALK_RET_STOP_RECURSION)
    else
      match id_reference m id_root with
      | None => None
      | Some root_reference =>
          match ids m !! root_reference with
          | None => None
          | Some root_ref =>
              let library_reference_root := lib root_ref in
              match id_pointer with
              | None => Some (m, IDWALK_RET_NOP)
              | Some id =>
                  if bool_decide (id = id_owner) then Some (m, IDWALK_RET_NOP)
                  else
                    match ids m !! id with
                    | None => None
                    | Some i =>
                        if flag_test (tag i) (Z.lor tag_ missing_tag)
                        then Some (m, IDWALK_RET_STOP_RECURSION)
                        else if negb (ID_IS_OVERRIDE_LIBRARY i) || ID_IS_LINKED i
                        then Some (m, IDWALK_RET_STOP_RECURSION)
                        else
                          match id_reference m id with
                          | None => (* not a real override *) Some (m, IDWALK_RET_NOP)
                          | Some r =>
                              match ids m !! r with
                              | None => None
                              | Some ref =>
                                  if bool_decide (lib ref ≠ library_reference_root)
                                  then Some (m, IDWALK_RET_STOP_RECURSION)
                                  else if flag_test (tag ref) LIB_TAG_MISSING
                                  then Some (id_tag_set id missing_tag m, IDWALK_RET_NOP)
                                  else Some (id_tag_set id tag_ m, IDWALK_RET_NOP)
                              end
                          end
                    end
              end
          end
      end.

Definition lib_override_local_group_tag (fuel : nat) (m : Main) (id : ID_ptr)
    (tag_ missing_tag : Z) : option Main :=
  BKE_library_foreach_ID_link fuel
    (lib_override_local_group_tag_cb id tag_ missing_tag) m id.

(** ** Resync engine *)

(** "Make a mapping 'linked reference IDs' -> 'Local override IDs' of
    existing overrides": the first override found for a reference wins. *)
Definition linkedref_to_old_override_build (m : Main) : gmap nat ID_ptr :=
  foldl (λ (map : gmap nat ID_ptr) id,
           match ids m !! id with
           | Some i =>
               if flag_test (tag i) LIB_TAG_DOIT && ID_IS_OVERRIDE_LIBRARY_REAL i then
                 match id_reference m id with
                 | Some r =>
                     match map !! r with
                     | Some _ => map
                     | None => <[r := id]> map
                     end
                 | None => map
                 end
               else map
           | None => map
           end) ∅ (order m).

(** The test shared by the loops that follow the creation: the linked,
    tagged ID has a counterpart and an old override; the pair is
    (new override, old override). *)
Definition resync_pair (map : gmap nat ID_ptr) (m : Main) (id : ID_ptr)
    : option (ID_ptr * ID_ptr) :=
  match ids m !! id with
  | Some i =>
      if flag_test (tag i) LIB_TAG_DOIT && ID_IS_LINKED i then
        match newid i, map !! id with
        | Some id_override_new, Some id_override_old =>
            Some (id_override_new, id_override_old)
        | _, _ => None
        end
      else None
  | None => None
  end.

(** [BLI_listbase_swaplinks]: the two links exchange their places. *)
Definition BLI_listbase_swaplinks (a b : ID_ptr) (lb : list ID_ptr) : list ID_ptr :=
  (λ h, if bool_decide (h = a) then b else if bool_decide (h = b) then a else h) <$> lb.

(** The body of the first loop: names and places are swapped, the local IDs
    are remapped from the old override to the new one, and the rules of the
    old override are copied over. The loops visit the IDs in the order they
    have on entry: the bodies only move local IDs, which come before the
    linked IDs being visited (comment in the source). *)
Definition resync_swap_one (map : gmap nat ID_ptr) (m : Main) (id : ID_ptr) : Main :=
  match resync_pair map m id with
  | Some (id_override_new, id_override_old) =>
      match ids m !! id_override_old, ids m !! id_override_new with
      | Some old, Some new =>
          let id_name_buf := name old in
          let m := update_id id_override_old (set_name (name new)) m in
          let m := update_id id_override_new (set_name id_name_buf) m in
          let m := set_order (BLI_listbase_swaplinks id_override_old id_override_new
                                (order m)) m in
          let m := BKE_libblock_remap id_override_old id_override_new m in
          let old_properties :=
            default [] (properties <$> id_override m id_override_old) in
          update_override id_override_new
            (set_properties (override_properties_duplicate old_properties)) m
      | _, _ => m
      end
  | None => m
  end.

(** The rules dropped before the apply: every operation flagged
    [IDOVERRIDE_LIBRARY_FLAG_IDPOINTER_MATCH_REFERENCE], and every property
    left without operation. *)
Definition resync_clean_operations (op : IDOverrideLibraryProperty)
    : IDOverrideLibraryProperty :=
  mk_op (rna_path op)
        (filter (λ opop, flag_test (opop_flag opop)
                           IDOVERRIDE_LIBRARY_FLAG_IDPOINTER_MATCH_REFERENCE = false)
                (operations op))
        (op_tag op) (rna_prop_type op).

Definition resync_clean_override (o : IDOverrideLibrary) : IDOverrideLibrary :=
  let cleaned := resync_clean_operations <$> properties o in
  let deleted := rna_path <$> filter (λ op, operations op = []) cleaned in
  mk_override (reference o)
    (filter (λ op, operations op ≠ []) cleaned)
    (storage o)
    ((λ r, mk_runtime
             ((λ keys : gset string, keys ∖ list_to_set deleted)
                <$> rna_path_to_override_properties r)
             (runtime_tag r)) <$> runtime o).

(** The body of the second loop: the rules are applied on the new override,
    with the old one as source. *)
Definition resync_apply_one (host : Host) (map : gmap nat ID_ptr) (m : Main) (id : ID_ptr)
    : Main :=
  match resync_pair map m id with
  | Some (id_override_new, id_override_old) =>
      let m := update_override id_override_new resync_clean_override m in
      match ids m !! id_override_new, ids m !! id_override_old with
      | Some new, Some old =>
          match override_library new with
          | Some o =>
              update_id id_override_new
                (set_contents
                   (RNA_struct_override_apply host (contents new) (contents old) None o))
                m
          | None => m
          end
      | _, _ => m
      end
  | None => m
  end.

(** The body of the third loop, "Delete old override IDs": the tags are set
    for the batched deletion. The shape key of an ID is visited with it. *)
Definition resync_delete_tag_one (map : gmap nat ID_ptr) (m : Main) (id : ID_ptr) : Main :=
  let m := update_key id (λ k, set_key_tag (flag_clear (key_tag k) LIB_TAG_DOIT) k) m in
  match ids m !! id with
  | Some i =>
      if flag_test (tag i) LIB_TAG_DOIT then
        let m :=
          match resync_pair map m id with
          | Some (id_override_new, id_override_old) =>
              let m := id_tag_clear id_override_new LIB_TAG_DOIT m in
              id_tag_set id_override_old LIB_TAG_DOIT m
          | None => m
          end in
        id_tag_clear id LIB_TAG_DOIT m
      else if flag_test (tag i) LIB_TAG_MISSING && negb (ID_IS_LINKED i) then
        (* Also cleanup old overrides that went missing in new linked data. *)
        id_tag_clear id LIB_TAG_MISSING (id_tag_set id LIB_TAG_DOIT m)
      else m
  | None => m
  end.

(** Modelled from the spec: [BKE_main_id_clear_newpoins] and
    [BKE_main_id_tag_all] (lib_id.c), which reset the counterpart pointer and
    the NEW tag, or the given tag, of every ID of the registry. *)
Definition BKE_main_id_clear_newpoins (m : Main) : Main :=
  set_ids ((λ i, set_contents
                   (set_key (set_key_newid None <$> key (contents i)) (contents i))
                   (set_newid None (set_tag (flag_clear (tag i) LIB_TAG_NEW) i)))
             <$> ids m) m.

Definition BKE_main_id_tag_all (b : Z) (value : bool) (m : Main) : Main :=
  set_ids ((λ i, let t := if value then flag_set else flag_clear in
                 set_contents
                   (set_key ((λ k, set_key_tag (t (key_tag k) b) k) <$> key (contents i))
                            (contents i))
                   (set_tag (t (tag i) b) i))
             <$> ids m) m.

(** The three loops over the new overrides and the batched deletion: lines
    811 to 921 of [BKE_lib_override_library_resync]. *)
Definition resync_swap (map : gmap nat ID_ptr) (m : Main) : Main :=
  foldl (resync_swap_one map) m (order m).

Definition resync_apply (host : Host) (map : gmap nat ID_ptr) (m : Main) : Main :=
  foldl (resync_apply_one host map) m (order m).

Definition resync_delete (map : gmap nat ID_ptr) (m : Main) : Main :=
  BKE_id_multi_tagged_delete (foldl (resync_delete_tag_one map) m (order m)).

(** The tagging that opens the resync: the root, its local group, the linked
    group of its reference. *)
Definition resync_tag (fuel : nat) (m : Main) (id_root : ID_ptr) : option (Main * ID_ptr) :=
  let m := id_tag_set id_root LIB_TAG_DOIT m in
  match id_reference m id_root with
  | None => None
  | Some id_root_reference =>
      match lib_override_local_group_tag fuel m id_root LIB_TAG_DOIT LIB_TAG_MISSING with
      | None => None
      | Some m =>
          match lib_override_linked_group_tag fuel m id_root_reference LIB_TAG_DOIT
                  LIB_TAG_MISSING with
          | None => None
          | Some m => Some (m, id_root_reference)
          end
      end
  end.

Definition BKE_lib_override_library_resync (host : Host) (fuel : nat) (m : Main)
    (id_root : ID_ptr) : option (Main * bool) :=
  match resync_tag fuel m id_root with
  | None => None
  | Some (m, id_root_reference) =>
      let linkedref_to_old_override := linkedref_to_old_override_build m in
      match BKE_lib_override_library_create_from_tag host fuel m with
      | None => None
      | Some (m, false) => Some (m, false)
      | Some (m, true) =>
          let m := resync_swap linkedref_to_old_override m in
          let m := resync_apply host linkedref_to_old_override m in
          let m := resync_delete linkedref_to_old_override m in
          let id_root := id_newid m id_root_reference in
          let m := lib_override_library_create_post_process host m id_root_reference
                     id_root in
          let m := BKE_main_id_clear_newpoins m in
          Some (BKE_main_id_tag_all LIB_TAG_DOIT false m, true)
      end
  end.

(** ** Apply engine *)

Definition RNA_OVERRIDE_COMPARE_CREATE : Z := Z.shiftl 1 16.
Definition RNA_OVERRIDE_COMPARE_RESTORE : Z := Z.shiftl 1 17.

(** [BKE_lib_override_library_operations_create]; the boolean is the value
    returned. *)
Definition BKE_lib_override_library_operations_create (host : Host) (m : Main)
    (local : ID_ptr) : option (Main * bool) :=
  match ids m !! local with
  | None => None
  | Some l =>
      match override_library l with
      | None => None
      | Some o =>
          match reference o with
          | None => (* is_template *) Some (m, false)
          | Some reference_id =>
              match ids m !! reference_id with
              | None => None
              | Some r =>
                  if ID_MISSING r then Some (m, false)
                  else
                    let m :=
                      if bool_decide (GS (name l) = ID_OB)
                         && bool_decide (ob_type (contents l) = OB_ARMATURE)
                      then BKE_pose_ensure host (BKE_pose_ensure host m local) reference_id
                      else m in
                    match ids m !! local, ids m !! reference_id with
                    | Some l, Some r =>
                        let '(l, report_flags) :=
                          RNA_struct_override_matches host l r
                            (Z.lor RNA_OVERRIDE_COMPARE_CREATE RNA_OVERRIDE_COMPARE_RESTORE) in
                        Some (update_id local (λ _, l) m,
                              flag_test report_flags RNA_OVERRIDE_MATCH_RESULT_CREATED)
                    | _, _ => None
                    end
              end
          end
      end
  end.

(** The shape keys after the two swaps of [BKE_lib_override_library_update].
    The swap of the owners has exchanged the keys with the rest of what they
    own; the swap of the keys and the four assignments that follow give each
    owner its own key back, with the values of the other key, and point each
    key back to its owner. *)
Definition update_swap_keys (local tmp_id : ID_ptr) (m : Main) : Main :=
  match BKE_key_from_id m local, BKE_key_from_id m tmp_id with
  | Some tmp_key, Some local_key =>
      let m := update_id local
                 (λ i, set_contents
                         (set_key (Some (mk_key (key_tag local_key) (key_flag local_key)
                                                (key_newid local_key) (Some local)
                                                (key_values tmp_key)))
                                  (contents i)) i) m in
      update_id tmp_id
        (λ i, set_contents
                (set_key (Some (mk_key (key_tag tmp_key)
                                       (flag_set (key_flag tmp_key)
                                          (Z.land (key_flag local_key)
                                                  LIB_EMBEDDED_DATA_LIB_OVERRIDE))
                                       (key_newid tmp_key) (Some tmp_id)
                                       (key_values local_key)))
                         (contents i)) i) m
  | _, _ => m
  end.

(** "We need to invalidate pose-bones caches" of the objects using the
    armature. *)
Definition update_invalidate_poses (local : ID_ptr) (m : Main) : Main :=
  foldl (λ m ob_ptr,
           match ids m !! ob_ptr with
           | Some ob =>
               match pose (contents ob) with
               | Some p =>
                   if bool_decide (GS (name ob) = ID_OB)
                      && bool_decide (ob_data (contents ob) = Some local)
                   then update_id ob_ptr
                          (λ i, set_contents
                                  (set_pose (Some (mk_pose (chanbase p)
                                                     (flag_set (pose_flag p) POSE_RECALC)))
                                            (contents i)) i) m
                   else m
               | None => m
               end
           | None => m
           end) m (order m).

(** [BKE_lib_override_library_update] from the duplication of the reference
    on. *)
Definition lib_override_library_update_apply (host : Host) (m : Main) (local : ID_ptr)
    : option Main :=
  match ids m !! local with
  | None => None
  | Some l =>
      match override_library l with
      | None => None
      | Some o =>
          match reference o with
          | None => None
          | Some reference_id =>
              match BKE_id_copy host m reference_id with
              | None => Some m
              | Some (m, tmp_id) =>
                  let m := update_id tmp_id (set_name (name l)) m in
                  let local_key := BKE_key_from_id m local in
                  let tmp_key := BKE_key_from_id m tmp_id in
                  let m :=
                    match local_key, tmp_key with
                    | Some lk, Some _ =>
                        update_key tmp_id
                          (λ k, set_key_flag
                                  (flag_set (key_flag k)
                                     (Z.land (key_flag lk) LIB_EMBEDDED_DATA_LIB_OVERRIDE)) k)
                          m
                    | _, _ => m
                    end in
                  match ids m !! tmp_id with
                  | None => None
                  | Some tmp =>
                      let m := update_id tmp_id
                                 (set_contents
                                    (RNA_struct_override_apply host (contents tmp)
                                       (contents l) (storage o) o)) m in
                      let m := BKE_lib_id_swap local tmp_id m in
                      let m :=
                        match local_key, tmp_key with
                        | Some _, Some _ => update_swap_keys local tmp_id m
                        | _, _ => m
                        end in
                      let m := BKE_id_free_ex tmp_id m in
                      let m :=
                        if bool_decide (GS (name l) = ID_AR)
                        then update_invalidate_poses local m else m in
                      let m := update_override local (set_storage None) m in
                      Some (id_tag_set local LIB_TAG_OVERRIDE_LIBRARY_REFOK m)
                  end
              end
          end
      end
  end.

Fixpoint BKE_lib_override_library_update (host : Host) (fuel : nat) (m : Main)
    (local : ID_ptr) : option Main :=
  match fuel with
  | O => None
  | S fuel =>
      match ids m !! local with
      | None => None
      | Some l =>
          if negb (ID_IS_OVERRIDE_LIBRARY_REAL l) then Some m
          else
            match id_reference m local with
            | None => Some m
            | Some reference_id =>
                match ids m !! reference_id with
                | None => None
                | Some r =>
                    if ID_MISSING r then Some m
                    else
                      (* Recursively do 'ancestor' overrides first, if any. *)
                      let ancestors :=
                        match override_library r with
                        | Some _ =>
                            if flag_test (tag r) LIB_TAG_OVERRIDE_LIBRARY_REFOK then Some m
                            else BKE_lib_override_library_update host fuel m reference_id
                        | None => Some m
                        end in
                      match ancestors with
                      | None => None
                      | Some m => lib_override_library_update_apply host m local
                      end
                end
            end
      end
  end.

(** ** Frames

    Relations between the registry before and after an operation, used to
    state what the operation leaves alone. *)

(** The list of registered IDs and the relations are as before. *)
Definition same_shape (m m' : Main) : Prop :=
  order m' = order m ∧ relations m' = relations m.

(** Only what the IDs own may differ: headers, use counts, the registered
    IDs and their order are as before. *)
Definition contents_frame (m m' : Main) : Prop :=
  same_shape m m' ∧ ∀ h, no_contents <$> ids m' !! h = no_contents <$> ids m !! h.

(** What [BKE_lib_override_library_update] leaves of an ID: everything but
    what the ID owns, the storage of its override and its REFOK tag. *)
Definition update_view (i : ID)
    : string * option Library_ptr * Z * Z * option ID_ptr * option IDOverrideLibrary * Z :=
  (name i, lib i, flag i, us i, newid i, set_storage None <$> override_library i,
   flag_set (tag i) LIB_TAG_OVERRIDE_LIBRARY_REFOK).

(** What the local ID owns after the update: what the apply pass produced
    on the duplicate of the reference; when the local ID and the duplicate
    both have a shape key, the key keeps the header of the key of the local
    ID, takes the values of the key of the duplicate, and points back to the
    local ID. [old] is what the local ID owned, [duplicate] what the
    duplicate owned before the apply pass and [applied] after it. *)
Definition update_merged_contents (local : ID_ptr) (old duplicate applied : IDContents)
    : IDContents :=
  match key old, key duplicate, key applied with
  | Some local_key, Some _, Some tmp_key =>
      set_key (Some (mk_key (key_tag local_key) (key_flag local_key)
                            (key_newid local_key) (Some local) (key_values tmp_key)))
              applied
  | _, _, _ => applied
  end.

(** The duplicate of the reference as the apply pass receives it: the flag
    telling that the key of the local ID is an embedded override is passed
    on to the key of the duplicate. *)
Definition update_duplicate_contents (old duplicate : IDContents) : IDContents :=
  match key old, key duplicate with
  | Some local_key, Some tmp_key =>
      set_key (Some (set_key_flag
                       (flag_set (key_flag tmp_key)
                          (Z.land (key_flag local_key) LIB_EMBEDDED_DATA_LIB_OVERRIDE))
                       tmp_key))
              duplicate
  | _, _ => duplicate
  end.

(** The recursion of [BKE_lib_override_library_update] on the reference:
    "Recursively do 'ancestor' overrides first, if any". *)
Definition update_ancestors (host : Host) (fuel : nat) (m : Main) (reference_id : ID_ptr)
    (r : ID) : option Main :=
  match override_library r with
  | Some _ =>
      if flag_test (tag r) LIB_TAG_OVERRIDE_LIBRARY_REFOK then Some m
      else BKE_lib_override_library_update host fuel m reference_id
  | None => Some m
  end.

(** A local workspace overriding a linked one; the example host cannot
    duplicate workspaces. *)
Definition workspace_main : Main :=
  mk_Main
    (<[1%nat := mk_ID "WSLayout" (Some 7%nat) 0 0 1 None None empty_contents]>
       (<[2%nat := mk_ID "WSLayout" None 0 0 1 None
                     (Some (mk_override (Some 1%nat) [] None None)) empty_contents]> ∅))
    [2%nat; 1%nat] None.

(** A local chair overriding a linked one on the path "color": the
    reference has color 1, the override color 5 and a stale size. *)
Definition colored_main : Main :=
  mk_Main
    (<[1%nat := mk_ID "OBChair" (Some 7%nat) 0 0 1 None None
                  (mk_contents [] None 0 None None
                     (<["color"%string := 1]> (<["size"%string := 10]> ∅)))]>
       (<[2%nat := mk_ID "OBChair.001" None 0 0 1 None
                     (Some (mk_override (Some 1%nat)
                              [mk_op "color" [mk_opop 1 0 0 None None (-1) (-1)] 0 0]
                              None None))
                     (mk_contents [] None 0 None None
                        (<["color"%string := 5]> (<["size"%string := 9]> ∅)))]> ∅))
    [2%nat; 1%nat] None.

(** ** An example host and example registries *)

(** A small host: workspaces ("WS") cannot be duplicated; libraries,
    screens, window managers and shape keys cannot be linked; a new local ID
    takes the name of its source when no local ID has it, and the name
    suffixed with ".001" otherwise; the apply pass replaces, for every
    overridden path, the value of the destination by that of the source and
    takes the pointers of the source; the compare pass finds nothing; poses
    and collections are left alone. *)
Definition example_new_name (m : Main) (n : string) : string :=
  if existsb (λ h, match ids m !! h with
                   | Some i => bool_decide (name i = n ∧ lib i = None)
                   | None => false
                   end) (order m)
  then (n +:+ ".001")%string else n.

Definition example_apply (dst src : IDContents) (st : option IDContents)
    (o : IDOverrideLibrary) : IDContents :=
  mk_contents (links src) (key dst) (ob_type dst) (ob_data src) (pose dst)
    (foldr (λ op vals,
              match rna_values src !! rna_path op with
              | Some v => <[rna_path op := v]> vals
              | None => vals
              end)
           (rna_values dst) (properties o)).

Definition example_host : Host :=
  mk_Host
    (λ i, bool_decide (GS (name i) ≠ "WS"%string))
    example_new_name
    (λ code, bool_decide (code ∉ ["LI"; "SR"; "WM"; "KE"]%string))
    example_apply
    (λ local reference flags, (local, 0))
    (λ m ob, m)
    (λ m id_root id_reference, m).

(** A linked chair and its linked mesh, both tagged for override, and a
    local scene, tagged too, that uses the chair. *)
Definition tagged_main : Main :=
  mk_Main
    (<[1%nat := mk_ID "OBChair" (Some 7%nat) LIB_TAG_DOIT 0 1 None None
                  (mk_contents [] None 0 (Some 2%nat) None ∅)]>
       (<[2%nat := mk_ID "MEChair" (Some 7%nat) LIB_TAG_DOIT 0 1 None None
                     (mk_contents [] (Some (mk_key 0 0 None (Some 2%nat) ∅)) 0 None None ∅)]>
          (<[5%nat := mk_ID "SCScene" None LIB_TAG_DOIT 0 1 None None
                        (mk_contents [(Some 1%nat, IDWALK_CB_USER)] None 0 None None ∅)]>
             ∅)))
    [5%nat; 1%nat; 2%nat] None.

(** A linked chair tagged for override whose counterpart was set by the
    caller: the local proxy at address 5. *)
Definition preset_main : Main :=
  mk_Main
    (<[1%nat := mk_ID "OBChair" (Some 7%nat) LIB_TAG_DOIT 0 1 (Some 5%nat) None
                  empty_contents]>
       (<[5%nat := mk_ID "OBChairProxy" None 0 0 1 None None empty_contents]> ∅))
    [5%nat; 1%nat] None.

(** A local override of a linked chair that is a placeholder for missing
    data. *)
Definition missing_main : Main :=
  mk_Main
    (<[1%nat := mk_ID "OBChair" (Some 7%nat) LIB_TAG_MISSING 0 1 None None empty_contents]>
       (<[2%nat := mk_ID "OBChair" None LIB_TAG_OVERRIDE_LIBRARY_REFOK 0 1 None
                     (Some (mk_override (Some 1%nat) [legs_property] None None))
                     empty_contents]> ∅))
    [2%nat; 1%nat] None.

(** A local collection overriding a linked one that holds a chair and a
    workspace using the chair; the chair has a local override too. *)
Definition layout_main : Main :=
  mk_Main
    (<[1%nat := mk_ID "GRChairs" (Some 7%nat) 0 0 1 None None
                  (mk_contents [(Some 2%nat, IDWALK_CB_USER); (Some 3%nat, IDWALK_CB_USER)]
                     None 0 None None ∅)]>
       (<[2%nat := mk_ID "OBChair" (Some 7%nat) 0 0 1 None None empty_contents]>
          (<[3%nat := mk_ID "WSLayout" (Some 7%nat) 0 0 1 None None
                        (mk_contents [(Some 2%nat, IDWALK_CB_USER)] None 0 None None ∅)]>
             (<[5%nat := mk_ID "GRChairs" None 0 0 1 None
                           (Some (mk_override (Some 1%nat) [] None None))
                           (mk_contents [(Some 6%nat, IDWALK_CB_USER)] None 0 None None ∅)]>
                (<[6%nat := mk_ID "OBChair" None 0 0 1 None
                              (Some (mk_override (Some 2%nat) [legs_property] None None))
                              empty_contents]> ∅)))))
    [5%nat; 6%nat; 1%nat; 2%nat; 3%nat] None.

(** A linked table whose material and textures use each other: the table
    uses the material; the material uses a first texture, a leg and a second
    texture; each texture uses the material. Whatever the order in which
    the pointers of the material are followed, one texture is met before the
    leg and the other after it. *)
Definition cycle_main : Main :=
  mk_Main
    (<[1%nat := mk_ID "OBTable" (Some 7%nat) 0 0 1 None None
                  (mk_contents [(Some 2%nat, IDWALK_CB_USER)] None 0 None None ∅)]>
       (<[2%nat := mk_ID "MAWood" (Some 7%nat) 0 0 1 None None
                     (mk_contents [(Some 3%nat, IDWALK_CB_USER); (Some 4%nat, IDWALK_CB_USER);
                                   (Some 5%nat, IDWALK_CB_USER)]
                        None 0 None None ∅)]>
          (<[3%nat := mk_ID "TEGrain" (Some 7%nat) 0 0 1 None None
                        (mk_contents [(Some 2%nat, IDWALK_CB_USER)] None 0 None None ∅)]>
             (<[4%nat := mk_ID "OBLeg" (Some 7%nat) 0 0 1 None None empty_contents]>
                (<[5%nat := mk_ID "TEBark" (Some 7%nat) 0 0 1 None None
                              (mk_contents [(Some 2%nat, IDWALK_CB_USER)]
                                 None 0 None None ∅)]> ∅)))))
    [1%nat; 2%nat; 3%nat; 4%nat; 5%nat] None.

(** A ranking of the IDs of [layout_main]: the chairs, then the workspace
    and the local collection, then the linked collection. *)
Definition layout_rank (h : ID_ptr) : nat :=
  match h with
  | 1 => 2
  | 3 | 5 => 1
  | _ => 0
  end%nat.

(** A local scene using the local overrides of a linked collection and of
    the chair it holds. *)
Definition scene_main : Main :=
  mk_Main
    (<[1%nat := mk_ID "GRChairs" (Some 7%nat) 0 0 1 None None
                  (mk_contents [(Some 2%nat, IDWALK_CB_USER)] None 0 None None ∅)]>
       (<[2%nat := mk_ID "OBChair" (Some 7%nat) 0 0 1 None None
                     (mk_contents [] None 0 None None (<["color"%string := 1]> ∅))]>
          (<[5%nat := mk_ID "GRChairs" None 0 0 1 None
                        (Some (mk_override (Some 1%nat) [] None None))
                        (mk_contents [(Some 6%nat, IDWALK_CB_USER)] None 0 None None ∅)]>
             (<[6%nat := mk_ID "OBChair" None 0 0 1 None
                           (Some (mk_override (Some 2%nat)
                                    [mk_op "color" [mk_opop 1 0 0 None None (-1) (-1)] 0 0]
                                    None None))
                           (mk_contents [] None 0 None None (<["color"%string := 5]> ∅))]>
                (<[8%nat := mk_ID "SCScene" None 0 0 1 None None
                              (mk_contents [(Some 5%nat, IDWALK_CB_USER);
                                            (Some 6%nat, IDWALK_CB_USER)]
                                 None 0 None None ∅)]> ∅)))))
    [8%nat; 5%nat; 6%nat; 1%nat; 2%nat] None.

(** ** The closure pass, seen from its recursion

    The loop over the entries of
    [lib_override_hierarchy_dependencies_recursive_tag], with the recursive
    call as a parameter. *)
Definition recursive_tag_entries (recur : Main → ID_ptr → option (Main * bool))
    (id : ID_ptr) (i : ID) (tag_ : Z)
    : list MainIDRelationsEntry → Main → option Main :=
  fix entries_loop (entries : list MainIDRelationsEntry) (m : Main) : option Main :=
    match entries with
    | [] => Some m
    | entry :: entries =>
        if flag_test (usage_flag entry) IDWALK_CB_LOOPBACK
        then entries_loop entries m
        else
          match id_pointer entry with
          | Some p =>
              match ids m !! p with
              | None => None
              | Some target =>
                  if bool_decide (lib target = lib i) then
                    match recur m p with
                    | None => None
                    | Some (m, true) => entries_loop entries (id_tag_set id tag_ m)
                    | Some (m, false) => entries_loop entries m
                    end
                  else entries_loop entries m
              end
          | None => entries_loop entries m
          end
    end.

(** The entries of an ID in the relations, null when it has none or when
    the relations are not built. *)
Definition entries_of (m : Main) (h : ID_ptr) : option (list MainIDRelationsEntry) :=
  match relations m with
  | Some id_user_to_used => id_user_to_used !! h
  | None => None
  end.

(** The dependencies the closure pass follows in a registry whose relations
    are built: [h] uses [p] through a pointer that is not a loop-back, and
    both are of the same library. *)
Definition dependency (m : Main) (h p : ID_ptr) : Prop :=
  ∃ entries e i t,
    entries_of m h = Some entries ∧ e ∈ entries
    ∧ flag_test (usage_flag e) IDWALK_CB_LOOPBACK = false
    ∧ id_pointer e = Some p
    ∧ ids m !! h = Some i ∧ ids m !! p = Some t ∧ lib t = lib i.

(** A ranking of the IDs that decreases along every dependency: the
    dependencies have no cycle. *)
Definition dependencies_ranked (rank : ID_ptr → nat) (m : Main) : bool :=
  forallb
    (λ h, match ids m !! h with
          | Some i =>
              forallb
                (λ s, match s.1 with
                      | Some p =>
                          match ids m !! p with
                          | Some t =>
                              flag_test s.2 IDWALK_CB_LOOPBACK
                              || negb (bool_decide (lib t = lib i))
                              || bool_decide (rank p < rank h)%nat
                          | None => true
                          end
                      | None => true
                      end)
                (id_link_slots i)
          | None => true
          end)
    (order m).

(** An ID with its tags forgotten, and the registries reached from [m0] by
    the closure pass: the tags may differ, entries may have left the
    relations. *)
Definition untagged (i : ID) : ID := set_tag 0 i.

Definition tag_frame (m0 m : Main) : Prop :=
  is_Some (relations m)
  ∧ (∀ h, entries_of m h = None ∨ entries_of m h = entries_of m0 h)
  ∧ order m = order m0
  ∧ ∀ h, untagged <$> ids m !! h = untagged <$> ids m0 !! h.

(** The IDs the closure pass is done with, those on the stack [S] apart:
    their dependencies are done with too, and a tagged dependency has its
    user tagged. *)
Definition closed_below (tag_ : Z) (m0 : Main) (S : ID_ptr → Prop) (m : Main) : Prop :=
  ∀ h, ¬ S h → entries_of m h = None →
    ∀ p, dependency m0 h p →
      entries_of m p = None ∧ ¬ S p
      ∧ (id_tagged m tag_ p = true → id_tagged m tag_ h = true).

(** What a call of the closure pass leaves alone: the IDs that had left
    the relations are not touched, and stay out of the relations. *)
Definition call_frame (m0 m m' : Main) : Prop :=
  tag_frame m0 m'
  ∧ ∀ h, entries_of m h = None → entries_of m' h = None ∧ ids m' !! h = ids m !! h.

(** ** Resync, seen from one pair

    Every ID pointer of an ID: those the walker visits and the owner of its
    shape key. *)
Definition id_pointers (i : ID) : list (option ID_ptr) :=
  (id_link_slots i).*1
  ++ match key (contents i) with
     | Some k => [from k]
     | None => []
     end.

(** The apply pass writes no ID pointer of its own: a pointer of its result
    is a pointer of its destination or of its source. *)
Definition apply_keeps_pointers (host : Host) : Prop :=
  ∀ dst src st o i p,
    Some p ∈ id_pointers (set_contents (RNA_struct_override_apply host dst src st o) i) →
    Some p ∈ id_pointers (set_contents dst i) ∨ Some p ∈ id_pointers (set_contents src i).

(** "Linked IDs are always after local ones" in the list of the registered
    IDs. *)
Definition locals_first (m : Main) : Prop :=
  ∃ locals linkeds,
    order m = locals ++ linkeds
    ∧ Forall (λ h, ∃ i, ids m !! h = Some i ∧ ID_IS_LINKED i = false) locals
    ∧ Forall (λ h, ∃ i, ids m !! h = Some i ∧ ID_IS_LINKED i = true) linkeds.

(** What [resync_pair] reads of an ID. *)
Definition pair_view (i : ID) : option Library_ptr * Z * option ID_ptr :=
  (lib i, tag i, newid i).

(** No local ID of the registry points to [p]. *)
Definition no_local_user (p : ID_ptr) (m : Main) : Prop :=
  ∀ h i, ids m !! h = Some i → ID_IS_LINKED i = false → Some p ∉ id_pointers i.

(** The pairs (new override, old override) of a resync do not overlap: the
    two IDs of a pair are distinct local IDs, and no ID is in two pairs. *)
Definition pairs_apart (map : gmap nat ID_ptr) (mc : Main) : Prop :=
  ∀ x nx ox, resync_pair map mc x = Some (nx, ox) →
    nx ≠ ox
    ∧ (∃ i, ids mc !! nx = Some i ∧ ID_IS_LINKED i = false)
    ∧ (∃ i, ids mc !! ox = Some i ∧ ID_IS_LINKED i = false)
    ∧ ∀ y ny oy, resync_pair map mc y = Some (ny, oy) → x ≠ y →
        nx ≠ ny ∧ ox ≠ oy ∧ nx ≠ oy ∧ ox ≠ ny.

(** The registries met during the first two loops: what [resync_pair]
    reads is what it read on entry. *)
Definition pairs_kept (mc m : Main) : Prop :=
  ∀ h, pair_view <$> ids m !! h = pair_view <$> ids mc !! h.

(** The reference [r] is met once in the list, and only linked IDs come
    after it. *)
Definition met_once (mc : Main) (r : ID_ptr) (l : list ID_ptr) : Prop :=
  ∃ l1 l2, l = l1 ++ r :: l2 ∧ (r ∉ l1) ∧ (r ∉ l2)
           ∧ Forall (λ h, ∃ i, ids mc !! h = Some i ∧ ID_IS_LINKED i = true) l2.

(** The pair (new, old) of the reference [r] before and after its turn in
    the first loop; [on] is the name of the old override on entry. *)
Definition swap_pre (mc : Main) (r old : ID_ptr) (on : string) (m : Main) : Prop :=
  pairs_kept mc m ∧ met_once mc r (order m)
  ∧ (∃ i, ids m !! old = Some i ∧ name i = on)
  ∧ (∀ k, order mc !! k = Some old → order m !! k = Some old).

Definition swap_post (mc : Main) (r new old : ID_ptr) (on : string) (m : Main) : Prop :=
  pairs_kept mc m ∧ met_once mc r (order m)
  ∧ (∃ i, ids m !! new = Some i ∧ name i = on)
  ∧ (∀ k, order mc !! k = Some old → order m !! k = Some new)
  ∧ no_local_user old m.

(** What the third loop leaves of an ID: everything but its tags and the
    tags of its shape key. *)
Definition delete_view (i : ID) : string * option Library_ptr * option ID_ptr
                                  * list (option ID_ptr) :=
  (name i, lib i, newid i, id_pointers i).

(** The registries met during the third loop: the IDs are those of [mc],
    with their library and counterpart, and no linked ID has gained
    [LIB_TAG_DOIT]. *)
Definition delete_kept (mc m : Main) : Prop :=
  ∀ h, match ids mc !! h, ids m !! h with
       | Some ic, Some i =>
           lib i = lib ic ∧ newid i = newid ic
           ∧ (ID_IS_LINKED ic = true → flag_test (tag i) LIB_TAG_DOIT = true →
              flag_test (tag ic) LIB_TAG_DOIT = true)
       | None, None => True
       | _, _ => False
       end.

(** The pair (new, old) of the reference [r] before and after its turn in
    the third loop. *)
Definition delete_pre (mc : Main) (r new old : ID_ptr) (on : string) (m : Main) : Prop :=
  delete_kept mc m
  ∧ pair_view <$> ids m !! r = pair_view <$> ids mc !! r
  ∧ (∃ i, ids m !! new = Some i ∧ name i = on)
  ∧ no_local_user old m.

Definition delete_post (mc : Main) (new old : ID_ptr) (on : string) (m : Main) : Prop :=
  delete_kept mc m
  ∧ (∃ i, ids m !! new = Some i ∧ name i = on)
  ∧ no_local_user old m
  ∧ id_tagged m LIB_TAG_DOIT old = true
  ∧ id_tagged m LIB_TAG_DOIT new = false.

(** The placement of the new overrides in the scene renames no ID,
    registers and deletes none, and gives no local ID a pointer to an
    address where nothing is registered. *)
Definition post_process_keeps (host : Host) : Prop :=
  ∀ m id_root id_reference,
    let m' := lib_override_library_create_post_process host m id_root id_reference in
    (∀ h, name <$> ids m' !! h = name <$> ids m !! h)
    ∧ ∀ p, ids m !! p = None → no_local_user p m → no_local_user p m'.

(** ** Rules by path

    The properties of an override are reached through a hash from RNA paths
    that is built on first use. A pointer to a property, or to an operation,
    is its place in the list that holds it. *)

Definition IDOVERRIDE_LIBRARY_TAG_UNUSED : Z := Z.shiftl 1 0.
Definition IDOVERRIDE_LIBRARY_RUNTIME_TAG_NEEDS_RELOAD : Z := Z.shiftl 1 0.

Definition set_operations (v : list IDOverrideLibraryPropertyOperation)
    (op : IDOverrideLibraryProperty) : IDOverrideLibraryProperty :=
  mk_op (rna_path op) v (op_tag op) (rna_prop_type op).
Definition set_op_tag (v : Z) (op : IDOverrideLibraryProperty) : IDOverrideLibraryProperty :=
  mk_op (rna_path op) (operations op) v (rna_prop_type op).
Definition set_opop_tag (v : Z) (opop : IDOverrideLibraryPropertyOperation)
    : IDOverrideLibraryPropertyOperation :=
  mk_opop (operation opop) (opop_flag opop) v (subitem_reference_name opop)
          (subitem_local_name opop) (subitem_reference_index opop) (subitem_local_index opop).

(** The hash of an override, null when the runtime data or the hash is. *)
Definition override_ghash (override : IDOverrideLibrary) : option (gset string) :=
  runtime override ≫= rna_path_to_override_properties.

Definition set_ghash (gh : gset string) (override : IDOverrideLibrary) : IDOverrideLibrary :=
  set_runtime
    (Some (mk_runtime (Some gh) (default 0 (runtime_tag <$> runtime override)))) override.

Definition override_library_rna_path_runtime_ensure (override : IDOverrideLibrary)
    : IDOverrideLibrary :=
  match runtime override with
  | Some _ => override
  | None => set_runtime (Some (mk_runtime None 0)) override
  end.

(** Modelled from the spec: [BLI_ghash_insert] (BLI_ghash.c) adds a key the
    hash does not hold yet; it asserts that the key is new, and the model has
    no answer when it is not. *)
Definition BLI_ghash_insert (key : string) (gh : gset string) : option (gset string) :=
  if bool_decide (key ∈ gh) then None else Some ({[key]} ∪ gh).

(** "We only build override GHash on request." *)
Definition override_library_rna_path_mapping_ensure (override : IDOverrideLibrary)
    : option IDOverrideLibrary :=
  let override := override_library_rna_path_runtime_ensure override in
  match override_ghash override with
  | Some _ => Some override
  | None =>
      match foldl (λ gh op, gh ≫= BLI_ghash_insert (rna_path op)) (Some ∅)
                  (properties override) with
      | Some gh => Some (set_ghash gh override)
      | None => None
      end
  end.

(** The value the hash holds for a key. The hash is kept by its keys, and the
    property a key points to is the property of that path in [properties];
    the keys do not tell which one it is when several properties have the
    path, and the model has no answer then. *)
Definition BLI_ghash_lookup (override : IDOverrideLibrary) (gh : gset string)
    (rna_path_ : string) : option (option nat) :=
  if bool_decide (rna_path_ ∈ gh) then
    match list_find (λ op, rna_path op = rna_path_) (properties override) with
    | Some (k, _) =>
        if bool_decide (length (filter (λ op, rna_path op = rna_path_)
                                   (properties override)) = 1%nat)
        then Some (Some k) else None
    | None => None
    end
  else Some None.

(** [BKE_lib_override_library_property_find]: the override with its hash
    built, and the property found, null when the path has none. *)
Definition BKE_lib_override_library_property_find (override : IDOverrideLibrary)
    (rna_path_ : string) : option (IDOverrideLibrary * option nat) :=
  match override_library_rna_path_mapping_ensure override with
  | Some override =>
      match override_ghash override with
      | Some gh =>
          match BLI_ghash_lookup override gh rna_path_ with
          | Some op => Some (override, op)
          | None => None
          end
      | None => None
      end
  | None => None
  end.

(** [BKE_lib_override_library_property_get]; the boolean is the value left
    in [*r_created]. *)
Definition BKE_lib_override_library_property_get (override : IDOverrideLibrary)
    (rna_path_ : string) : option (IDOverrideLibrary * nat * bool) :=
  match BKE_lib_override_library_property_find override rna_path_ with
  | Some (override, Some op) => Some (override, op, false)
  | Some (override, None) =>
      let op := length (properties override) in
      let override :=
        set_properties (properties override ++ [mk_op rna_path_ [] 0 0]) override in
      match override_library_rna_path_mapping_ensure override with
      | Some override =>
          match override_ghash override ≫= BLI_ghash_insert rna_path_ with
          | Some gh => Some (set_ghash gh override, op, true)
          | None => None
          end
      | None => None
      end
  | None => None
  end.

(** [BKE_lib_override_library_property_delete]: the key leaves the hash when
    there is one, and the property leaves the list. [None] when the pointer
    is not one of a property of the override. *)
Definition BKE_lib_override_library_property_delete (override : IDOverrideLibrary)
    (override_property : nat) : option IDOverrideLibrary :=
  match properties override !! override_property with
  | Some op =>
      let override :=
        match override_ghash override with
        | Some gh => set_ghash (gh ∖ {[rna_path op]}) override
        | None => override
        end in
      Some (set_properties (delete override_property (properties override)) override)
  | None => None
  end.

(** [BKE_lib_override_library_property_operation_get]: the property, the
    operation found or created, the value left in [*r_strict] and the one
    left in [*r_created]. *)
Definition BKE_lib_override_library_property_operation_get
    (override_property : IDOverrideLibraryProperty) (operation_ : Z)
    (subitem_refname subitem_locname : option string)
    (subitem_refindex subitem_locindex : Z) (strict : bool)
    : IDOverrideLibraryProperty * IDOverrideLibraryPropertyOperation * bool * bool :=
  match BKE_lib_override_library_property_operation_find override_property
          subitem_refname subitem_locname subitem_refindex subitem_locindex strict with
  | (Some opop, r_strict) => (override_property, opop, r_strict, false)
  | (None, r_strict) =>
      let opop := mk_opop operation_ 0 0 subitem_refname subitem_locname
                          subitem_refindex subitem_locindex in
      (set_operations (operations override_property ++ [opop]) override_property,
       opop, r_strict, true)
  end.

(** [BKE_lib_override_library_property_operation_delete]. *)
Definition BKE_lib_override_library_property_operation_delete
    (override_property : IDOverrideLibraryProperty) (override_property_operation : nat)
    : option IDOverrideLibraryProperty :=
  match operations override_property !! override_property_operation with
  | Some _ =>
      Some (set_operations
              (delete override_property_operation (operations override_property))
              override_property)
  | None => None
  end.

(** ** Tags of the rules *)

(** [x |= tag] or [x &= ~tag]. *)
Definition tag_assign (tag_ : Z) (do_set : bool) (x : Z) : Z :=
  if do_set then flag_set x tag_ else flag_clear x tag_.

(** [BKE_lib_override_library_operations_tag]; a null property is left
    alone. *)
Definition operations_tag_property (tag_ : Z) (do_set : bool)
    (op : IDOverrideLibraryProperty) : IDOverrideLibraryProperty :=
  let op := set_op_tag (tag_assign tag_ do_set (op_tag op)) op in
  set_operations
    ((λ opop, set_opop_tag (tag_assign tag_ do_set (opop_tag opop)) opop) <$> operations op)
    op.

Definition BKE_lib_override_library_operations_tag
    (override_property : option IDOverrideLibraryProperty) (tag_ : Z) (do_set : bool)
    : option IDOverrideLibraryProperty :=
  match override_property with
  | Some op => Some (operations_tag_property tag_ do_set op)
  | None => None
  end.

(** [BKE_lib_override_library_properties_tag]; a null override is left
    alone. *)
Definition BKE_lib_override_library_properties_tag (override : option IDOverrideLibrary)
    (tag_ : Z) (do_set : bool) : option IDOverrideLibrary :=
  match override with
  | Some o =>
      Some (set_properties
              (omap (λ op, BKE_lib_override_library_operations_tag (Some op) tag_ do_set)
                    (properties o)) o)
  | None => None
  end.

Definition BKE_lib_override_library_main_tag (tag_ : Z) (do_set : bool) (m : Main) : Main :=
  foldl (λ m id,
           match ids m !! id with
           | Some i =>
               if ID_IS_OVERRIDE_LIBRARY i then
                 update_id id
                   (λ i, set_override_library
                           (BKE_lib_override_library_properties_tag (override_library i)
                              tag_ do_set) i) m
               else m
           | None => m
           end) m (order m).

(** ** Removal of the unused rules *)

(** [LISTBASE_FOREACH_MUTABLE]: the body is run on every link the list had on
    entry and may remove the link it is given, whose place the next link then
    takes. [todo] counts the links still to visit and [k] is the place of the
    current one; the body tells whether it removed its link. *)
Fixpoint LISTBASE_FOREACH_MUTABLE {T : Type} (body : nat → T → option (T * bool))
    (todo k : nat) (s : T) : option T :=
  match todo with
  | O => Some s
  | S todo =>
      match body k s with
      | Some (s, true) => LISTBASE_FOREACH_MUTABLE body todo k s
      | Some (s, false) => LISTBASE_FOREACH_MUTABLE body todo (S k) s
      | None => None
      end
  end.

(** The body of the inner loop of
    [BKE_lib_override_library_id_unused_cleanup]. *)
Definition unused_cleanup_operation (opop : nat) (op : IDOverrideLibraryProperty)
    : option (IDOverrideLibraryProperty * bool) :=
  match operations op !! opop with
  | Some o =>
      if flag_test (opop_tag o) IDOVERRIDE_LIBRARY_TAG_UNUSED then
        match BKE_lib_override_library_property_operation_delete op opop with
        | Some op => Some (op, true)
        | None => None
        end
      else Some (op, false)
  | None => None
  end.

(** The body of its outer loop. *)
Definition unused_cleanup_property (op : nat) (override : IDOverrideLibrary)
    : option (IDOverrideLibrary * bool) :=
  match properties override !! op with
  | Some p =>
      if flag_test (op_tag p) IDOVERRIDE_LIBRARY_TAG_UNUSED then
        match BKE_lib_override_library_property_delete override op with
        | Some override => Some (override, true)
        | None => None
        end
      else
        match LISTBASE_FOREACH_MUTABLE unused_cleanup_operation
                (length (operations p)) 0 p with
        | Some p => Some (set_properties (<[op := p]> (properties override)) override, false)
        | None => None
        end
  | None => None
  end.

Definition BKE_lib_override_library_id_unused_cleanup (local : ID_ptr) (m : Main)
    : option Main :=
  match ids m !! local with
  | Some l =>
      if ID_IS_OVERRIDE_LIBRARY_REAL l then
        match override_library l with
        | Some override =>
            match LISTBASE_FOREACH_MUTABLE unused_cleanup_property
                    (length (properties override)) 0 override with
            | Some override =>
                Some (update_id local (set_override_library (Some override)) m)
            | None => None
            end
        | None => None
        end
      else Some m
  | None => None
  end.

Definition BKE_lib_override_library_main_unused_cleanup (m : Main) : option Main :=
  foldl (λ m id,
           match m with
           | Some m =>
               match ids m !! id with
               | Some i =>
                   if ID_IS_OVERRIDE_LIBRARY i
                   then BKE_lib_override_library_id_unused_cleanup id m
                   else Some m
               | None => Some m
               end
           | None => None
           end) (Some m) (order m).

(** What [BKE_lib_override_library_main_tag] does to one ID. *)
Definition main_tag_id (tag_ : Z) (do_set : bool) (i : ID) : ID :=
  if ID_IS_OVERRIDE_LIBRARY i then
    set_override_library
      (BKE_lib_override_library_properties_tag (override_library i) tag_ do_set) i
  else i.

(** The rules with everything tagged unused taken away: the properties
    without the tag, each with its operations without the tag. *)
Definition unused_opop (opop : IDOverrideLibraryPropertyOperation) : bool :=
  flag_test (opop_tag opop) IDOVERRIDE_LIBRARY_TAG_UNUSED.

Definition unused_op (op : IDOverrideLibraryProperty) : bool :=
  flag_test (op_tag op) IDOVERRIDE_LIBRARY_TAG_UNUSED.

Definition without_unused_operations (op : IDOverrideLibraryProperty)
    : IDOverrideLibraryProperty :=
  set_operations (filter (λ o, unused_opop o = false) (operations op)) op.

Definition without_unused (l : list IDOverrideLibraryProperty)
    : list IDOverrideLibraryProperty :=
  without_unused_operations <$> filter (λ op, unused_op op = false) l.

(** An ID before and after the removal of its unused rules. *)
Definition unused_cleaned (i i' : ID) : Prop :=
  ∃ o o', override_library i = Some o ∧ i' = set_override_library (Some o') i
    ∧ properties o' = without_unused (properties o)
    ∧ reference o' = reference o ∧ storage o' = storage o.

(** The key a lookup searches first is not used by any operation of the
    property: the local name when the query has one, else the reference name
    when it has one, else the local index. *)
Definition first_key_unused (op : IDOverrideLibraryProperty)
    (refname locname : option string) (locindex : Z) : Prop :=
  match locname, refname with
  | Some l, _ => ∀ o, o ∈ operations op → subitem_local_name o ≠ Some l
  | None, Some r => ∀ o, o ∈ operations op → subitem_reference_name o ≠ Some r
  | None, None => ∀ o, o ∈ operations op → subitem_local_index o ≠ locindex
  end.

(** The hash, when it is built, holds the paths of the properties and no
    two properties share a path. *)
Definition paths (override : IDOverrideLibrary) : list string :=
  rna_path <$> properties override.

Definition ghash_coherent (override : IDOverrideLibrary) : Prop :=
  NoDup (paths override)
  ∧ ∀ gh, override_ghash override = Some gh → gh = list_to_set (paths override).

(** An override of the ID at address 1 recording two properties,
    [legs_property] and one on the path "color", without runtime data. *)
Definition color_property : IDOverrideLibraryProperty :=
  mk_op "color" [mk_opop 1 0 0 None None (-1) (-1)] 0 0.

Definition chair_rules : IDOverrideLibrary :=
  mk_override (Some 1%nat) [legs_property; color_property] None None.

(** [chairs_main] once the hash of the override at address 3 has been built
    (it is empty, the override records nothing). *)
Definition hashed_chairs_main : Main :=
  update_override 3 (set_ghash ∅) chairs_main.

(** [chairs_main] with rules tagged unused on the override at address 2: the
    property "legs" is tagged, the property "color" is not but the first of
    its two operations is. *)
Definition unused_rules_main : Main :=
  update_override 2
    (set_properties
       [set_op_tag IDOVERRIDE_LIBRARY_TAG_UNUSED legs_property;
        mk_op "color" [mk_opop 1 0 IDOVERRIDE_LIBRARY_TAG_UNUSED None None (-1) (-1);
                       mk_opop 1 0 0 None None 0 0] 0 0])
    chairs_main.

(** ** The smart creation *)

Definition lib_override_library_create_do (host : Host) (fuel : nat) (m : Main)
    (id_root : ID_ptr) : option (Main * bool) :=
  let m := id_tag_set id_root LIB_TAG_DOIT m in
  let m := BKE_main_relations_create m in
  match lib_override_linked_group_tag fuel m id_root LIB_TAG_DOIT LIB_TAG_MISSING with
  | None => None
  | Some m =>
      match lib_override_hierarchy_dependencies_recursive_tag fuel m id_root
              LIB_TAG_DOIT LIB_TAG_MISSING with
      | None => None
      | Some (m, _) => BKE_lib_override_library_create_from_tag host fuel m
      end
  end.

Definition BKE_lib_override_library_create (host : Host) (fuel : nat) (m : Main)
    (id_root : ID_ptr) (id_reference : option ID_ptr) : option (Main * bool) :=
  match lib_override_library_create_do host fuel m id_root with
  | None => None
  | Some (m, false) => Some (m, false)
  | Some (m, true) =>
      let m := lib_override_library_create_post_process host m id_root id_reference in
      (* Cleanup. *)
      let m := BKE_main_id_clear_newpoins m in
      Some (BKE_main_id_tag_all LIB_TAG_DOIT false m, true)
  end.

(** ** Operands of an operation *)

(** Operation codes (DNA_ID.h). *)
Definition IDOVERRIDE_LIBRARY_OP_NOOP : Z := 0.
Definition IDOVERRIDE_LIBRARY_OP_REPLACE : Z := 1.
Definition IDOVERRIDE_LIBRARY_OP_ADD : Z := 101.
Definition IDOVERRIDE_LIBRARY_OP_SUBTRACT : Z := 102.
Definition IDOVERRIDE_LIBRARY_OP_MULTIPLY : Z := 103.
Definition IDOVERRIDE_LIBRARY_OP_INSERT_AFTER : Z := 201.
Definition IDOVERRIDE_LIBRARY_OP_INSERT_BEFORE : Z := 202.

(** [PointerRNA] (RNA_types.h): the ID that owns the data, the RNA type and
    the data, by address. *)
Record PointerRNA := mk_PointerRNA {
  owner_id : option ID_ptr;
  ptr_type : string;
  ptr_data : option nat
}.

(** [ptr == NULL || ptr->data == NULL || prop == NULL]. *)
Definition operand_missing {PropertyRNA : Type} (ptr : option PointerRNA)
    (prop : option PropertyRNA) : bool :=
  match ptr, prop with
  | Some p, Some _ => bool_decide (ptr_data p = None)
  | _, _ => true
  end.

(** [BKE_lib_override_library_property_operation_operands_validate]: the
    cases of the [switch] fall through, from the differential operations to
    the others. *)
Definition BKE_lib_override_library_property_operation_operands_validate
    {PropertyRNA : Type} (override_property_operation : IDOverrideLibraryPropertyOperation)
    (ptr_dst ptr_src ptr_storage : option PointerRNA)
    (prop_dst prop_src prop_storage : option PropertyRNA) : bool :=
  let op := operation override_property_operation in
  let replace_case :=
    if operand_missing ptr_dst prop_dst || operand_missing ptr_src prop_src
    then false else true in
  if bool_decide (op = IDOVERRIDE_LIBRARY_OP_NOOP) then true
  else if bool_decide (op = IDOVERRIDE_LIBRARY_OP_ADD ∨ op = IDOVERRIDE_LIBRARY_OP_SUBTRACT
                       ∨ op = IDOVERRIDE_LIBRARY_OP_MULTIPLY) then
    if operand_missing ptr_storage prop_storage then false else replace_case
  else if bool_decide (op = IDOVERRIDE_LIBRARY_OP_INSERT_AFTER
                       ∨ op = IDOVERRIDE_LIBRARY_OP_INSERT_BEFORE
                       ∨ op = IDOVERRIDE_LIBRARY_OP_REPLACE) then replace_case
  else true.

(** ** The group tags, seen from the registry *)

(** Every ID pointer of every ID points to an ID of the registry. *)
Definition pointer_valid (m : Main) (p : option ID_ptr) : bool :=
  match p with
  | Some q => bool_decide (is_Some (ids m !! q))
  | None => true
  end.

Definition pointers_valid (m : Main) : Prop :=
  map_Forall (λ _ i, Forall (λ s, pointer_valid m s.1 = true) (id_link_slots i)) (ids m).

(** Registries that differ by the tags of their IDs at most. *)
Definition tags_apart (m m' : Main) : Prop :=
  order m' = order m ∧ ∀ h, untagged <$> ids m' !! h = untagged <$> ids m !! h.

(** What a tagging pass may do to the registry: nothing but setting [tag_]
    or [missing_tag] on IDs that satisfy [P]. *)
Definition group_tagged (tag_ missing_tag : Z) (P : ID → Prop) (m m' : Main) : Prop :=
  tags_apart m m'
  ∧ relations m' = relations m
  ∧ ∀ h i i', ids m !! h = Some i → ids m' !! h = Some i' →
      tag i' = tag i
      ∨ ((tag i' = flag_set (tag i) tag_ ∨ tag i' = flag_set (tag i) missing_tag) ∧ P i).

(** The IDs [lib_override_local_group_tag] may tag: the local real overrides
    whose reference is of the library of the reference of the root. *)
Definition local_group_member (m : Main) (id_root : ID_ptr) (i : ID) : Prop :=
  ID_IS_LINKED i = false ∧ ID_IS_OVERRIDE_LIBRARY_REAL i = true
  ∧ ∃ r ref rr rref,
      reference <$> override_library i = Some (Some r) ∧ ids m !! r = Some ref
      ∧ id_reference m id_root = Some rr ∧ ids m !! rr = Some rref
      ∧ lib ref = lib rref.

(** The IDs the boundary pass of [lib_override_linked_group_tag] may tag:
    the objects and collections of the library of the root. *)
Definition linked_group_member (m : Main) (id_root : ID_ptr) (i : ID) : Prop :=
  is_OB_or_GR i = true ∧ ∃ root, ids m !! id_root = Some root ∧ lib i = lib root.

(** What [lib_override_linked_group_tag] may do to the registry: the tags of
    the IDs keep their bits other than [tag_] and [missing_tag], and an ID of
    another library than [L] gains no bit. *)
Definition library_tagged (tag_ missing_tag : Z) (L : option Library_ptr) (m m' : Main)
    : Prop :=
  tags_apart m m'
  ∧ ∀ h i i', ids m !! h = Some i → ids m' !! h = Some i' →
      Z.land (tag i') (Z.lnot (Z.lor tag_ missing_tag))
      = Z.land (tag i) (Z.lnot (Z.lor tag_ missing_tag))
      ∧ (lib i ≠ L → Z.land (tag i') (tag i) = tag i').

(** Every pointer recorded in the relations points to an ID of the
    registry. *)
Definition entries_valid (m : Main) : Prop :=
  ∀ h entries e p, entries_of m h = Some entries → e ∈ entries → id_pointer e = Some p →
    is_Some (ids m !! p).

(** The registries the closure pass goes through from [m]: the relations
    have lost entries, the tags have changed as [library_tagged] allows. *)
Definition closure_step (tag_ missing_tag : Z) (L : option Library_ptr)
    (rel : gmap nat (list MainIDRelationsEntry)) (m m' : Main) : Prop :=
  ∃ rel', relations m' = Some rel' ∧ rel' ⊆ rel
    ∧ library_tagged tag_ missing_tag L m m'.

(** ** The smart deletion *)

(** The body of the loop of [BKE_lib_override_library_delete]: "Remap the
    whole local IDs to use the linked data". *)
Definition delete_remap_one (m : Main) (id : ID_ptr) : Main :=
  match ids m !! id with
  | Some i =>
      if flag_test (tag i) LIB_TAG_DOIT && ID_IS_OVERRIDE_LIBRARY_REAL i then
        match id_reference m id with
        | Some id_override_reference => BKE_libblock_remap id id_override_reference m
        | None => m
        end
      else m
  | None => m
  end.

Definition BKE_lib_override_library_delete (fuel : nat) (m : Main) (id_root : ID_ptr)
    : option Main :=
  (* Tag all collections and objects, as well as other IDs using them. *)
  let m := id_tag_set id_root LIB_TAG_DOIT m in
  (* Tag all library overrides in the chains of dependencies from the given
     root one. *)
  match lib_override_local_group_tag fuel m id_root LIB_TAG_DOIT LIB_TAG_DOIT with
  | None => None
  | Some m =>
      let m := foldl delete_remap_one m (order m) in
      (* Delete the override IDs. *)
      let m := BKE_id_multi_tagged_delete m in
      (* Should not actually be needed here. *)
      Some (BKE_main_id_tag_all LIB_TAG_DOIT false m)
  end.

(** Every real override of the registry is a local ID and overrides a linked
    ID of the registry. *)
Definition override_is_local (m : Main) (i : ID) : bool :=
  match override_library i with
  | Some o =>
      match reference o with
      | Some r =>
          bool_decide (lib i = None)
          && match ids m !! r with
             | Some ref => ID_IS_LINKED ref
             | None => false
             end
      | None => true
      end
  | None => true
  end.

Definition overrides_local (m : Main) : Prop :=
  map_Forall (λ _ i, override_is_local m i = true) (ids m).

(** Every ID of the registry is in the list FOREACH_MAIN_ID goes through. *)
Definition all_registered (m : Main) : Prop :=
  map_Forall (λ h _, h ∈ order m) (ids m).

(** The overrides the deletion remaps: the real overrides tagged
    [LIB_TAG_DOIT]. *)
Definition delete_remapped (m : Main) (d : ID_ptr) : bool :=
  match ids m !! d with
  | Some i => flag_test (tag i) LIB_TAG_DOIT && ID_IS_OVERRIDE_LIBRARY_REAL i
  | None => false
  end.

(** A pointer after the deletion: a pointer to a remapped override of the
    list [l] points to the reference of that override, any other pointer is
    as it was. *)
Definition delete_redirect (m : Main) (l : list ID_ptr) (p : option ID_ptr) : option ID_ptr :=
  match p with
  | Some d => if bool_decide (d ∈ l) && delete_remapped m d then id_reference m d else p
  | None => p
  end.

(** An ID with every pointer it holds rewritten by [f]. *)
Definition contents_map_ptr (f : option ID_ptr → option ID_ptr) (c : IDContents)
    : IDContents :=
  mk_contents
    ((λ l, (f l.1, l.2)) <$> links c)
    ((λ k, set_from (f (from k)) k) <$> key c)
    (ob_type c)
    (f (ob_data c))
    ((λ p, mk_pose (f <$> chanbase p) (pose_flag p)) <$> pose c)
    (rna_values c).

Definition id_map_ptr (f : option ID_ptr → option ID_ptr) (i : ID) : ID :=
  set_override_library
    ((λ o, set_reference (f (reference o)) o) <$> override_library i)
    (set_contents (contents_map_ptr f (contents i)) i).

(** ** Update of every override *)

(** [BKE_lib_override_library_main_update]. [G_MAIN], which the function
    swaps for the time of the loop, is not part of the registry. *)
Definition BKE_lib_override_library_main_update (host : Host) (fuel : nat) (m : Main)
    : option Main :=
  foldl (λ m id,
           match m with
           | Some m =>
               match ids m !! id with
               | Some i =>
                   match override_library i with
                   | Some _ => BKE_lib_override_library_update host fuel m id
                   | None => Some m
                   end
               | None => Some m
               end
           | None => None
           end) (Some m) (order m).

(** The reference of the override of the ID, if it has one, is an ID of the
    registry that is not an override itself. *)
Definition reference_is_plain (m : Main) (i : ID) : bool :=
  match override_library i with
  | Some o =>
      match reference o with
      | Some r =>
          match ids m !! r with
          | Some ref =>
              match override_library ref with
              | None => true
              | Some _ => false
              end
          | None => false
          end
      | None => true
      end
  | None => true
  end.

Definition references_plain (m : Main) : Prop :=
  map_Forall (λ _ i, reference_is_plain m i = true) (ids m).

(** The ID is a real override the update can bring up to date: its
    reference is not a placeholder for missing data and can be duplicated,
    whatever it owns. *)
Definition can_update (host : Host) (m : Main) (i : ID) : Prop :=
  ∃ o r ref, override_library i = Some o ∧ reference o = Some r ∧ ids m !! r = Some ref
    ∧ ID_MISSING ref = false ∧ ∀ c, id_can_copy host (set_contents c ref) = true.

(** The state an update leaves an override in: REFOK set, no storage. *)
Definition up_to_date (i : ID) : Prop :=
  flag_test (tag i) LIB_TAG_OVERRIDE_LIBRARY_REFOK = true
  ∧ storage <$> override_library i = Some None.

(** What the loop of [BKE_lib_override_library_main_update] has made of the
    registry [m0] once it has gone through the IDs [visited]. *)
Definition main_update_state (host : Host) (m0 : Main) (visited : list nat) (m : Main)
    : Prop :=
  same_shape m0 m
  ∧ ∀ h, match ids m0 !! h with
         | Some i =>
             ∃ i', ids m !! h = Some i' ∧ update_view i' = update_view i
               ∧ (override_library i = None → no_contents i' = no_contents i)
               ∧ (h ∈ visited → can_update host m0 i → up_to_date i')
         | None => ids m !! h = None
         end.

(** ** Reset of an override *)

(** [PropertyType] (RNA_types.h). *)
Definition PROP_POINTER : Z := 5.
Definition PROP_COLLECTION : Z := 6.

(** [PropertyRNA], by its identifier, and the RNA type of IDs. *)
Definition PropertyRNA : Type := string.
Definition RNA_ID : string := "ID".

(** Modelled from the spec: the functions of the RNA layer (rna_access.c)
    that [lib_override_library_id_reset_do] calls. They read the registry:
    the resolution of a path from a pointer gives the pointer and the
    property the path ends at, or fails; a pointer property has a target
    type and a value; a type is or is not a type of ID. *)
Record RNA := mk_RNA {
  RNA_path_resolve_property : Main → PointerRNA → string → option (PointerRNA * PropertyRNA);
  RNA_property_pointer_type : Main → PointerRNA → PropertyRNA → string;
  RNA_property_pointer_get : Main → PointerRNA → PropertyRNA → PointerRNA;
  RNA_struct_is_ID : string → bool
}.

(** [RNA_pointer_create]. *)
Definition RNA_pointer_create (id : option ID_ptr) (type : string) (data : option nat)
    : PointerRNA :=
  mk_PointerRNA id type data.

Definition set_ptr_type (v : string) (ptr : PointerRNA) : PointerRNA :=
  mk_PointerRNA (owner_id ptr) v (ptr_data ptr).

(** The value of [do_op_delete] for one property in the loop of
    [lib_override_library_id_reset_do]. The assertion on the first
    resolution is compiled out; when that resolution fails and the second
    one succeeds, [ptr] and [prop] are read without having been written, and
    when the owner of the pointer found is not an ID of the registry its
    override is read through a dangling pointer: the model has no answer
    then. *)
Definition reset_do_op_delete (rna : RNA) (m : Main) (id_root : ID_ptr)
    (id_root_reference : option ID_ptr) (op : IDOverrideLibraryProperty) : option bool :=
  let is_collection := bool_decide (rna_prop_type op = PROP_COLLECTION) in
  if is_collection || bool_decide (rna_prop_type op = PROP_POINTER) then
    let ptr_root := RNA_pointer_create (Some id_root) RNA_ID (Some id_root) in
    let ptr_root_lib := RNA_pointer_create id_root_reference RNA_ID id_root_reference in
    let resolved := RNA_path_resolve_property rna m ptr_root (rna_path op) in
    match RNA_path_resolve_property rna m ptr_root_lib (rna_path op) with
    | Some (ptr_lib, prop_lib) =>
        match resolved with
        | Some (ptr, prop) =>
            let ptr :=
              if is_collection
              then set_ptr_type (RNA_property_pointer_type rna m ptr prop) ptr
              else RNA_property_pointer_get rna m ptr prop in
            let ptr_lib :=
              if is_collection
              then set_ptr_type (RNA_property_pointer_type rna m ptr_lib prop_lib) ptr_lib
              else RNA_property_pointer_get rna m ptr_lib prop_lib in
            match owner_id ptr, owner_id ptr_lib with
            | Some owner, Some owner_lib =>
                if RNA_struct_is_ID rna (ptr_type ptr) then
                  match ids m !! owner with
                  | Some i =>
                      match override_library i with
                      | Some o => Some (negb (bool_decide (reference o = Some owner_lib)))
                      | None => Some true
                      end
                  | None => None
                  end
                else Some true
            | _, _ => Some true
            end
        | None => None
        end
    | None => Some true
    end
  else Some true.

(** The body of the loop of [lib_override_library_id_reset_do], on the
    registry and [was_op_deleted]. *)
Definition reset_do_property (rna : RNA) (id_root : ID_ptr) (op : nat) (s : Main * bool)
    : option (Main * bool * bool) :=
  match id_override s.1 id_root with
  | Some override =>
      match properties override !! op with
      | Some p =>
          match reset_do_op_delete rna s.1 id_root (reference override) p with
          | Some true =>
              match BKE_lib_override_library_property_delete override op with
              | Some override =>
                  Some (update_id id_root (set_override_library (Some override)) s.1, true,
                        true)
              | None => None
              end
          | Some false => Some (s, false)
          | None => None
          end
      | None => None
      end
  | None => None
  end.

(** [lib_override_library_id_reset_do]; the boolean is the value returned.
    The tag for the dependency graph is not part of the registry. *)
Definition lib_override_library_id_reset_do (rna : RNA) (m : Main) (id_root : ID_ptr)
    : option (Main * bool) :=
  match id_override m id_root with
  | Some override =>
      match LISTBASE_FOREACH_MUTABLE (reset_do_property rna id_root)
              (length (properties override)) 0 (m, false) with
      | Some (m, true) =>
          Some (update_override id_root
                  (λ o, let o := override_library_rna_path_runtime_ensure o in
                        set_runtime
                          ((λ r, mk_runtime (rna_path_to_override_properties r)
                                   (flag_set (runtime_tag r)
                                      IDOVERRIDE_LIBRARY_RUNTIME_TAG_NEEDS_RELOAD))
                             <$> runtime o) o) m,
                true)
      | Some (m, false) => Some (m, false)
      | None => None
      end
  | None => None
  end.

(** [BKE_lib_override_library_id_reset]. *)
Definition BKE_lib_override_library_id_reset (host : Host) (rna : RNA) (fuel : nat)
    (m : Main) (id_root : ID_ptr) : option Main :=
  match ids m !! id_root with
  | Some i =>
      if negb (ID_IS_OVERRIDE_LIBRARY_REAL i) then Some m
      else
        match lib_override_library_id_reset_do rna m id_root with
        | Some (m, true) =>
            match id_override m id_root ≫= runtime with
            | Some r =>
                if flag_test (runtime_tag r) IDOVERRIDE_LIBRARY_RUNTIME_TAG_NEEDS_RELOAD then
                  match BKE_lib_override_library_update host fuel m id_root with
                  | Some m =>
                      match id_override m id_root ≫= runtime with
                      | Some _ =>
                          Some (update_override id_root
                                  (λ o, set_runtime
                                          ((λ r, mk_runtime
                                                   (rna_path_to_override_properties r)
                                                   (flag_clear (runtime_tag r)
                                                      IDOVERRIDE_LIBRARY_RUNTIME_TAG_NEEDS_RELOAD))
                                             <$> runtime o) o) m)
                      | None => None
                      end
                  | None => None
                  end
                else Some m
            | None => Some m
            end
        | Some (m, false) => Some m
        | None => None
        end
  | None => None
  end.

(** The properties the reset may keep: the pointers and the collections. *)
Definition is_relation_property (op : IDOverrideLibraryProperty) : Prop :=
  rna_prop_type op = PROP_POINTER ∨ rna_prop_type op = PROP_COLLECTION.

(** What [lib_override_library_id_reset_do] may do to the registry: nothing
    but removing properties of the override of the root and writing its
    runtime data. *)
Definition reset_frame (id_root : ID_ptr) (m m' : Main) : Prop :=
  order m' = order m ∧ relations m' = relations m
  ∧ (∀ h, h ≠ id_root → ids m' !! h = ids m !! h)
  ∧ set_override_library None <$> ids m' !! id_root
    = set_override_library None <$> ids m !! id_root
  ∧ ∀ o, id_override m id_root = Some o →
      ∃ o', id_override m' id_root = Some o'
        ∧ reference o' = reference o ∧ storage o' = storage o
        ∧ sublist (properties o') (properties o)
        ∧ (ghash_coherent o → ghash_coherent o').

(** An example RNA layer: from a pointer to an ID, the path "data" resolves
    to the pointer property of that name, whose value is the object data of
    the ID; no other path resolves; the target of a collection is an ID. *)
Definition example_rna : RNA :=
  mk_RNA
    (λ m ptr path,
       if bool_decide (path = "data"%string) then
         match owner_id ptr with
         | Some _ => Some (ptr, "data"%string)
         | None => None
         end
       else None)
    (λ m ptr prop, RNA_ID)
    (λ m ptr prop,
       match owner_id ptr ≫= (λ h, ids m !! h) with
       | Some i => RNA_pointer_create (ob_data (contents i)) RNA_ID (ob_data (contents i))
       | None => RNA_pointer_create None RNA_ID None
       end)
    (λ type, bool_decide (type = RNA_ID)).

(** A local chair and its local mesh overriding a linked chair and its
    mesh; the override of the chair records its data pointer, a relation
    between overrides, and a color. *)
Definition armchair_main : Main :=
  mk_Main
    (<[1%nat := mk_ID "OBChair" (Some 7%nat) 0 0 1 None None
                  (mk_contents [] None 0 (Some 3%nat) None (<["color"%string := 1]> ∅))]>
       (<[3%nat := mk_ID "MEChair" (Some 7%nat) 0 0 1 None None empty_contents]>
          (<[2%nat := mk_ID "OBChair" None 0 0 1 None
                        (Some (mk_override (Some 1%nat)
                                 [mk_op "data" [mk_opop 1 0 0 None None (-1) (-1)] 0
                                    PROP_POINTER;
                                  mk_op "color" [mk_opop 1 0 0 None None (-1) (-1)] 0 0]
                                 None None))
                        (mk_contents [] None 0 (Some 4%nat) None
                           (<["color"%string := 5]> ∅))]>
             (<[4%nat := mk_ID "MEChair" None 0 0 1 None
                           (Some (mk_override (Some 3%nat) [] None None))
                           empty_contents]> ∅))))
    [2%nat; 4%nat; 1%nat; 3%nat] None.

(** ** Reset of a hierarchy of overrides *)

(** [lib_override_library_id_hierarchy_recursive_reset]. [None] when the
    fuel runs out, when the relations are missing, when a pointer dangles or
    when the reset of an ID has no answer. *)
Fixpoint lib_override_library_id_hierarchy_recursive_reset (rna : RNA) (fuel : nat)
    (m : Main) (id_root : ID_ptr) : option Main :=
  match fuel with
  | O => None
  | S fuel =>
      match ids m !! id_root with
      | Some i =>
          if negb (ID_IS_OVERRIDE_LIBRARY_REAL i) then Some m
          else
            match relations m with
            | Some id_user_to_used =>
                match id_user_to_used !! id_root with
                | None => (* Already processed. *) Some m
                | Some entries =>
                    match lib_override_library_id_reset_do rna m id_root with
                    | Some (m, _) =>
                        let m := BKE_main_relations_ID_remove id_root m in
                        let fix entries_loop (entries : list MainIDRelationsEntry)
                            (m : Main) : option Main :=
                          match entries with
                          | [] => Some m
                          | entry :: entries =>
                              if flag_test (usage_flag entry) IDWALK_CB_LOOPBACK
                              then entries_loop entries m
                              else
                                match id_pointer entry with
                                | Some p =>
                                    match ids m !! p with
                                    | Some id_entry =>
                                        match override_library id_entry with
                                        | Some _ =>
                                            match
                                              lib_override_library_id_hierarchy_recursive_reset
                                                rna fuel m p
                                            with
                                            | Some m => entries_loop entries m
                                            | None => None
                                            end
                                        | None => entries_loop entries m
                                        end
                                    | None => None
                                    end
                                | None => entries_loop entries m
                                end
                          end in
                        entries_loop entries m
                    | None => None
                    end
                end
            | None => None
            end
      | None => None
      end
  end.

(** The body of the loop of [BKE_lib_override_library_id_hierarchy_reset]
    over the IDs of the registry. *)
Definition hierarchy_reset_reload (host : Host) (fuel : nat) (m : Main) (id : ID_ptr)
    : option Main :=
  match ids m !! id with
  | Some i =>
      let needs_reload :=
        match override_library i ≫= runtime with
        | Some r => flag_test (runtime_tag r) IDOVERRIDE_LIBRARY_RUNTIME_TAG_NEEDS_RELOAD
        | None => false
        end in
      if negb (ID_IS_OVERRIDE_LIBRARY_REAL i) || negb needs_reload then Some m
      else
        match BKE_lib_override_library_update host fuel m id with
        | Some m =>
            match id_override m id ≫= runtime with
            | Some _ =>
                Some (update_override id
                        (λ o, set_runtime
                                ((λ r, mk_runtime
                                         (rna_path_to_override_properties r)
                                         (flag_clear (runtime_tag r)
                                            IDOVERRIDE_LIBRARY_RUNTIME_TAG_NEEDS_RELOAD))
                                   <$> runtime o) o) m)
            | None => None
            end
        | None => None
        end
  | None => Some m
  end.

(** [BKE_lib_override_library_id_hierarchy_reset]. *)
Definition BKE_lib_override_library_id_hierarchy_reset (host : Host) (rna : RNA)
    (fuel : nat) (m : Main) (id_root : ID_ptr) : option Main :=
  let m := BKE_main_relations_create m in
  match lib_override_library_id_hierarchy_recursive_reset rna fuel m id_root with
  | Some m =>
      let m := BKE_main_relations_free m in
      foldl (λ m id,
               match m with
               | Some m => hierarchy_reset_reload host fuel m id
               | None => None
               end) (Some m) (order m)
  | None => None
  end.

(** What the reset of a hierarchy may do to an ID: nothing to its name,
    library, flags, use count and counterpart, nothing to its tags but for
    REFOK; an override stays one, with its reference and with properties it
    had, in their order. *)
Definition reset_kept (i i' : ID) : Prop :=
  update_view (set_override_library None i') = update_view (set_override_library None i)
  ∧ match override_library i, override_library i' with
    | Some o, Some o' =>
        reference o' = reference o ∧ sublist (properties o') (properties o)
    | None, None => True
    | _, _ => False
    end.

Definition hierarchy_frame (m m' : Main) : Prop :=
  order m' = order m
  ∧ ∀ h, match ids m !! h with
         | Some i => ∃ i', ids m' !! h = Some i' ∧ reset_kept i i'
         | None => ids m' !! h = None
         end.

(** The override of the ID does not wait for a reload. *)
Definition reloaded (i : ID) : Prop :=
  ∀ r, override_library i ≫= runtime = Some r →
    flag_test (runtime_tag r) IDOVERRIDE_LIBRARY_RUNTIME_TAG_NEEDS_RELOAD = false.

(** The loop over the entries of
    [lib_override_library_id_hierarchy_recursive_reset], with the recursive
    call as a parameter. *)
Definition hierarchy_reset_entries (recur : Main → ID_ptr → option Main)
    : list MainIDRelationsEntry → Main → option Main :=
  fix entries_loop (entries : list MainIDRelationsEntry) (m : Main) : option Main :=
    match entries with
    | [] => Some m
    | entry :: entries =>
        if flag_test (usage_flag entry) IDWALK_CB_LOOPBACK
        then entries_loop entries m
        else
          match id_pointer entry with
          | Some p =>
              match ids m !! p with
              | Some id_entry =>
                  match override_library id_entry with
                  | Some _ =>
                      match recur m p with
                      | Some m => entries_loop entries m
                      | None => None
                      end
                  | None => entries_loop entries m
                  end
              | None => None
              end
          | None => entries_loop entries m
          end
    end.

(** * Properties *)

(** ** Bit flags *)

Lemma flag_test_clear x b : flag_test (flag_clear x b) b = false.
Proof.
  unfold flag_test, flag_clear.
  rewrite <- Z.land_assoc, (Z.land_comm (Z.lnot b) b), Z.land_lnot_diag, Z.land_0_r.
  reflexivity.
Qed.

(** ** Store accesses *)

Lemma lookup_update_id p f m q :
  ids (update_id p f m) !! q = if decide (p = q) then f <$> ids m !! q else ids m !! q.
Proof.
  unfold update_id; simpl. destruct (decide (p = q)) as [->|Hne].
  - apply lookup_alter_eq.
  - by apply lookup_alter_ne.
Qed.

Lemma lookup_update_id_eq p f m i :
  ids m !! p = Some i → ids (update_id p f m) !! p = Some (f i).
Proof. intros H. rewrite lookup_update_id, decide_True by done. by rewrite H. Qed.

Lemma lookup_update_id_ne p f m q :
  p ≠ q → ids (update_id p f m) !! q = ids m !! q.
Proof. intros H. by rewrite lookup_update_id, decide_False. Qed.

(** ** Operation lookup by sub-item names *)

Lemma findstring_single {A : Type} (field : A → option string) (x : A) (s : string) :
  BLI_findstring_ptr field [x] s = if bool_decide (field x = Some s) then Some x else None.
Proof. reflexivity. Qed.

(** C3, as the code has it. A property holds exactly one operation, recorded
    with local name "LegA" and reference name "Leg". The lookup by
    (reference "Leg", local "LegA") returns that operation and the lookup by
    (reference "Leg", local "LegB") returns none; the lookup by (null
    reference name, local "LegA") returns none as well, because a null
    reference name in the query only matches an operation recorded without
    reference name. This holds for all indices and both strictness modes. *)
Theorem operation_find_by_names
    (op : IDOverrideLibraryProperty) (opop : IDOverrideLibraryPropertyOperation)
    (refindex locindex : Z) (strict : bool) :
  operations op = [opop] →
  subitem_local_name opop = Some "LegA"%string →
  subitem_reference_name opop = Some "Leg"%string →
  BKE_lib_override_library_property_operation_find
    op (Some "Leg"%string) (Some "LegA"%string) refindex locindex strict = (Some opop, true)
  ∧ BKE_lib_override_library_property_operation_find
      op (Some "Leg"%string) (Some "LegB"%string) refindex locindex strict = (None, true)
  ∧ BKE_lib_override_library_property_operation_find
      op None (Some "LegA"%string) refindex locindex strict = (None, true).
Proof.
  intros Hops Hloc Href.
  unfold BKE_lib_override_library_property_operation_find.
  rewrite Hops, !findstring_single, Hloc. simpl.
  rewrite Href. simpl. auto.
Qed.

Lemma operation_find_by_names_witness :
  BKE_lib_override_library_property_operation_find
    legs_property (Some "Leg"%string) (Some "LegA"%string) 0 0 true
    = (Some leg_operation, true)
  ∧ BKE_lib_override_library_property_operation_find
      legs_property (Some "Leg"%string) (Some "LegB"%string) 0 0 true = (None, true)
  ∧ BKE_lib_override_library_property_operation_find
      legs_property None (Some "LegA"%string) 0 0 true = (None, true).
Proof.
  apply (operation_find_by_names legs_property leg_operation 0 0 true); reflexivity.
Defined.

(** The third lookup of C3 as the claim words it: with a null reference name
    and local name "LegA" the recorded operation is not returned. *)
Lemma operation_find_null_refname_counterexample :
  operations legs_property = [leg_operation]
  ∧ subitem_local_name leg_operation = Some "LegA"%string
  ∧ subitem_reference_name leg_operation = Some "Leg"%string
  ∧ fst (BKE_lib_override_library_property_operation_find
           legs_property None (Some "LegA"%string) (-1) (-1) false)
    ≠ Some leg_operation.
Proof. repeat split; try reflexivity. simpl. discriminate. Qed.

Lemma lookup_update_id_same p f m :
  ids (update_id p f m) !! p = f <$> ids m !! p.
Proof. by rewrite lookup_update_id, decide_True. Qed.

Arguments update_id : simpl never.

Ltac store_unfold :=
  unfold id_reference, id_override, id_us_plus, id_us_min, update_override in *.

Ltac store_step :=
  first
    [ rewrite lookup_update_id_same
    | rewrite lookup_update_id_ne by done
    | rewrite lookup_update_id; case_decide; simplify_eq
    | match goal with
      | H : ?x = Some _ |- context [?x] => rewrite H
      | H : ?x = None |- context [?x] => rewrite H
      end
    | progress simpl ].

Ltac store_simpl := store_unfold; repeat store_step.

(** ** Override record store *)

Lemma property_operation_copy_same o :
  lib_override_library_property_operation_copy o o = o.
Proof. destruct o as [? ? ? [?|] [?|] ? ?]; reflexivity. Qed.

Lemma zip_with_same {A : Type} (f : A → A → A) (l : list A) :
  (∀ x, f x x = x) → zip_with f l l = l.
Proof. intros Hf. induction l as [|x l IH]; simpl; [done|]. by rewrite Hf, IH. Qed.

Lemma property_copy_same p : lib_override_library_property_copy p p = p.
Proof.
  destruct p as [path ops t ty].
  unfold lib_override_library_property_copy, BLI_duplicatelist.
  simpl. f_equal. apply zip_with_same, property_operation_copy_same.
Qed.

(** Duplicating a property list yields a list equal to it, path by path and
    operation by operation. *)
Lemma override_properties_duplicate_eq l : override_properties_duplicate l = l.
Proof. apply zip_with_same, property_copy_same. Qed.

(** The call [BKE_lib_override_library_init(dst_id, NULL)] made by the copy
    is the generation of an empty override. *)
Lemma init_null_reference fuel local_id m :
  BKE_lib_override_library_init (S fuel) local_id None m
  = Some (lib_override_library_init_empty local_id None m).
Proof. reflexivity. Qed.

(** C10. Copying from an override template (a source whose override has a
    null reference), in shallow and in deep mode: the override of the
    destination gets the source itself as reference, the source gains one
    user (counted from the users it has once a former override of the
    destination has released its reference), and the REFOK tag of the
    destination is cleared. *)
Theorem copy_from_template (m : Main) (dst_id src_id : nat) (do_full_copy : bool)
    (d s : ID) (o_s : IDOverrideLibrary) :
  ids m !! dst_id = Some d →
  ids m !! src_id = Some s →
  override_library s = Some o_s →
  reference o_s = None →
  ∃ d' o' s',
    ids (BKE_lib_override_library_copy dst_id src_id do_full_copy m) !! dst_id = Some d'
    ∧ override_library d' = Some o'
    ∧ reference o' = Some src_id
    ∧ flag_test (tag d') LIB_TAG_OVERRIDE_LIBRARY_REFOK = false
    ∧ ids (BKE_lib_override_library_copy dst_id src_id do_full_copy m) !! src_id = Some s'
    ∧ us s' = released_us d s src_id + 1.
Proof.
  intros Hd Hs Ho Hr.
  unfold BKE_lib_override_library_copy, released_us. rewrite Hd, Hs, Ho.
  destruct (override_library d) as [o_d|] eqn:Hod.
  - unfold BKE_lib_override_library_clear. rewrite Hd, Hod.
    destruct (reference o_d) as [r|] eqn:Hrd; destruct do_full_copy; store_simpl.
    all: eexists _, _, _; repeat split; try reflexivity; try apply flag_test_clear.
    all: simpl; repeat case_bool_decide; simplify_eq; done.
  - unfold lib_override_library_init_empty.
    destruct do_full_copy; store_simpl.
    all: eexists _, _, _; repeat split; try reflexivity; try apply flag_test_clear.
Qed.

Lemma copy_from_template_witness :
  ∃ d' o' s',
    ids (BKE_lib_override_library_copy 2 1 true template_main) !! 2%nat = Some d'
    ∧ override_library d' = Some o'
    ∧ reference o' = Some 1%nat
    ∧ flag_test (tag d') LIB_TAG_OVERRIDE_LIBRARY_REFOK = false
    ∧ ids (BKE_lib_override_library_copy 2 1 true template_main) !! 1%nat = Some s'
    ∧ us s' = 2.
Proof.
  exact (copy_from_template template_main 2 1 true _ _ _
           eq_refl eq_refl eq_refl eq_refl).
Defined.

Lemma override_ancestor_template fuel m x a o :
  override_ancestor fuel m x = Some (Some a) →
  id_override m a = Some o →
  reference o = None.
Proof.
  revert x. induction fuel as [|fuel IH]; intros x Hw Ho; [done|].
  simpl in Hw. destruct x as [p|]; [|done].
  destruct (ids m !! p) as [i|] eqn:Hp; [|done].
  destruct (override_library i) as [oi|] eqn:Hoi.
  - destruct (reference oi) as [r|] eqn:Hr; [by eapply IH|].
    simplify_eq. unfold id_override in Ho. rewrite Hp, Hoi in Ho. by simplify_eq.
  - simplify_eq. unfold id_override in Ho. rewrite Hp, Hoi in Ho. done.
Qed.

Lemma override_ancestor_is_Some fuel m x a :
  override_ancestor fuel m x = Some (Some a) → is_Some (ids m !! a).
Proof.
  revert x. induction fuel as [|fuel IH]; intros x Hw; [done|].
  simpl in Hw. destruct x as [p|]; [|done].
  destruct (ids m !! p) as [i|] eqn:Hp; [|done].
  destruct (override_library i) as [oi|] eqn:Hoi.
  - destruct (reference oi) as [r|] eqn:Hr; [by eapply IH|].
    simplify_eq. by rewrite Hp.
  - simplify_eq. by rewrite Hp.
Qed.

Lemma flag_clear_idemp x b : flag_clear (flag_clear x b) b = flag_clear x b.
Proof. unfold flag_clear. by rewrite <- Z.land_assoc, Z.land_diag. Qed.

(** [BKE_lib_override_library_init] on a local ID without override, once the
    walk has ended: the override it installs and what it leaves of the ID. *)
Lemma init_local (fuel : nat) (m : Main) (local_id : nat) (reference_id : option nat)
    (l : ID) (ancestor_id : option nat) :
  ids m !! local_id = Some l →
  override_library l = None →
  override_ancestor fuel m reference_id = Some ancestor_id →
  ∃ m' l' o',
    BKE_lib_override_library_init fuel local_id reference_id m = Some m'
    ∧ ids m' !! local_id = Some l'
    ∧ override_library l' = Some o'
    ∧ reference o' = reference_id
    ∧ no_us (set_override_library None l')
      = no_us (set_tag (flag_clear (tag l) LIB_TAG_OVERRIDE_LIBRARY_REFOK) l)
    ∧ match override_template m ancestor_id with
      | Some a =>
          id_reference m a = None
          ∧ properties <$> id_override m a = Some (properties o')
      | None =>
          o' = mk_override reference_id [] None None
          ∧ match reference_id with
            | Some r => us <$> ids m' !! r = (λ i, us i + 1) <$> ids m !! r
            | None => True
            end
      end.
Proof.
  intros Hl Hol Hw.
  unfold BKE_lib_override_library_init. rewrite Hw.
  destruct (override_template m ancestor_id) as [a|] eqn:Ht.
  - unfold override_template in Ht. destruct ancestor_id as [a'|]; [|done].
    destruct (id_override m a') as [o_t|] eqn:Hot; [|done]. simplify_eq.
    pose proof (override_ancestor_template _ _ _ _ _ Hw Hot) as Hrt.
    assert (∃ t, ids m !! a = Some t ∧ override_library t = Some o_t) as (t & Ha & Hto).
    { unfold id_override in Hot. destruct (ids m !! a) as [t|]; [|done]. eauto. }
    assert (local_id ≠ a) as Hne by (intros ->; congruence).
    unfold BKE_lib_override_library_copy. rewrite Hl, Ha, Hol, Hto.
    unfold lib_override_library_init_empty.
    rewrite !override_properties_duplicate_eq.
    destruct reference_id as [r|];
      [destruct (decide (r = local_id)), (decide (r = a)); simplify_eq|].
    all: store_simpl; repeat (case_bool_decide; simplify_eq); store_simpl.
    all: eexists _, _, _; (split; [reflexivity|]); store_simpl.
    all: repeat split; try reflexivity.
    all: unfold no_us; simpl; rewrite ?flag_clear_idemp.
    all: by destruct l; simplify_eq/=.
  - unfold lib_override_library_init_empty.
    destruct reference_id as [r|]; [destruct (decide (r = local_id)); simplify_eq|].
    all: eexists _, _, _; (split; [reflexivity|]); store_simpl.
    all: repeat split; try reflexivity.
    all: try (by destruct l; simplify_eq/=).
    by destruct (ids m !! r).
Qed.

(** C4. [BKE_lib_override_library_init] on a local ID without override (the
    precondition the function asserts), once the walk up the override chain
    of the reference has ended. If the walk ended on a template, the local ID
    gets an override holding the properties and operations of the template,
    with the given reference. Otherwise it gets a fresh empty override whose
    reference is the given one, a non-null reference gains one user, and the
    REFOK tag of the local ID is cleared. *)
Theorem init_spec (fuel : nat) (m : Main) (local_id : nat) (reference_id : option nat)
    (l : ID) (ancestor_id : option nat) :
  ids m !! local_id = Some l →
  override_library l = None →
  override_ancestor fuel m reference_id = Some ancestor_id →
  ∃ m' l' o',
    BKE_lib_override_library_init fuel local_id reference_id m = Some m'
    ∧ ids m' !! local_id = Some l'
    ∧ override_library l' = Some o'
    ∧ reference o' = reference_id
    ∧ match override_template m ancestor_id with
      | Some a =>
          id_reference m a = None
          ∧ properties <$> id_override m a = Some (properties o')
      | None =>
          o' = mk_override reference_id [] None None
          ∧ flag_test (tag l') LIB_TAG_OVERRIDE_LIBRARY_REFOK = false
          ∧ match reference_id with
            | Some r => us <$> ids m' !! r = (λ i, us i + 1) <$> ids m !! r
            | None => True
            end
      end.
Proof.
  intros Hl Hol Hw.
  destruct (init_local fuel m local_id reference_id l ancestor_id Hl Hol Hw)
    as (m' & l' & o' & Hi & Hl' & Ho' & Hr' & Hhdr & Hcase).
  exists m', l', o'. repeat split; try done.
  destruct (override_template m ancestor_id); [done|].
  destruct Hcase as [-> Hus]. repeat split; [|done].
  assert (tag l' = flag_clear (tag l) LIB_TAG_OVERRIDE_LIBRARY_REFOK) as ->.
  { by injection Hhdr. }
  apply flag_test_clear.
Qed.

Lemma init_spec_witness :
  (∃ m' l' o',
     BKE_lib_override_library_init 3 4 (Some 2%nat) chain_main = Some m'
     ∧ ids m' !! 4%nat = Some l'
     ∧ override_library l' = Some o'
     ∧ reference o' = Some 2%nat
     ∧ id_reference chain_main 1 = None
     ∧ properties <$> id_override chain_main 1 = Some (properties o'))
  ∧ (∃ m' l' o',
       BKE_lib_override_library_init 3 4 (Some 3%nat) chain_main = Some m'
       ∧ ids m' !! 4%nat = Some l'
       ∧ override_library l' = Some o'
       ∧ reference o' = Some 3%nat
       ∧ o' = mk_override (Some 3%nat) [] None None
       ∧ flag_test (tag l') LIB_TAG_OVERRIDE_LIBRARY_REFOK = false
       ∧ us <$> ids m' !! 3%nat = (λ i, us i + 1) <$> ids chain_main !! 3%nat).
Proof.
  split.
  - exact (init_spec 3 chain_main 4 (Some 2%nat) _ (Some 1%nat) eq_refl eq_refl eq_refl).
  - exact (init_spec 3 chain_main 4 (Some 3%nat) _ (Some 3%nat) eq_refl eq_refl eq_refl).
Defined.

(** The walk up the override chain only reads which IDs carry an override
    and what their references are. *)
Lemma override_ancestor_ext fuel m m' x :
  (∀ q, (λ i, reference <$> override_library i) <$> ids m !! q
        = (λ i, reference <$> override_library i) <$> ids m' !! q) →
  override_ancestor fuel m x = override_ancestor fuel m' x.
Proof.
  intros Hv. revert x. induction fuel as [|fuel IH]; intros x; [done|].
  simpl. destruct x as [p|]; [|done].
  specialize (Hv p).
  destruct (ids m !! p) as [i|], (ids m' !! p) as [i'|]; simpl in Hv; try done.
  injection Hv as Hv.
  destruct (override_library i) as [o|], (override_library i') as [o'|];
    simpl in Hv; try done.
  injection Hv as Hv. rewrite Hv. destruct (reference o'); [apply IH|done].
Qed.

Lemma clear_reference_view p b m q :
  (λ i, reference <$> override_library i) <$> ids (BKE_lib_override_library_clear p b m) !! q
  = (λ i, reference <$> override_library i) <$> ids m !! q.
Proof.
  unfold BKE_lib_override_library_clear.
  destruct (ids m !! p) as [i|] eqn:Hp; [|done].
  destruct (override_library i) as [o|] eqn:Ho; [|done].
  destruct b; [destruct (reference o) as [r|]|].
  all: store_simpl; try done.
  all: try by destruct (ids m !! q).
Qed.

Lemma clear_id_override_None p b m q :
  id_override m q = None → is_Some (ids m !! q) →
  id_override (BKE_lib_override_library_clear p b m) q = None.
Proof.
  intros Ho [i Hi]. pose proof (clear_reference_view p b m q) as Hv.
  unfold id_override in *. rewrite Hi in Ho, Hv.
  destruct (ids (BKE_lib_override_library_clear p b m) !! q) as [i'|]; [|done].
  simpl in Hv. injection Hv as Hv. rewrite Ho in Hv.
  by destruct (override_library i').
Qed.

(** C7, as the code has it. The destination carries an override, the source
    is another ID whose override has a non-null reference, and the walk up
    the override chain of the source ends on an ID without override (no
    template above it). Clearing the override of the destination and running
    [init] against the source then leaves the destination with an empty
    property list. That is the property list a shallow copy from the source
    produces, whereas a deep copy reproduces the properties of the source:
    the two agree exactly when the source records no property. *)
Theorem clear_init_vs_copy (fuel : nat) (m : Main) (dst_id src_id : nat)
    (do_id_user : bool) (d s : ID) (o_d o_s : IDOverrideLibrary) (r anc : nat) :
  ids m !! dst_id = Some d →
  override_library d = Some o_d →
  ids m !! src_id = Some s →
  override_library s = Some o_s →
  reference o_s = Some r →
  dst_id ≠ src_id →
  override_ancestor fuel m (Some src_id) = Some (Some anc) →
  id_override m anc = None →
  ∃ m1,
    BKE_lib_override_library_init fuel dst_id (Some src_id)
      (BKE_lib_override_library_clear dst_id do_id_user m) = Some m1
    ∧ properties <$> id_override m1 dst_id = Some []
    ∧ properties <$> id_override (BKE_lib_override_library_copy dst_id src_id false m) dst_id
      = Some []
    ∧ properties <$> id_override (BKE_lib_override_library_copy dst_id src_id true m) dst_id
      = Some (properties o_s)
    ∧ (properties <$> id_override m1 dst_id
       = properties <$> id_override (BKE_lib_override_library_copy dst_id src_id true m) dst_id
       ↔ properties o_s = []).
Proof.
  intros Hd Hod Hs Hos Hr Hne Hw Hanc.
  assert (properties <$> id_override (BKE_lib_override_library_copy dst_id src_id true m) dst_id
          = Some (properties o_s)) as Hdeep.
  { unfold BKE_lib_override_library_copy. rewrite Hd, Hs, Hod, Hos.
    rewrite override_properties_duplicate_eq.
    unfold BKE_lib_override_library_clear. rewrite Hd, Hod.
    destruct (reference o_d) as [rd|]; store_simpl; reflexivity. }
  assert (properties <$> id_override (BKE_lib_override_library_copy dst_id src_id false m) dst_id
          = Some []) as Hshallow.
  { unfold BKE_lib_override_library_copy. rewrite Hd, Hs, Hod, Hos.
    unfold BKE_lib_override_library_clear. rewrite Hd, Hod.
    destruct (reference o_d) as [rd|]; store_simpl; reflexivity. }
  unfold BKE_lib_override_library_init.
  rewrite (override_ancestor_ext fuel _ m) by apply clear_reference_view.
  rewrite Hw. unfold override_template.
  rewrite clear_id_override_None; [|done|by eapply override_ancestor_is_Some].
  eexists. split; [reflexivity|].
  assert (properties <$>
          id_override
            (lib_override_library_init_empty dst_id (Some src_id)
               (BKE_lib_override_library_clear dst_id do_id_user m)) dst_id = Some [])
    as Hinit.
  { unfold lib_override_library_init_empty, BKE_lib_override_library_clear.
    rewrite Hd, Hod.
    destruct do_id_user; [destruct (reference o_d) as [rd|]|]; store_simpl; reflexivity. }
  rewrite Hinit, Hdeep, Hshallow. repeat split; try done.
  - intros Heq. by simplify_eq.
  - intros ->. done.
Qed.

Lemma clear_init_vs_copy_witness :
  ∃ m1,
    BKE_lib_override_library_init 3 3 (Some 2%nat)
      (BKE_lib_override_library_clear 3 true chairs_main) = Some m1
    ∧ properties <$> id_override m1 3 = Some []
    ∧ properties <$> id_override (BKE_lib_override_library_copy 3 2 false chairs_main) 3
      = Some []
    ∧ properties <$> id_override (BKE_lib_override_library_copy 3 2 true chairs_main) 3
      = Some [legs_property]
    ∧ (properties <$> id_override m1 3
       = properties <$> id_override (BKE_lib_override_library_copy 3 2 true chairs_main) 3
       ↔ [legs_property] = []).
Proof.
  exact (clear_init_vs_copy 3 chairs_main 3 2 true _ _ _ _ 1 1
           eq_refl eq_refl eq_refl eq_refl eq_refl ltac:(done) eq_refl eq_refl).
Defined.

(** C7 as the claim words it fails on [chairs_main]: the source at address 2
    has a non-null reference and one recorded property; after clearing the
    override at address 3 and running [init] against the source (or against
    the reference of the source) the property list is empty, while the deep
    copy holds the property of the source. *)
Lemma clear_init_vs_copy_counterexample :
  id_reference chairs_main 2 = Some 1%nat
  ∧ (∃ m1,
       BKE_lib_override_library_init 3 3 (Some 2%nat)
         (BKE_lib_override_library_clear 3 true chairs_main) = Some m1
       ∧ properties <$> id_override m1 3
         ≠ properties <$> id_override (BKE_lib_override_library_copy 3 2 true chairs_main) 3)
  ∧ (∃ m1,
       BKE_lib_override_library_init 3 3 (Some 1%nat)
         (BKE_lib_override_library_clear 3 true chairs_main) = Some m1
       ∧ properties <$> id_override m1 3
         ≠ properties <$> id_override (BKE_lib_override_library_copy 3 2 true chairs_main) 3).
Proof.
  split; [reflexivity|].
  split; (eexists; split; [reflexivity|]); vm_compute; discriminate.
Qed.

(** ** Frames: what the record store leaves alone *)

Lemma no_us_id_us_plus p m h :
  no_us <$> ids (id_us_plus p m) !! h = no_us <$> ids m !! h.
Proof. destruct p; store_simpl; by destruct (ids m !! h). Qed.

Lemma no_us_id_us_min p m h :
  no_us <$> ids (id_us_min p m) !! h = no_us <$> ids m !! h.
Proof. destruct p; store_simpl; by destruct (ids m !! h). Qed.

Lemma clear_frame p b m h :
  h ≠ p →
  no_us <$> ids (BKE_lib_override_library_clear p b m) !! h = no_us <$> ids m !! h.
Proof.
  intros Hne. unfold BKE_lib_override_library_clear.
  destruct (ids m !! p) as [i|]; [|done].
  destruct (override_library i) as [o|]; [|done].
  destruct b; [rewrite no_us_id_us_min|]; store_simpl; done.
Qed.

Lemma init_empty_frame l r m h :
  h ≠ l →
  no_us <$> ids (lib_override_library_init_empty l r m) !! h = no_us <$> ids m !! h.
Proof.
  intros Hne. unfold lib_override_library_init_empty.
  rewrite lookup_update_id_ne, no_us_id_us_plus by done.
  store_simpl. done.
Qed.

Lemma copy_frame dst src full m h :
  h ≠ dst →
  no_us <$> ids (BKE_lib_override_library_copy dst src full m) !! h = no_us <$> ids m !! h.
Proof.
  intros Hne. unfold BKE_lib_override_library_copy.
  destruct (ids m !! dst) as [d|]; [|done].
  destruct (ids m !! src) as [s|]; [|done].
  destruct (override_library d), (override_library s); try done.
  - rewrite lookup_update_id_ne by done.
    destruct full; [unfold update_override; rewrite lookup_update_id_ne by done|];
    rewrite no_us_id_us_plus; unfold update_override;
    rewrite lookup_update_id_ne by done; by apply clear_frame.
  - unfold BKE_lib_override_library_free.
    rewrite lookup_update_id_ne, clear_frame by done.
    unfold update_override. by rewrite lookup_update_id_ne.
  - rewrite lookup_update_id_ne by done.
    destruct full; [unfold update_override; rewrite lookup_update_id_ne by done|];
    rewrite no_us_id_us_plus; unfold update_override;
    rewrite lookup_update_id_ne by done; by apply init_empty_frame.
Qed.

Lemma init_frame fuel l r m m' h :
  BKE_lib_override_library_init fuel l r m = Some m' →
  h ≠ l →
  no_us <$> ids m' !! h = no_us <$> ids m !! h.
Proof.
  unfold BKE_lib_override_library_init. intros Hi Hne.
  destruct (override_ancestor fuel m r) as [anc|]; [|done].
  destruct (override_template m anc) as [a|].
  - case_bool_decide; simplify_eq.
    + rewrite no_us_id_us_plus. unfold update_override.
      rewrite lookup_update_id_ne by done.
      rewrite no_us_id_us_min. by apply copy_frame.
    + by apply copy_frame.
  - simplify_eq. by apply init_empty_frame.
Qed.

Lemma same_shape_refl m : same_shape m m.
Proof. done. Qed.

Lemma same_shape_trans m1 m2 m3 : same_shape m1 m2 → same_shape m2 m3 → same_shape m1 m3.
Proof. intros [? ?] [? ?]. split; congruence. Qed.

Lemma same_shape_update_id p f m : same_shape m (update_id p f m).
Proof. done. Qed.

Lemma same_shape_id_us_plus p m : same_shape m (id_us_plus p m).
Proof. by destruct p. Qed.

Lemma same_shape_id_us_min p m : same_shape m (id_us_min p m).
Proof. by destruct p. Qed.

Lemma same_shape_clear p b m : same_shape m (BKE_lib_override_library_clear p b m).
Proof.
  unfold BKE_lib_override_library_clear.
  destruct (ids m !! p) as [i|]; [|done].
  destruct (override_library i) as [o|]; [|done].
  destruct b; [destruct (reference o)|]; done.
Qed.

Lemma same_shape_init_empty l r m : same_shape m (lib_override_library_init_empty l r m).
Proof. unfold lib_override_library_init_empty. by destruct r. Qed.

Lemma same_shape_copy dst src full m :
  same_shape m (BKE_lib_override_library_copy dst src full m).
Proof.
  unfold BKE_lib_override_library_copy.
  destruct (ids m !! dst) as [d|]; [|done].
  destruct (ids m !! src) as [s|]; [|done].
  destruct (override_library d), (override_library s); try done.
  - eapply same_shape_trans; [apply same_shape_clear|].
    destruct full; simpl; unfold same_shape; simpl;
      by destruct (id_reference _ _).
  - unfold BKE_lib_override_library_free.
    eapply same_shape_trans; [|apply same_shape_update_id].
    eapply same_shape_trans; [|apply same_shape_clear]. done.
  - eapply same_shape_trans; [apply same_shape_init_empty|].
    destruct full; simpl; unfold same_shape; simpl;
      by destruct (id_reference _ _).
Qed.

Lemma same_shape_init fuel l r m m' :
  BKE_lib_override_library_init fuel l r m = Some m' → same_shape m m'.
Proof.
  unfold BKE_lib_override_library_init. intros Hi.
  destruct (override_ancestor fuel m r) as [anc|]; [|done].
  destruct (override_template m anc) as [a|].
  - case_bool_decide; simplify_eq.
    + eapply same_shape_trans; [apply same_shape_copy|].
      eapply same_shape_trans; [|apply same_shape_id_us_plus].
      eapply same_shape_trans; [|apply same_shape_update_id].
      apply same_shape_id_us_min.
    + apply same_shape_copy.
  - simplify_eq. apply same_shape_init_empty.
Qed.

(** ** Allocation *)

Lemma new_ID_ptr_fresh m : ids m !! new_ID_ptr m = None ∧ new_ID_ptr m ∉ order m.
Proof.
  pose proof (is_fresh (dom (ids m) ∪ list_to_set (order m))) as Hf.
  fold (new_ID_ptr m) in Hf. split.
  - apply not_elem_of_dom. set_solver.
  - set_solver.
Qed.

Lemma init_is_Some_ancestor fuel l r m m' :
  BKE_lib_override_library_init fuel l r m = Some m' →
  ∃ anc, override_ancestor fuel m r = Some anc.
Proof.
  unfold BKE_lib_override_library_init.
  destruct (override_ancestor fuel m r); [eauto|done].
Qed.

(** What [lib_override_library_create_from] does to the registry: nothing
    when the duplication fails; otherwise one new local ID at a fresh
    address, registered first, whose override refers to the reference, and
    use counts apart every other ID is as before. *)
Lemma create_from_spec host fuel m reference_id m' res :
  lib_override_library_create_from host fuel m reference_id = Some (m', res) →
  match res with
  | None => m' = m
  | Some local_id =>
      local_id = new_ID_ptr m
      ∧ order m' = local_id :: order m
      ∧ relations m' = relations m
      ∧ (∀ h, h ≠ local_id → no_us <$> ids m' !! h = no_us <$> ids m !! h)
      ∧ ∃ li o, ids m' !! local_id = Some li
                ∧ lib li = None ∧ newid li = None ∧ tag li = flag_clear 0 LIB_TAG_OVERRIDE_LIBRARY_REFOK
                ∧ override_library li = Some o ∧ reference o = Some reference_id
  end.
Proof.
  unfold lib_override_library_create_from, BKE_id_copy. intros Hc.
  destruct (ids m !! reference_id) as [r|] eqn:Hr; [|by simplify_eq].
  destruct (id_can_copy host r); [|by simplify_eq].
  destruct (new_ID_ptr_fresh m) as [Hfresh Hfresh'].
  set (new := new_ID_ptr m) in *.
  match type of Hc with
  | match BKE_lib_override_library_init _ _ _ ?m0 with _ => _ end = _ => set (m1 := m0) in *
  end.
  destruct (BKE_lib_override_library_init fuel new (Some reference_id) m1) as [m2|] eqn:Hi;
    [|done].
  pose proof (same_shape_init _ _ _ _ _ Hi) as [Ho Hrel].
  destruct (init_is_Some_ancestor _ _ _ _ _ Hi) as [anc Hanc].
  assert (∃ l1, ids m1 !! new = Some l1 ∧ override_library l1 = None ∧ lib l1 = None
                ∧ newid l1 = None ∧ tag l1 = 0) as (l1 & Hl1 & Hol1 & Hlib1 & Hnid1 & Htag1).
  { subst m1. store_simpl. rewrite lookup_insert_eq. simpl. eauto 10. }
  destruct (init_local fuel m1 new (Some reference_id) l1 anc Hl1 Hol1 Hanc)
    as (m2' & l2 & o2 & Hi' & Hl2 & Hol2 & Hr2 & Hhdr & _).
  rewrite Hi in Hi'. simplify_eq.
  assert (lib l2 = None ∧ newid l2 = None
          ∧ tag l2 = flag_clear 0 LIB_TAG_OVERRIDE_LIBRARY_REFOK) as (Hlib2 & Hnid2 & Htag2).
  { repeat split; congruence. }
  assert (∀ h, h ≠ new → no_us <$> ids m2' !! h = no_us <$> ids m !! h) as Hframe.
  { intros h Hne. rewrite (init_frame _ _ _ _ _ h Hi) by done.
    subst m1. store_simpl. by rewrite lookup_insert_ne. }
  destruct (BKE_key_from_id m2' reference_id); simplify_eq.
  - repeat split; try done.
    + intros h Hne. unfold update_key. rewrite lookup_update_id_ne by done. by apply Hframe.
    + unfold update_key. store_simpl. eexists _, _. repeat split; try done.
  - repeat split; try done. eauto 10.
Qed.

(** ** Frames: what the materializer leaves alone *)

Lemma fmap_eq_compose {A B C : Type} (f : A → B) (g : B → C) (x y : option A) :
  f <$> x = f <$> y → (g ∘ f) <$> x = (g ∘ f) <$> y.
Proof. destruct x, y; simpl; congruence. Qed.

Lemma header_of_no_us (x y : option ID) :
  no_us <$> x = no_us <$> y → header <$> x = header <$> y.
Proof.
  intros H. apply (fmap_eq_compose no_us header) in H.
  destruct x, y; simpl in *; done.
Qed.

Lemma header_update_id p f m h :
  (∀ i, header (f i) = header i) →
  header <$> ids (update_id p f m) !! h = header <$> ids m !! h.
Proof.
  intros Hf. rewrite lookup_update_id. case_decide; [|done].
  destruct (ids m !! h); simpl; [by rewrite Hf|done].
Qed.

Lemma header_update_key p f m h :
  header <$> ids (update_key p f m) !! h = header <$> ids m !! h.
Proof. by apply header_update_id. Qed.

Lemma create_from_tag_keys_frame r n m m' :
  create_from_tag_keys r n m = Some m' →
  same_shape m m' ∧ ∀ h, header <$> ids m' !! h = header <$> ids m !! h.
Proof.
  unfold create_from_tag_keys. intros Hk.
  destruct (BKE_key_from_id m r); [|by simplify_eq].
  destruct (BKE_key_from_id _ n); [|done]. simplify_eq.
  split; [done|]. intros h. by rewrite !header_update_key.
Qed.

Lemma kept_refl i : kept i i.
Proof. unfold kept. auto. Qed.

Lemma flag_set_idemp x b : flag_set (flag_set x b) b = flag_set x b.
Proof. unfold flag_set. by rewrite <- Z.lor_assoc, Z.lor_diag. Qed.

Lemma kept_trans i1 i2 i3 : kept i1 i2 → kept i2 i3 → kept i1 i3.
Proof.
  intros (? & ? & ? & Ht1) (? & ? & ? & Ht2). repeat split; try congruence.
  destruct Ht1 as [Ht1|Ht1], Ht2 as [Ht2|Ht2]; rewrite Ht2, Ht1; auto.
  right. by rewrite flag_set_idemp.
Qed.

Lemma kept_of_header i i' : header i' = header i → kept i i'.
Proof. unfold header, kept. intros H. simplify_eq. auto. Qed.

Lemma header_fields i i' :
  header i' = header i →
  name i' = name i ∧ lib i' = lib i ∧ tag i' = tag i ∧ flag i' = flag i
  ∧ newid i' = newid i ∧ override_library i' = override_library i.
Proof. unfold header. intros H. by simplify_eq. Qed.

Lemma fmap_Some_eq {A B : Type} (f : A → B) (x : option A) (y : A) :
  f <$> x = Some (f y) → ∃ x', x = Some x' ∧ f x' = f y.
Proof. destruct x; simpl; intros; simplify_eq; eauto. Qed.

(** One turn of the loop "Override the IDs". *)
Lemma override_one_spec host fuel r m m' b :
  create_from_tag_override_one host fuel r m = Some (m', b) →
  relations m' = relations m
  ∧ (∀ h i, ids m !! h = Some i →
       ∃ i', ids m' !! h = Some i' ∧ kept i i' ∧ (h ≠ r → newid i' = newid i))
  ∧ ∃ ri, ids m !! r = Some ri ∧
      match newid ri with
      | Some n0 =>
          b = true ∧ id_newid m' r = Some n0 ∧ order m' = order m
          ∧ (∀ h, ids m !! h = None → ids m' !! h = None)
      | None =>
          if b then
            let n := new_ID_ptr m in
            id_newid m' r = Some n ∧ order m' = n :: order m
            ∧ (∀ h, h ≠ n → ids m !! h = None → ids m' !! h = None)
            ∧ ∃ ni o, ids m' !! n = Some ni ∧ lib ni = None ∧ newid ni = None
                      ∧ override_library ni = Some o ∧ reference o = Some r
          else
            id_newid m' r = None ∧ order m' = order m
            ∧ (∀ h, ids m !! h = None → ids m' !! h = None)
            ∧ lib_override_library_create_from host fuel m r = Some (m, None)
      end.
Proof.
  unfold create_from_tag_override_one. intros Hone.
  destruct (ids m !! r) as [ri|] eqn:Hr; [|done].
  destruct (newid ri) as [n0|] eqn:Hnid.
  - (* the counterpart was set by the caller *)
    match type of Hone with
    | match create_from_tag_keys _ _ ?m0 with _ => _ end = _ => set (m1 := m0) in *
    end.
    destruct (create_from_tag_keys r n0 m1) as [m2|] eqn:Hk; [|done]. simplify_eq.
    destruct (create_from_tag_keys_frame _ _ _ _ Hk) as [[Ho Hrel] Hhdr].
    assert (∀ h i, ids m !! h = Some i →
              ∃ i', ids m' !! h = Some i' ∧ kept i i' ∧ newid i' = newid i) as Hpre.
    { intros h i Hh. specialize (Hhdr h). subst m1.
      rewrite lookup_update_id, Hh in Hhdr.
      case_decide; simpl in Hhdr; apply fmap_Some_eq in Hhdr as (i' & Hi' & Hhdr);
        apply header_fields in Hhdr as (Hn & Hl & Ht & Hf & Hni & Hov);
        simpl in *; exists i'; unfold kept; auto 10. }
    split; [done|]. split.
    { intros h i Hh. destruct (Hpre h i Hh) as (i' & ? & ? & ?). eauto. }
    exists ri. split; [done|]. rewrite Hnid. repeat split; try done.
    + unfold id_newid. destruct (Hpre r ri Hr) as (i' & -> & _ & ->). done.
    + intros h Hh. specialize (Hhdr h). subst m1.
      rewrite lookup_update_id in Hhdr.
      destruct (ids m' !! h); [|done]. by case_decide; rewrite Hh in Hhdr.
  - destruct (lib_override_library_create_from host fuel m r) as [[m1 nid]|] eqn:Hc; [|done].
    pose proof (create_from_spec _ _ _ _ _ _ Hc) as Hspec.
    destruct nid as [n|].
    + destruct Hspec as (-> & Hord & Hrel & Hframe & li & o & Hli & Hlib & Hnli & Htag & Hol & Href).
      destruct (new_ID_ptr_fresh m) as [Hfresh Hfresh'].
      set (n := new_ID_ptr m) in *.
      match type of Hone with
      | match create_from_tag_keys _ _ ?m0 with _ => _ end = _ => set (m3 := m0) in *
      end.
      destruct (create_from_tag_keys r n m3) as [m4|] eqn:Hk; [|done]. simplify_eq.
      destruct (create_from_tag_keys_frame _ _ _ _ Hk) as [[Ho Hrel'] Hhdr].
      assert (r ≠ n) as Hrn by (intros ->; congruence).
      split; [by rewrite Hrel'|]. split.
      { intros h i Hh. assert (h ≠ n) as Hhn by (intros ->; congruence).
        specialize (Hhdr h). subst m3.
        rewrite lookup_update_id_ne in Hhdr by done.
        pose proof (header_of_no_us _ _ (Hframe h Hhn)) as Hh1.
        rewrite Hh in Hh1. apply fmap_Some_eq in Hh1 as (i1 & Hi1 & Hh1).
        apply header_fields in Hh1 as (Hn1 & Hl1 & Ht1 & Hf1 & Hni1 & Hov1).
        rewrite lookup_update_id, Hi1 in Hhdr.
        case_decide; simpl in Hhdr; apply fmap_Some_eq in Hhdr as (i' & Hi' & Hhdr);
          apply header_fields in Hhdr as (Hn & Hl & Ht & Hf & Hni & Hov);
          simpl in *; exists i'; unfold kept.
        - split; [done|]. split; [|done]. repeat split; try congruence. left; congruence.
        - split; [done|]. split; [|congruence].
          repeat split; try congruence. left; congruence. }
      exists ri. split; [done|]. rewrite Hnid. simpl. repeat split.
      * specialize (Hhdr r). subst m3.
        rewrite lookup_update_id_ne, lookup_update_id_same in Hhdr by done.
        pose proof (header_of_no_us _ _ (Hframe r Hrn)) as Hh1. rewrite Hr in Hh1.
        apply fmap_Some_eq in Hh1 as (i1 & Hi1 & Hh1). rewrite Hi1 in Hhdr.
        apply fmap_Some_eq in Hhdr as (i' & Hi' & Hhdr).
        apply header_fields in Hhdr as (Hn & Hl & Ht & Hf & Hni & Hov).
        unfold id_newid. rewrite Hi'. exact Hni.
      * rewrite Ho. simpl. by rewrite Hord.
      * intros h Hhn Hh. specialize (Hhdr h). subst m3.
        rewrite lookup_update_id_ne in Hhdr by done.
        pose proof (header_of_no_us _ _ (Hframe h Hhn)) as Hh1. rewrite Hh in Hh1.
        rewrite lookup_update_id in Hhdr.
        destruct (ids m' !! h); [|done].
        by case_decide; destruct (ids m1 !! h).
      * specialize (Hhdr n). subst m3.
        rewrite lookup_update_id_same, lookup_update_id_ne, Hli in Hhdr by done.
        apply fmap_Some_eq in Hhdr as (i' & Hi' & Hhdr).
        apply header_fields in Hhdr as (Hn & Hl & Ht & Hf & Hni & Hov).
        simpl in *. exists i', o. repeat split; congruence.
    + simplify_eq. split; [done|]. split.
      { intros h i Hh. rewrite lookup_update_id, Hh.
        case_decide; simplify_eq; eexists; (split; [reflexivity|]);
          (split; [unfold kept; simpl; auto|done]). }
      exists ri. split; [done|]. rewrite Hnid. repeat split.
      * unfold id_newid. by rewrite lookup_update_id_same, Hr.
      * intros h Hh. rewrite lookup_update_id, Hh. by case_decide.
Qed.

Lemma id_newid_lookup m h i : ids m !! h = Some i → id_newid m h = newid i.
Proof. unfold id_newid. by intros ->. Qed.

Lemma id_reference_kept m m' h i i' :
  ids m !! h = Some i → ids m' !! h = Some i' → kept i i' →
  id_reference m' h = id_reference m h.
Proof.
  intros Hi Hi' (_ & _ & Ho & _). unfold id_reference, id_override.
  by rewrite Hi, Hi', Ho.
Qed.

(** The loop "Override the IDs" over a worklist of registered IDs: the IDs
    that were there are kept; an ID of the worklist without counterpart gets
    a new local override of it as counterpart, at an address that was free;
    nothing else is created. *)
Lemma override_loop_spec host fuel todo m m' b :
  create_from_tag_override host fuel todo m = Some (m', b) →
  (∀ r, r ∈ todo → is_Some (ids m !! r)) →
  relations m' = relations m
  ∧ (∀ h i, ids m !! h = Some i →
       ∃ i', ids m' !! h = Some i' ∧ kept i i'
             ∧ (newid i' = newid i
                ∨ (newid i = None ∧ h ∈ todo
                   ∧ ∃ n ni, newid i' = Some n ∧ ids m !! n = None
                             ∧ ids m' !! n = Some ni ∧ lib ni = None
                             ∧ id_reference m' n = Some h)))
  ∧ (∀ h, ids m !! h = None → is_Some (ids m' !! h) →
       ∃ r, r ∈ todo ∧ id_newid m r = None ∧ id_newid m' r = Some h)
  ∧ (∃ created, order m' = created ++ order m
                ∧ NoDup created
                ∧ ∀ h, h ∈ created → ids m !! h = None ∧ is_Some (ids m' !! h))
  ∧ (b = true → ∀ r, r ∈ todo → is_Some (id_newid m' r))
  ∧ (b = false →
       ∃ r mk, r ∈ todo
               ∧ lib_override_library_create_from host fuel mk r = Some (mk, None)).
Proof.
  revert m. induction todo as [|r rest IH]; intros m Hloop Htodo.
  { simpl in Hloop. simplify_eq. split; [done|]. split.
    { intros h i Hh. exists i. split; [done|]. split; [apply kept_refl|auto]. }
    split; [intros h Hh [? ?]; congruence|].
    split; [exists []; split; [done|split; [constructor|intros ? ?%elem_of_nil; done]]|].
    split; [intros _ ? ?%elem_of_nil; done|done]. }
  simpl in Hloop.
  destruct (create_from_tag_override_one host fuel r m) as [[m1 b1]|] eqn:Hone; [|done].
  destruct (override_one_spec _ _ _ _ _ _ Hone) as (Hrel1 & Hpre1 & ri & Hr & Hcase).
  destruct b1; simplify_eq.
  2:{ (* the duplication failed: the loop is left *)
    destruct (newid ri) as [n0|] eqn:Hnid; [by destruct Hcase|].
    destruct Hcase as (Hn1 & Hord & Hnone & Hfail).
    split; [done|]. split.
    { intros h i Hh. destruct (Hpre1 h i Hh) as (i' & Hi' & Hk & Hn).
      exists i'. split; [done|]. split; [done|]. left.
      destruct (decide (h = r)) as [->|Hne]; [|auto].
      rewrite (id_newid_lookup _ _ _ Hi') in Hn1. simplify_eq. congruence. }
    split; [intros h Hh [? Hx]; rewrite Hnone in Hx; done|].
    split; [exists []; split; [done|]; split; [constructor|];
            intros ? ?%elem_of_nil; done|].
    split; [done|]. intros _. exists r, m. split; [apply elem_of_cons; auto|done]. }
  assert (∀ r', r' ∈ rest → is_Some (ids m1 !! r')) as Htodo1.
  { intros r' Hr'. destruct (Htodo r') as [i Hi]; [apply elem_of_cons; auto|].
    destruct (Hpre1 r' i Hi) as (i' & -> & _). eauto. }
  destruct (IH m1 Hloop Htodo1)
    as (Hrel & Hpre & Hnew & (created & Hord & Hnd & Hcr) & Hall & Hfail).
  (* the counterpart of [r] after this turn *)
  assert (∃ n r1, id_newid m1 r = Some n ∧ ids m1 !! r = Some r1 ∧ newid r1 = Some n)
    as (n & r1 & Hn1 & Hr1 & Hnr1).
  { destruct (Hpre1 r ri Hr) as (r1 & Hr1 & _).
    destruct (newid ri); [destruct Hcase as (_ & Hn & _)|destruct Hcase as (Hn & _)];
      eexists _, r1; (split; [exact Hn|]); split; try done;
      by rewrite (id_newid_lookup _ _ _ Hr1) in Hn. }
  assert (id_newid m' r = Some n) as Hn'.
  { destruct (Hpre r r1 Hr1) as (r' & Hr' & _ & [Hn|(Hn & _)]); [|congruence].
    rewrite (id_newid_lookup _ _ _ Hr'). congruence. }
  split; [congruence|]. split.
  { intros h i Hh. destruct (Hpre1 h i Hh) as (i1 & Hi1 & Hk1 & Hn1h).
    destruct (Hpre h i1 Hi1) as (i' & Hi' & Hk & Hnh).
    exists i'. split; [done|]. split; [by eapply kept_trans|].
    destruct (decide (h = r)) as [->|Hne].
    - assert (i = ri) as -> by congruence.
      assert (i1 = r1) as -> by congruence.
      rewrite (id_newid_lookup _ _ _ Hi') in Hn'.
      destruct (newid ri) as [n0|] eqn:Hni.
      + destruct Hcase as (_ & Hn0 & _). left. congruence.
      + destruct Hcase as (Hn0 & Hord1 & Hnone1 & ni & o & Hni1 & Hlib & _ & Hov & Href).
        right. split; [done|]. split; [apply elem_of_cons; auto|].
        assert (n = new_ID_ptr m) as -> by congruence.
        destruct (Hpre _ ni Hni1) as (ni' & Hni' & Hkn & _).
        exists (new_ID_ptr m), ni'. split; [done|].
        split; [apply new_ID_ptr_fresh|]. split; [done|].
        split; [destruct Hkn as (_ & -> & _); done|].
        rewrite (id_reference_kept _ _ _ _ _ Hni1 Hni' Hkn).
        unfold id_reference, id_override. by rewrite Hni1, Hov.
    - specialize (Hn1h Hne). destruct Hnh as [Hnh|(Hnone & Hin & n' & ni & Hn'' & Hfree & Hni & Hlib & Href)].
      + left. congruence.
      + right. split; [congruence|]. split; [apply elem_of_cons; auto|].
        exists n', ni. repeat split; try done.
        destruct (ids m !! n') as [x|] eqn:Hx; [|done].
        destruct (Hpre1 n' x Hx) as (? & ? & _). congruence. }
  split.
  { intros h Hh Hh'. destruct (ids m1 !! h) as [i1|] eqn:Hh1.
    - (* created by this turn *)
      exists r. split; [apply elem_of_cons; auto|].
      destruct (newid ri) as [n0|] eqn:Hnid.
      + destruct Hcase as (_ & _ & _ & Hnone). rewrite Hnone in Hh1; done.
      + destruct Hcase as (Hn0 & _ & Hnone & _).
        split; [by rewrite (id_newid_lookup _ _ _ Hr)|].
        destruct (decide (h = new_ID_ptr m)) as [->|Hne]; [congruence|].
        rewrite Hnone in Hh1; done.
    - destruct (Hnew h Hh1 Hh') as (r' & Hin & Hn1' & Hn2').
      exists r'. split; [apply elem_of_cons; auto|]. split; [|done].
      assert (r' ≠ r) as Hne by (intros ->; congruence).
      destruct (Htodo r') as [i Hi]; [apply elem_of_cons; auto|].
      destruct (Hpre1 r' i Hi) as (i1 & Hi1 & _ & Hnid). specialize (Hnid Hne).
      rewrite (id_newid_lookup _ _ _ Hi). rewrite (id_newid_lookup _ _ _ Hi1) in Hn1'.
      congruence. }
  split.
  { destruct (newid ri) as [n0|] eqn:Hnid.
    - destruct Hcase as (_ & _ & Hord1 & Hnone).
      exists created. rewrite Hord, Hord1. split; [done|]. split; [done|].
      intros h Hin. destruct (Hcr h Hin) as [Hfree Hex]. split; [|done].
      destruct (ids m !! h) as [x|] eqn:Hx; [|done].
      destruct (Hpre1 h x Hx) as (? & ? & _). congruence.
    - destruct Hcase as (_ & Hord1 & Hnone & ni & o & Hni1 & _).
      exists (created ++ [new_ID_ptr m]). rewrite Hord, Hord1.
      split; [by rewrite <- app_assoc|]. split.
      + apply NoDup_app. split; [done|]. split; [|apply NoDup_singleton].
        intros h Hin ->%list_elem_of_singleton.
        destruct (Hcr _ Hin) as [Hfree _]. congruence.
      + intros h [Hin| ->%list_elem_of_singleton]%elem_of_app.
        * destruct (Hcr h Hin) as [Hfree Hex]. split; [|done].
          destruct (ids m !! h) as [x|] eqn:Hx; [|done].
          destruct (Hpre1 h x Hx) as (? & ? & _). congruence.
        * split; [apply new_ID_ptr_fresh|].
          destruct (Hpre _ ni Hni1) as (? & -> & _). eauto. }
  split; [intros Hb r' [->|Hin]%elem_of_cons; [by rewrite Hn'|]; by apply Hall|].
  intros Hb. destruct (Hfail Hb) as (r' & mk & Hin & Hmk).
  exists r', mk. split; [apply elem_of_cons; auto|done].
Qed.

Lemma contents_frame_refl m : contents_frame m m.
Proof. by split. Qed.

Lemma contents_frame_trans m1 m2 m3 :
  contents_frame m1 m2 → contents_frame m2 m3 → contents_frame m1 m3.
Proof.
  intros [Hs1 Hf1] [Hs2 Hf2]. split; [by eapply same_shape_trans|].
  intros h. by rewrite Hf2, Hf1.
Qed.

Lemma foldl_frame {A : Type} (R : Main → Main → Prop) (f : Main → A → Main) l m :
  (∀ m, R m m) → (∀ m1 m2 m3, R m1 m2 → R m2 m3 → R m1 m3) →
  (∀ m x, R m (f m x)) →
  R m (foldl f m l).
Proof.
  intros Hrefl Htrans Hstep. revert m.
  induction l as [|x l IH]; intros m; simpl; [apply Hrefl|].
  eapply Htrans; [apply Hstep|apply IH].
Qed.

Lemma relink_ex_frame p old new m :
  contents_frame m (BKE_libblock_relink_ex p old new true m).
Proof.
  split; [done|]. intros h. unfold BKE_libblock_relink_ex.
  rewrite lookup_update_id. case_decide; [|done]. by destruct (ids m !! h).
Qed.

Lemma relink_one_frame r l m : contents_frame m (create_from_tag_relink_one r l m).
Proof.
  unfold create_from_tag_relink_one.
  apply (foldl_frame contents_frame);
    [apply contents_frame_refl|apply contents_frame_trans|].
  intros m0 x. destruct (ids m0 !! x) as [o|]; [|apply contents_frame_refl].
  destruct (_ && _); [apply relink_ex_frame|apply contents_frame_refl].
Qed.

Lemma relink_frame todo m : contents_frame m (create_from_tag_relink todo m).
Proof.
  unfold create_from_tag_relink.
  apply (foldl_frame contents_frame);
    [apply contents_frame_refl|apply contents_frame_trans|].
  intros m0 x. destruct (id_newid m0 x); [apply relink_one_frame|apply contents_frame_refl].
Qed.

Lemma header_of_no_contents (x y : option ID) :
  no_contents <$> x = no_contents <$> y → header <$> x = header <$> y.
Proof.
  intros H. apply (fmap_eq_compose no_contents header) in H.
  destruct x, y; simpl in *; done.
Qed.

Lemma contents_frame_lookup m m' h i :
  contents_frame m m' → ids m !! h = Some i →
  ∃ i', ids m' !! h = Some i' ∧ header i' = header i ∧ us i' = us i.
Proof.
  intros [_ Hf] Hi. specialize (Hf h). rewrite Hi in Hf.
  apply fmap_Some_eq in Hf as (i' & Hi' & Hnc). exists i'. split; [done|].
  unfold no_contents, set_contents, header in *. simpl in Hnc.
  injection Hnc as -> -> -> -> -> -> ->. done.
Qed.

Lemma contents_frame_lookup_None m m' h :
  contents_frame m m' → ids m !! h = None → ids m' !! h = None.
Proof.
  intros [_ Hf] Hi. specialize (Hf h). rewrite Hi in Hf.
  by destruct (ids m' !! h).
Qed.

(** ** The cleanup loop *)

Lemma cleanup_one_lookup m r h :
  ids (create_from_tag_cleanup_one m r) !! h
  = if decide (id_newid m r = Some h) then None
    else if decide (r = h) then set_newid None <$> ids m !! h
    else ids m !! h.
Proof.
  unfold create_from_tag_cleanup_one. rewrite lookup_update_id.
  destruct (id_newid m r) as [n|]; simpl.
  - destruct (decide (n = h)) as [->|Hne].
    + rewrite (decide_True (P := Some h = Some h)) by done.
      rewrite lookup_delete_eq. by case_decide.
    + rewrite (decide_False (P := Some n = Some h)) by congruence.
      by rewrite lookup_delete_ne.
  - destruct (decide (None = Some h)); done.
Qed.

(** The cleanup over a worklist none of whose counterparts is in the
    worklist itself, ID by ID: the counterparts are deleted, the IDs of the
    worklist lose their counterpart, the other IDs are as they were. *)
Lemma cleanup_lookup todo m h :
  (∀ r n, r ∈ todo → id_newid m r = Some n → n ∉ todo) →
  ids (create_from_tag_cleanup todo m) !! h
  = if decide (Exists (λ r, id_newid m r = Some h) todo) then None
    else if decide (h ∈ todo) then set_newid None <$> ids m !! h
    else ids m !! h.
Proof.
  revert m. induction todo as [|r0 rest IH]; intros m Hpre.
  { change (create_from_tag_cleanup [] m) with m.
    destruct (decide (Exists _ [])) as [?%Exists_nil|]; [done|].
    destruct (decide (h ∈ [])) as [?%elem_of_nil|]; done. }
  change (create_from_tag_cleanup (r0 :: rest) m)
    with (create_from_tag_cleanup rest (create_from_tag_cleanup_one m r0)).
  set (m1 := create_from_tag_cleanup_one m r0).
  assert (∀ r, r ∈ r0 :: rest →
            id_newid m1 r = if decide (r = r0) then None else id_newid m r) as Hnid1.
  { intros r Hin. unfold id_newid at 1. subst m1. rewrite cleanup_one_lookup.
    destruct (decide (id_newid m r0 = Some r)) as [Hn|_].
    { exfalso. eapply (Hpre r0 r); [apply elem_of_cons; auto|done|done]. }
    destruct (decide (r = r0)) as [->|Hne].
    - rewrite decide_True by done. by destruct (ids m !! r0).
    - rewrite decide_False by done. done. }
  assert (∀ r n, r ∈ rest → id_newid m1 r = Some n → n ∉ rest) as Hpre1.
  { intros r n Hin Hn Hn'.
    rewrite Hnid1 in Hn by (apply elem_of_cons; auto). case_decide; [done|].
    apply (Hpre r n); [apply elem_of_cons; auto|done|apply elem_of_cons; auto]. }
  rewrite (IH m1 Hpre1). clear IH.
  assert (ids m1 !! h
          = if decide (id_newid m r0 = Some h) then None
            else if decide (r0 = h) then set_newid None <$> ids m !! h
            else ids m !! h) as Hh1 by apply cleanup_one_lookup.
  destruct (decide (id_newid m r0 = Some h)) as [Hn0|Hn0].
  { rewrite Hh1. rewrite (decide_True (P := Exists _ (r0 :: rest))) by (by left).
    by repeat case_decide. }
  assert (Exists (λ r, id_newid m1 r = Some h) rest
          ↔ Exists (λ r, id_newid m r = Some h) (r0 :: rest)) as Hex.
  { rewrite Exists_cons, !Exists_exists. split.
    - intros (r & Hin & Hn). right. exists r. split; [done|].
      rewrite Hnid1 in Hn by (apply elem_of_cons; auto). by case_decide.
    - intros [?|(r & Hin & Hn)]; [done|]. exists r. split; [done|].
      rewrite Hnid1 by (apply elem_of_cons; auto).
      rewrite decide_False; [done|]. intros ->. done. }
  destruct (decide (Exists (λ r, id_newid m1 r = Some h) rest)) as [He|He].
  { rewrite decide_True by (by apply Hex). done. }
  rewrite (decide_False (P := Exists _ (r0 :: rest))) by (by rewrite <- Hex).
  rewrite Hh1. destruct (decide (r0 = h)) as [->|Hne].
  - rewrite (decide_True (P := h ∈ h :: rest)) by (apply elem_of_cons; auto).
    case_decide; [|done]. by destruct (ids m !! h).
  - destruct (decide (h ∈ rest)) as [Hin|Hin].
    + by rewrite decide_True by (apply elem_of_cons; auto).
    + rewrite decide_False; [done|]. intros [?|?]%elem_of_cons; done.
Qed.

Lemma elem_of_todo_ids host m r :
  r ∈ todo_ids host m →
  ∃ i, ids m !! r = Some i ∧ flag_test (tag i) LIB_TAG_DOIT = true
       ∧ ID_IS_LINKED i = true
       ∧ BKE_idtype_idcode_is_linkable host (GS (name i)) = true.
Proof.
  unfold todo_ids. intros [Ht _]%list_elem_of_filter. unfold is_todo in Ht.
  destruct (ids m !! r) as [i|]; [|done]. exists i.
  apply Is_true_true in Ht. apply andb_prop in Ht as [[? ?]%andb_prop ?]. auto.
Qed.




(** ** Apply engine *)

(** C5. On an override template (null reference) and on an override whose
    reference is a placeholder for missing data,
    [BKE_lib_override_library_operations_create] returns false and the
    registry, hence the entity with its override properties and tags, is
    what it was. *)
Theorem operations_create_nothing_to_do (host : Host) (m : Main) (local : nat)
    (l : ID) (o : IDOverrideLibrary) :
  ids m !! local = Some l →
  override_library l = Some o →
  (reference o = None
   ∨ ∃ r ri, reference o = Some r ∧ ids m !! r = Some ri ∧ ID_MISSING ri = true) →
  BKE_lib_override_library_operations_create host m local = Some (m, false).
Proof.
  intros Hl Ho Hcase. unfold BKE_lib_override_library_operations_create.
  rewrite Hl, Ho. destruct Hcase as [->|(r & ri & -> & -> & ->)]; reflexivity.
Qed.

Lemma operations_create_nothing_to_do_witness :
  BKE_lib_override_library_operations_create example_host template_main 1
  = Some (template_main, false)
  ∧ BKE_lib_override_library_operations_create example_host missing_main 2
    = Some (missing_main, false).
Proof.
  split.
  - apply (operations_create_nothing_to_do example_host template_main 1 _ _
             eq_refl eq_refl).
    left. reflexivity.
  - apply (operations_create_nothing_to_do example_host missing_main 2 _ _
             eq_refl eq_refl).
    right. eexists _, _. repeat split; reflexivity.
Defined.

Lemma view_update_id {A : Type} (v : ID → A) p f m h :
  (∀ i, v (f i) = v i) →
  v <$> ids (update_id p f m) !! h = v <$> ids m !! h.
Proof.
  intros Hf. rewrite lookup_update_id. case_decide; [|done].
  destruct (ids m !! h); simpl; [by rewrite Hf|done].
Qed.

(** Copying an ID registers one new ID, at a fresh address. *)
Lemma id_copy_spec host m p m2 new :
  BKE_id_copy host m p = Some (m2, new) →
  new = new_ID_ptr m ∧ ids m !! new = None ∧ (new ∉ order m)
  ∧ order m2 = new :: order m ∧ relations m2 = relations m
  ∧ (∀ h, h ≠ new → ids m2 !! h = ids m !! h)
  ∧ ∃ i d, ids m !! p = Some i ∧ ids m2 !! new = Some d
           ∧ name d = id_new_name host m (name i) ∧ lib d = None
           ∧ links (contents d) = links (contents i)
           ∧ rna_values (contents d) = rna_values (contents i)
           ∧ (is_Some (key (contents d)) ↔ is_Some (key (contents i))).
Proof.
  unfold BKE_id_copy. intros Hc.
  destruct (ids m !! p) as [i|] eqn:Hp; [|done].
  destruct (id_can_copy host i); [|done]. simplify_eq.
  destruct (new_ID_ptr_fresh m) as [Hf Hf'].
  repeat split; try done.
  - intros h Hne. simpl. by rewrite lookup_insert_ne.
  - eexists i, _. split; [done|]. simpl. rewrite lookup_insert_eq.
    split; [done|]. repeat split; try done.
    + simpl. destruct (key (contents i)); simpl; intros [? ?]; eauto; done.
    + simpl. destruct (key (contents i)); simpl; intros [? ?]; eauto; done.
Qed.

Lemma invalidate_poses_frame local m : contents_frame m (update_invalidate_poses local m).
Proof.
  unfold update_invalidate_poses.
  apply (foldl_frame contents_frame);
    [apply contents_frame_refl|apply contents_frame_trans|].
  intros m0 x. destruct (ids m0 !! x) as [ob|]; [|apply contents_frame_refl].
  destruct (pose (contents ob)); [|apply contents_frame_refl].
  destruct (_ && _); [|apply contents_frame_refl].
  split; [done|]. intros h. by apply view_update_id.
Qed.

Lemma invalidate_poses_lookup local m h i :
  ids m !! h = Some i → GS (name i) ≠ ID_OB →
  ids (update_invalidate_poses local m) !! h = Some i.
Proof.
  unfold update_invalidate_poses. generalize (order m). intros l0. revert m.
  induction l0 as [|x l0 IH]; intros m Hi Hgs; [done|].
  simpl. apply IH; [|done].
  destruct (ids m !! x) as [ob|] eqn:Hx; [|done].
  destruct (pose (contents ob)); [|done].
  destruct (bool_decide (GS (name ob) = ID_OB)) eqn:Hob; [|done].
  destruct (bool_decide (ob_data (contents ob) = Some local)); [|done].
  unfold andb. rewrite lookup_update_id_ne; [done|]. intros ->.
  apply bool_decide_eq_true in Hob. congruence.
Qed.

Lemma filter_ne_notin (p : nat) (l : list nat) : p ∉ l → filter (λ h, h ≠ p) l = l.
Proof.
  induction l as [|x l IH]; intros Hp; [done|].
  apply not_elem_of_cons in Hp as [Hne Hp].
  rewrite filter_cons_True by done. by rewrite IH.
Qed.

Lemma lookup_swap a b m ia ib h :
  a ≠ b → ids m !! a = Some ia → ids m !! b = Some ib →
  ids (BKE_lib_id_swap a b m) !! h
  = if decide (h = a) then Some (set_contents (contents ib) ia)
    else if decide (h = b) then Some (set_contents (contents ia) ib)
    else ids m !! h.
Proof.
  intros Hne Ha Hb. unfold BKE_lib_id_swap. rewrite Ha, Hb.
  repeat case_decide; simplify_eq; store_simpl; done.
Qed.

(** The end of [BKE_lib_override_library_update], from the release of the
    duplicate on. *)
Lemma update_tail_spec local tmp_id (b : bool) m l o :
  local ≠ tmp_id → ids m !! local = Some l → override_library l = Some o →
  (b = true → GS (name l) ≠ ID_OB) →
  let m' := id_tag_set local LIB_TAG_OVERRIDE_LIBRARY_REFOK
              (update_override local (set_storage None)
                 (if b then update_invalidate_poses local (BKE_id_free_ex tmp_id m)
                  else BKE_id_free_ex tmp_id m)) in
  ids m' !! tmp_id = None
  ∧ order m' = filter (λ h, h ≠ tmp_id) (order m)
  ∧ relations m' = relations m
  ∧ ids m' !! local
    = Some (set_tag (flag_set (tag l) LIB_TAG_OVERRIDE_LIBRARY_REFOK)
              (set_override_library (Some (set_storage None o)) l))
  ∧ ∀ h, h ≠ local → h ≠ tmp_id →
         no_contents <$> ids m' !! h = no_contents <$> ids m !! h.
Proof.
  intros Hne Hl Ho Hb.
  set (mf := BKE_id_free_ex tmp_id m).
  assert (ids mf !! local = Some l) as Hlf
    by (unfold mf; simpl; by rewrite lookup_delete_ne).
  assert (ids mf !! tmp_id = None) as Htf
    by (unfold mf; simpl; by rewrite lookup_delete_eq).
  assert (∀ h, h ≠ tmp_id → ids mf !! h = ids m !! h) as Hof
    by (intros h Hh; unfold mf; simpl; by rewrite lookup_delete_ne).
  set (mp := if b then update_invalidate_poses local mf else mf).
  assert (contents_frame mf mp) as Hfr.
  { unfold mp. destruct b; [apply invalidate_poses_frame|apply contents_frame_refl]. }
  assert (ids mp !! local = Some l) as Hlp.
  { unfold mp. destruct b; [|done]. apply invalidate_poses_lookup; auto. }
  cbv zeta. fold mf. fold mp. unfold id_tag_set, update_override. repeat split.
  - rewrite !lookup_update_id_ne by done.
    by apply (contents_frame_lookup_None mf mp).
  - destruct Hfr as [[Hord _] _]. simpl. by rewrite Hord.
  - destruct Hfr as [[_ Hrel] _]. simpl. by rewrite Hrel.
  - rewrite !lookup_update_id_same, Hlp. simpl. by rewrite Ho.
  - intros h Hh Hh'. rewrite !lookup_update_id_ne by done.
    destruct Hfr as [_ Hfr]. by rewrite Hfr, Hof.
Qed.

(** [BKE_lib_override_library_update] from the duplication on, when the
    duplication succeeds. *)
Lemma update_apply_spec host m local l o reference_id m2 tmp_id d :
  ids m !! local = Some l →
  override_library l = Some o →
  reference o = Some reference_id →
  BKE_id_copy host m reference_id = Some (m2, tmp_id) →
  ids m2 !! tmp_id = Some d →
  ∃ m',
    lib_override_library_update_apply host m local = Some m'
    ∧ ids m' !! tmp_id = None
    ∧ same_shape m m'
    ∧ ids m' !! local
      = Some (set_tag (flag_set (tag l) LIB_TAG_OVERRIDE_LIBRARY_REFOK)
                (set_override_library (Some (set_storage None o))
                   (set_contents
                      (update_merged_contents local (contents l) (contents d)
                         (RNA_struct_override_apply host
                            (update_duplicate_contents (contents l) (contents d))
                            (contents l) (storage o) o))
                      l)))
    ∧ ∀ h, h ≠ local → no_contents <$> ids m' !! h = no_contents <$> ids m !! h.
Proof.
  intros Hl Ho Hr Hcopy Hd.
  destruct (id_copy_spec _ _ _ _ _ Hcopy)
    as (-> & Hfresh & Hfresh' & Hord & Hrel & Hother & _).
  set (tmp_id := new_ID_ptr m) in *.
  assert (local ≠ tmp_id) as Hne by (intros ->; congruence).
  assert (ids m2 !! local = Some l) as Hl2 by (by rewrite Hother).
  unfold lib_override_library_update_apply. rewrite Hl, Ho, Hr, Hcopy.
  set (m3 := update_id tmp_id (set_name (name l)) m2).
  assert (ids m3 !! tmp_id = Some (set_name (name l) d)) as Hd3
    by (by apply lookup_update_id_eq).
  assert (ids m3 !! local = Some l) as Hl3
    by (unfold m3; by rewrite lookup_update_id_ne).
  assert (BKE_key_from_id m3 local = key (contents l)) as ->
    by (unfold BKE_key_from_id; by rewrite Hl3).
  assert (BKE_key_from_id m3 tmp_id = key (contents d)) as ->
    by (unfold BKE_key_from_id; by rewrite Hd3).
  (* the duplicate as the apply pass receives it *)
  set (m4 := match key (contents l) with
             | Some lk => match key (contents d) with
                          | Some _ => update_key tmp_id _ m3 | None => m3 end
             | None => m3 end).
  assert (ids m4 !! tmp_id
          = Some (set_name (name l)
                    (set_contents (update_duplicate_contents (contents l) (contents d)) d)))
    as Hd4.
  { unfold m4, update_duplicate_contents, update_key.
    destruct (key (contents l)) as [lk|]; destruct (key (contents d)) as [dk|] eqn:Hdk;
      try (rewrite Hd3; by destruct d).
    rewrite lookup_update_id_same, Hd3. simpl. by rewrite Hdk. }
  assert (∀ h, h ≠ tmp_id → ids m4 !! h = ids m !! h) as Hother4.
  { intros h Hh. rewrite <- Hother by done. unfold m4, update_key, m3.
    destruct (key (contents l)); destruct (key (contents d));
      by rewrite ?lookup_update_id_ne by done. }
  assert (order m4 = tmp_id :: order m ∧ relations m4 = relations m) as [Hord4 Hrel4].
  { unfold m4, update_key, m3.
    destruct (key (contents l)); destruct (key (contents d)); by simpl. }
  clearbody m4. rewrite Hd4. simpl.
  set (applied := RNA_struct_override_apply host _ _ _ _).
  set (m5 := update_id tmp_id (set_contents applied) m4).
  set (tmp5 := set_contents applied
                 (set_name (name l)
                    (set_contents (update_duplicate_contents (contents l) (contents d)) d))).
  assert (ids m5 !! tmp_id = Some tmp5) as Hd5 by (by apply lookup_update_id_eq).
  assert (ids m5 !! local = Some l) as Hl5.
  { unfold m5. rewrite lookup_update_id_ne by done. by rewrite Hother4. }
  set (m6 := BKE_lib_id_swap local tmp_id m5).
  pose proof (lookup_swap local tmp_id m5 l tmp5 local Hne Hl5 Hd5) as Hl6.
  pose proof (lookup_swap local tmp_id m5 l tmp5 tmp_id Hne Hl5 Hd5) as Hd6.
  rewrite decide_True in Hl6 by done.
  rewrite decide_False, decide_True in Hd6 by done.
  fold m6 in Hl6, Hd6. simpl in Hl6, Hd6.
  assert (∀ h, h ≠ local → h ≠ tmp_id → ids m6 !! h = ids m !! h) as Hother6.
  { intros h Hh Hh'. unfold m6.
    rewrite (lookup_swap local tmp_id m5 l tmp5 h Hne Hl5 Hd5).
    rewrite !decide_False by done. unfold m5.
    rewrite lookup_update_id_ne by done. by apply Hother4. }
  assert (order m6 = tmp_id :: order m ∧ relations m6 = relations m) as [Hord6 Hrel6].
  { unfold m6, BKE_lib_id_swap. by rewrite Hl5, Hd5. }
  clearbody m6.
  set (m7 := match key (contents l) with
             | Some _ => match key (contents d) with
                         | Some _ => update_swap_keys local tmp_id m6 | None => m6 end
             | None => m6 end).
  set (merged := update_merged_contents local (contents l) (contents d) applied).
  assert (ids m7 !! local = Some (set_contents merged l)) as Hl7.
  { unfold m7, merged, update_merged_contents, update_swap_keys, BKE_key_from_id.
    rewrite Hl6, Hd6. simpl.
    destruct (key (contents l)) as [lk|] eqn:Hlk; [|done].
    destruct (key (contents d)) as [dk|]; [|done].
    destruct (key applied) as [ak|] eqn:Hak; [|done].
    rewrite lookup_update_id_ne, lookup_update_id_same, Hl6 by done.
    done. }
  assert (∀ h, h ≠ local → h ≠ tmp_id → ids m7 !! h = ids m !! h) as Hother7.
  { intros h Hh Hh'. rewrite <- Hother6 by done.
    unfold m7, update_swap_keys.
    destruct (key (contents l)); [|done]. destruct (key (contents d)); [|done].
    destruct (BKE_key_from_id m6 local); [|done].
    destruct (BKE_key_from_id m6 tmp_id); [|done].
    by rewrite !lookup_update_id_ne by done. }
  assert (order m7 = tmp_id :: order m ∧ relations m7 = relations m) as [Hord7 Hrel7].
  { rewrite <- Hord6, <- Hrel6. unfold m7, update_swap_keys.
    destruct (key (contents l)); [|done]. destruct (key (contents d)); [|done].
    destruct (BKE_key_from_id m6 local); [|done].
    by destruct (BKE_key_from_id m6 tmp_id). }
  clearbody m7.
  assert (bool_decide (GS (name l) = ID_AR) = true
          → GS (name (set_contents merged l)) ≠ ID_OB) as Hb.
  { intros Hb%bool_decide_eq_true. simpl. by rewrite Hb. }
  destruct (update_tail_spec local tmp_id (bool_decide (GS (name l) = ID_AR)) m7
              (set_contents merged l) o Hne Hl7 Ho Hb)
    as (Ht & Ho' & Hr' & Hl' & Hf').
  eexists. split; [done|]. split; [done|]. split.
  { split; [|by rewrite Hr'].
    rewrite Ho', Hord7. rewrite filter_cons_False by (intros ?; done).
    by apply filter_ne_notin. }
  split; [done|]. intros h Hh.
  destruct (decide (h = tmp_id)) as [->|Hh'].
  - by rewrite Ht, Hfresh.
  - by rewrite Hf', Hother7.
Qed.

Lemma update_view_of_no_contents (x y : option ID) :
  no_contents <$> x = no_contents <$> y → update_view <$> x = update_view <$> y.
Proof.
  intros H. apply (fmap_eq_compose no_contents update_view) in H.
  destruct x, y; simpl in *; done.
Qed.

Lemma update_apply_frame host m local m' :
  lib_override_library_update_apply host m local = Some m' →
  same_shape m m' ∧ ∀ h, update_view <$> ids m' !! h = update_view <$> ids m !! h.
Proof.
  intros Hrun.
  destruct (ids m !! local) as [l|] eqn:Hl;
    [|unfold lib_override_library_update_apply in Hrun; by rewrite Hl in Hrun].
  destruct (override_library l) as [o|] eqn:Ho;
    [|unfold lib_override_library_update_apply in Hrun; by rewrite Hl, Ho in Hrun].
  destruct (reference o) as [reference_id|] eqn:Hr;
    [|unfold lib_override_library_update_apply in Hrun; by rewrite Hl, Ho, Hr in Hrun].
  destruct (BKE_id_copy host m reference_id) as [[m2 tmp_id]|] eqn:Hcopy.
  - destruct (id_copy_spec _ _ _ _ _ Hcopy) as (_ & _ & _ & _ & _ & _ & i & d & _ & Hd & _).
    destruct (update_apply_spec host m local l o reference_id m2 tmp_id d
                Hl Ho Hr Hcopy Hd) as (m'' & Hrun' & _ & Hshape & Hl' & Hother).
    rewrite Hrun in Hrun'. injection Hrun' as <-. split; [done|].
    intros h. destruct (decide (h = local)) as [->|Hh].
    + rewrite Hl', Hl. unfold update_view. simpl. by rewrite Ho, flag_set_idemp.
    + apply update_view_of_no_contents. by apply Hother.
  - unfold lib_override_library_update_apply in Hrun.
    rewrite Hl, Ho, Hr, Hcopy in Hrun. injection Hrun as <-.
    split; [apply same_shape_refl|done].
Qed.

(** [BKE_lib_override_library_update] changes what the IDs own, the storage
    of the overrides and the REFOK tags, nothing else. *)
Lemma update_frame host fuel m local m' :
  BKE_lib_override_library_update host fuel m local = Some m' →
  same_shape m m' ∧ ∀ h, update_view <$> ids m' !! h = update_view <$> ids m !! h.
Proof.
  revert m local m'. induction fuel as [|fuel IH]; intros m local m' Hrun; [done|].
  simpl in Hrun.
  destruct (ids m !! local) as [l|]; [|done].
  destruct (negb (ID_IS_OVERRIDE_LIBRARY_REAL l));
    [injection Hrun as <-; split; [apply same_shape_refl|done]|].
  destruct (id_reference m local) as [reference_id|];
    [|injection Hrun as <-; split; [apply same_shape_refl|done]].
  destruct (ids m !! reference_id) as [r|]; [|done].
  destruct (ID_MISSING r);
    [injection Hrun as <-; split; [apply same_shape_refl|done]|].
  assert (∀ m1, match override_library r with
                | Some _ =>
                    if flag_test (tag r) LIB_TAG_OVERRIDE_LIBRARY_REFOK then Some m
                    else BKE_lib_override_library_update host fuel m reference_id
                | None => Some m
                end = Some m1 →
                same_shape m m1
                ∧ ∀ h, update_view <$> ids m1 !! h = update_view <$> ids m !! h) as Hanc.
  { intros m1 H1. destruct (override_library r);
      [destruct (flag_test (tag r) LIB_TAG_OVERRIDE_LIBRARY_REFOK)|];
      try (injection H1 as <-; split; [apply same_shape_refl|done]).
    by apply IH in H1. }
  destruct (match override_library r with Some _ => _ | None => _ end) as [m1|];
    [|done].
  destruct (Hanc m1 eq_refl) as [Hs1 Hv1].
  apply update_apply_frame in Hrun as [Hs2 Hv2].
  split; [by eapply same_shape_trans|]. intros h. by rewrite Hv2, Hv1.
Qed.

Lemma flag_test_set x b : b ≠ 0 → flag_test (flag_set x b) b = true.
Proof.
  intros Hb. unfold flag_test, flag_set.
  replace (Z.land (Z.lor x b) b) with b; [by apply negb_true_iff, Z.eqb_neq|].
  apply Z.bits_inj'. intros n _. rewrite Z.land_spec, Z.lor_spec.
  by destruct (Z.testbit x n), (Z.testbit b n).
Qed.




(** ** Resync: failure of the creation *)

Lemma flag_test_set_other x b c :
  flag_test (flag_set x b) c = flag_test x c || flag_test b c.
Proof.
  unfold flag_test, flag_set. rewrite Z.land_lor_distr_l.
  rewrite <- negb_andb. f_equal.
  apply eq_true_iff_eq. rewrite andb_true_iff, !Z.eqb_eq. apply Z.lor_eq_0_iff.
Qed.

Lemma kept_flag_test i i' b :
  kept i i' → flag_test (tag i) b = true → flag_test (tag i') b = true.
Proof.
  intros (_ & _ & _ & [->| ->]) Hb; [done|].
  rewrite flag_test_set_other, Hb. done.
Qed.

(** When the creation fails on a worklist without counterparts, every ID
    that was there is still there, its header kept. *)
Lemma create_from_tag_failure_kept host fuel m m' :
  BKE_lib_override_library_create_from_tag host fuel m = Some (m', false) →
  (∀ r, r ∈ todo_ids host m → id_newid m r = None) →
  ∀ h i, ids m !! h = Some i → ∃ i', ids m' !! h = Some i' ∧ kept i i'.
Proof.
  unfold BKE_lib_override_library_create_from_tag. intros Hrun Hnull h i Hh.
  set (todo := todo_ids host m) in *.
  destruct (create_from_tag_override host fuel todo m) as [[m1 b]|] eqn:Hloop; [|done].
  assert (∀ r, r ∈ todo → is_Some (ids m !! r)) as Htodo.
  { intros r Hr. destruct (elem_of_todo_ids _ _ _ Hr) as (i0 & -> & _). eauto. }
  destruct (override_loop_spec _ _ _ _ _ _ Hloop Htodo)
    as (Hrel & Hpre & Hnew & _ & Hall & Hfail).
  destruct b; simplify_eq.
  assert (∀ r n, r ∈ todo → id_newid m1 r = Some n → ids m !! n = None) as Hfresh.
  { intros r n Hr Hn. destruct (Htodo r Hr) as [ri Hri].
    destruct (Hpre r ri Hri) as (i1 & Hi1 & _ & Hcase).
    rewrite (id_newid_lookup _ _ _ Hi1) in Hn.
    pose proof (Hnull r Hr) as Hn0. rewrite (id_newid_lookup _ _ _ Hri) in Hn0.
    destruct Hcase as [Hsame|(_ & _ & n' & ni & Hn' & Hfree & _)]; congruence. }
  assert (∀ r n, r ∈ todo → id_newid m1 r = Some n → n ∉ todo) as Hpre1.
  { intros r n Hr Hn Hin. destruct (Htodo n Hin) as [? Hx].
    rewrite (Hfresh r n Hr Hn) in Hx. done. }
  destruct (Hpre h i Hh) as (i1 & Hi1 & Hk & _).
  rewrite (cleanup_lookup todo m1 h Hpre1).
  rewrite decide_False.
  2:{ intros (r & Hr & Hn)%Exists_exists. rewrite (Hfresh r h Hr Hn) in Hh. done. }
  rewrite Hi1. case_decide; simpl; eauto.
Qed.

(** C8. When the creation of the overrides fails inside
    [BKE_lib_override_library_resync], the function returns false with the
    registry as the creation left it: no swap, no transplant of rules, no
    deletion. Every ID of the registry as tagged at the start of the call is
    still registered, under its name and with its override rules, and the
    [LIB_TAG_DOIT] and [LIB_TAG_MISSING] tags set by then are still set. The
    worklist of the creation is assumed to come without counterparts. *)
Theorem resync_failure_keeps_tags (host : Host) (fuel : nat) (m mt mc : Main)
    (id_root id_root_reference : nat) :
  resync_tag fuel m id_root = Some (mt, id_root_reference) →
  BKE_lib_override_library_create_from_tag host fuel mt = Some (mc, false) →
  (∀ r, r ∈ todo_ids host mt → id_newid mt r = None) →
  BKE_lib_override_library_resync host fuel m id_root = Some (mc, false)
  ∧ ∀ h i, ids mt !! h = Some i →
      ∃ i', ids mc !! h = Some i'
            ∧ name i' = name i ∧ lib i' = lib i
            ∧ override_library i' = override_library i
            ∧ (flag_test (tag i) LIB_TAG_DOIT = true
               → flag_test (tag i') LIB_TAG_DOIT = true)
            ∧ (flag_test (tag i) LIB_TAG_MISSING = true
               → flag_test (tag i') LIB_TAG_MISSING = true).
Proof.
  intros Htag Hcreate Hnull. split.
  { unfold BKE_lib_override_library_resync. by rewrite Htag, Hcreate. }
  intros h i Hh.
  destruct (create_from_tag_failure_kept _ _ _ _ Hcreate Hnull h i Hh) as (i' & Hi' & Hk).
  exists i'. split; [done|].
  pose proof (kept_flag_test i i' LIB_TAG_DOIT Hk).
  pose proof (kept_flag_test i i' LIB_TAG_MISSING Hk).
  destruct Hk as (? & ? & ? & _). auto.
Qed.

Lemma resync_failure_keeps_tags_witness :
  ∃ mc, BKE_lib_override_library_resync example_host 9 layout_main 5 = Some (mc, false)
        ∧ id_tagged layout_main LIB_TAG_DOIT 5 = false
        ∧ id_tagged mc LIB_TAG_DOIT 5 = true
        ∧ id_tagged mc LIB_TAG_DOIT 6 = true
        ∧ id_tagged mc LIB_TAG_DOIT 1 = true
        ∧ size (ids mc) = size (ids layout_main).
Proof.
  destruct (resync_tag 9 layout_main 5) as [[mt r]|] eqn:Htag;
    [|vm_compute in Htag; discriminate].
  destruct (BKE_lib_override_library_create_from_tag example_host 9 mt)
    as [[mc b]|] eqn:Hcreate.
  2:{ vm_compute in Htag. injection Htag as <- <-. vm_compute in Hcreate. discriminate. }
  assert (b = false) as ->.
  { vm_compute in Htag. injection Htag as <- <-. vm_compute in Hcreate. congruence. }
  destruct (resync_failure_keeps_tags example_host 9 layout_main mt mc 5 r Htag Hcreate)
    as [Hrun _].
  { vm_compute in Htag. injection Htag as <- <-.
    apply Forall_forall. apply (bool_decide_unpack _). vm_compute. exact I. }
  exists mc. split; [done|].
  vm_compute in Htag. injection Htag as <- <-. vm_compute in Hcreate.
  injection Hcreate as <-. repeat split; vm_compute; reflexivity.
Defined.

(** ** Dependency tagger *)


Lemma recursive_tag_unfold fuel m id tag_ missing_tag :
  lib_override_hierarchy_dependencies_recursive_tag (S fuel) m id tag_ missing_tag
  = match relations m, ids m !! id with
    | Some id_user_to_used, Some i =>
        match id_user_to_used !! id with
        | None => Some (m, flag_test (tag i) tag_)
        | Some entries =>
            match recursive_tag_entries
                    (λ m p, lib_override_hierarchy_dependencies_recursive_tag
                              fuel m p tag_ missing_tag)
                    id i tag_ entries (BKE_main_relations_ID_remove id m) with
            | None => None
            | Some m => Some (m, id_tagged m tag_ id)
            end
        end
    | _, _ => None
    end.
Proof. reflexivity. Qed.

Lemma recursive_tag_entries_cons recur id i tag_ entry entries m :
  recursive_tag_entries recur id i tag_ (entry :: entries) m
  = if flag_test (usage_flag entry) IDWALK_CB_LOOPBACK
    then recursive_tag_entries recur id i tag_ entries m
    else
      match id_pointer entry with
      | Some p =>
          match ids m !! p with
          | None => None
          | Some target =>
              if bool_decide (lib target = lib i) then
                match recur m p with
                | None => None
                | Some (m, true) =>
                    recursive_tag_entries recur id i tag_ entries (id_tag_set id tag_ m)
                | Some (m, false) => recursive_tag_entries recur id i tag_ entries m
                end
              else recursive_tag_entries recur id i tag_ entries m
          end
      | None => recursive_tag_entries recur id i tag_ entries m
      end.
Proof. reflexivity. Qed.

Lemma entries_of_tag_set p b m h : entries_of (id_tag_set p b m) h = entries_of m h.
Proof. done. Qed.

Lemma entries_of_remove id m h :
  entries_of (BKE_main_relations_ID_remove id m) h
  = if decide (h = id) then None else entries_of m h.
Proof.
  unfold entries_of, BKE_main_relations_ID_remove. simpl.
  destruct (relations m) as [r|]; simpl.
  - case_decide as Hh; [subst; apply lookup_delete_eq|by apply lookup_delete_ne].
  - by case_decide.
Qed.

Lemma tag_frame_refl m : is_Some (relations m) → tag_frame m m.
Proof. intros Hr. repeat split; auto. Qed.

Lemma tag_frame_tag_set m0 m p b : tag_frame m0 m → tag_frame m0 (id_tag_set p b m).
Proof.
  intros (Hr & He & Ho & Hi). repeat split; try done.
  intros h. rewrite <- Hi. unfold id_tag_set. rewrite lookup_update_id.
  case_decide; [|done]. by destruct (ids m !! h).
Qed.

Lemma tag_frame_remove m0 m id : tag_frame m0 m → tag_frame m0 (BKE_main_relations_ID_remove id m).
Proof.
  intros (Hr & He & Ho & Hi). split.
  { destruct Hr as [r Hr]. unfold BKE_main_relations_ID_remove. simpl. rewrite Hr. by eexists. }
  split; [|done]. intros h. rewrite entries_of_remove. case_decide; auto.
Qed.

Lemma tag_frame_lookup m0 m h i :
  tag_frame m0 m → ids m !! h = Some i →
  ∃ i0, ids m0 !! h = Some i0 ∧ lib i0 = lib i.
Proof.
  intros (_ & _ & _ & Hi) Hh. specialize (Hi h). rewrite Hh in Hi.
  symmetry in Hi. apply fmap_Some_eq in Hi as (i0 & Hi0 & Hu). exists i0. split; [done|].
  by apply (f_equal lib) in Hu.
Qed.

Section closure_pass.
Variables (tag_ missing_tag : Z) (m0 : Main).

Lemma call_frame_refl m : tag_frame m0 m → call_frame m0 m m.
Proof. by split. Qed.

Lemma call_frame_trans m1 m2 m3 : call_frame m0 m1 m2 → call_frame m0 m2 m3 → call_frame m0 m1 m3.
Proof.
  intros [_ H1] [Hf H2]. split; [done|]. intros h Hh.
  destruct (H1 h Hh) as [Hh1 Hi1]. destruct (H2 h Hh1) as [Hh2 Hi2].
  split; [done|congruence].
Qed.

Lemma entries_frame recur id i :
  (∀ m p m' b, recur m p = Some (m', b) → tag_frame m0 m → call_frame m0 m m') →
  ∀ entries m m',
    recursive_tag_entries recur id i tag_ entries m = Some m' →
    tag_frame m0 m →
    tag_frame m0 m'
    ∧ ∀ h, entries_of m h = None →
           entries_of m' h = None ∧ (h ≠ id → ids m' !! h = ids m !! h).
Proof.
  intros Hrecur. induction entries as [|e entries IH]; intros m m' Hrun Hf.
  { simpl in Hrun. by simplify_eq. }
  rewrite recursive_tag_entries_cons in Hrun.
  destruct (flag_test (usage_flag e) IDWALK_CB_LOOPBACK); [by apply IH|].
  destruct (id_pointer e) as [p|]; [|by apply IH].
  destruct (ids m !! p) as [target|]; [|done].
  destruct (bool_decide (lib target = lib i)); [|by apply IH].
  destruct (recur m p) as [[m1 b1]|] eqn:Hcall; [|done].
  destruct (Hrecur _ _ _ _ Hcall Hf) as [Hf1 H1].
  destruct b1.
  - apply IH in Hrun as [Hf' H']; [|by apply tag_frame_tag_set].
    split; [done|]. intros h Hh. destruct (H1 h Hh) as [Hh1 Hi1].
    destruct (H' h) as [Hh' Hi']; [by rewrite entries_of_tag_set|].
    split; [done|]. intros Hne. rewrite Hi' by done.
    unfold id_tag_set. rewrite lookup_update_id_ne by done. done.
  - apply IH in Hrun as [Hf' H']; [|done].
    split; [done|]. intros h Hh. destruct (H1 h Hh) as [Hh1 Hi1].
    destruct (H' h Hh1) as [Hh' Hi']. split; [done|]. intros Hne.
    rewrite Hi' by done. done.
Qed.

Lemma recursive_tag_frame fuel m v m' b :
  lib_override_hierarchy_dependencies_recursive_tag fuel m v tag_ missing_tag
  = Some (m', b) →
  tag_frame m0 m →
  call_frame m0 m m' ∧ entries_of m' v = None ∧ b = id_tagged m' tag_ v.
Proof.
  revert m v m' b. induction fuel as [|fuel IH]; intros m v m' b Hrun Hf; [done|].
  rewrite recursive_tag_unfold in Hrun.
  destruct (relations m) as [r|] eqn:Hr; [|done].
  destruct (ids m !! v) as [i|] eqn:Hv; [|done].
  destruct (r !! v) as [entries|] eqn:Hentries.
  - destruct (recursive_tag_entries _ v i tag_ entries _) as [m1|] eqn:Hloop; [|done].
    simplify_eq.
    apply entries_frame in Hloop as [Hf' H']; [| |by apply tag_frame_remove].
    2:{ intros m1 p m1' b1 Hcall Hf1. by destruct (IH _ _ _ _ Hcall Hf1). }
    split; [split; [done|]|split; [|done]].
    + intros h Hh. assert (h ≠ v) as Hne.
      { intros ->. unfold entries_of in Hh. rewrite Hr in Hh. congruence. }
      destruct (H' h) as [Hh' Hi'].
      { rewrite entries_of_remove. by rewrite decide_False. }
      split; [done|]. by rewrite Hi'.
    + apply H'. rewrite entries_of_remove. by rewrite decide_True.
  - simplify_eq. split; [by apply call_frame_refl|].
    unfold entries_of, id_tagged. by rewrite Hr, Hv.
Qed.

Variable rank : nat → nat.
Hypothesis Hrank : ∀ h p, dependency m0 h p → (rank p < rank h)%nat.

Lemma id_tagged_tag_set p b m h :
  id_tagged (id_tag_set p b m) tag_ h
  = if decide (p = h) then
      match ids m !! h with
      | Some i => flag_test (flag_set (tag i) b) tag_
      | None => false
      end
    else id_tagged m tag_ h.
Proof.
  unfold id_tagged, id_tag_set. rewrite lookup_update_id.
  case_decide; [|done]. by destruct (ids m !! h).
Qed.

Lemma id_tagged_tag_set_mono p m h :
  id_tagged m tag_ h = true → id_tagged (id_tag_set p tag_ m) tag_ h = true.
Proof.
  rewrite id_tagged_tag_set. case_decide; [|done]. unfold id_tagged.
  destruct (ids m !! h); [|done]. intros Ht. by rewrite flag_test_set_other, Ht.
Qed.

Lemma closed_below_tag_set (S : nat → Prop) v m :
  S v → closed_below tag_ m0 S m → closed_below tag_ m0 S (id_tag_set v tag_ m).
Proof.
  intros Hv Hc h Hh He p Hdep.
  destruct (Hc h Hh He p Hdep) as (Hp & HSp & Ht).
  split; [done|]. split; [done|].
  rewrite !id_tagged_tag_set. rewrite !decide_False by (intros ->; done). done.
Qed.

Lemma closed_below_remove (S : nat → Prop) v m :
  is_Some (entries_of m v) →
  closed_below tag_ m0 S m →
  closed_below tag_ m0 (λ h, S h ∨ h = v) (BKE_main_relations_ID_remove v m).
Proof.
  intros [es Hv] Hc h Hh He p Hdep.
  rewrite entries_of_remove in He. rewrite decide_False in He by (intros ->; auto).
  destruct (Hc h) with (p := p) as (Hp & HSp & Ht); [auto|done|done|].
  rewrite entries_of_remove. split; [by case_decide|]. split; [|done].
  intros [?| ->]; [done|congruence].
Qed.

(** The loop over the entries of [v], with the stack [S] below [v]. *)
Lemma entries_closed fuel v i i0 (S : nat → Prop) :
  (∀ m p m' b (S' : nat → Prop),
     lib_override_hierarchy_dependencies_recursive_tag fuel m p tag_ missing_tag
     = Some (m', b) →
     tag_frame m0 m → closed_below tag_ m0 S' m → (∀ s, S' s → (rank p < rank s)%nat) →
     closed_below tag_ m0 S' m') →
  ids m0 !! v = Some i0 → lib i = lib i0 →
  (∀ s, S s → (rank v < rank s)%nat) →
  ∀ entries m m',
    recursive_tag_entries
      (λ m p, lib_override_hierarchy_dependencies_recursive_tag fuel m p tag_ missing_tag)
      v i tag_ entries m = Some m' →
    (∀ e, e ∈ entries → ∃ all, entries_of m0 v = Some all ∧ e ∈ all) →
    tag_frame m0 m → entries_of m v = None →
    closed_below tag_ m0 (λ h, S h ∨ h = v) m →
    closed_below tag_ m0 (λ h, S h ∨ h = v) m'
    ∧ (id_tagged m tag_ v = true → id_tagged m' tag_ v = true)
    ∧ ∀ e p t, e ∈ entries → flag_test (usage_flag e) IDWALK_CB_LOOPBACK = false →
               id_pointer e = Some p → ids m0 !! p = Some t → lib t = lib i0 →
               entries_of m' p = None ∧ ¬ (S p ∨ p = v)
               ∧ (id_tagged m' tag_ p = true → id_tagged m' tag_ v = true).
Proof.
  intros IHfuel Hv0 Hlib HS.
  induction entries as [|e entries IH]; intros m m' Hrun Hall Hf Hev Hc.
  { simpl in Hrun. simplify_eq. split; [done|]. split; [done|].
    intros e p t He. by apply elem_of_nil in He. }
  assert (∀ e0, e0 ∈ entries → ∃ all, entries_of m0 v = Some all ∧ e0 ∈ all) as Hall'.
  { intros e0 He0. apply Hall. apply elem_of_cons. auto. }
  rewrite recursive_tag_entries_cons in Hrun.
  (* the entries that are not followed *)
  assert (∀ m1, recursive_tag_entries
                  (λ m p, lib_override_hierarchy_dependencies_recursive_tag
                            fuel m p tag_ missing_tag) v i tag_ entries m1 = Some m' →
                tag_frame m0 m1 → entries_of m1 v = None →
                closed_below tag_ m0 (λ h, S h ∨ h = v) m1 →
                (id_tagged m tag_ v = true → id_tagged m1 tag_ v = true) →
                (∀ p t, flag_test (usage_flag e) IDWALK_CB_LOOPBACK = false →
                        id_pointer e = Some p → ids m0 !! p = Some t → lib t = lib i0 →
                        entries_of m1 p = None ∧ ¬ (S p ∨ p = v)
                        ∧ (id_tagged m1 tag_ p = true → id_tagged m1 tag_ v = true)) →
                closed_below tag_ m0 (λ h, S h ∨ h = v) m'
                ∧ (id_tagged m tag_ v = true → id_tagged m' tag_ v = true)
                ∧ ∀ e' p t, e' ∈ e :: entries →
                    flag_test (usage_flag e') IDWALK_CB_LOOPBACK = false →
                    id_pointer e' = Some p → ids m0 !! p = Some t → lib t = lib i0 →
                    entries_of m' p = None ∧ ¬ (S p ∨ p = v)
                    ∧ (id_tagged m' tag_ p = true → id_tagged m' tag_ v = true)) as Hrest.
  { intros m1 Hrun1 Hf1 Hev1 Hc1 Hmono He.
    pose proof Hrun1 as Hframe.
    apply (entries_frame) in Hframe as [_ Hframe]; [|by apply recursive_tag_frame|done].
    destruct (IH m1 m' Hrun1 Hall' Hf1 Hev1 Hc1) as (Hc' & Hmono' & Hes).
    split; [done|]. split; [auto|].
    intros e' p t [->|He']%elem_of_cons Hloop Hp Hp0 Hlibp; [|by eapply Hes].
    destruct (He p t Hloop Hp Hp0 Hlibp) as (Hep & HSp & Htag).
    destruct (Hframe p Hep) as [Hep' Hip].
    split; [done|]. split; [done|]. intros Htp. apply Hmono', Htag.
    unfold id_tagged in *. rewrite <- Hip; [done|]. intros ->. auto. }
  destruct (flag_test (usage_flag e) IDWALK_CB_LOOPBACK) eqn:Hloop.
  { apply (Hrest m); try done. }
  destruct (id_pointer e) as [p|] eqn:Hp.
  2:{ apply (Hrest m); try done. }
  destruct (ids m !! p) as [target|] eqn:Htarget; [|done].
  destruct (tag_frame_lookup _ _ _ _ Hf Htarget) as (t0 & Ht0 & Hlib0).
  destruct (bool_decide (lib target = lib i)) eqn:Hl.
  2:{ apply (Hrest m); try done. intros p' t _ [= <-] Ht Hlt.
      apply bool_decide_eq_false in Hl. congruence. }
  apply bool_decide_eq_true in Hl.
  destruct (Hall e) as (all & Hall0 & Hin); [apply elem_of_cons; auto|].
  assert (dependency m0 v p) as Hdep.
  { exists all, e, i0, t0. repeat split; try done. congruence. }
  pose proof (Hrank _ _ Hdep) as Hlt.
  assert (∀ s, S s ∨ s = v → (rank p < rank s)%nat) as HS'.
  { intros s [Hs| ->]; [|done]. specialize (HS s Hs). lia. }
  assert (¬ (S p ∨ p = v)) as HSp.
  { intros Hx. specialize (HS' p Hx). lia. }
  destruct (lib_override_hierarchy_dependencies_recursive_tag fuel m p tag_ missing_tag)
    as [[m1 b1]|] eqn:Hcall; [|done].
  pose proof (IHfuel _ _ _ _ _ Hcall Hf Hc HS') as Hc1.
  destruct (recursive_tag_frame _ _ _ _ _ Hcall Hf) as ([Hf1 Hfr1] & Hep1 & Hb1).
  destruct (Hfr1 v Hev) as [Hev1 Hiv1].
  destruct b1.
  - apply (Hrest (id_tag_set v tag_ m1)); try done.
    + by apply tag_frame_tag_set.
    + apply closed_below_tag_set; auto.
    + intros Ht. apply id_tagged_tag_set_mono. unfold id_tagged in *. by rewrite Hiv1.
    + intros p' t _ [= <-] _ _. split; [done|]. split; [done|]. intros _.
      rewrite id_tagged_tag_set, decide_True by done.
      destruct (ids m1 !! v) as [iv|] eqn:Hiv.
      * apply flag_test_set. intros ->. symmetry in Hb1. unfold id_tagged in Hb1.
        destruct (ids m1 !! p); [|done]. unfold flag_test in Hb1.
        rewrite Z.land_0_r in Hb1. done.
      * exfalso. destruct Hf as (_ & _ & _ & Hfi). specialize (Hfi v).
        rewrite <- Hiv1, Hv0 in Hfi. done.
  - apply (Hrest m1); try done.
    + intros Ht. unfold id_tagged in *. by rewrite Hiv1.
    + intros p' t _ [= <-] _ _. split; [done|]. split; [done|]. congruence.
Qed.

Lemma recursive_tag_closed fuel m v m' b (S : nat → Prop) :
  lib_override_hierarchy_dependencies_recursive_tag fuel m v tag_ missing_tag
  = Some (m', b) →
  tag_frame m0 m → closed_below tag_ m0 S m → (∀ s, S s → (rank v < rank s)%nat) →
  closed_below tag_ m0 S m'.
Proof.
  revert m v m' b S.
  induction fuel as [|fuel IH]; intros m v m' b S Hrun Hf Hc HS; [done|].
  rewrite recursive_tag_unfold in Hrun.
  destruct (relations m) as [r|] eqn:Hr; [|done].
  destruct (ids m !! v) as [i|] eqn:Hv; [|done].
  destruct (r !! v) as [entries|] eqn:Hentries; [|by simplify_eq].
  destruct (recursive_tag_entries _ v i tag_ entries _) as [m1|] eqn:Hloop; [|done].
  simplify_eq.
  assert (entries_of m v = Some entries) as Hev by (unfold entries_of; by rewrite Hr).
  assert (entries_of m0 v = Some entries) as Hev0.
  { destruct Hf as (_ & He & _). destruct (He v); congruence. }
  destruct (tag_frame_lookup _ _ _ _ Hf Hv) as (i0 & Hi0 & Hlib0).
  destruct (entries_closed fuel v i i0 S IH Hi0 (eq_sym Hlib0) HS entries _ _ Hloop)
    as (Hc' & _ & Hes).
  - intros e He. by exists entries.
  - by apply tag_frame_remove.
  - rewrite entries_of_remove. by rewrite decide_True.
  - apply closed_below_remove; [by rewrite Hev|done].
  - intros h Hh He p Hdep. destruct (decide (h = v)) as [->|Hne].
    + destruct Hdep as (all & e & i' & t & Hall & Hin & Hloopb & Hp & Hi' & Ht & Hl).
      assert (all = entries) as -> by congruence.
      assert (i' = i0) as -> by congruence.
      destruct (Hes e p t Hin Hloopb Hp Ht Hl) as (? & HSp & ?).
      split; [done|]. split; [|done]. intros ?. apply HSp. auto.
    + destruct (Hc' h) with (p := p) as (? & HSp & ?); try done.
      { intros [?|?]; done. }
      split; [done|]. split; [|done]. intros ?. apply HSp. auto.
Qed.

End closure_pass.

(** *** The closure pass, a second time *)

Lemma single_bit_absorb n x :
  0 ≤ n → flag_test x (Z.shiftl 1 n) = true → flag_set x (Z.shiftl 1 n) = x.
Proof.
  intros Hn. unfold flag_test, flag_set. rewrite Z.shiftl_1_l.
  intros Ht%negb_true_iff%Z.eqb_neq.
  assert (Z.testbit x n = true) as Hx.
  { destruct (Z.testbit x n) eqn:Hx; [done|]. exfalso. apply Ht.
    apply Z.bits_inj'. intros k Hk. rewrite Z.land_spec, Z.bits_0, Z.pow2_bits_eqb by done.
    destruct (Z.eqb_spec n k) as [->|]; [by rewrite Hx|apply andb_false_r]. }
  apply Z.bits_inj'. intros k Hk. rewrite Z.lor_spec, Z.pow2_bits_eqb by done.
  destruct (Z.eqb_spec n k) as [->|]; [by rewrite Hx|apply orb_false_r].
Qed.

Lemma tag_set_tagged p b m :
  (∀ x, flag_test x b = true → flag_set x b = x) →
  id_tagged m b p = true → ids (id_tag_set p b m) = ids m.
Proof.
  intros Hbit Ht. apply map_eq. intros h. unfold id_tag_set. rewrite lookup_update_id.
  case_decide as Hh; [|done]. subst h. unfold id_tagged in Ht.
  destruct (ids m !! p) as [i|]; [|done]. simpl. f_equal.
  unfold set_tag. rewrite (Hbit _ Ht). by destruct i.
Qed.

Lemma untagged_lookup_lib m m' h i :
  (∀ h, untagged <$> ids m' !! h = untagged <$> ids m !! h) →
  ids m !! h = Some i → ∃ i', ids m' !! h = Some i' ∧ lib i' = lib i.
Proof.
  intros Hu Hh. specialize (Hu h). rewrite Hh in Hu.
  apply fmap_Some_eq in Hu as (i' & Hi' & Hu). exists i'. split; [done|].
  by apply (f_equal lib) in Hu.
Qed.

Section closure_again.
Variables (tag_ missing_tag : Z) (m0 m1 : Main).
Hypothesis Hbit : ∀ x, flag_test x tag_ = true → flag_set x tag_ = x.
Hypothesis Hframe1 : tag_frame m0 m1.
Hypothesis Hclosed1 : closed_below tag_ m0 (λ _, False) m1.

Lemma entries_again fuel v i i2 :
  (∀ m p m' b n,
     lib_override_hierarchy_dependencies_recursive_tag fuel m p tag_ missing_tag
     = Some (m', b) →
     tag_frame m0 m → relations n = relations m → ids n = ids m1 →
     entries_of m1 p = None →
     ∃ n', lib_override_hierarchy_dependencies_recursive_tag fuel n p tag_ missing_tag
           = Some (n', id_tagged m1 tag_ p)
           ∧ ids n' = ids n ∧ relations n' = relations m') →
  lib i2 = lib i → is_Some (ids m0 !! v) → (∀ i0, ids m0 !! v = Some i0 → lib i0 = lib i) →
  entries_of m1 v = None →
  ∀ entries m m' n,
    recursive_tag_entries
      (λ m p, lib_override_hierarchy_dependencies_recursive_tag fuel m p tag_ missing_tag)
      v i tag_ entries m = Some m' →
    (∀ e, e ∈ entries → ∃ all, entries_of m0 v = Some all ∧ e ∈ all) →
    tag_frame m0 m → relations n = relations m → ids n = ids m1 →
    ∃ n', recursive_tag_entries
            (λ m p, lib_override_hierarchy_dependencies_recursive_tag
                      fuel m p tag_ missing_tag)
            v i2 tag_ entries n = Some n'
          ∧ ids n' = ids n ∧ relations n' = relations m'.
Proof.
  intros IHfuel Hlib2 [i0 Hv0] Hlib0 Hev1.
  induction entries as [|e entries IH]; intros m m' n Hrun Hall Hf Hrel Hids.
  { simpl in Hrun. simplify_eq. by exists n. }
  assert (∀ e0, e0 ∈ entries → ∃ all, entries_of m0 v = Some all ∧ e0 ∈ all) as Hall'.
  { intros e0 He0. apply Hall. apply elem_of_cons. auto. }
  rewrite recursive_tag_entries_cons in Hrun. rewrite recursive_tag_entries_cons.
  destruct (flag_test (usage_flag e) IDWALK_CB_LOOPBACK) eqn:Hloop; [by eapply IH|].
  destruct (id_pointer e) as [p|] eqn:Hp; [|by eapply IH].
  destruct (ids m !! p) as [target|] eqn:Htarget; [|done].
  destruct (tag_frame_lookup _ _ _ _ Hf Htarget) as (t0 & Ht0 & Hlt0).
  destruct Hframe1 as (_ & _ & _ & Hu1).
  destruct (untagged_lookup_lib m0 m1 p t0 Hu1 Ht0) as (t1 & Ht1 & Hlt1).
  assert (ids n !! p = Some t1) as -> by (by rewrite Hids).
  assert (bool_decide (lib t1 = lib i2) = bool_decide (lib target = lib i)) as ->.
  { apply bool_decide_ext. by rewrite Hlt1, Hlt0, Hlib2. }
  destruct (bool_decide (lib target = lib i)) eqn:Hl; [|by eapply IH].
  apply bool_decide_eq_true in Hl.
  destruct (Hall e) as (all & Hall0 & Hin); [apply elem_of_cons; auto|].
  assert (dependency m0 v p) as Hdep.
  { exists all, e, i0, t0. repeat split; try done. rewrite (Hlib0 i0 Hv0). congruence. }
  destruct (Hclosed1 v) with (p := p) as (Hep1 & _ & Htag1); [tauto|done|done|].
  destruct (lib_override_hierarchy_dependencies_recursive_tag fuel m p tag_ missing_tag)
    as [[ma b1]|] eqn:Hcall; [|done].
  destruct (IHfuel _ _ _ _ n Hcall Hf Hrel Hids Hep1) as (n1 & -> & Hids1 & Hrel1).
  destruct (recursive_tag_frame _ _ _ _ _ _ _ _ Hcall Hf) as ([Hfa _] & _).
  assert (∃ n2, (if id_tagged m1 tag_ p then id_tag_set v tag_ n1 else n1) = n2
                ∧ ids n2 = ids m1
                ∧ relations n2 = relations (if b1 then id_tag_set v tag_ ma else ma))
    as (n2 & Hn2 & Hids2 & Hrel2).
  { eexists. split; [done|]. split.
    - destruct (id_tagged m1 tag_ p) eqn:Htp; [|congruence].
      rewrite tag_set_tagged; [congruence|done|].
      unfold id_tagged. rewrite Hids1, Hids. by apply Htag1.
    - by destruct (id_tagged m1 tag_ p), b1. }
  assert (tag_frame m0 (if b1 then id_tag_set v tag_ ma else ma)) as Hf2.
  { destruct b1; [by apply tag_frame_tag_set|done]. }
  destruct (IH (if b1 then id_tag_set v tag_ ma else ma) m' n2) as (n' & Hrun' & Hids' & Hrel');
    try done.
  { by destruct b1. }
  exists n'. split; [|split; [congruence|done]].
  destruct (id_tagged m1 tag_ p); by rewrite Hn2.
Qed.

Lemma recursive_tag_again fuel m v m' b n :
  lib_override_hierarchy_dependencies_recursive_tag fuel m v tag_ missing_tag
  = Some (m', b) →
  tag_frame m0 m → relations n = relations m → ids n = ids m1 →
  entries_of m1 v = None →
  ∃ n', lib_override_hierarchy_dependencies_recursive_tag fuel n v tag_ missing_tag
        = Some (n', id_tagged m1 tag_ v)
        ∧ ids n' = ids n ∧ relations n' = relations m'.
Proof.
  revert m v m' b n.
  induction fuel as [|fuel IH]; intros m v m' b n Hrun Hf Hrel Hids Hev1; [done|].
  rewrite recursive_tag_unfold in Hrun. rewrite recursive_tag_unfold.
  rewrite Hrel. destruct (relations m) as [r|] eqn:Hr; [|done].
  destruct (ids m !! v) as [i|] eqn:Hv; [|done].
  destruct (tag_frame_lookup _ _ _ _ Hf Hv) as (i0 & Hi0 & Hlib0).
  destruct Hframe1 as (_ & _ & _ & Hu1).
  destruct (untagged_lookup_lib m0 m1 v i0 Hu1 Hi0) as (i2 & Hi2 & Hlib2).
  assert (ids n !! v = Some i2) as Hn2 by (by rewrite Hids). rewrite Hn2.
  destruct (r !! v) as [entries|] eqn:Hentries.
  2:{ injection Hrun as <- <-. exists n. unfold id_tagged. rewrite Hi2.
      repeat split; congruence. }
  destruct (recursive_tag_entries _ v i tag_ entries _) as [ma|] eqn:Hloop; [|done].
  injection Hrun as <- <-.
  assert (entries_of m0 v = Some entries) as Hev0.
  { destruct Hf as (_ & He & _). destruct (He v) as [Hx|Hx];
      unfold entries_of in Hx at 1; rewrite Hr, Hentries in Hx; congruence. }
  assert (lib i2 = lib i) as Hl2 by congruence.
  assert (∀ i', ids m0 !! v = Some i' → lib i' = lib i) as Hl0
    by (intros ? ?; congruence).
  assert (∀ e, e ∈ entries → ∃ all, entries_of m0 v = Some all ∧ e ∈ all) as Hall
    by (intros e He; by exists entries).
  pose proof (tag_frame_remove _ _ v Hf) as Hfr.
  assert (relations (BKE_main_relations_ID_remove v n)
          = relations (BKE_main_relations_ID_remove v m)) as Hrelr.
  { unfold BKE_main_relations_ID_remove. simpl. congruence. }
  destruct (entries_again fuel v i i2 IH Hl2 (mk_is_Some _ _ Hi0) Hl0 Hev1 entries _ _
              (BKE_main_relations_ID_remove v n) Hloop Hall Hfr Hrelr Hids)
    as (n' & Hrun' & Hids' & Hrel').
  exists n'. rewrite Hrun'. split; [|done]. unfold id_tagged.
  rewrite Hids'. simpl. by rewrite Hids.
Qed.

End closure_again.

(** *** The relations *)

Lemma relations_create_lookup m h entries :
  entries_of (BKE_main_relations_create m) h = Some entries →
  ∃ i, ids m !! h = Some i ∧ entries = relations_entries i.
Proof.
  unfold entries_of, BKE_main_relations_create. simpl.
  induction (order m) as [|x l IH]; simpl; [by rewrite lookup_empty|].
  destruct (ids m !! x) as [i|] eqn:Hx; [|done].
  destruct (relations_entries i) as [|e es] eqn:He; [done|].
  destruct (decide (x = h)) as [->|Hne].
  - rewrite lookup_insert_eq. intros [= <-]. exists i. by rewrite He.
  - by rewrite lookup_insert_ne.
Qed.

Lemma relations_entries_untagged i i' :
  untagged i' = untagged i → relations_entries i' = relations_entries i.
Proof.
  intros Hu. change (relations_entries (untagged i') = relations_entries (untagged i)).
  by rewrite Hu.
Qed.

Lemma relations_create_untagged m m' :
  order m' = order m →
  (∀ h, untagged <$> ids m' !! h = untagged <$> ids m !! h) →
  relations (BKE_main_relations_create m') = relations (BKE_main_relations_create m).
Proof.
  intros Ho Hu. unfold BKE_main_relations_create. simpl. rewrite Ho. f_equal.
  clear Ho. induction (order m) as [|x l IH]; simpl; [done|]. rewrite IH.
  specialize (Hu x).
  destruct (ids m' !! x) as [i'|], (ids m !! x) as [i|]; simpl in Hu; try done.
  apply (inj Some) in Hu. by rewrite (relations_entries_untagged _ _ Hu).
Qed.

Lemma dependencies_ranked_sound rank m h p :
  dependencies_ranked rank m = true →
  dependency (BKE_main_relations_create m) h p → (rank p < rank h)%nat.
Proof.
  intros Hranked (entries & e & i & t & Hentries & He & Hloop & Hp & Hi & Ht & Hlib).
  simpl in Hi, Ht.
  destruct (relations_create_lookup _ _ _ Hentries) as (i' & Hi' & ->).
  assert (i' = i) as -> by congruence.
  assert (h ∈ order m) as Hh.
  { revert Hentries. unfold entries_of, BKE_main_relations_create. simpl.
    induction (order m) as [|x l IH]; simpl; [by rewrite lookup_empty|].
    intros Hl. destruct (decide (x = h)) as [->|Hne]; [apply elem_of_cons; auto|].
    apply elem_of_cons. right. apply IH.
    destruct (ids m !! x) as [ix|]; [|done].
    destruct (relations_entries ix); [done|]. by rewrite lookup_insert_ne in Hl. }
  unfold dependencies_ranked in Hranked.
  rewrite forallb_forall in Hranked. specialize (Hranked h).
  rewrite Hi in Hranked. rewrite <- list_elem_of_In in Hranked. specialize (Hranked Hh).
  rewrite forallb_forall in Hranked.
  unfold relations_entries in He.
  rewrite list_elem_of_In, <- in_rev, <- list_elem_of_In in He.
  apply list_elem_of_omap in He as ([q f] & Hs & Hq). simpl in Hq.
  destruct q as [q|]; [|done]. injection Hq as <-. simpl in Hp, Hloop.
  injection Hp as ->.
  specialize (Hranked (Some p, f)). rewrite <- list_elem_of_In in Hranked.
  specialize (Hranked Hs). simpl in Hranked. rewrite Ht, Hloop in Hranked.
  rewrite (bool_decide_eq_true_2 _ Hlib) in Hranked. simpl in Hranked.
  by apply bool_decide_eq_true in Hranked.
Qed.

(** The boundary callback on a pointer to an ID that carries one of the two
    tags: nothing changes, and the ID is not queued for its own walk. *)
Lemma linked_group_tag_cb_tagged id_root tag_ missing_tag m id_owner p f i :
  is_Some (ids m !! id_root) → ids m !! p = Some i → p ≠ id_owner →
  flag_test (tag i) (Z.lor tag_ missing_tag) = true →
  lib_override_linked_group_tag_cb id_root tag_ missing_tag m id_owner (Some p) f
  = Some (m, IDWALK_RET_STOP_RECURSION).
Proof.
  intros [root Hroot] Hp Hne Ht. unfold lib_override_linked_group_tag_cb.
  destruct (flag_test f _); [done|]. rewrite Hroot.
  rewrite bool_decide_eq_false_2 by done. by rewrite Hp, Ht.
Qed.



(** ** Resync: the pairs of overrides *)

Lemma id_uses_pointers p i : id_uses p i ↔ Some p ∈ id_pointers i.
Proof.
  unfold id_uses, id_pointers. rewrite elem_of_app. split.
  - intros [?|(k & -> & <-)]; [auto|]. right. apply list_elem_of_singleton. done.
  - intros [?|Hk]; [auto|]. right. destruct (key (contents i)) as [k|].
    + apply list_elem_of_singleton in Hk. eauto.
    + by apply elem_of_nil in Hk.
Qed.

(** The old override recorded for a reference is a registered, tagged, real
    override of that reference. *)
Lemma linkedref_build_spec m r old :
  linkedref_to_old_override_build m !! r = Some old →
  old ∈ order m
  ∧ ∃ oi, ids m !! old = Some oi ∧ flag_test (tag oi) LIB_TAG_DOIT = true
          ∧ ID_IS_OVERRIDE_LIBRARY_REAL oi = true ∧ id_reference m old = Some r.
Proof.
  unfold linkedref_to_old_override_build.
  assert (∀ l (acc : gmap nat nat),
            (∀ x, x ∈ l → x ∈ order m) →
            (∀ r old, acc !! r = Some old →
               old ∈ order m
               ∧ ∃ oi, ids m !! old = Some oi ∧ flag_test (tag oi) LIB_TAG_DOIT = true
                       ∧ ID_IS_OVERRIDE_LIBRARY_REAL oi = true
                       ∧ id_reference m old = Some r) →
            ∀ r old,
              foldl (λ (map : gmap nat nat) id,
                       match ids m !! id with
                       | Some i =>
                           if flag_test (tag i) LIB_TAG_DOIT && ID_IS_OVERRIDE_LIBRARY_REAL i
                           then match id_reference m id with
                                | Some r => match map !! r with
                                            | Some _ => map
                                            | None => <[r := id]> map
                                            end
                                | None => map
                                end
                           else map
                       | None => map
                       end) acc l !! r = Some old →
              old ∈ order m
              ∧ ∃ oi, ids m !! old = Some oi ∧ flag_test (tag oi) LIB_TAG_DOIT = true
                      ∧ ID_IS_OVERRIDE_LIBRARY_REAL oi = true
                      ∧ id_reference m old = Some r) as Hgen.
  { induction l as [|x l IH]; intros acc Hl Hacc r0 old0; simpl; [by apply Hacc|].
    apply IH; [intros y Hy; apply Hl, elem_of_cons; auto|].
    intros r1 old1.
    destruct (ids m !! x) as [i|] eqn:Hx; [|by apply Hacc].
    destruct (flag_test (tag i) LIB_TAG_DOIT && ID_IS_OVERRIDE_LIBRARY_REAL i) eqn:Hc;
      [|by apply Hacc].
    destruct (id_reference m x) as [rx|] eqn:Hrx; [|by apply Hacc].
    destruct (acc !! rx) eqn:Hacc_rx; [by apply Hacc|].
    destruct (decide (rx = r1)) as [->|Hne].
    - rewrite lookup_insert_eq. intros [= <-]. split; [apply Hl, elem_of_cons; auto|].
      apply andb_prop in Hc as [? ?]. exists i. auto.
    - rewrite lookup_insert_ne by done. by apply Hacc. }
  apply Hgen; [done|]. intros r0 old0. by rewrite lookup_empty.
Qed.

(** What the creation leaves when it succeeds on a registry without
    counterparts. *)
Lemma create_from_tag_success host fuel m m' :
  BKE_lib_override_library_create_from_tag host fuel m = Some (m', true) →
  (∀ h, id_newid m h = None) →
  (∀ h i, ids m !! h = Some i → ∃ i', ids m' !! h = Some i' ∧ kept i i')
  ∧ (∀ h i, ids m !! h = Some i → ∀ n, id_newid m' h = Some n →
       h ∈ order m ∧ ids m !! n = None ∧ (∃ ni, ids m' !! n = Some ni ∧ lib ni = None)
       ∧ id_reference m' n = Some h)
  ∧ (∀ h i', ids m !! h = None → ids m' !! h = Some i' → lib i' = None)
  ∧ ∃ created, order m' = created ++ order m ∧ ∀ h, h ∈ created → ids m !! h = None.
Proof.
  unfold BKE_lib_override_library_create_from_tag. intros Hrun Hnull.
  set (todo := todo_ids host m) in *.
  destruct (create_from_tag_override host fuel todo m) as [[m1 b]|] eqn:Hloop; [|done].
  assert (∀ r, r ∈ todo → is_Some (ids m !! r)) as Htodo.
  { intros r Hr. destruct (elem_of_todo_ids _ _ _ Hr) as (i0 & -> & _). eauto. }
  destruct (override_loop_spec _ _ _ _ _ _ Hloop Htodo)
    as (Hrel & Hpre & Hnew & (created & Hord & _ & Hcreated) & Hall & Hfail).
  destruct b; simplify_eq.
  pose proof (relink_frame todo m1) as Hframe.
  set (m' := create_from_tag_relink todo m1) in *.
  assert (∀ h i1, ids m1 !! h = Some i1 →
            ∃ i', ids m' !! h = Some i' ∧ header i' = header i1) as Hhead.
  { intros h i1 Hh. destruct (contents_frame_lookup _ _ _ _ Hframe Hh) as (i' & ? & ? & _).
    eauto. }
  assert (∀ h i, ids m !! h = Some i → ∀ n, id_newid m1 h = Some n →
            h ∈ order m ∧ ids m !! n = None
            ∧ (∃ ni, ids m1 !! n = Some ni ∧ lib ni = None)
            ∧ id_reference m1 n = Some h) as Hn1.
  { intros h i Hh n Hn. destruct (Hpre h i Hh) as (i1 & Hi1 & _ & Hcase).
    rewrite (id_newid_lookup _ _ _ Hi1) in Hn.
    pose proof (Hnull h) as H0. rewrite (id_newid_lookup _ _ _ Hh) in H0.
    destruct Hcase as [Hsame|(_ & Hin & n' & ni & Hn' & Hfree & Hni & Hlib & Href)];
      [congruence|].
    assert (n' = n) as -> by congruence.
    split; [|eauto]. unfold todo, todo_ids in Hin.
    by apply list_elem_of_filter in Hin as [_ ?]. }
  split; [|split; [|split]].
  - intros h i Hh. destruct (Hpre h i Hh) as (i1 & Hi1 & Hk & _).
    destruct (Hhead h i1 Hi1) as (i' & Hi' & Hh').
    exists i'. split; [done|]. eapply kept_trans; [done|]. by apply kept_of_header.
  - intros h i Hh n Hn.
    destruct (Hpre h i Hh) as (i1 & Hi1 & _).
    destruct (Hhead h i1 Hi1) as (i' & Hi' & Hh').
    apply header_fields in Hh' as (_ & _ & _ & _ & Hnid & _).
    rewrite (id_newid_lookup _ _ _ Hi') in Hn.
    destruct (Hn1 h i Hh n) as (Hin & Hfree & (ni & Hni & Hlib) & Href).
    { rewrite (id_newid_lookup _ _ _ Hi1). congruence. }
    destruct (Hhead n ni Hni) as (ni' & Hni' & Hhn).
    apply header_fields in Hhn as (_ & Hl & _ & _ & _ & Hov).
    split; [done|]. split; [done|]. split; [exists ni'; split; [done|congruence]|].
    unfold id_reference, id_override in *. rewrite Hni', Hov. by rewrite Hni in Href.
  - intros h i' Hh Hh'.
    destruct (ids m1 !! h) as [i1|] eqn:Hh1.
    2:{ rewrite (contents_frame_lookup_None _ _ _ Hframe Hh1) in Hh'. done. }
    destruct (Hnew h Hh) as (r & Hr & _ & Hnr); [by rewrite Hh1|].
    destruct (Htodo r Hr) as [ri Hri].
    destruct (Hn1 r ri Hri h Hnr) as (_ & _ & (ni & Hni & Hlib) & _).
    destruct (Hhead h i1 Hh1) as (i'' & Hi'' & Hhh).
    apply header_fields in Hhh as (_ & Hl & _).
    assert (i'' = i') as -> by congruence. congruence.
  - exists created. destruct Hframe as [[Ho _] _]. split; [congruence|].
    intros h Hh. by destruct (Hcreated h Hh).
Qed.

Lemma resync_pair_view map m m' x :
  pair_view <$> ids m' !! x = pair_view <$> ids m !! x →
  resync_pair map m' x = resync_pair map m x.
Proof.
  unfold resync_pair. intros Hv.
  destruct (ids m' !! x) as [i'|], (ids m !! x) as [i|]; simpl in Hv; try done.
  unfold pair_view in Hv. injection Hv as Hl Ht Hn.
  unfold ID_IS_LINKED. by rewrite Hl, Ht, Hn.
Qed.

Lemma id_pointers_relink old new i :
  id_pointers (id_relink old new false i) = remap_ptr old new <$> id_pointers i.
Proof.
  unfold id_pointers, id_relink, id_link_slots. simpl.
  rewrite !fmap_app. f_equal; [f_equal; [|f_equal]|].
  - by destruct (override_library i).
  - rewrite <- !list_fmap_compose. by apply list_fmap_ext.
  - destruct (pose (contents i)); [|done]. simpl. f_equal.
    rewrite <- !list_fmap_compose. by apply list_fmap_ext.
  - by destruct (key (contents i)).
Qed.

Lemma remap_ptr_not_old old new (l : list (option nat)) :
  new ≠ old → Some old ∉ remap_ptr old new <$> l.
Proof.
  intros Hne (p & Hp & _)%list_elem_of_fmap. unfold remap_ptr in Hp.
  case_bool_decide; congruence.
Qed.

Lemma remap_ptr_other old new p (l : list (option nat)) :
  p ≠ new → Some p ∉ l → Some p ∉ remap_ptr old new <$> l.
Proof.
  intros Hne Hl (q & Hq & Hin)%list_elem_of_fmap. unfold remap_ptr in Hq.
  case_bool_decide; [congruence|]. by subst.
Qed.

(** One turn of the first loop on a pair. *)
Lemma swap_one_lookup map m x nx ox io inx :
  resync_pair map m x = Some (nx, ox) →
  ids m !! ox = Some io → ids m !! nx = Some inx → nx ≠ ox →
  order (resync_swap_one map m x) = BLI_listbase_swaplinks ox nx (order m)
  ∧ relations (resync_swap_one map m x) = relations m
  ∧ ∃ P, ∀ h,
      ids (resync_swap_one map m x) !! h
      = (λ i, let i1 := if decide (h = nx) then set_name (name io) i
                        else if decide (h = ox) then set_name (name inx) i else i in
              let i2 := if ID_IS_LINKED i1 then i1 else id_relink ox nx false i1 in
              if decide (h = nx)
              then set_override_library (set_properties P <$> override_library i2) i2
              else i2) <$> ids m !! h.
Proof.
  intros Hpair Hox Hnx Hne. unfold resync_swap_one. rewrite Hpair, Hox, Hnx.
  split; [done|]. split; [done|]. eexists. intros h.
  unfold update_override. rewrite lookup_update_id.
  unfold BKE_libblock_remap, set_ids, set_order. cbn [ids].
  rewrite lookup_fmap, !lookup_update_id.
  destruct (ids m !! h) as [i|]; repeat case_decide; simplify_eq; done.
Qed.

Lemma foldl_visit {A : Type} (f : Main → A → Main) (Pre Post : Main → Prop) r l1 l2 m :
  Pre m →
  (∀ m x, x ∈ l1 → Pre m → Pre (f m x)) →
  (∀ m, Pre m → Post (f m r)) →
  (∀ m x, x ∈ l2 → Post m → Post (f m x)) →
  Post (foldl f m (l1 ++ r :: l2)).
Proof.
  intros Hm H1 Hr H2. rewrite foldl_app. simpl.
  assert (Pre (foldl f m l1)) as Hpre.
  { clear Hr H2. revert m Hm. induction l1 as [|x l1 IH]; intros m Hm; [done|].
    simpl. apply IH.
    - intros m' y Hy. apply H1. apply elem_of_cons. auto.
    - apply H1; [apply elem_of_cons; auto|done]. }
  apply Hr in Hpre. revert Hpre. generalize (f (foldl f m l1) r). clear Hm H1 Hr.
  induction l2 as [|x l2 IH]; intros m' Hm'; [done|].
  simpl. apply IH.
  - intros m'' y Hy. apply H2. apply elem_of_cons. auto.
  - apply H2; [apply elem_of_cons; auto|done].
Qed.

Lemma linked_lib i i' : lib i' = lib i → ID_IS_LINKED i' = ID_IS_LINKED i.
Proof. unfold ID_IS_LINKED. by intros ->. Qed.

Lemma pairs_kept_pair map mc m x :
  pairs_kept mc m → resync_pair map m x = resync_pair map mc x.
Proof. intros Hk. apply resync_pair_view, Hk. Qed.

Lemma pairs_kept_lookup mc m h i :
  pairs_kept mc m → ids mc !! h = Some i →
  ∃ i', ids m !! h = Some i' ∧ lib i' = lib i ∧ tag i' = tag i ∧ newid i' = newid i.
Proof.
  intros Hk Hh. specialize (Hk h). rewrite Hh in Hk.
  apply fmap_Some_eq in Hk as (i' & Hi' & Hv). exists i'. split; [done|].
  unfold pair_view in Hv. by injection Hv.
Qed.

Lemma pairs_kept_lookup_inv mc m h i :
  pairs_kept mc m → ids m !! h = Some i →
  ∃ i', ids mc !! h = Some i' ∧ lib i' = lib i ∧ tag i' = tag i ∧ newid i' = newid i.
Proof.
  intros Hk Hh. specialize (Hk h). rewrite Hh in Hk. symmetry in Hk.
  apply fmap_Some_eq in Hk as (i' & Hi' & Hv). exists i'. split; [done|].
  unfold pair_view in Hv. by injection Hv.
Qed.

Lemma id_pointers_set_properties P i :
  id_pointers (set_override_library (set_properties P <$> override_library i) i)
  = id_pointers i.
Proof. unfold id_pointers, id_link_slots. simpl. by destruct (override_library i). Qed.

Arguments id_relink : simpl never.

(** One turn of the first loop, for a registry met during the loop: the
    turn on an ID without pair changes nothing. *)
Lemma swap_one_none map mc m x :
  pairs_kept mc m → resync_pair map mc x = None → resync_swap_one map m x = m.
Proof.
  intros Hk Hx. unfold resync_swap_one. by rewrite (pairs_kept_pair _ _ _ _ Hk), Hx.
Qed.

(** The turn on a pair. *)
Lemma swap_one_some map mc m x nx ox :
  pairs_apart map mc → pairs_kept mc m →
  resync_pair map mc x = Some (nx, ox) →
  ∃ io inx,
    ids m !! ox = Some io ∧ ids m !! nx = Some inx
    ∧ order (resync_swap_one map m x) = BLI_listbase_swaplinks ox nx (order m)
    ∧ ∀ h,
        match ids m !! h with
        | None => ids (resync_swap_one map m x) !! h = None
        | Some i =>
            ∃ i', ids (resync_swap_one map m x) !! h = Some i'
                  ∧ pair_view i' = pair_view i
                  ∧ name i' = (if decide (h = nx) then name io
                               else if decide (h = ox) then name inx else name i)
                  ∧ (if ID_IS_LINKED i then i' = i
                     else id_pointers i' = remap_ptr ox nx <$> id_pointers i)
        end.
Proof.
  intros Hapart Hkept Hpair'.
  pose proof Hpair' as Hpair. rewrite <- (pairs_kept_pair _ _ _ _ Hkept) in Hpair.
  destruct (Hapart _ _ _ Hpair') as (Hne & (inc & Hinc & Hln) & (ioc & Hioc & Hlo) & _).
  destruct (pairs_kept_lookup _ _ _ _ Hkept Hinc) as (inx & Hinx & Hlibn & _).
  destruct (pairs_kept_lookup _ _ _ _ Hkept Hioc) as (io & Hio & Hlibo & _).
  exists io, inx.
  destruct (swap_one_lookup _ _ _ _ _ _ _ Hpair Hio Hinx Hne) as (Hord & _ & P & Hlook).
  repeat (split; [done|]). intros h. rewrite Hlook.
  destruct (ids m !! h) as [i|] eqn:Hh; [|done]. simpl.
  eexists. split; [done|].
  assert (ID_IS_LINKED inx = false) as Hln' by (by rewrite (linked_lib _ _ Hlibn)).
  assert (ID_IS_LINKED io = false) as Hlo' by (by rewrite (linked_lib _ _ Hlibo)).
  destruct (decide (h = nx)) as [->|Hn].
  { assert (i = inx) as -> by congruence.
    change (ID_IS_LINKED (set_name (name io) inx)) with (ID_IS_LINKED inx).
    rewrite Hln'. split; [done|]. split; [done|].
    rewrite id_pointers_set_properties. by rewrite id_pointers_relink. }
  destruct (decide (h = ox)) as [->|Ho].
  { assert (i = io) as -> by congruence.
    change (ID_IS_LINKED (set_name (name inx) io)) with (ID_IS_LINKED io).
    rewrite Hlo'. split; [done|]. split; [done|]. by rewrite id_pointers_relink. }
  destruct (ID_IS_LINKED i) eqn:Hl; [done|].
  split; [done|]. split; [done|]. by rewrite id_pointers_relink.
Qed.

Lemma swaplinks_lookup a b l k :
  BLI_listbase_swaplinks a b l !! k
  = (λ h, if bool_decide (h = a) then b else if bool_decide (h = b) then a else h)
      <$> l !! k.
Proof. unfold BLI_listbase_swaplinks. apply list_lookup_fmap. Qed.

Section resync_pair_loops.
Variables (host : Host) (map : gmap nat ID_ptr) (mc : Main).
Variables (r new old : ID_ptr) (on : string).
Hypothesis Hapart : pairs_apart map mc.
Hypothesis Hpair : resync_pair map mc r = Some (new, old).

Lemma pair_reference_linked : ∃ i, ids mc !! r = Some i ∧ ID_IS_LINKED i = true.
Proof.
  unfold resync_pair in Hpair. destruct (ids mc !! r) as [i|]; [|done].
  exists i. split; [done|].
  destruct (flag_test (tag i) LIB_TAG_DOIT && ID_IS_LINKED i) eqn:Hc; [|done].
  by apply andb_prop in Hc as [_ ?].
Qed.

Lemma pair_not_reference x nx ox :
  resync_pair map mc x = Some (nx, ox) → nx ≠ r ∧ ox ≠ r.
Proof.
  intros Hx. destruct (Hapart _ _ _ Hx) as (_ & (i1 & Hi1 & Hl1) & (i2 & Hi2 & Hl2) & _).
  destruct pair_reference_linked as (i & Hi & Hl).
  split; intros ->; congruence.
Qed.

Lemma swap_one_kept m x : pairs_kept mc m → pairs_kept mc (resync_swap_one map m x).
Proof.
  intros Hk. destruct (resync_pair map mc x) as [[nx ox]|] eqn:Hx.
  2:{ by rewrite (swap_one_none _ _ _ _ Hk Hx). }
  destruct (swap_one_some _ _ _ _ _ _ Hapart Hk Hx) as (io & inx & _ & _ & _ & Hlook).
  intros h. rewrite <- Hk. specialize (Hlook h). destruct (ids m !! h) as [i|].
  - destruct Hlook as (i' & -> & Hv & _). simpl. by rewrite Hv.
  - by rewrite Hlook.
Qed.

Lemma swap_one_met_once m x :
  pairs_kept mc m → met_once mc r (order m) →
  met_once mc r (order (resync_swap_one map m x)).
Proof.
  intros Hk Hm. destruct (resync_pair map mc x) as [[nx ox]|] eqn:Hx.
  2:{ by rewrite (swap_one_none _ _ _ _ Hk Hx). }
  destruct (swap_one_some _ _ _ _ _ _ Hapart Hk Hx) as (io & inx & _ & _ & -> & _).
  destruct Hm as (l1 & l2 & -> & Hr1 & Hr2 & Hl2).
  destruct (pair_not_reference _ _ _ Hx) as [Hnr Hor].
  destruct (Hapart _ _ _ Hx) as (_ & (i1 & Hi1 & Hln) & (i2 & Hi2 & Hlo) & _).
  exists (BLI_listbase_swaplinks ox nx l1), l2. split; [|split; [|done]].
  - unfold BLI_listbase_swaplinks. rewrite fmap_app, fmap_cons. f_equal.
    rewrite !bool_decide_eq_false_2 by done. f_equal.
    apply list_eq. intros k. rewrite list_lookup_fmap.
    destruct (l2 !! k) as [h|] eqn:Hk2; [|done]. simpl. f_equal.
    rewrite Forall_forall in Hl2.
    destruct (Hl2 h) as (i & Hi & Hl); [by eapply list_elem_of_lookup_2|].
    rewrite !bool_decide_eq_false_2; [done|intros ->; congruence|intros ->; congruence].
  - intros (h & Hh & Hin)%list_elem_of_fmap.
    repeat case_bool_decide; subst; done.
Qed.

Lemma swap_pre_step m x :
  x ≠ r → swap_pre mc r old on m → swap_pre mc r old on (resync_swap_one map m x).
Proof.
  intros Hxr (Hk & Hm & (i & Hi & Hn) & Hslot).
  split; [by apply swap_one_kept|]. split; [by apply swap_one_met_once|].
  destruct (resync_pair map mc x) as [[nx ox]|] eqn:Hx.
  2:{ rewrite (swap_one_none _ _ _ _ Hk Hx). eauto. }
  destruct (swap_one_some _ _ _ _ _ _ Hapart Hk Hx) as (io & inx & _ & _ & Hord & Hlook).
  destruct (Hapart _ _ _ Hx) as (_ & _ & _ & Hother).
  destruct (Hother r new old Hpair Hxr) as (_ & Hoo & Hno & _).
  split.
  - specialize (Hlook old). rewrite Hi in Hlook.
    destruct Hlook as (i' & Hi' & _ & Hname & _). exists i'. split; [done|].
    rewrite Hname. by rewrite !decide_False by done.
  - intros k Hk0. rewrite Hord, swaplinks_lookup, (Hslot k Hk0). simpl.
    by rewrite !bool_decide_eq_false_2 by done.
Qed.

Lemma swap_visit m :
  swap_pre mc r old on m → swap_post mc r new old on (resync_swap_one map m r).
Proof.
  intros (Hk & Hm & (i & Hi & Hn) & Hslot).
  split; [by apply swap_one_kept|]. split; [by apply swap_one_met_once|].
  destruct (Hapart _ _ _ Hpair) as (Hne & _).
  destruct (swap_one_some _ _ _ _ _ _ Hapart Hk Hpair) as (io & inx & Hio & Hinx & Hord & Hlook).
  assert (io = i) as -> by congruence.
  split; [|split].
  - pose proof (Hlook new) as Hl. rewrite Hinx in Hl.
    destruct Hl as (i' & Hi' & _ & Hname & _). exists i'.
    split; [done|]. rewrite Hname. by rewrite decide_True.
  - intros k Hk0. rewrite Hord, swaplinks_lookup, (Hslot k Hk0). simpl.
    by rewrite bool_decide_eq_true_2.
  - intros h ih' Hh Hlocal. specialize (Hlook h).
    destruct (ids m !! h) as [ih|]; [|congruence].
    destruct Hlook as (i' & Hi' & Hv & _ & Hptr).
    assert (i' = ih') as -> by congruence.
    assert (ID_IS_LINKED ih = false) as Hl.
    { rewrite <- Hlocal. symmetry. apply linked_lib. unfold pair_view in Hv. congruence. }
    rewrite Hl in Hptr. rewrite Hptr. by apply remap_ptr_not_old.
Qed.

Lemma swap_post_step m x :
  x ≠ r → swap_post mc r new old on m → swap_post mc r new old on (resync_swap_one map m x).
Proof.
  intros Hxr (Hk & Hm & (i & Hi & Hn) & Hslot & Huse).
  split; [by apply swap_one_kept|]. split; [by apply swap_one_met_once|].
  destruct (resync_pair map mc x) as [[nx ox]|] eqn:Hx.
  2:{ rewrite (swap_one_none _ _ _ _ Hk Hx). eauto. }
  destruct (swap_one_some _ _ _ _ _ _ Hapart Hk Hx) as (io & inx & _ & _ & Hord & Hlook).
  destruct (Hapart _ _ _ Hx) as (_ & _ & _ & Hother).
  destruct (Hother r new old Hpair Hxr) as (Hnn & Hoo & Hno & Hon).
  split; [|split].
  - pose proof (Hlook new) as Hl. rewrite Hi in Hl.
    destruct Hl as (i' & Hi' & _ & Hname & _). exists i'. split; [done|].
    rewrite Hname. by rewrite !decide_False by done.
  - intros k Hk0. rewrite Hord, swaplinks_lookup, (Hslot k Hk0). simpl.
    by rewrite !bool_decide_eq_false_2 by done.
  - intros h ih' Hh Hlocal. specialize (Hlook h).
    destruct (ids m !! h) as [ih|] eqn:Hih; [|congruence].
    destruct Hlook as (i' & Hi' & Hv & _ & Hptr).
    assert (i' = ih') as -> by congruence.
    assert (ID_IS_LINKED ih = false) as Hl.
    { rewrite <- Hlocal. symmetry. apply linked_lib. unfold pair_view in Hv. congruence. }
    rewrite Hl in Hptr. rewrite Hptr. apply remap_ptr_other; [done|].
    by apply (Huse h ih).
Qed.

(** The first loop. *)
Lemma resync_swap_spec :
  swap_pre mc r old on mc → swap_post mc r new old on (resync_swap map mc).
Proof.
  intros Hpre. pose proof Hpre as (_ & (l1 & l2 & Hord & Hr1 & Hr2 & _) & _).
  unfold resync_swap. rewrite Hord.
  apply (foldl_visit _ (swap_pre mc r old on) (swap_post mc r new old on)); [done|..].
  - intros m x Hx. apply swap_pre_step. intros ->. done.
  - apply swap_visit.
  - intros m x Hx. apply swap_post_step. intros ->. done.
Qed.

(** *** The second loop *)

Lemma id_pointers_clean i :
  id_pointers (set_override_library (resync_clean_override <$> override_library i) i)
  = id_pointers i.
Proof. unfold id_pointers, id_link_slots. simpl. by destruct (override_library i). Qed.

Lemma id_pointers_set_contents c i p :
  Some p ∈ id_pointers (set_contents c i) →
  Some p ∈ id_pointers i ∨ ∀ j, contents j = c → Some p ∈ id_pointers j.
Proof.
  unfold id_pointers at 1, id_link_slots. simpl.
  rewrite fmap_app, <- app_assoc. intros [Hp|Hp]%elem_of_app.
  - left. unfold id_pointers, id_link_slots. rewrite fmap_app, <- app_assoc.
    apply elem_of_app. by left.
  - right. intros j <-. unfold id_pointers, id_link_slots.
    rewrite fmap_app, <- app_assoc. apply elem_of_app. by right.
Qed.

Lemma apply_one_some m x nx ox inx io :
  apply_keeps_pointers host →
  resync_pair map m x = Some (nx, ox) → nx ≠ ox →
  ids m !! nx = Some inx → ids m !! ox = Some io →
  order (resync_apply_one host map m x) = order m
  ∧ (∀ h, h ≠ nx → ids (resync_apply_one host map m x) !! h = ids m !! h)
  ∧ ∃ i', ids (resync_apply_one host map m x) !! nx = Some i'
          ∧ pair_view i' = pair_view inx ∧ name i' = name inx
          ∧ ∀ p, Some p ∈ id_pointers i' →
                 Some p ∈ id_pointers inx ∨ Some p ∈ id_pointers io.
Proof.
  intros Happly Hx Hne Hnx Hox. unfold resync_apply_one. rewrite Hx.
  unfold update_override.
  rewrite lookup_update_id_same, lookup_update_id_ne, Hnx, Hox by done. simpl.
  set (new1 := set_override_library (resync_clean_override <$> override_library inx) inx).
  assert (∀ p, Some p ∈ id_pointers new1 → Some p ∈ id_pointers inx) as Hp1.
  { intros p. unfold new1. by rewrite id_pointers_clean. }
  destruct (resync_clean_override <$> override_library inx) as [o|] eqn:Ho.
  - split; [done|]. split; [intros h Hh; by rewrite !lookup_update_id_ne by done|].
    eexists. rewrite lookup_update_id_same, lookup_update_id_same, Hnx. simpl.
    split; [done|]. split; [done|]. split; [done|].
    intros p Hp. rewrite Ho in Hp. apply (Happly _ _ _ _ new1) in Hp as [Hp|Hp].
    + left. apply Hp1. exact Hp.
    + apply id_pointers_set_contents in Hp as [Hp|Hp]; [left; by apply Hp1|].
      right. by apply Hp.
  - split; [done|]. split; [intros h Hh; by rewrite !lookup_update_id_ne by done|].
    eexists. rewrite lookup_update_id_same, Hnx. simpl.
    split; [reflexivity|]. split; [reflexivity|]. split; [reflexivity|].
    intros p Hp. left. by rewrite id_pointers_clean in Hp.
Qed.

Lemma apply_one_post m x :
  apply_keeps_pointers host →
  swap_post mc r new old on m → swap_post mc r new old on (resync_apply_one host map m x).
Proof.
  intros Happly (Hk & Hm & (i & Hi & Hn) & Hslot & Huse).
  destruct (resync_pair map m x) as [[nx ox]|] eqn:Hx.
  2:{ unfold resync_apply_one. rewrite Hx. repeat split; eauto. }
  pose proof Hx as Hx'. rewrite (pairs_kept_pair _ _ _ _ Hk) in Hx'.
  destruct (Hapart _ _ _ Hx') as (Hne & (inc & Hinc & Hln) & (ioc & Hioc & Hlo) & _).
  destruct (pairs_kept_lookup _ _ _ _ Hk Hinc) as (inx & Hinx & Hlibn & _).
  destruct (pairs_kept_lookup _ _ _ _ Hk Hioc) as (io & Hio & Hlibo & _).
  destruct (apply_one_some m x nx ox inx io Happly Hx Hne Hinx Hio)
    as (Hord & Hother & i' & Hi' & Hv & Hname & Hptr).
  split; [|split; [by rewrite Hord|split; [|split; [intros k; rewrite Hord; apply Hslot|]]]].
  - intros h. rewrite <- Hk. destruct (decide (h = nx)) as [->|Hh].
    + rewrite Hi', Hinx. simpl. by rewrite Hv.
    + by rewrite Hother.
  - destruct (decide (new = nx)) as [->|Hh].
    + exists i'. split; [done|]. congruence.
    + exists i. by rewrite Hother.
  - intros h ih Hh Hlocal. destruct (decide (h = nx)) as [->|Hne'].
    + assert (ih = i') as -> by congruence. intros Hp.
      apply Hptr in Hp as [Hp|Hp].
      * apply (Huse nx inx Hinx); [|done]. by rewrite (linked_lib _ _ Hlibn).
      * apply (Huse ox io Hio); [|done]. by rewrite (linked_lib _ _ Hlibo).
    + rewrite Hother in Hh by done. by apply (Huse h ih).
Qed.

Lemma resync_apply_spec m :
  apply_keeps_pointers host →
  swap_post mc r new old on m → swap_post mc r new old on (resync_apply host map m).
Proof.
  intros Happly. unfold resync_apply. generalize (order m). intros l. revert m.
  induction l as [|x l IH]; intros m Hm; [done|]. simpl. apply IH.
  by apply apply_one_post.
Qed.

(** *** The third loop and the deletion *)

Lemma flag_test_clear_other x b c :
  flag_test (flag_clear x b) c = true → flag_test x c = true.
Proof.
  unfold flag_test, flag_clear. intros H%negb_true_iff%Z.eqb_neq.
  apply negb_true_iff, Z.eqb_neq. intros H0. apply H.
  rewrite <- Z.land_assoc, (Z.land_comm (Z.lnot b)), Z.land_assoc, H0. apply Z.land_0_l.
Qed.

Lemma id_pointers_key_tag f i :
  id_pointers (set_contents
                 (set_key ((λ k, set_key_tag (f k) k) <$> key (contents i)) (contents i)) i)
  = id_pointers i.
Proof. unfold id_pointers, id_link_slots. simpl. by destruct (key (contents i)). Qed.

Lemma delete_tag_one_view m x h :
  delete_view <$> ids (resync_delete_tag_one map m x) !! h = delete_view <$> ids m !! h.
Proof.
  unfold resync_delete_tag_one.
  assert (∀ m0 p f, (∀ i, delete_view (f i) = delete_view i) →
            delete_view <$> ids (update_id p f m0) !! h = delete_view <$> ids m0 !! h)
    as Hview by (intros; by apply view_update_id).
  assert (delete_view <$> ids (update_key x
            (λ k, set_key_tag (flag_clear (key_tag k) LIB_TAG_DOIT) k) m) !! h
          = delete_view <$> ids m !! h) as Hkey.
  { unfold update_key. apply Hview. intros i. unfold delete_view.
    rewrite (id_pointers_key_tag (λ k, flag_clear (key_tag k) LIB_TAG_DOIT)). done. }
  destruct (ids _ !! x) as [i|]; [|done].
  unfold id_tag_set, id_tag_clear.
  destruct (flag_test (tag i) LIB_TAG_DOIT).
  - destruct (resync_pair map _ x) as [[nx ox]|]; rewrite ?Hview by done; done.
  - destruct (_ && _); rewrite ?Hview by done; done.
Qed.

Lemma delete_tag_one_pair m x :
  resync_pair map (update_key x (λ k, set_key_tag (flag_clear (key_tag k) LIB_TAG_DOIT) k) m) x
  = resync_pair map m x.
Proof.
  apply resync_pair_view. unfold update_key. by apply view_update_id.
Qed.

Lemma delete_tag_one_other m x h :
  h ≠ x → (∀ nx ox, resync_pair map m x = Some (nx, ox) → h ≠ nx ∧ h ≠ ox) →
  ids (resync_delete_tag_one map m x) !! h = ids m !! h.
Proof.
  intros Hx Hpairx. unfold resync_delete_tag_one. rewrite delete_tag_one_pair.
  assert (ids (update_key x (λ k, set_key_tag (flag_clear (key_tag k) LIB_TAG_DOIT) k) m) !! h
          = ids m !! h) as Hkey by (unfold update_key; by rewrite lookup_update_id_ne).
  destruct (ids _ !! x) as [i|]; [|done].
  unfold id_tag_set, id_tag_clear.
  destruct (flag_test (tag i) LIB_TAG_DOIT).
  - destruct (resync_pair map m x) as [[nx ox]|].
    + destruct (Hpairx nx ox eq_refl). by rewrite !lookup_update_id_ne by done.
    + by rewrite !lookup_update_id_ne by done.
  - destruct (_ && _); by rewrite ?lookup_update_id_ne by done.
Qed.

Lemma delete_tag_one_doit m x h i i' :
  ids m !! h = Some i → ids (resync_delete_tag_one map m x) !! h = Some i' →
  flag_test (tag i') LIB_TAG_DOIT = true →
  flag_test (tag i) LIB_TAG_DOIT = true ∨ ID_IS_LINKED i = false
  ∨ ∃ nx, resync_pair map m x = Some (nx, h).
Proof.
  intros Hh Hh' Ht. revert Hh'. unfold resync_delete_tag_one. rewrite delete_tag_one_pair.
  set (m1 := update_key x _ m).
  assert (∃ i1, ids m1 !! h = Some i1 ∧ tag i1 = tag i ∧ lib i1 = lib i) as (i1 & Hi1 & Ht1 & Hl1).
  { unfold m1, update_key. rewrite lookup_update_id, Hh. case_decide; eauto. }
  assert (∀ m0 p b j, ids m0 !! h = Some j →
            ∃ j', ids (id_tag_clear p b m0) !! h = Some j' ∧ lib j' = lib j
                  ∧ (flag_test (tag j') LIB_TAG_DOIT = true
                     → flag_test (tag j) LIB_TAG_DOIT = true)) as Hclear.
  { intros m0 p b j Hj. unfold id_tag_clear. rewrite lookup_update_id, Hj.
    case_decide; simpl; eexists; (split; [done|]); (split; [done|]); [|done].
    apply flag_test_clear_other. }
  destruct (ids m1 !! x) as [ix|] eqn:Hix; [|intros; left; congruence].
  destruct (flag_test (tag ix) LIB_TAG_DOIT) eqn:Hdx.
  - destruct (resync_pair map m x) as [[nx ox]|].
    + destruct (decide (h = ox)) as [->|Hox]; [eauto|].
      destruct (Hclear m1 nx LIB_TAG_DOIT i1 Hi1) as (j1 & Hj1 & _ & Hd1).
      assert (ids (id_tag_set ox LIB_TAG_DOIT (id_tag_clear nx LIB_TAG_DOIT m1)) !! h
              = Some j1) as Hj2 by (unfold id_tag_set; by rewrite lookup_update_id_ne).
      destruct (Hclear _ x LIB_TAG_DOIT j1 Hj2) as (j3 & Hj3 & _ & Hd3).
      intros ?. left. rewrite <- Ht1. apply Hd1, Hd3. congruence.
    + destruct (Hclear m1 x LIB_TAG_DOIT i1 Hi1) as (j1 & Hj1 & _ & Hd1).
      intros ?. left. rewrite <- Ht1. apply Hd1. congruence.
  - destruct (flag_test (tag ix) LIB_TAG_MISSING && negb (ID_IS_LINKED ix)) eqn:Hmx;
      [|intros; left; congruence].
    destruct (decide (h = x)) as [->|Hx].
    + intros _. right. left. apply andb_prop in Hmx as [_ Hl%negb_true_iff].
      rewrite <- Hl. apply linked_lib. congruence.
    + unfold id_tag_clear, id_tag_set. rewrite !lookup_update_id_ne by done.
      intros ?. left. congruence.
Qed.

Lemma delete_kept_pair m x nx ox :
  delete_kept mc m → resync_pair map m x = Some (nx, ox) →
  resync_pair map mc x = Some (nx, ox).
Proof.
  intros Hk. specialize (Hk x). unfold resync_pair.
  destruct (ids mc !! x) as [ic|], (ids m !! x) as [i|]; try done.
  destruct Hk as (Hl & Hn & Ht).
  destruct (flag_test (tag i) LIB_TAG_DOIT && ID_IS_LINKED i) eqn:Hc; [|done].
  apply andb_prop in Hc as [Hd Hli]. rewrite (linked_lib _ _ Hl) in Hli.
  rewrite (Ht Hli Hd), Hli, Hn. done.
Qed.

Lemma delete_tag_one_kept m x :
  delete_kept mc m → delete_kept mc (resync_delete_tag_one map m x).
Proof.
  intros Hk h. pose proof (Hk h) as Hkh.
  pose proof (delete_tag_one_view m x h) as Hv.
  destruct (ids mc !! h) as [ic|] eqn:Hc, (ids m !! h) as [i|] eqn:Hi; try done.
  2:{ by destruct (ids (resync_delete_tag_one map m x) !! h). }
  destruct (ids (resync_delete_tag_one map m x) !! h) as [i'|] eqn:Hi'; [|done].
  simpl in Hv. unfold delete_view in Hv. injection Hv as _ Hl Hn _.
  destruct Hkh as (Hl0 & Hn0 & Ht0). split; [congruence|]. split; [congruence|].
  intros Hlinked Hd.
  destruct (delete_tag_one_doit m x h i i' Hi Hi' Hd) as [?|[Hlocal|(nx & Hx)]]; [auto|..].
  - rewrite (linked_lib _ _ Hl0) in Hlocal. congruence.
  - apply (delete_kept_pair _ _ _ _ Hk) in Hx.
    destruct (Hapart _ _ _ Hx) as (_ & _ & (io & Hio & Hlo) & _). congruence.
Qed.

Lemma delete_tag_one_name m x h i :
  ids m !! h = Some i →
  ∃ i', ids (resync_delete_tag_one map m x) !! h = Some i' ∧ name i' = name i.
Proof.
  intros Hi. pose proof (delete_tag_one_view m x h) as Hv. rewrite Hi in Hv.
  apply fmap_Some_eq in Hv as (i' & Hi' & Hv). exists i'. split; [done|].
  unfold delete_view in Hv. by injection Hv.
Qed.

Lemma delete_tag_one_users m x p :
  no_local_user p m → no_local_user p (resync_delete_tag_one map m x).
Proof.
  intros Hu h i' Hi' Hlocal.
  pose proof (delete_tag_one_view m x h) as Hv. rewrite Hi' in Hv. symmetry in Hv.
  apply fmap_Some_eq in Hv as (i & Hi & Hv).
  unfold delete_view in Hv. injection Hv as _ Hl _ Hp. rewrite <- Hp.
  apply (Hu h i Hi). by rewrite (linked_lib _ _ Hl).
Qed.

Lemma delete_pre_step m x :
  x ≠ r → delete_pre mc r new old on m →
  delete_pre mc r new old on (resync_delete_tag_one map m x).
Proof.
  intros Hxr (Hk & Hv & (i & Hi & Hn) & Hu).
  split; [by apply delete_tag_one_kept|]. split; [|split].
  - rewrite <- Hv. f_equal. apply delete_tag_one_other; [done|].
    intros nx ox Hx%(delete_kept_pair _ _ _ _ Hk).
    destruct (pair_not_reference _ _ _ Hx). auto.
  - destruct (delete_tag_one_name m x new i Hi) as (i' & ? & ?). exists i'.
    split; [done|congruence].
  - by apply delete_tag_one_users.
Qed.

Lemma delete_visit m :
  delete_pre mc r new old on m → delete_post mc new old on (resync_delete_tag_one map m r).
Proof.
  intros (Hk & Hv & (i & Hi & Hn) & Hu).
  split; [by apply delete_tag_one_kept|]. split; [|split; [by apply delete_tag_one_users|]].
  { destruct (delete_tag_one_name m r new i Hi) as (i' & ? & ?). exists i'.
    split; [done|congruence]. }
  destruct (Hapart _ _ _ Hpair) as (Hne & _ & (ioc & Hioc & _) & _).
  destruct (pair_not_reference _ _ _ Hpair) as [Hnr Hor].
  assert (resync_pair map m r = Some (new, old)) as Hpm.
  { rewrite <- Hpair. by apply resync_pair_view. }
  assert (∃ io, ids m !! old = Some io) as [io Hio].
  { specialize (Hk old). rewrite Hioc in Hk. destruct (ids m !! old); [eauto|done]. }
  unfold resync_delete_tag_one. rewrite delete_tag_one_pair, Hpm.
  set (m1 := update_key r _ m).
  assert (∃ ir, ids m1 !! r = Some ir ∧ flag_test (tag ir) LIB_TAG_DOIT = true)
    as (ir & Hir & Hdr).
  { unfold resync_pair in Hpm. unfold m1, update_key. rewrite lookup_update_id_same.
    destruct (ids m !! r) as [ir|]; [|done]. simpl. eexists. split; [done|]. simpl.
    destruct (flag_test (tag ir) LIB_TAG_DOIT); done. }
  rewrite Hir, Hdr. unfold id_tagged, id_tag_clear, id_tag_set. split.
  - rewrite lookup_update_id_ne, lookup_update_id_same, lookup_update_id_ne by done.
    unfold m1, update_key. rewrite lookup_update_id_ne, Hio by done. simpl.
    by apply flag_test_set.
  - rewrite !lookup_update_id_ne, lookup_update_id_same by done.
    destruct (ids m1 !! new); [|done]. simpl. apply flag_test_clear.
Qed.

Lemma delete_post_step m x :
  x ≠ r → (∃ i, ids mc !! x = Some i ∧ ID_IS_LINKED i = true) →
  delete_post mc new old on m → delete_post mc new old on (resync_delete_tag_one map m x).
Proof.
  intros Hxr (ix & Hix & Hlx) (Hk & (i & Hi & Hn) & Hu & Hto & Htn).
  split; [by apply delete_tag_one_kept|]. split; [|split; [by apply delete_tag_one_users|]].
  { destruct (delete_tag_one_name m x new i Hi) as (i' & ? & ?). exists i'.
    split; [done|congruence]. }
  destruct (Hapart _ _ _ Hpair) as (Hne & (inc & Hinc & Hln) & (ioc & Hioc & Hlo) & _).
  unfold id_tagged in *. rewrite !delete_tag_one_other; [done|..].
  - intros ->. congruence.
  - intros nx ox Hx%(delete_kept_pair _ _ _ _ Hk).
    destruct (Hapart _ _ _ Hx) as (_ & _ & _ & Hother).
    destruct (Hother r new old Hpair Hxr) as (? & ? & ? & ?). auto.
  - intros ->. congruence.
  - intros nx ox Hx%(delete_kept_pair _ _ _ _ Hk).
    destruct (Hapart _ _ _ Hx) as (_ & _ & _ & Hother).
    destruct (Hother r new old Hpair Hxr) as (? & ? & ? & ?). auto.
Qed.

(** The three loops and the deletion, for one pair. *)
Lemma resync_loops_spec :
  apply_keeps_pointers host →
  swap_pre mc r old on mc →
  let ms := resync_swap map mc in
  let md := resync_delete map (resync_apply host map ms) in
  (∀ k, order mc !! k = Some old → order ms !! k = Some new)
  ∧ (∃ i, ids md !! new = Some i ∧ name i = on)
  ∧ ids md !! old = None ∧ (old ∉ order md)
  ∧ no_local_user old md.
Proof.
  intros Happly Hpre ms md.
  pose proof (resync_swap_spec Hpre) as Hs. fold ms in Hs.
  pose proof Hs as (_ & _ & _ & Hslot & _). split; [done|].
  apply (resync_apply_spec _ Happly) in Hs.
  set (ma := resync_apply host map ms) in *.
  destruct Hs as (Hk & (l1 & l2 & Hord & Hr1 & Hr2 & Hl2) & Hname & _ & Hu).
  assert (delete_pre mc r new old on ma) as Hpre3.
  { split; [|split; [apply Hk|done]]. intros h. specialize (Hk h).
    destruct (ids mc !! h) as [ic|], (ids ma !! h) as [i|]; try done.
    simpl in Hk. unfold pair_view in Hk. injection Hk as Hl Ht Hn.
    split; [done|]. split; [done|]. by rewrite Ht. }
  assert (delete_post mc new old on (foldl (resync_delete_tag_one map) ma (order ma)))
    as (Hk3 & (i3 & Hi3 & Hn3) & Hu3 & Hto & Htn).
  { rewrite Hord.
    apply (foldl_visit _ (delete_pre mc r new old on) (delete_post mc new old on));
      [done|..].
    - intros m x Hx. apply delete_pre_step. intros ->. done.
    - apply delete_visit.
    - intros m x Hx. apply delete_post_step; [intros ->; done|].
      rewrite Forall_forall in Hl2. by apply Hl2. }
  set (m3 := foldl (resync_delete_tag_one map) ma (order ma)) in *.
  unfold md, resync_delete. fold ma. fold m3. unfold BKE_id_multi_tagged_delete.
  cbn [ids order]. unfold id_tagged in Hto, Htn.
  split; [|split; [|split]].
  - exists i3. split; [|done]. apply map_lookup_filter_Some. split; [done|].
    simpl. by rewrite Hi3 in Htn.
  - apply map_lookup_filter_None. right. intros io Hio. simpl.
    rewrite Hio in Hto. by rewrite Hto.
  - intros [Hf _]%list_elem_of_filter. unfold id_tagged in Hf. congruence.
  - intros h i [Hi _]%map_lookup_filter_Some. by apply (Hu3 h i).
Qed.

End resync_pair_loops.

(** *** The pairs of a resync *)

Lemma kept_linked i i' : kept i i' → ID_IS_LINKED i' = ID_IS_LINKED i.
Proof. intros (_ & Hl & _). by apply linked_lib. Qed.

(** What a pair is made of: a linked reference that was registered before
    the creation, a new override that was not, and an old override that
    was. *)
Lemma resync_pair_facts host fuel mt mc x nx ox :
  BKE_lib_override_library_create_from_tag host fuel mt = Some (mc, true) →
  (∀ h, id_newid mt h = None) →
  resync_pair (linkedref_to_old_override_build mt) mc x = Some (nx, ox) →
  (∃ xi, ids mt !! x = Some xi ∧ ID_IS_LINKED xi = true) ∧ x ∈ order mt
  ∧ ids mt !! nx = None ∧ (∃ ni, ids mc !! nx = Some ni ∧ lib ni = None)
  ∧ id_reference mc nx = Some x
  ∧ ox ∈ order mt
  ∧ ∃ oi oi', ids mt !! ox = Some oi ∧ id_reference mt ox = Some x
              ∧ flag_test (tag oi) LIB_TAG_DOIT = true
              ∧ ID_IS_OVERRIDE_LIBRARY_REAL oi = true
              ∧ ids mc !! ox = Some oi' ∧ kept oi oi'.
Proof.
  intros Hcreate Hnull Hx.
  destruct (create_from_tag_success _ _ _ _ Hcreate Hnull) as (Hkept & Hnew & Hfresh & _).
  unfold resync_pair in Hx.
  destruct (ids mc !! x) as [xc|] eqn:Hxc; [|done].
  destruct (flag_test (tag xc) LIB_TAG_DOIT && ID_IS_LINKED xc) eqn:Hc; [|done].
  apply andb_prop in Hc as [Hd Hl].
  destruct (newid xc) as [n|] eqn:Hn; [|done].
  destruct (linkedref_to_old_override_build mt !! x) as [o|] eqn:Hmap; [|done].
  injection Hx as -> ->.
  destruct (ids mt !! x) as [xi|] eqn:Hxi.
  2:{ pose proof (Hfresh x xc Hxi Hxc) as Hlib. unfold ID_IS_LINKED in Hl.
      rewrite Hlib in Hl. by apply bool_decide_eq_true in Hl. }
  destruct (Hkept x xi Hxi) as (xc' & Hxc' & Hkx).
  assert (xc' = xc) as -> by congruence.
  destruct (Hnew x xi Hxi nx) as (Hin & Hnone & Hni & Href).
  { unfold id_newid. by rewrite Hxc. }
  destruct (linkedref_build_spec _ _ _ Hmap) as (Hoin & oi & Hoi & Hdo & Hro & Hrefo).
  destruct (Hkept ox oi Hoi) as (oi' & Hoi' & Hko).
  split; [exists xi; split; [done|]; by rewrite <- (kept_linked _ _ Hkx)|].
  repeat (split; [done|]). exists oi, oi'. do 4 (split; [done|]). by split.
Qed.

Lemma resync_pairs_apart host fuel mt mc :
  BKE_lib_override_library_create_from_tag host fuel mt = Some (mc, true) →
  (∀ h, id_newid mt h = None) →
  (∀ h i, ids mt !! h = Some i → flag_test (tag i) LIB_TAG_DOIT = true →
     ID_IS_OVERRIDE_LIBRARY_REAL i = true → ID_IS_LINKED i = false) →
  pairs_apart (linkedref_to_old_override_build mt) mc.
Proof.
  intros Hcreate Hnull Hlocal x nx ox Hx.
  destruct (resync_pair_facts _ _ _ _ _ _ _ Hcreate Hnull Hx)
    as (_ & _ & Hnx & (ni & Hni & Hlni) & Hrefn & _
        & oi & oi' & Hoi & Hrefo & Hdo & Hro & Hoi' & Hko).
  split; [intros ->; congruence|]. split.
  { exists ni. split; [done|]. unfold ID_IS_LINKED. rewrite Hlni.
    by apply bool_decide_eq_false_2; intros ?. }
  split.
  { exists oi'. split; [done|]. rewrite (kept_linked _ _ Hko). by eapply Hlocal. }
  intros y ny oy Hy Hxy.
  destruct (resync_pair_facts _ _ _ _ _ _ _ Hcreate Hnull Hy)
    as (_ & _ & Hny & _ & Hrefny & _ & oiy & _ & Hoiy & Hrefoy & _).
  repeat split; intros ->; congruence.
Qed.

Lemma resync_met_once host fuel mt mc x :
  BKE_lib_override_library_create_from_tag host fuel mt = Some (mc, true) →
  (∀ h, id_newid mt h = None) →
  NoDup (order mt) → locals_first mt →
  x ∈ order mt → (∃ xi, ids mt !! x = Some xi ∧ ID_IS_LINKED xi = true) →
  met_once mc x (order mc).
Proof.
  intros Hcreate Hnull Hnodup (locals & linkeds & Hord & Hlocals & Hlinkeds) Hin
    (xi & Hxi & Hlx).
  destruct (create_from_tag_success _ _ _ _ Hcreate Hnull)
    as (Hkept & _ & _ & created & Hordc & Hcreated).
  rewrite Forall_forall in Hlocals. rewrite Forall_forall in Hlinkeds.
  rewrite Hord in Hin, Hnodup.
  apply elem_of_app in Hin as [Hin|Hin].
  { destruct (Hlocals x Hin) as (? & ? & ?). congruence. }
  apply list_elem_of_split in Hin as (a & b & ->).
  apply NoDup_app in Hnodup as (_ & _ & Hnd).
  apply NoDup_app in Hnd as (_ & Hax & [Hxb _]%NoDup_cons).
  assert (x ∉ a) as Hxa.
  { intros Hxa. apply (Hax x Hxa). apply elem_of_cons. auto. }
  exists (created ++ locals ++ a), b. split; [|split; [|split; [done|]]].
  - rewrite Hordc, Hord. by rewrite <- !app_assoc.
  - rewrite !elem_of_app. intros [Hc|[Hl|Ha]].
    + rewrite (Hcreated x Hc) in Hxi. done.
    + destruct (Hlocals x Hl) as (? & ? & ?). congruence.
    + done.
  - apply Forall_forall. intros h Hh.
    destruct (Hlinkeds h) as (i & Hi & Hl); [apply elem_of_app; right; apply elem_of_cons; auto|].
    destruct (Hkept h i Hi) as (i' & Hi' & Hk). exists i'. split; [done|].
    by rewrite (kept_linked _ _ Hk).
Qed.

(** The final cleanup of the resync: the counterparts and the tags are
    reset, the names, the libraries and the pointers are kept. *)
Lemma resync_cleanup_lookup m h :
  ∃ g : ID → ID,
    ids (BKE_main_id_tag_all LIB_TAG_DOIT false (BKE_main_id_clear_newpoins m)) !! h
    = g <$> ids m !! h
    ∧ ∀ i, name (g i) = name i ∧ lib (g i) = lib i ∧ id_pointers (g i) = id_pointers i.
Proof.
  eexists. split.
  - unfold BKE_main_id_tag_all, BKE_main_id_clear_newpoins, set_ids. cbn [ids].
    rewrite !lookup_fmap, <- option_fmap_compose. reflexivity.
  - intros i. split; [done|]. split; [done|].
    unfold id_pointers, id_link_slots. simpl. by destruct (key (contents i)).
Qed.


Lemma example_apply_keeps_pointers : apply_keeps_pointers example_host.
Proof.
  intros dst src st o i p. unfold id_pointers, id_link_slots. simpl.
  rewrite !fmap_app, !elem_of_app. simpl. rewrite !elem_of_cons. tauto.
Qed.

Lemma id_newid_null m :
  map_Forall (λ _ i, newid i = None) (ids m) → ∀ h, id_newid m h = None.
Proof.
  intros Hall h. unfold id_newid. destruct (ids m !! h) as [i|] eqn:Hi; [|done].
  by apply (Hall h i).
Qed.

Lemma example_post_process_keeps : post_process_keeps example_host.
Proof. intros m a b. by split. Qed.

(** ** Rules by path *)

Ltac gset_unfold :=
  repeat (rewrite elem_of_union || rewrite elem_of_difference || rewrite elem_of_singleton
          || rewrite elem_of_list_to_set || rewrite elem_of_cons || rewrite elem_of_nil
          || rewrite elem_of_empty).

Ltac gset_eq := apply leibniz_equiv; intros ?; gset_unfold; intuition congruence.

Lemma ghash_build (l : list IDOverrideLibraryProperty) : ∀ gh0 : gset string,
  NoDup (rna_path <$> l) → (∀ p, p ∈ rna_path <$> l → p ∉ gh0) →
  foldl (λ gh op, gh ≫= BLI_ghash_insert (rna_path op)) (Some gh0) l
  = Some (list_to_set (rna_path <$> l) ∪ gh0).
Proof.
  induction l as [|op l IH]; intros gh0 Hnd Hfresh.
  - cbn. f_equal. gset_eq.
  - rewrite fmap_cons in Hnd. apply NoDup_cons in Hnd. destruct Hnd as [Hop Hnd].
    assert (rna_path op ∉ gh0) as Hnew by (apply Hfresh, elem_of_cons; by left).
    cbn [foldl mbind option_bind]. unfold BLI_ghash_insert at 2.
    rewrite bool_decide_eq_false_2 by done.
    rewrite IH; [|done|].
    + f_equal. rewrite fmap_cons. gset_eq.
    + intros p Hp. rewrite elem_of_union, elem_of_singleton.
      intros [->|Hin]; [done|]. apply (Hfresh p); [|done].
      apply elem_of_cons. by right.
Qed.

Lemma set_ghash_same (o : IDOverrideLibrary) (gh : gset string) :
  override_ghash o = Some gh → set_ghash gh o = o.
Proof.
  destruct o as [r ps st [[h t]|]]; unfold override_ghash; cbn; [|done].
  by intros ->.
Qed.

Lemma mapping_ensure_coherent (o : IDOverrideLibrary) :
  ghash_coherent o →
  override_library_rna_path_mapping_ensure o = Some (set_ghash (list_to_set (paths o)) o).
Proof.
  intros [Hnd Hgh]. unfold override_library_rna_path_mapping_ensure.
  destruct (override_ghash o) as [gh|] eqn:Ho.
  - assert (override_library_rna_path_runtime_ensure o = o) as ->.
    { unfold override_library_rna_path_runtime_ensure.
      destruct (runtime o) eqn:Hr; [done|]. unfold override_ghash in Ho.
      by rewrite Hr in Ho. }
    rewrite Ho, <- (Hgh gh eq_refl). by rewrite set_ghash_same.
  - assert (override_ghash (override_library_rna_path_runtime_ensure o) = None) as ->.
    { unfold override_library_rna_path_runtime_ensure.
      destruct (runtime o) eqn:Hr; [done|]. done. }
    assert (properties (override_library_rna_path_runtime_ensure o) = properties o) as ->.
    { unfold override_library_rna_path_runtime_ensure. by destruct (runtime o). }
    rewrite (ghash_build _ ∅ Hnd) by (intros p _; apply not_elem_of_empty).
    f_equal. unfold override_library_rna_path_runtime_ensure, set_ghash, paths.
    assert (list_to_set (rna_path <$> properties o) ∪ ∅
            = (list_to_set (rna_path <$> properties o) : gset string)) as -> by gset_eq.
    destruct o as [r ps st [[h t]|]]; [|done].
    unfold override_ghash in Ho. cbn in Ho. by subst h.
Qed.

Lemma filter_path_one (l : list IDOverrideLibraryProperty) (op : IDOverrideLibraryProperty) :
  NoDup (rna_path <$> l) → op ∈ l →
  length (filter (λ op', rna_path op' = rna_path op) l) = 1%nat.
Proof.
  induction l as [|x l IH]; intros Hnd Hin; [by apply elem_of_nil in Hin|].
  rewrite fmap_cons in Hnd. apply NoDup_cons in Hnd. destruct Hnd as [Hx Hnd].
  rewrite filter_cons. apply elem_of_cons in Hin as [->|Hin].
  - rewrite decide_True by done. cbn. f_equal.
    apply length_zero_iff_nil, elem_of_nil_inv. intros y Hy.
    apply list_elem_of_filter in Hy as [Hy Hl]. apply Hx.
    rewrite <- Hy. by apply list_elem_of_fmap_2.
  - rewrite decide_False; [by apply IH|].
    intros Heq. apply Hx. rewrite Heq. by apply list_elem_of_fmap_2.
Qed.

Lemma ghash_lookup_path (o : IDOverrideLibrary) (k : nat) (op : IDOverrideLibraryProperty) :
  NoDup (paths o) → properties o !! k = Some op →
  BLI_ghash_lookup o (list_to_set (paths o)) (rna_path op) = Some (Some k).
Proof.
  intros Hnd Hk. unfold BLI_ghash_lookup.
  rewrite bool_decide_eq_true_2.
  2: { apply elem_of_list_to_set, list_elem_of_fmap_2, (list_elem_of_lookup_2 _ k), Hk. }
  assert (list_find (λ op', rna_path op' = rna_path op) (properties o) = Some (k, op)) as ->.
  { apply list_find_Some. split; [done|]. split; [done|].
    intros j y Hj Hlt Hy.
    assert (j = k); [|lia].
    apply (NoDup_lookup _ j k (rna_path op) Hnd); unfold paths;
      rewrite list_lookup_fmap; [by rewrite Hj, <- Hy | by rewrite Hk]. }
  rewrite bool_decide_eq_true_2; [done|].
  apply filter_path_one; [done|]. by apply (list_elem_of_lookup_2 _ k).
Qed.

Lemma ghash_lookup_none (o : IDOverrideLibrary) (p : string) (gh : gset string) :
  p ∉ gh → BLI_ghash_lookup o gh p = Some None.
Proof. intros Hp. unfold BLI_ghash_lookup. by rewrite bool_decide_eq_false_2. Qed.

Lemma ghash_coherent_set (o : IDOverrideLibrary) :
  NoDup (paths o) → ghash_coherent (set_ghash (list_to_set (paths o)) o).
Proof. intros Hnd. split; [done|]. intros gh Hgh. by injection Hgh as <-. Qed.

Lemma property_find_coherent (o : IDOverrideLibrary) (p : string) :
  ghash_coherent o →
  ∃ r, BKE_lib_override_library_property_find o p
       = Some (set_ghash (list_to_set (paths o)) o, r)
    ∧ match r with
      | Some k => ∃ op, properties o !! k = Some op ∧ rna_path op = p
      | None => p ∉ paths o
      end.
Proof.
  intros Hco. unfold BKE_lib_override_library_property_find.
  rewrite (mapping_ensure_coherent o Hco).
  change (override_ghash (set_ghash (list_to_set (paths o)) o))
    with (Some (list_to_set (paths o) : gset string)).
  destruct (decide (p ∈ paths o)) as [Hin|Hout].
  - unfold paths in Hin. apply list_elem_of_fmap in Hin as (op & -> & Hop).
    apply list_elem_of_lookup in Hop as [k Hk].
    exists (Some k). split; [|by exists op].
    by rewrite (ghash_lookup_path (set_ghash _ o) k op (proj1 Hco) Hk).
  - exists None. split; [|done].
    rewrite ghash_lookup_none; [done|]. by rewrite elem_of_list_to_set.
Qed.

Lemma paths_NoDup_unique (o : IDOverrideLibrary) (j k : nat)
    (a b : IDOverrideLibraryProperty) :
  NoDup (paths o) → properties o !! j = Some a → properties o !! k = Some b →
  rna_path a = rna_path b → j = k.
Proof.
  intros Hnd Hj Hk Hab.
  apply (NoDup_lookup _ j k (rna_path a) Hnd); unfold paths; rewrite list_lookup_fmap.
  - by rewrite Hj.
  - by rewrite Hk, Hab.
Qed.

Lemma property_find_built (o : IDOverrideLibrary) (k : nat) (op : IDOverrideLibraryProperty) :
  NoDup (paths o) → override_ghash o = Some (list_to_set (paths o)) →
  properties o !! k = Some op →
  BKE_lib_override_library_property_find o (rna_path op) = Some (o, Some k).
Proof.
  intros Hnd Hgh Hk.
  assert (ghash_coherent o) as Hco.
  { split; [done|]. intros gh Hgh'. rewrite Hgh in Hgh'. by injection Hgh' as <-. }
  destruct (property_find_coherent o (rna_path op) Hco) as (r & Hfind & Hr).
  rewrite (set_ghash_same _ _ Hgh) in Hfind. rewrite Hfind.
  destruct r as [k'|].
  - destruct Hr as (op' & Hk' & Hp).
    by rewrite (paths_NoDup_unique o k' k op' op Hnd Hk' Hk Hp).
  - exfalso. apply Hr. unfold paths.
    by apply list_elem_of_fmap_2, (list_elem_of_lookup_2 _ k).
Qed.

Lemma property_get_coherent (o : IDOverrideLibrary) (p : string) :
  ghash_coherent o →
  ∃ o' k created,
    BKE_lib_override_library_property_get o p = Some (o', k, created)
    ∧ NoDup (paths o') ∧ override_ghash o' = Some (list_to_set (paths o'))
    ∧ reference o' = reference o ∧ storage o' = storage o
    ∧ (∃ op, properties o' !! k = Some op ∧ rna_path op = p)
    ∧ if created
      then (p ∉ paths o) ∧ k = length (properties o)
           ∧ properties o' = properties o ++ [mk_op p [] 0 0]
      else properties o' = properties o.
Proof.
  intros Hco. unfold BKE_lib_override_library_property_get.
  destruct (property_find_coherent o p Hco) as (r & -> & Hr).
  destruct Hco as [Hnd _]. destruct r as [k|].
  - exists (set_ghash (list_to_set (paths o)) o), k, false.
    do 5 (split; [done|]). done.
  - set (o1 := set_ghash (list_to_set (paths o)) o).
    set (o2 := set_properties (properties o1 ++ [mk_op p [] 0 0]) o1).
    assert (override_library_rna_path_mapping_ensure o2 = Some o2) as ->.
    { unfold override_library_rna_path_mapping_ensure. done. }
    change (override_ghash o2) with (Some (list_to_set (paths o) : gset string)).
    cbn [mbind option_bind]. unfold BLI_ghash_insert.
    rewrite bool_decide_eq_false_2 by (by rewrite elem_of_list_to_set).
    exists (set_ghash ({[p]} ∪ list_to_set (paths o)) o2), (length (properties o)), true.
    split; [done|].
    assert (paths (set_ghash ({[p]} ∪ list_to_set (paths o)) o2) = paths o ++ [p]) as Hpaths.
    { unfold paths. cbn. by rewrite fmap_app. }
    split.
    { rewrite Hpaths. apply NoDup_app. split; [done|]. split; [|apply NoDup_singleton].
      intros x Hx Hxp. apply list_elem_of_singleton in Hxp. by subst x. }
    split.
    { rewrite Hpaths. change (override_ghash _)
        with (Some ({[p]} ∪ list_to_set (paths o) : gset string)).
      f_equal. rewrite list_to_set_app_L. cbn. gset_eq. }
    do 2 (split; [done|]).
    split.
    { exists (mk_op p [] 0 0). split; [|done]. cbn.
      rewrite lookup_app_r by done. by rewrite Nat.sub_diag. }
    done.
Qed.

Lemma property_delete_coherent (o : IDOverrideLibrary) (k : nat)
    (op : IDOverrideLibraryProperty) :
  ghash_coherent o → properties o !! k = Some op →
  ∃ o', BKE_lib_override_library_property_delete o k = Some o'
    ∧ properties o' = delete k (properties o)
    ∧ reference o' = reference o ∧ storage o' = storage o
    ∧ runtime_tag <$> runtime o' = runtime_tag <$> runtime o
    ∧ ghash_coherent o' ∧ (rna_path op ∉ paths o').
Proof.
  intros [Hnd Hgh] Hk. unfold BKE_lib_override_library_property_delete. rewrite Hk.
  assert (paths o ≡ₚ rna_path op :: delete k (paths o)) as Hperm.
  { apply delete_Permutation. unfold paths. by rewrite list_lookup_fmap, Hk. }
  rewrite Hperm in Hnd. apply NoDup_cons in Hnd. destruct Hnd as [Hout Hnd'].
  eexists. split; [done|].
  assert (∀ o1, properties o1 = properties o →
            paths (set_properties (delete k (properties o)) o1) = delete k (paths o))
    as Hpaths.
  { intros o1 _. unfold paths. cbn. by rewrite list_fmap_delete. }
  destruct (override_ghash o) as [gh|] eqn:Ho.
  - do 3 (split; [done|]).
    split.
    { destruct o as [r ps st [[h t]|]]; [done|]. discriminate Ho. }
    split; [|by rewrite Hpaths].
    split; [by rewrite Hpaths|].
    intros gh' Hgh'. rewrite Hpaths by done. injection Hgh' as <-.
    rewrite (Hgh gh eq_refl).
    apply leibniz_equiv. intros x. rewrite elem_of_difference, !elem_of_list_to_set.
    rewrite elem_of_singleton. rewrite Hperm at 1. rewrite elem_of_cons.
    split; [intros [[->|Hx] Hne]; done|]. intros Hx. split; [by right|].
    intros ->. done.
  - do 4 (split; [done|]).
    split; [|by rewrite Hpaths].
    split; [by rewrite Hpaths|].
    intros gh' Hgh'. exfalso.
    destruct o as [r ps st [[h t]|]]; unfold override_ghash in *; cbn in *; congruence.
Qed.

(** X1. On an override whose hash is coherent (no two properties share a
    path, and the hash, when built, holds the paths of the properties),
    [BKE_lib_override_library_property_find] returns the property recorded
    for the path and returns null exactly when no property has the path; it
    builds the hash and leaves the properties, the reference and the storage
    as they are. *)
Theorem property_find_by_path (o : IDOverrideLibrary) (p : string) :
  ghash_coherent o →
  ∃ o' r,
    BKE_lib_override_library_property_find o p = Some (o', r)
    ∧ properties o' = properties o ∧ reference o' = reference o ∧ storage o' = storage o
    ∧ override_ghash o' = Some (list_to_set (paths o))
    ∧ match r with
      | Some k => ∃ op, properties o !! k = Some op ∧ rna_path op = p
      | None => p ∉ paths o
      end.
Proof.
  intros Hco. destruct (property_find_coherent o p Hco) as (r & Hfind & Hr).
  exists (set_ghash (list_to_set (paths o)) o), r. by repeat split.
Qed.

Lemma chair_rules_coherent : ghash_coherent chair_rules.
Proof.
  split; [|intros gh Hgh; discriminate Hgh].
  apply (bool_decide_unpack _). vm_compute. exact I.
Qed.

Lemma property_find_by_path_witness :
  (∃ o' r,
     BKE_lib_override_library_property_find chair_rules "color" = Some (o', r)
     ∧ properties o' = properties chair_rules ∧ reference o' = reference chair_rules
     ∧ storage o' = storage chair_rules
     ∧ override_ghash o' = Some (list_to_set (paths chair_rules))
     ∧ match r with
       | Some k => ∃ op, properties chair_rules !! k = Some op ∧ rna_path op = "color"%string
       | None => "color"%string ∉ paths chair_rules
       end).
Proof. apply (property_find_by_path chair_rules "color"), chair_rules_coherent. Defined.

(** X2. On an override whose hash is coherent,
    [BKE_lib_override_library_property_get] returns a property of the given
    path: the recorded one, with the properties unchanged and [created]
    false, or, when no property had the path, a new property without
    operation added at the end of the list, with [created] true. A lookup of
    the path then finds that property, and a second [get] returns it without
    creating anything. *)
Theorem property_get_then_find (o : IDOverrideLibrary) (p : string) :
  ghash_coherent o →
  ∃ o' k created op,
    BKE_lib_override_library_property_get o p = Some (o', k, created)
    ∧ properties o' !! k = Some op ∧ rna_path op = p
    ∧ (if created
       then (p ∉ paths o) ∧ properties o' = properties o ++ [mk_op p [] 0 0]
       else properties o' = properties o)
    ∧ BKE_lib_override_library_property_find o' p = Some (o', Some k)
    ∧ BKE_lib_override_library_property_get o' p = Some (o', k, false).
Proof.
  intros Hco.
  destruct (property_get_coherent o p Hco)
    as (o' & k & created & Hget & Hnd & Hgh & _ & _ & (op & Hk & Hp) & Hcase).
  exists o', k, created, op. split; [done|]. split; [done|]. split; [done|].
  split; [by destruct created; [destruct Hcase as (? & ? & ?)|]|].
  pose proof (property_find_built o' k op Hnd Hgh Hk) as Hfind. rewrite Hp in Hfind.
  split; [done|].
  unfold BKE_lib_override_library_property_get. by rewrite Hfind.
Qed.

Lemma property_get_then_find_witness :
  ∃ o' k created op,
    BKE_lib_override_library_property_get chair_rules "size" = Some (o', k, created)
    ∧ properties o' !! k = Some op ∧ rna_path op = "size"%string
    ∧ (if created
       then ("size"%string ∉ paths chair_rules)
            ∧ properties o' = properties chair_rules ++ [mk_op "size" [] 0 0]
       else properties o' = properties chair_rules)
    ∧ BKE_lib_override_library_property_find o' "size" = Some (o', Some k)
    ∧ BKE_lib_override_library_property_get o' "size" = Some (o', k, false).
Proof. apply (property_get_then_find chair_rules "size"), chair_rules_coherent. Defined.

(** X3. On an override whose hash is coherent,
    [BKE_lib_override_library_property_delete] removes the property from the
    list; a lookup of its path then returns null, and every other property is
    still found under its own path. *)
Theorem property_delete_then_find (o : IDOverrideLibrary) (k : nat)
    (op : IDOverrideLibraryProperty) :
  ghash_coherent o → properties o !! k = Some op →
  ∃ o',
    BKE_lib_override_library_property_delete o k = Some o'
    ∧ properties o' = delete k (properties o)
    ∧ (∃ o'', BKE_lib_override_library_property_find o' (rna_path op) = Some (o'', None))
    ∧ ∀ j op', properties o !! j = Some op' → j ≠ k →
        ∃ o'' j', BKE_lib_override_library_property_find o' (rna_path op')
                  = Some (o'', Some j')
          ∧ properties o' !! j' = Some op'.
Proof.
  intros Hco Hk.
  destruct (property_delete_coherent o k op Hco Hk)
    as (o' & Hdel & Hprops & _ & _ & _ & Hco' & Hout).
  exists o'. split; [done|]. split; [done|]. split.
  - destruct (property_find_coherent o' (rna_path op) Hco') as (r & Hfind & Hr).
    destruct r as [j|]; [|by eexists].
    destruct Hr as (op' & Hj & Hp). exfalso. apply Hout. rewrite <- Hp.
    unfold paths. by apply list_elem_of_fmap_2, (list_elem_of_lookup_2 _ j).
  - intros j op' Hj Hne.
    assert (∃ j', properties o' !! j' = Some op') as [j' Hj'].
    { rewrite Hprops. destruct (decide (j < k)%nat).
      - exists j. by rewrite list_lookup_delete_lt.
      - exists (pred j). rewrite list_lookup_delete_ge by lia.
        by replace (S (pred j)) with j by lia. }
    destruct (property_find_coherent o' (rna_path op') Hco') as (r & Hfind & Hr).
    destruct r as [i|].
    + destruct Hr as (op'' & Hi & Hp).
      assert (i = j') as -> by (by eapply paths_NoDup_unique; [apply Hco'|..]).
      by eexists _, _.
    + exfalso. apply Hr. unfold paths.
      by apply list_elem_of_fmap_2, (list_elem_of_lookup_2 _ j').
Qed.

Lemma property_delete_then_find_witness :
  ∃ o',
    BKE_lib_override_library_property_delete chair_rules 0 = Some o'
    ∧ properties o' = delete 0%nat (properties chair_rules)
    ∧ (∃ o'', BKE_lib_override_library_property_find o' (rna_path legs_property)
              = Some (o'', None))
    ∧ ∀ j op', properties chair_rules !! j = Some op' → j ≠ 0%nat →
        ∃ o'' j', BKE_lib_override_library_property_find o' (rna_path op')
                  = Some (o'', Some j')
          ∧ properties o' !! j' = Some op'.
Proof.
  apply (property_delete_then_find chair_rules 0 legs_property);
    [apply chair_rules_coherent|reflexivity].
Defined.


(** The override of an ID, as a view of the registry. *)
Lemma id_override_other (q : nat) (m : Main) (o : IDOverrideLibrary) :
  override_library <$> ids m !! q = Some (Some o) → id_override m q = Some o.
Proof.
  unfold id_override. destruct (ids m !! q) as [i|]; [|done].
  cbn. by intros [= ->].
Qed.

Lemma override_view_update_id (p : nat) (f : ID → ID) (m : Main) (q : nat) :
  (∀ i, override_library (f i) = override_library i) →
  override_library <$> ids (update_id p f m) !! q = override_library <$> ids m !! q.
Proof.
  intros Hf. rewrite lookup_update_id. destruct (decide (p = q)); [|done].
  destruct (ids m !! q) as [i|]; [|done]. cbn. by rewrite Hf.
Qed.

Lemma override_view_update_override (p : nat) (f : IDOverrideLibrary → IDOverrideLibrary)
    (m : Main) (q : nat) :
  override_library <$> ids (update_override p f m) !! q
  = if decide (q = p) then fmap f <$> (override_library <$> ids m !! q)
    else override_library <$> ids m !! q.
Proof.
  unfold update_override. rewrite lookup_update_id.
  destruct (decide (p = q)) as [->|Hne].
  - rewrite decide_True by done. by destruct (ids m !! q).
  - by rewrite decide_False by done.
Qed.

Lemma override_view_us_plus (p : option nat) (m : Main) (q : nat) :
  override_library <$> ids (id_us_plus p m) !! q = override_library <$> ids m !! q.
Proof. destruct p as [h|]; [|done]. by apply override_view_update_id. Qed.

Lemma override_view_us_min (p : option nat) (m : Main) (q : nat) :
  override_library <$> ids (id_us_min p m) !! q = override_library <$> ids m !! q.
Proof. destruct p as [h|]; [|done]. by apply override_view_update_id. Qed.

Lemma override_view_clear (p : nat) (b : bool) (m : Main) (q : nat) :
  override_library <$> ids (BKE_lib_override_library_clear p b m) !! q
  = if decide (q = p) then fmap override_clear_data <$> (override_library <$> ids m !! q)
    else override_library <$> ids m !! q.
Proof.
  unfold BKE_lib_override_library_clear.
  destruct (ids m !! p) as [i|] eqn:Hp.
  2: { destruct (decide (q = p)) as [->|]; [|done]. by rewrite Hp. }
  destruct (override_library i) as [o|] eqn:Ho.
  2: { destruct (decide (q = p)) as [->|]; [|done]. rewrite Hp. cbn. by rewrite Ho. }
  destruct b; rewrite ?override_view_us_min; apply override_view_update_override.
Qed.

(** X4. A deep copy onto an ID whose override has its hash built leaves the
    hash stale: [BKE_lib_override_library_clear] empties the hash, the
    properties of the source are then duplicated into the list without being
    hashed, so that a lookup of the path of a copied property returns null,
    and [BKE_lib_override_library_property_get] adds a second property with
    that path. *)
Theorem copy_leaves_hash_stale (m : Main) (dst_id src_id : nat) (d s : ID)
    (o_d o_s : IDOverrideLibrary) (gh : gset string) (op : IDOverrideLibraryProperty) :
  ids m !! dst_id = Some d → ids m !! src_id = Some s → dst_id ≠ src_id →
  override_library d = Some o_d → override_ghash o_d = Some gh →
  override_library s = Some o_s → op ∈ properties o_s →
  ∃ o',
    id_override (BKE_lib_override_library_copy dst_id src_id true m) dst_id = Some o'
    ∧ properties o' = properties o_s
    ∧ BKE_lib_override_library_property_find o' (rna_path op) = Some (o', None)
    ∧ ∃ o'',
        BKE_lib_override_library_property_get o' (rna_path op)
        = Some (o'', length (properties o_s), true)
        ∧ properties o'' = properties o_s ++ [mk_op (rna_path op) [] 0 0].
Proof.
  intros Hd Hs Hne Hod Hgh Hos Hop.
  destruct o_d as [rd pd sd [[hd td]|]]; [|discriminate Hgh].
  unfold override_ghash in Hgh. cbn in Hgh. subst hd.
  set (o' := mk_override (match reference o_s with Some r => Some r | None => Some src_id end)
               (properties o_s) sd (Some (mk_runtime (Some ∅) td))).
  assert (id_override (BKE_lib_override_library_copy dst_id src_id true m) dst_id = Some o')
    as Hcopy.
  { unfold BKE_lib_override_library_copy. rewrite Hd, Hs, Hod, Hos.
    rewrite override_properties_duplicate_eq.
    rewrite (id_override_other src_id (BKE_lib_override_library_clear dst_id true m) o_s).
    2: { rewrite override_view_clear, decide_False by done. by rewrite Hs, <- Hos. }
    unfold id_reference.
    rewrite (id_override_other src_id (BKE_lib_override_library_clear dst_id true m) o_s).
    2: { rewrite override_view_clear, decide_False by done. by rewrite Hs, <- Hos. }
    apply id_override_other.
    rewrite override_view_update_id by done.
    rewrite override_view_update_override, decide_True by done.
    rewrite override_view_us_plus.
    rewrite override_view_update_override, decide_True by done.
    rewrite override_view_clear, decide_True by done.
    rewrite Hd. cbn. rewrite Hod. reflexivity. }
  exists o'. split; [done|]. split; [done|].
  assert (BKE_lib_override_library_property_find o' (rna_path op) = Some (o', None))
    as Hfind.
  { unfold BKE_lib_override_library_property_find, override_library_rna_path_mapping_ensure.
    cbn. by rewrite ghash_lookup_none by apply not_elem_of_empty. }
  split; [done|].
  unfold BKE_lib_override_library_property_get. rewrite Hfind.
  unfold override_library_rna_path_mapping_ensure. cbn.
  unfold BLI_ghash_insert. rewrite bool_decide_eq_false_2 by apply not_elem_of_empty.
  by eexists.
Qed.

Lemma copy_leaves_hash_stale_witness :
  ∃ o',
    id_override (BKE_lib_override_library_copy 3 2 true hashed_chairs_main) 3 = Some o'
    ∧ properties o' = [legs_property]
    ∧ BKE_lib_override_library_property_find o' (rna_path legs_property) = Some (o', None)
    ∧ ∃ o'',
        BKE_lib_override_library_property_get o' (rna_path legs_property)
        = Some (o'', length [legs_property], true)
        ∧ properties o'' = [legs_property] ++ [mk_op (rna_path legs_property) [] 0 0].
Proof.
  apply (copy_leaves_hash_stale hashed_chairs_main 3 2 _ _ _
           (mk_override (Some 1%nat) [legs_property] None None) ∅ legs_property
           eq_refl eq_refl ltac:(done) eq_refl eq_refl eq_refl).
  apply list_elem_of_singleton. reflexivity.
Defined.

(** ** Operations of a property *)

Lemma findstring_elem_of {A : Type} (field : A → option string) (l : list A) (s : string)
    (x : A) :
  BLI_findstring_ptr field l s = Some x → x ∈ l ∧ field x = Some s.
Proof.
  induction l as [|y l IH]; [done|]. cbn. case_bool_decide as Hy.
  - intros [= ->]. split; [apply elem_of_cons; by left|done].
  - intros Hx. destruct (IH Hx) as [Hin Hf]. split; [apply elem_of_cons; by right|done].
Qed.

Lemma findstring_None {A : Type} (field : A → option string) (l : list A) (s : string) :
  BLI_findstring_ptr field l s = None ↔ ∀ x, x ∈ l → field x ≠ Some s.
Proof.
  induction l as [|y l IH]; cbn.
  - split; [|done]. intros _ x Hx. by apply elem_of_nil in Hx.
  - case_bool_decide as Hy.
    + split; [done|]. intros Hall. exfalso. apply (Hall y); [apply elem_of_cons; by left|done].
    + rewrite IH. split.
      * intros Hall x Hx. apply elem_of_cons in Hx as [->|Hx]; [done|by apply Hall].
      * intros Hall x Hx. apply Hall, elem_of_cons. by right.
Qed.

Lemma findstring_app_new {A : Type} (field : A → option string) (l : list A) (s : string)
    (x : A) :
  BLI_findstring_ptr field l s = None → field x = Some s →
  BLI_findstring_ptr field (l ++ [x]) s = Some x.
Proof.
  intros Hnone Hx. induction l as [|y l IH]; cbn in *.
  - by rewrite bool_decide_eq_true_2.
  - case_bool_decide; [done|]. by apply IH.
Qed.

Lemma findstring_app_old {A : Type} (field : A → option string) (l k : list A) (s : string)
    (x : A) :
  BLI_findstring_ptr field l s = Some x → BLI_findstring_ptr field (l ++ k) s = Some x.
Proof.
  induction l as [|y l IH]; [done|]. cbn. case_bool_decide; [done|]. apply IH.
Qed.

Lemma bytes_find_elem_of {A : Type} (field : A → Z) (l : list A) (v : Z) (x : A) :
  BLI_listbase_bytes_find field l v = Some x → x ∈ l ∧ field x = v.
Proof.
  induction l as [|y l IH]; [done|]. cbn. case_bool_decide as Hy.
  - intros [= ->]. split; [apply elem_of_cons; by left|done].
  - intros Hx. destruct (IH Hx) as [Hin Hf]. split; [apply elem_of_cons; by right|done].
Qed.

Lemma bytes_find_None {A : Type} (field : A → Z) (l : list A) (v : Z) :
  BLI_listbase_bytes_find field l v = None ↔ ∀ x, x ∈ l → field x ≠ v.
Proof.
  induction l as [|y l IH]; cbn.
  - split; [|done]. intros _ x Hx. by apply elem_of_nil in Hx.
  - case_bool_decide as Hy.
    + split; [done|]. intros Hall. exfalso. apply (Hall y); [apply elem_of_cons; by left|done].
    + rewrite IH. split.
      * intros Hall x Hx. apply elem_of_cons in Hx as [->|Hx]; [done|by apply Hall].
      * intros Hall x Hx. apply Hall, elem_of_cons. by right.
Qed.

Lemma bytes_find_app_new {A : Type} (field : A → Z) (l : list A) (v : Z) (x : A) :
  BLI_listbase_bytes_find field l v = None → field x = v →
  BLI_listbase_bytes_find field (l ++ [x]) v = Some x.
Proof.
  intros Hnone Hx. induction l as [|y l IH]; cbn in *.
  - by rewrite bool_decide_eq_true_2.
  - case_bool_decide; [done|]. by apply IH.
Qed.

(** The operation a lookup returns is one of the property. *)
Lemma operation_find_elem_of (op : IDOverrideLibraryProperty)
    (refname locname : option string) (refindex locindex : Z) (strict r_strict : bool)
    (opop : IDOverrideLibraryPropertyOperation) :
  BKE_lib_override_library_property_operation_find op refname locname refindex locindex strict
  = (Some opop, r_strict) →
  opop ∈ operations op.
Proof.
  unfold BKE_lib_override_library_property_operation_find.
  destruct locname as [l|].
  - destruct (BLI_findstring_ptr _ _ l) as [o|] eqn:Hf; [|done].
    apply findstring_elem_of in Hf as [Hin _].
    destruct refname as [r|], (subitem_reference_name o) as [r'|]; cbn;
      try case_match; by intros [= <- _].
  - destruct refname as [r|].
    + destruct (BLI_findstring_ptr _ _ r) as [o|] eqn:Hf; [|done].
      apply findstring_elem_of in Hf as [Hin _].
      destruct (subitem_local_name o); cbn; by intros [= <- _].
    + destruct (BLI_listbase_bytes_find subitem_local_index _ locindex) as [o|] eqn:H1.
      { apply bytes_find_elem_of in H1 as [Hin _]. case_match; by intros [= <- _]. }
      destruct (BLI_listbase_bytes_find subitem_reference_index _ refindex) as [o|] eqn:H2.
      { apply bytes_find_elem_of in H2 as [Hin _]. case_match; by intros [= <- _]. }
      case_match; [|done].
      destruct (BLI_listbase_bytes_find subitem_local_index _ (-1)) as [o|] eqn:H3; [|done].
      apply bytes_find_elem_of in H3 as [Hin _]. by intros [= <- _].
Qed.

Lemma operation_find_refname_match (r : option string) :
  match r, r with
  | Some a, Some b => if STREQ a b then true else false
  | a, b => null_ptr_eq a b
  end = true.
Proof. destruct r; [|done]. unfold STREQ. by rewrite bool_decide_eq_true_2. Qed.

(** X5. When the key a lookup searches first is not used by any operation of
    the property, [BKE_lib_override_library_property_operation_get] returns
    an operation of the property that the same lookup then finds: either one
    that was recorded, the property being left as it is, or a new operation
    with the given code, names and indices added at the end of the list. A
    second [get] returns the same operation without creating anything. *)
Theorem operation_get_then_find (op : IDOverrideLibraryProperty) (operation_ : Z)
    (refname locname : option string) (refindex locindex : Z) (strict : bool) :
  first_key_unused op refname locname locindex →
  ∃ op' opop r_strict created,
    BKE_lib_override_library_property_operation_get op operation_ refname locname
      refindex locindex strict = (op', opop, r_strict, created)
    ∧ (opop ∈ operations op')
    ∧ (if created
       then operations op' = operations op ++ [opop]
            ∧ opop = mk_opop operation_ 0 0 refname locname refindex locindex
       else op' = op)
    ∧ BKE_lib_override_library_property_operation_find op' refname locname
        refindex locindex strict = (Some opop, r_strict)
    ∧ BKE_lib_override_library_property_operation_get op' operation_ refname locname
        refindex locindex strict = (op', opop, r_strict, false).
Proof.
  intros Hkey.
  set (new := mk_opop operation_ 0 0 refname locname refindex locindex).
  set (op1 := set_operations (operations op ++ [new]) op).
  assert (BKE_lib_override_library_property_operation_find op1 refname locname
            refindex locindex strict = (Some new, true)) as Hnew.
  { unfold BKE_lib_override_library_property_operation_find, first_key_unused in *.
    destruct locname as [l|]; [|destruct refname as [r|]].
    - cbn [operations op1 set_operations].
      rewrite (findstring_app_new subitem_local_name _ l new);
        [|by apply findstring_None|done].
      cbn [subitem_reference_name new].
      pose proof (operation_find_refname_match refname) as Hm.
      destruct refname as [r|]; [|done]. by destruct (STREQ r r).
    - cbn [operations op1 set_operations].
      rewrite (findstring_app_new subitem_reference_name _ r new);
        [done|by apply findstring_None|done].
    - cbn [operations op1 set_operations].
      rewrite (bytes_find_app_new subitem_local_index _ locindex new);
        [|by apply bytes_find_None|done].
      rewrite bool_decide_eq_true_2; [done|]. by right. }
  assert (∀ opop rs,
            BKE_lib_override_library_property_operation_find op refname locname
              refindex locindex strict = (Some opop, rs) →
            ∃ op' opop r_strict created,
              BKE_lib_override_library_property_operation_get op operation_ refname locname
                refindex locindex strict = (op', opop, r_strict, created)
              ∧ (opop ∈ operations op')
              ∧ (if created
                 then operations op' = operations op ++ [opop]
                      ∧ opop = mk_opop operation_ 0 0 refname locname refindex locindex
                 else op' = op)
              ∧ BKE_lib_override_library_property_operation_find op' refname locname
                  refindex locindex strict = (Some opop, r_strict)
              ∧ BKE_lib_override_library_property_operation_get op' operation_ refname locname
                  refindex locindex strict = (op', opop, r_strict, false)) as Hold.
  { intros opop rs Hfind. exists op, opop, rs, false.
    unfold BKE_lib_override_library_property_operation_get. rewrite Hfind.
    repeat split; try done. by eapply operation_find_elem_of. }
  assert (BKE_lib_override_library_property_operation_find op refname locname
            refindex locindex strict = (None, true) →
          ∃ op' opop r_strict created,
            BKE_lib_override_library_property_operation_get op operation_ refname locname
              refindex locindex strict = (op', opop, r_strict, created)
            ∧ (opop ∈ operations op')
            ∧ (if created
               then operations op' = operations op ++ [opop]
                    ∧ opop = mk_opop operation_ 0 0 refname locname refindex locindex
               else op' = op)
            ∧ BKE_lib_override_library_property_operation_find op' refname locname
                refindex locindex strict = (Some opop, r_strict)
            ∧ BKE_lib_override_library_property_operation_get op' operation_ refname locname
                refindex locindex strict = (op', opop, r_strict, false)) as Hcreate.
  { intros Hfind. exists op1, new, true, true.
    unfold BKE_lib_override_library_property_operation_get. rewrite Hfind, Hnew.
    repeat split; try done. apply elem_of_app. right. by apply list_elem_of_singleton. }
  destruct (BKE_lib_override_library_property_operation_find op refname locname
              refindex locindex strict) as [[opop|] rs] eqn:Hfind; [by eapply Hold|].
  apply Hcreate. f_equal.
  unfold BKE_lib_override_library_property_operation_find in Hfind.
  repeat case_match; by simplify_eq.
Qed.

Lemma operation_get_then_find_witness :
  ∃ op' opop r_strict created,
    BKE_lib_override_library_property_operation_get legs_property 1 (Some "Arm"%string)
      (Some "ArmA"%string) (-1) (-1) true = (op', opop, r_strict, created)
    ∧ (opop ∈ operations op')
    ∧ (if created
       then operations op' = operations legs_property ++ [opop]
            ∧ opop = mk_opop 1 0 0 (Some "Arm"%string) (Some "ArmA"%string) (-1) (-1)
       else op' = legs_property)
    ∧ BKE_lib_override_library_property_operation_find op' (Some "Arm"%string)
        (Some "ArmA"%string) (-1) (-1) true = (Some opop, r_strict)
    ∧ BKE_lib_override_library_property_operation_get op' 1 (Some "Arm"%string)
        (Some "ArmA"%string) (-1) (-1) true = (op', opop, r_strict, false).
Proof.
  apply (operation_get_then_find legs_property 1 (Some "Arm"%string) (Some "ArmA"%string)
           (-1) (-1) true).
  intros o Ho. apply list_elem_of_singleton in Ho. subst o. simpl. discriminate.
Defined.

(** X6. When the first operation recorded under the local name of the query
    has another reference name than the query (or none where the query has
    one, or one where the query has none),
    [BKE_lib_override_library_property_operation_get] adds a new operation
    that the lookup still does not find, so that every further [get] with the
    same arguments adds one more. *)
Theorem operation_get_other_reference_name (op : IDOverrideLibraryProperty)
    (operation_ : Z) (refname : option string) (l : string) (refindex locindex : Z)
    (strict : bool) (o : IDOverrideLibraryPropertyOperation) :
  BLI_findstring_ptr subitem_local_name (operations op) l = Some o →
  subitem_reference_name o ≠ refname →
  let new := mk_opop operation_ 0 0 refname (Some l) refindex locindex in
  let op1 := set_operations (operations op ++ [new]) op in
  let op2 := set_operations ((operations op ++ [new]) ++ [new]) op in
  BKE_lib_override_library_property_operation_get op operation_ refname (Some l)
    refindex locindex strict = (op1, new, true, true)
  ∧ BKE_lib_override_library_property_operation_find op1 refname (Some l)
      refindex locindex strict = (None, true)
  ∧ BKE_lib_override_library_property_operation_get op1 operation_ refname (Some l)
      refindex locindex strict = (op2, new, true, true).
Proof.
  intros Hfirst Hne new op1 op2.
  assert (∀ k, BKE_lib_override_library_property_operation_find
                 (set_operations (operations op ++ k) op) refname (Some l)
                 refindex locindex strict = (None, true)) as Hfind.
  { intros k. unfold BKE_lib_override_library_property_operation_find.
    cbn [operations set_operations].
    rewrite (findstring_app_old _ _ k _ _ Hfirst).
    destruct refname as [r|], (subitem_reference_name o) as [r'|]; try done.
    unfold STREQ. rewrite bool_decide_eq_false_2; [done|]. by intros ->. }
  assert (set_operations (operations op ++ []) op = op) as Hnil.
  { rewrite app_nil_r. by destruct op. }
  split; [|split].
  - unfold BKE_lib_override_library_property_operation_get.
    specialize (Hfind []). rewrite Hnil in Hfind. by rewrite Hfind.
  - apply Hfind.
  - unfold BKE_lib_override_library_property_operation_get, op1.
    by rewrite (Hfind [new]).
Qed.

Lemma operation_get_other_reference_name_witness :
  let new := mk_opop 1 0 0 None (Some "LegA"%string) (-1) (-1) in
  let op1 := set_operations (operations legs_property ++ [new]) legs_property in
  let op2 := set_operations ((operations legs_property ++ [new]) ++ [new]) legs_property in
  BKE_lib_override_library_property_operation_get legs_property 1 None (Some "LegA"%string)
    (-1) (-1) false = (op1, new, true, true)
  ∧ BKE_lib_override_library_property_operation_find op1 None (Some "LegA"%string)
      (-1) (-1) false = (None, true)
  ∧ BKE_lib_override_library_property_operation_get op1 1 None (Some "LegA"%string)
      (-1) (-1) false = (op2, new, true, true).
Proof.
  apply (operation_get_other_reference_name legs_property 1 None "LegA" (-1) (-1) false
           leg_operation); [reflexivity|discriminate].
Defined.

(** ** Removal of the unused rules *)

(** A loop whose body removes the links [del] selects and rewrites the others
    with [upd] leaves the links not selected, rewritten, in their order. *)
Lemma foreach_mutable_spec {T A : Type} (view : T → list A) (del : A → bool) (upd : A → A)
    (Inv : T → Prop) (body : nat → T → option (T * bool)) :
  (∀ k s a, Inv s → view s !! k = Some a →
     ∃ s', body k s = Some (s', del a) ∧ Inv s'
       ∧ view s' = if del a then delete k (view s) else <[k := upd a]> (view s)) →
  ∀ todo k s, Inv s → length (view s) = (k + todo)%nat →
    ∃ s', LISTBASE_FOREACH_MUTABLE body todo k s = Some s' ∧ Inv s'
      ∧ view s' = take k (view s) ++ (upd <$> filter (λ a, del a = false) (drop k (view s))).
Proof.
  intros Hbody. induction todo as [|todo IH]; intros k s Hinv Hlen.
  - exists s. split; [done|]. split; [done|].
    rewrite drop_ge by lia. rewrite take_ge by lia. by rewrite app_nil_r.
  - destruct (lookup_lt_is_Some_2 (view s) k) as [a Ha]; [lia|].
    destruct (Hbody k s a Hinv Ha) as (s1 & Hb & Hinv1 & Hview).
    cbn [LISTBASE_FOREACH_MUTABLE]. rewrite Hb.
    rewrite (drop_S _ _ _ Ha), filter_cons.
    destruct (del a) eqn:Hdel.
    + rewrite decide_False by done.
      destruct (IH k s1 Hinv1) as (s' & Hrun & Hinv' & Hview').
      { rewrite Hview, length_delete by (by eexists). lia. }
      exists s'. split; [done|]. split; [done|].
      rewrite Hview', Hview, delete_take_drop.
      rewrite take_app_le by (rewrite length_take; lia).
      rewrite take_take, Nat.min_id.
      rewrite drop_app_ge by (rewrite length_take; lia).
      rewrite length_take, Nat.min_l by lia. by rewrite Nat.sub_diag.
    + rewrite decide_True by done.
      destruct (IH (S k) s1 Hinv1) as (s' & Hrun & Hinv' & Hview').
      { rewrite Hview, length_insert. lia. }
      exists s'. split; [done|]. split; [done|].
      rewrite Hview', Hview.
      rewrite (take_S_r _ _ (upd a)) by (apply list_lookup_insert_eq; lia).
      rewrite take_insert_ge by done. rewrite drop_insert_lt by lia.
      rewrite fmap_cons. by rewrite <- app_assoc.
Qed.

(** A loop whose body leaves the state alone leaves the state alone. *)
Lemma foreach_mutable_id {T A : Type} (view : T → list A)
    (body : nat → T → option (T * bool)) (s : T) :
  (∀ k, (k < length (view s))%nat → body k s = Some (s, false)) →
  ∀ todo k, (k + todo ≤ length (view s))%nat → LISTBASE_FOREACH_MUTABLE body todo k s = Some s.
Proof.
  intros Hbody. induction todo as [|todo IH]; intros k Hlen; [done|].
  cbn [LISTBASE_FOREACH_MUTABLE]. rewrite Hbody by lia. apply IH. lia.
Qed.

Lemma unused_cleanup_operations_spec (p : IDOverrideLibraryProperty) :
  LISTBASE_FOREACH_MUTABLE unused_cleanup_operation (length (operations p)) 0 p
  = Some (set_operations (filter (λ o, unused_opop o = false) (operations p)) p).
Proof.
  destruct (foreach_mutable_spec operations unused_opop id
              (λ s, rna_path s = rna_path p ∧ op_tag s = op_tag p
                    ∧ rna_prop_type s = rna_prop_type p)
              unused_cleanup_operation) with (todo := length (operations p)) (k := 0%nat)
              (s := p) as (s' & Hrun & (Hp & Ht & Hty) & Hview); [|done|done|].
  - intros k s a Hinv Ha. unfold unused_cleanup_operation. rewrite Ha.
    fold (unused_opop a). destruct (unused_opop a).
    + unfold BKE_lib_override_library_property_operation_delete. rewrite Ha.
      by eexists.
    + exists s. split; [done|]. split; [done|]. by rewrite list_insert_id.
  - rewrite Hrun. f_equal. rewrite take_0, drop_0, list_fmap_id in Hview. cbn in Hview.
    destruct s', p. cbn in *. by subst.
Qed.

Lemma without_unused_unfold (l : list IDOverrideLibraryProperty) :
  without_unused l = without_unused_operations <$> filter (λ op, unused_op op = false) l.
Proof. reflexivity. Qed.

(** The outer loop, with what it keeps besides the list. *)
Lemma unused_cleanup_properties_spec (Inv : IDOverrideLibrary → Prop) (o : IDOverrideLibrary) :
  Inv o →
  (∀ s k op, Inv s → properties s !! k = Some op → unused_op op = true →
     ∃ s', BKE_lib_override_library_property_delete s k = Some s' ∧ Inv s') →
  (∀ s k op, Inv s → properties s !! k = Some op →
     Inv (set_properties (<[k := without_unused_operations op]> (properties s)) s)) →
  ∃ o', LISTBASE_FOREACH_MUTABLE unused_cleanup_property (length (properties o)) 0 o = Some o'
    ∧ Inv o' ∧ properties o' = without_unused (properties o).
Proof.
  intros Hinv Hdel Hupd.
  destruct (foreach_mutable_spec properties unused_op without_unused_operations Inv
              unused_cleanup_property) with (todo := length (properties o)) (k := 0%nat)
              (s := o) as (s' & Hrun & Hinv' & Hview); [|done|done|].
  - intros k s op Hs Hk. unfold unused_cleanup_property. rewrite Hk.
    fold (unused_op op). destruct (unused_op op) eqn:Hu.
    + destruct (Hdel s k op Hs Hk Hu) as (s' & Hd & Hs'). rewrite Hd.
      exists s'. split; [done|]. split; [done|].
      unfold BKE_lib_override_library_property_delete in Hd. rewrite Hk in Hd.
      injection Hd as <-. by destruct (override_ghash s).
    + rewrite unused_cleanup_operations_spec. eexists. split; [done|].
      split; [by apply Hupd|done].
  - exists s'. split; [done|]. split; [done|]. by rewrite Hview, take_0, drop_0.
Qed.

Lemma without_unused_clean (l : list IDOverrideLibraryProperty) :
  Forall (λ op, unused_op op = false
                ∧ Forall (λ opop, unused_opop opop = false) (operations op))
         (without_unused l).
Proof.
  rewrite without_unused_unfold. apply Forall_forall. intros op Hop.
  apply list_elem_of_fmap in Hop as (op0 & -> & Hop0).
  apply list_elem_of_filter in Hop0 as [Hu _]. split; [done|].
  apply Forall_forall. intros opop Hopop. cbn in Hopop.
  by apply list_elem_of_filter in Hopop as [? _].
Qed.

Lemma filter_all {A : Type} (P : A → Prop) `{∀ x, Decision (P x)} (l : list A) :
  Forall P l → filter P l = l.
Proof.
  induction 1 as [|x l Hx Hl IH]; [done|]. by rewrite filter_cons, decide_True, IH.
Qed.

Lemma paths_insert_same (s : IDOverrideLibrary) (k : nat) (op op' : IDOverrideLibraryProperty) :
  properties s !! k = Some op → rna_path op' = rna_path op →
  paths (set_properties (<[k := op']> (properties s)) s) = paths s.
Proof.
  intros Hk Hp. unfold paths. cbn. rewrite list_fmap_insert, Hp.
  apply list_insert_id. by rewrite list_lookup_fmap, Hk.
Qed.

(** The loops of [BKE_lib_override_library_id_unused_cleanup] on the override
    of a real override. *)
Lemma unused_cleanup_override_spec (o : IDOverrideLibrary) :
  ∃ o', LISTBASE_FOREACH_MUTABLE unused_cleanup_property (length (properties o)) 0 o = Some o'
    ∧ properties o' = without_unused (properties o)
    ∧ reference o' = reference o ∧ storage o' = storage o
    ∧ (ghash_coherent o → ghash_coherent o').
Proof.
  destruct (unused_cleanup_properties_spec
              (λ s, reference s = reference o ∧ storage s = storage o
                    ∧ (ghash_coherent o → ghash_coherent s)) o)
    as (o' & Hrun & (Hr & Hs & Hco) & Hprops); [done| | |by exists o'].
  - intros s k op (Hr & Hs & Hco) Hk _.
    unfold BKE_lib_override_library_property_delete. rewrite Hk.
    eexists. split; [done|]. split; [by destruct (override_ghash s)|].
    split; [by destruct (override_ghash s)|]. intros Ho.
    destruct (property_delete_coherent s k op (Hco Ho) Hk) as (s' & Hd & _ & _ & _ & _ & Hs' & _).
    unfold BKE_lib_override_library_property_delete in Hd. rewrite Hk in Hd.
    by injection Hd as <-.
  - intros s k op (Hr & Hs & Hco) Hk. split; [done|]. split; [done|].
    intros Ho. destruct (Hco Ho) as [Hnd Hgh].
    split; rewrite (paths_insert_same s k op) by done; [done|].
    intros gh Hg. apply Hgh. by destruct s.
Qed.

(** X7. [BKE_lib_override_library_id_unused_cleanup] on a real override keeps
    the properties that are not tagged unused, in their order, each with its
    operations that are not tagged unused, so that nothing tagged unused is
    left (a property may be left without operation); the reference and the
    storage are untouched and a coherent hash stays coherent. An ID that is
    not a real override is left as it is. *)
Theorem id_unused_cleanup_removes_unused (m : Main) (local : nat) (l : ID) :
  ids m !! local = Some l →
  if ID_IS_OVERRIDE_LIBRARY_REAL l then
    ∃ o o',
      override_library l = Some o
      ∧ BKE_lib_override_library_id_unused_cleanup local m
        = Some (update_id local (set_override_library (Some o')) m)
      ∧ properties o' = without_unused (properties o)
      ∧ Forall (λ op, unused_op op = false
                      ∧ Forall (λ opop, unused_opop opop = false) (operations op))
               (properties o')
      ∧ reference o' = reference o ∧ storage o' = storage o
      ∧ (ghash_coherent o → ghash_coherent o')
  else BKE_lib_override_library_id_unused_cleanup local m = Some m.
Proof.
  intros Hl. unfold BKE_lib_override_library_id_unused_cleanup. rewrite Hl.
  destruct (ID_IS_OVERRIDE_LIBRARY_REAL l) eqn:Hreal; [|done].
  unfold ID_IS_OVERRIDE_LIBRARY_REAL in Hreal.
  destruct (override_library l) as [o|]; [|done].
  destruct (unused_cleanup_override_spec o) as (o' & -> & Hprops & Hr & Hs & Hco).
  exists o, o'. split; [done|]. split; [done|]. split; [done|].
  split; [rewrite Hprops; apply without_unused_clean|done].
Qed.

Lemma id_unused_cleanup_removes_unused_witness :
  ∃ o o',
    id_override unused_rules_main 2 = Some o
    ∧ BKE_lib_override_library_id_unused_cleanup 2 unused_rules_main
      = Some (update_id 2 (set_override_library (Some o')) unused_rules_main)
    ∧ properties o' = without_unused (properties o)
    ∧ Forall (λ op, unused_op op = false
                    ∧ Forall (λ opop, unused_opop opop = false) (operations op))
             (properties o')
    ∧ reference o' = reference o ∧ storage o' = storage o
    ∧ (ghash_coherent o → ghash_coherent o').
Proof. exact (id_unused_cleanup_removes_unused unused_rules_main 2 _ eq_refl). Defined.

Lemma update_id_twice (p : nat) (f : ID → ID) (m : Main) :
  (∀ i, f (f i) = f i) → update_id p f (update_id p f m) = update_id p f m.
Proof.
  intros Hf. unfold update_id, set_ids. cbn. f_equal.
  apply map_eq. intros h. destruct (decide (h = p)) as [->|Hne].
  - rewrite !lookup_alter_eq. destruct (ids m !! p); [|done]. cbn. by rewrite Hf.
  - by rewrite !lookup_alter_ne.
Qed.

(** X8. Running [BKE_lib_override_library_id_unused_cleanup] a second time
    changes nothing. *)
Theorem id_unused_cleanup_twice (m : Main) (local : nat) (l : ID) :
  ids m !! local = Some l →
  ∃ m', BKE_lib_override_library_id_unused_cleanup local m = Some m'
    ∧ BKE_lib_override_library_id_unused_cleanup local m' = Some m'.
Proof.
  intros Hl. unfold BKE_lib_override_library_id_unused_cleanup at 1. rewrite Hl.
  destruct (ID_IS_OVERRIDE_LIBRARY_REAL l) eqn:Hreal.
  2: { exists m. split; [done|].
       unfold BKE_lib_override_library_id_unused_cleanup. by rewrite Hl, Hreal. }
  unfold ID_IS_OVERRIDE_LIBRARY_REAL in Hreal.
  destruct (override_library l) as [o|] eqn:Ho; [|done].
  destruct (unused_cleanup_override_spec o) as (o' & -> & Hprops & Hr & Hs & Hco).
  eexists. split; [done|].
  unfold BKE_lib_override_library_id_unused_cleanup.
  rewrite (lookup_update_id_eq _ _ _ _ Hl).
  unfold ID_IS_OVERRIDE_LIBRARY_REAL. cbn [override_library set_override_library].
  rewrite Hr, Hreal.
  rewrite (foreach_mutable_id properties unused_cleanup_property o'); [| |done].
  - by rewrite update_id_twice.
  - intros k Hk. destruct (lookup_lt_is_Some_2 _ _ Hk) as [op Hop].
    unfold unused_cleanup_property. rewrite Hop.
    pose proof (without_unused_clean (properties o)) as Hclean. rewrite <- Hprops in Hclean.
    rewrite Forall_forall in Hclean.
    destruct (Hclean op) as [Hu Hops]; [by apply (list_elem_of_lookup_2 _ k)|].
    unfold unused_op in Hu. rewrite Hu, unused_cleanup_operations_spec.
    rewrite filter_all by done.
    assert (set_operations (operations op) op = op) as -> by (by destruct op).
    rewrite list_insert_id by done. by destruct o'.
Qed.

Lemma id_unused_cleanup_twice_witness :
  ∃ m', BKE_lib_override_library_id_unused_cleanup 2 unused_rules_main = Some m'
    ∧ BKE_lib_override_library_id_unused_cleanup 2 m' = Some m'.
Proof. exact (id_unused_cleanup_twice unused_rules_main 2 _ eq_refl). Defined.

(** ** Tags of the rules *)

Lemma tag_assign_last (t : Z) (a b : bool) (x : Z) :
  tag_assign t b (tag_assign t a x) = tag_assign t b x.
Proof.
  unfold tag_assign, flag_set, flag_clear. destruct a, b.
  all: apply Z.bits_inj'; intros n Hn.
  all: repeat (rewrite Z.lor_spec || rewrite Z.land_spec || rewrite Z.lnot_spec by done).
  all: by destruct (Z.testbit x n), (Z.testbit t n).
Qed.

Lemma operations_tag_property_last (t : Z) (a b : bool) (op : IDOverrideLibraryProperty) :
  operations_tag_property t b (operations_tag_property t a op)
  = operations_tag_property t b op.
Proof.
  destruct op as [p ops tg ty].
  unfold operations_tag_property, set_op_tag, set_operations. cbn.
  f_equal; [|apply tag_assign_last]. rewrite <- list_fmap_compose.
  apply list_fmap_ext. intros k opop _. destruct opop. unfold set_opop_tag. cbn.
  by rewrite tag_assign_last.
Qed.

Lemma properties_tag_Some (o : IDOverrideLibrary) (t : Z) (b : bool) :
  BKE_lib_override_library_properties_tag (Some o) t b
  = Some (set_properties (operations_tag_property t b <$> properties o) o).
Proof.
  unfold BKE_lib_override_library_properties_tag. do 2 f_equal.
Qed.

Lemma main_tag_id_last (t : Z) (a b : bool) (i : ID) :
  main_tag_id t b (main_tag_id t a i) = main_tag_id t b i.
Proof.
  unfold main_tag_id. destruct (ID_IS_OVERRIDE_LIBRARY i) eqn:Hi; [|by rewrite Hi].
  assert (ID_IS_OVERRIDE_LIBRARY
            (set_override_library
               (BKE_lib_override_library_properties_tag (override_library i) t a) i) = true)
    as ->.
  { unfold ID_IS_OVERRIDE_LIBRARY, ID_IS_OVERRIDE_LIBRARY_REAL,
      ID_IS_OVERRIDE_LIBRARY_VIRTUAL in *. by destruct (override_library i). }
  destruct i as [n lb tg fl u nw [o|] c]; [|done]. unfold set_override_library. cbn [name lib tag flag us newid contents override_library].
  f_equal. rewrite !properties_tag_Some. f_equal. destruct o as [r ps st rt].
  unfold set_properties. cbn. f_equal. rewrite <- list_fmap_compose.
  apply list_fmap_ext. intros k op _. apply operations_tag_property_last.
Qed.

(** A walk over the registered IDs that rewrites each ID it meets with [g]
    has rewritten the registered IDs that exist, once each. *)
Lemma foldl_pointwise (step : Main → nat → Main) (g : ID → ID) :
  (∀ i, g (g i) = g i) →
  (∀ m id h, ids (step m id) !! h
             = if decide (h = id) then g <$> ids m !! h else ids m !! h) →
  ∀ l m h, ids (foldl step m l) !! h
           = if decide (h ∈ l) then g <$> ids m !! h else ids m !! h.
Proof.
  intros Hg Hstep. induction l as [|x l IH]; intros m h.
  - cbn. rewrite decide_False; [done|]. apply not_elem_of_nil.
  - cbn [foldl]. rewrite IH, Hstep.
    destruct (decide (h = x)) as [->|Hne].
    + rewrite (decide_True (P := x ∈ x :: l)) by (apply elem_of_cons; by left).
      destruct (decide (x ∈ l)); [|done].
      destruct (ids m !! x); [|done]. cbn. by rewrite Hg.
    + destruct (decide (h ∈ l)) as [Hin|Hout].
      * rewrite decide_True; [done|]. apply elem_of_cons. by right.
      * rewrite decide_False; [done|]. rewrite elem_of_cons. intros [?|?]; done.
Qed.

Lemma foldl_shape (step : Main → nat → Main) :
  (∀ m id, order (step m id) = order m ∧ relations (step m id) = relations m) →
  ∀ l m, order (foldl step m l) = order m ∧ relations (foldl step m l) = relations m.
Proof.
  intros Hstep. induction l as [|x l IH]; intros m; [done|].
  cbn [foldl]. destruct (IH (step m x)) as [-> ->]. apply Hstep.
Qed.

Lemma main_tag_lookup (t : Z) (b : bool) (m : Main) (h : nat) :
  ids (BKE_lib_override_library_main_tag t b m) !! h
  = if decide (h ∈ order m) then main_tag_id t b <$> ids m !! h else ids m !! h.
Proof.
  unfold BKE_lib_override_library_main_tag.
  apply (foldl_pointwise _ (main_tag_id t b)).
  - intros i. apply main_tag_id_last.
  - intros m' id h'. destruct (decide (h' = id)) as [->|Hne].
    + destruct (ids m' !! id) as [i|] eqn:Hi; [|by rewrite Hi].
      unfold main_tag_id. destruct (ID_IS_OVERRIDE_LIBRARY i) eqn:Ho.
      * rewrite lookup_update_id_same, Hi. cbn. by rewrite Ho.
      * rewrite Hi. cbn. by rewrite Ho.
    + destruct (ids m' !! id) as [i|]; [|done].
      destruct (ID_IS_OVERRIDE_LIBRARY i); [|done]. by rewrite lookup_update_id_ne.
Qed.

Lemma main_tag_shape (t : Z) (b : bool) (m : Main) :
  order (BKE_lib_override_library_main_tag t b m) = order m
  ∧ relations (BKE_lib_override_library_main_tag t b m) = relations m.
Proof.
  unfold BKE_lib_override_library_main_tag. apply foldl_shape.
  intros m' id. destruct (ids m' !! id) as [i|]; [|done].
  by destruct (ID_IS_OVERRIDE_LIBRARY i).
Qed.

Lemma Main_eq (m1 m2 : Main) :
  ids m1 = ids m2 → order m1 = order m2 → relations m1 = relations m2 → m1 = m2.
Proof. destruct m1, m2. cbn. by intros -> -> ->. Qed.

(** X9. [BKE_lib_override_library_main_tag] (and with it
    [BKE_lib_override_library_properties_tag] and
    [BKE_lib_override_library_operations_tag]): of two calls with the same
    tag, the last one decides; setting a tag and then clearing it, or the
    converse, or repeating a call, gives what the last call alone gives. *)
Theorem main_tag_last_call_decides (t : Z) (a b : bool) (m : Main) :
  BKE_lib_override_library_main_tag t b (BKE_lib_override_library_main_tag t a m)
  = BKE_lib_override_library_main_tag t b m.
Proof.
  destruct (main_tag_shape t a m) as [Ho Hr].
  apply Main_eq.
  - apply map_eq. intros h. rewrite !main_tag_lookup, Ho.
    destruct (decide (h ∈ order m)); [|done].
    destruct (ids m !! h); [|done]. cbn. by rewrite main_tag_id_last.
  - destruct (main_tag_shape t b (BKE_lib_override_library_main_tag t a m)) as [-> _].
    destruct (main_tag_shape t b m) as [-> _]. done.
  - destruct (main_tag_shape t b (BKE_lib_override_library_main_tag t a m)) as [_ ->].
    destruct (main_tag_shape t b m) as [_ ->]. done.
Qed.

(** ** Removal of the unused rules, over the registry *)

Lemma without_unused_twice (l : list IDOverrideLibraryProperty) :
  without_unused (without_unused l) = without_unused l.
Proof.
  pose proof (without_unused_clean l) as Hclean.
  induction Hclean as [|op k [Hu Hops] Hk IH]; [done|].
  rewrite without_unused_unfold, filter_cons, decide_True by done.
  rewrite fmap_cons, <- without_unused_unfold, IH. f_equal.
  unfold without_unused_operations. rewrite filter_all by done. by destruct op.
Qed.

Lemma unused_cleaned_again (i i1 i2 : ID) :
  unused_cleaned i i1 → unused_cleaned i1 i2 → unused_cleaned i i2.
Proof.
  intros (o & o1 & Ho & -> & Hp1 & Hr1 & Hs1) (o1' & o2 & Ho1 & -> & Hp2 & Hr2 & Hs2).
  cbn in Ho1. injection Ho1 as <-.
  exists o, o2. split; [done|]. split; [by destruct i|].
  split; [by rewrite Hp2, Hp1, without_unused_twice|]. split; congruence.
Qed.

Lemma unused_cleaned_real (i i' : ID) :
  unused_cleaned i i' → ID_IS_OVERRIDE_LIBRARY_REAL i' = ID_IS_OVERRIDE_LIBRARY_REAL i.
Proof.
  intros (o & o' & Ho & -> & _ & Hr & _). unfold ID_IS_OVERRIDE_LIBRARY_REAL. cbn.
  by rewrite Ho, Hr.
Qed.

(** One turn of [BKE_lib_override_library_main_unused_cleanup]. *)
Lemma main_unused_cleanup_step (m : Main) (id : nat) :
  ∃ m', match ids m !! id with
        | Some i =>
            if ID_IS_OVERRIDE_LIBRARY i
            then BKE_lib_override_library_id_unused_cleanup id m
            else Some m
        | None => Some m
        end = Some m'
    ∧ order m' = order m ∧ relations m' = relations m
    ∧ (∀ h, h ≠ id → ids m' !! h = ids m !! h)
    ∧ match ids m !! id with
      | Some i =>
          ∃ i', ids m' !! id = Some i'
            ∧ if ID_IS_OVERRIDE_LIBRARY_REAL i then unused_cleaned i i' else i' = i
      | None => ids m' !! id = None
      end.
Proof.
  destruct (ids m !! id) as [i|] eqn:Hi.
  2: { exists m. by rewrite Hi. }
  assert (∃ m', BKE_lib_override_library_id_unused_cleanup id m = Some m'
            ∧ order m' = order m ∧ relations m' = relations m
            ∧ (∀ h, h ≠ id → ids m' !! h = ids m !! h)
            ∧ ∃ i', ids m' !! id = Some i'
                ∧ if ID_IS_OVERRIDE_LIBRARY_REAL i then unused_cleaned i i' else i' = i)
    as Hclean.
  { unfold BKE_lib_override_library_id_unused_cleanup. rewrite Hi.
    destruct (ID_IS_OVERRIDE_LIBRARY_REAL i) eqn:Hreal.
    2: { exists m. do 4 (split; [done|]). exists i. by rewrite Hi. }
    unfold ID_IS_OVERRIDE_LIBRARY_REAL in Hreal.
    destruct (override_library i) as [o|] eqn:Ho; [|done].
    destruct (unused_cleanup_override_spec o) as (o' & -> & Hp & Hr & Hs & _).
    eexists. split; [done|]. split; [done|]. split; [done|].
    split; [by intros h Hne; rewrite lookup_update_id_ne|].
    exists (set_override_library (Some o') i).
    split; [by apply lookup_update_id_eq|]. by exists o, o'. }
  destruct (ID_IS_OVERRIDE_LIBRARY i) eqn:Hov; [done|].
  exists m. do 4 (split; [done|]). exists i. rewrite Hi. split; [done|].
  unfold ID_IS_OVERRIDE_LIBRARY in Hov. by destruct (ID_IS_OVERRIDE_LIBRARY_REAL i).
Qed.

(** The walk of [BKE_lib_override_library_main_unused_cleanup] over a list
    of IDs. *)
Lemma main_unused_cleanup_walk (l : list nat) : ∀ m : Main,
  ∃ m', foldl (λ m id,
                 match m with
                 | Some m =>
                     match ids m !! id with
                     | Some i =>
                         if ID_IS_OVERRIDE_LIBRARY i
                         then BKE_lib_override_library_id_unused_cleanup id m
                         else Some m
                     | None => Some m
                     end
                 | None => None
                 end) (Some m) l = Some m'
    ∧ order m' = order m ∧ relations m' = relations m
    ∧ ∀ h, match ids m !! h with
           | Some i =>
               ∃ i', ids m' !! h = Some i'
                 ∧ if bool_decide (h ∈ l) && ID_IS_OVERRIDE_LIBRARY_REAL i
                   then unused_cleaned i i' else i' = i
           | None => ids m' !! h = None
           end.
Proof.
  induction l as [|x l IH]; intros m.
  - exists m. do 3 (split; [done|]). intros h. destruct (ids m !! h) as [i|]; [|done].
    exists i. split; [done|]. rewrite bool_decide_eq_false_2; [done|]. apply not_elem_of_nil.
  - cbn [foldl].
    destruct (main_unused_cleanup_step m x) as (m1 & -> & Ho1 & Hr1 & Hother & Hx).
    destruct (IH m1) as (m' & -> & Ho & Hr & Hall).
    exists m'. split; [done|]. split; [congruence|]. split; [congruence|].
    intros h. specialize (Hall h).
    destruct (decide (h = x)) as [->|Hne].
    + rewrite (bool_decide_eq_true_2 (x ∈ x :: l)) by (apply elem_of_cons; by left).
      destruct (ids m !! x) as [i|] eqn:Hi; [|by rewrite Hx in Hall].
      destruct Hx as (i1 & Hi1 & Hc1). rewrite Hi1 in Hall.
      destruct Hall as (i' & Hi' & Hc). exists i'. split; [done|].
      cbn [andb]. destruct (ID_IS_OVERRIDE_LIBRARY_REAL i) eqn:Hreal.
      * rewrite (unused_cleaned_real _ _ Hc1), Hreal, andb_true_r in Hc.
        destruct (bool_decide (x ∈ l)); [by eapply unused_cleaned_again|by subst].
      * subst i1. by rewrite Hreal, andb_false_r in Hc.
    + rewrite Hother in Hall by done.
      destruct (ids m !! h) as [i|]; [|done].
      destruct Hall as (i' & Hi' & Hc). exists i'. split; [done|].
      assert (bool_decide (h ∈ x :: l) = bool_decide (h ∈ l)) as ->; [|done].
      apply bool_decide_ext. rewrite elem_of_cons. intuition.
Qed.

(** X10. [BKE_lib_override_library_main_unused_cleanup] returns with every
    registered real override holding its properties that were not tagged
    unused, each with its operations that were not tagged unused, and with
    every other ID, the list of the registered IDs and the relations as they
    were. *)
Theorem main_unused_cleanup_removes_unused (m : Main) :
  ∃ m', BKE_lib_override_library_main_unused_cleanup m = Some m'
    ∧ order m' = order m ∧ relations m' = relations m
    ∧ ∀ h, match ids m !! h with
           | Some i =>
               ∃ i', ids m' !! h = Some i'
                 ∧ if bool_decide (h ∈ order m) && ID_IS_OVERRIDE_LIBRARY_REAL i
                   then unused_cleaned i i' else i' = i
           | None => ids m' !! h = None
           end.
Proof. apply main_unused_cleanup_walk. Qed.

Lemma operations_tag_property_unused (op : IDOverrideLibraryProperty) :
  unused_op (operations_tag_property IDOVERRIDE_LIBRARY_TAG_UNUSED true op) = true.
Proof. unfold unused_op, operations_tag_property. cbn. by apply flag_test_set. Qed.

(** X11. Tagging every rule of the registry as unused and then removing the
    unused rules, which is what
    [BKE_lib_override_library_main_operations_create] does around the
    comparison when [force_auto] is set, leaves every registered real
    override without any property, its reference being kept. *)
Theorem main_tag_then_unused_cleanup (m : Main) :
  ∃ m', BKE_lib_override_library_main_unused_cleanup
          (BKE_lib_override_library_main_tag IDOVERRIDE_LIBRARY_TAG_UNUSED true m) = Some m'
    ∧ order m' = order m
    ∧ ∀ h i o, ids m !! h = Some i → h ∈ order m → override_library i = Some o →
        reference o ≠ None →
        ∃ i' o', ids m' !! h = Some i' ∧ override_library i' = Some o'
          ∧ properties o' = [] ∧ reference o' = reference o.
Proof.
  set (m0 := BKE_lib_override_library_main_tag IDOVERRIDE_LIBRARY_TAG_UNUSED true m).
  destruct (main_tag_shape IDOVERRIDE_LIBRARY_TAG_UNUSED true m) as [Hord _].
  destruct (main_unused_cleanup_walk (order m0) m0) as (m' & Hrun & Ho & _ & Hall).
  exists m'. split; [done|]. split; [by rewrite Ho|].
  intros h i o Hi Hin Hov Href. specialize (Hall h).
  assert (ID_IS_OVERRIDE_LIBRARY_REAL i = true) as Hreal.
  { unfold ID_IS_OVERRIDE_LIBRARY_REAL. rewrite Hov. by apply bool_decide_eq_true_2. }
  assert (ids m0 !! h
          = Some (set_override_library
                    (Some (set_properties
                             (operations_tag_property IDOVERRIDE_LIBRARY_TAG_UNUSED true
                                <$> properties o) o)) i)) as Hi0.
  { unfold m0. rewrite main_tag_lookup, decide_True, Hi by done. cbn. f_equal.
    unfold main_tag_id, ID_IS_OVERRIDE_LIBRARY. rewrite Hreal. cbn [orb].
    by rewrite Hov, properties_tag_Some. }
  rewrite Hi0 in Hall. destruct Hall as (i' & Hi' & Hc).
  fold m0 in Hord. rewrite Hord, bool_decide_eq_true_2 in Hc by done. cbn [andb] in Hc.
  assert (ID_IS_OVERRIDE_LIBRARY_REAL
            (set_override_library
               (Some (set_properties
                        (operations_tag_property IDOVERRIDE_LIBRARY_TAG_UNUSED true
                           <$> properties o) o)) i) = true) as Hreal0.
  { unfold ID_IS_OVERRIDE_LIBRARY_REAL. cbn. by apply bool_decide_eq_true_2. }
  rewrite Hreal0 in Hc. destruct Hc as (o0 & o' & Ho0 & -> & Hp & Hr & _).
  cbn in Ho0. injection Ho0 as <-.
  eexists _, o'. split; [done|]. split; [done|]. split; [|done].
  rewrite Hp. cbn [properties set_properties]. rewrite without_unused_unfold.
  assert (filter (λ op, unused_op op = false)
            (operations_tag_property IDOVERRIDE_LIBRARY_TAG_UNUSED true <$> properties o) = [])
    as ->; [|done].
  apply elem_of_nil_inv. intros op Hop. apply list_elem_of_filter in Hop as [Hu Hop].
  apply list_elem_of_fmap in Hop as (op0 & -> & _).
  by rewrite operations_tag_property_unused in Hu.
Qed.

Lemma main_tag_then_unused_cleanup_witness :
  ∃ m', BKE_lib_override_library_main_unused_cleanup
          (BKE_lib_override_library_main_tag IDOVERRIDE_LIBRARY_TAG_UNUSED true chairs_main)
        = Some m'
    ∧ order m' = order chairs_main
    ∧ ∃ i' o', ids m' !! 2%nat = Some i' ∧ override_library i' = Some o'
        ∧ properties o' = [] ∧ reference o' = Some 1%nat.
Proof.
  destruct (main_tag_then_unused_cleanup chairs_main) as (m' & Hrun & Hord & Hall).
  exists m'. split; [done|]. split; [done|].
  apply (Hall 2%nat _ (mk_override (Some 1%nat) [legs_property] None None) eq_refl);
    [|reflexivity|discriminate].
  apply (bool_decide_unpack _). vm_compute. exact I.
Defined.

(** ** The smart creation *)

Lemma linked_group_tag_frees_relations (fuel : nat) (m m' : Main) (id : nat)
    (tag_ missing_tag : Z) :
  lib_override_linked_group_tag fuel m id tag_ missing_tag = Some m' → relations m' = None.
Proof.
  unfold lib_override_linked_group_tag. intros Hrun.
  repeat case_match; by simplify_eq.
Qed.

Lemma recursive_tag_without_relations (fuel : nat) (m : Main) (id : nat)
    (tag_ missing_tag : Z) :
  relations m = None →
  lib_override_hierarchy_dependencies_recursive_tag fuel m id tag_ missing_tag = None.
Proof. intros Hrel. destruct fuel as [|fuel]; [done|]. cbn. by rewrite Hrel. Qed.

(** X12. [lib_override_library_create_do], and with it
    [BKE_lib_override_library_create], cannot complete: the closure pass
    called at line 584 reads the relations of the registry, which the call
    of [lib_override_linked_group_tag] at line 583 has freed before it
    returned (line 499), so that the read goes through a null pointer. In the
    model the call has no result, whatever the registry, the root and the
    fuel. *)
Theorem create_reads_freed_relations (host : Host) (fuel : nat) (m : Main) (id_root : nat)
    (id_reference : option nat) :
  (∀ mt, lib_override_linked_group_tag fuel
           (BKE_main_relations_create (id_tag_set id_root LIB_TAG_DOIT m)) id_root
           LIB_TAG_DOIT LIB_TAG_MISSING = Some mt →
         relations mt = None
         ∧ lib_override_hierarchy_dependencies_recursive_tag fuel mt id_root
             LIB_TAG_DOIT LIB_TAG_MISSING = None)
  ∧ lib_override_library_create_do host fuel m id_root = None
  ∧ BKE_lib_override_library_create host fuel m id_root id_reference = None.
Proof.
  assert (lib_override_library_create_do host fuel m id_root = None) as Hdo.
  { unfold lib_override_library_create_do.
    destruct (lib_override_linked_group_tag _ _ _ _ _) as [mt|] eqn:Htag; [|done].
    by rewrite recursive_tag_without_relations
      by (by eapply linked_group_tag_frees_relations). }
  split; [|split; [done|]].
  - intros mt Htag. pose proof (linked_group_tag_frees_relations _ _ _ _ _ _ Htag) as Hrel.
    split; [done|]. by apply recursive_tag_without_relations.
  - unfold BKE_lib_override_library_create. by rewrite Hdo.
Qed.

(** ** Operands of an operation *)

(** X13. The demands of
    [BKE_lib_override_library_property_operation_operands_validate] are
    nested, as the cases of its [switch] fall through: operands that validate
    a differential operation (add, subtract, multiply) validate every
    operation, and operands that validate a replacement or an insertion
    validate every operation that is not differential. A differential
    operation validates only with its storage, destination and source
    operands all present. *)
Theorem operands_validate_nested {PropertyRNA : Type}
    (opop opop' : IDOverrideLibraryPropertyOperation)
    (ptr_dst ptr_src ptr_storage : option PointerRNA)
    (prop_dst prop_src prop_storage : option PropertyRNA) :
  BKE_lib_override_library_property_operation_operands_validate opop
    ptr_dst ptr_src ptr_storage prop_dst prop_src prop_storage = true →
  (operation opop = IDOVERRIDE_LIBRARY_OP_ADD
   ∨ operation opop = IDOVERRIDE_LIBRARY_OP_SUBTRACT
   ∨ operation opop = IDOVERRIDE_LIBRARY_OP_MULTIPLY →
   operand_missing ptr_storage prop_storage = false
   ∧ operand_missing ptr_dst prop_dst = false
   ∧ operand_missing ptr_src prop_src = false
   ∧ BKE_lib_override_library_property_operation_operands_validate opop'
       ptr_dst ptr_src ptr_storage prop_dst prop_src prop_storage = true)
  ∧ (operation opop = IDOVERRIDE_LIBRARY_OP_REPLACE
     ∨ operation opop = IDOVERRIDE_LIBRARY_OP_INSERT_AFTER
     ∨ operation opop = IDOVERRIDE_LIBRARY_OP_INSERT_BEFORE →
     operand_missing ptr_dst prop_dst = false
     ∧ operand_missing ptr_src prop_src = false
     ∧ (operation opop' ≠ IDOVERRIDE_LIBRARY_OP_ADD →
        operation opop' ≠ IDOVERRIDE_LIBRARY_OP_SUBTRACT →
        operation opop' ≠ IDOVERRIDE_LIBRARY_OP_MULTIPLY →
        BKE_lib_override_library_property_operation_operands_validate opop'
          ptr_dst ptr_src ptr_storage prop_dst prop_src prop_storage = true)).
Proof.
  unfold BKE_lib_override_library_property_operation_operands_validate.
  unfold IDOVERRIDE_LIBRARY_OP_NOOP, IDOVERRIDE_LIBRARY_OP_REPLACE,
    IDOVERRIDE_LIBRARY_OP_ADD, IDOVERRIDE_LIBRARY_OP_SUBTRACT,
    IDOVERRIDE_LIBRARY_OP_MULTIPLY, IDOVERRIDE_LIBRARY_OP_INSERT_AFTER,
    IDOVERRIDE_LIBRARY_OP_INSERT_BEFORE.
  intros Hv. split.
  - intros Hop.
    rewrite bool_decide_eq_false_2 in Hv by lia.
    rewrite bool_decide_eq_true_2 in Hv by done.
    destruct (operand_missing ptr_storage prop_storage); [done|].
    destruct (operand_missing ptr_dst prop_dst); [done|].
    destruct (operand_missing ptr_src prop_src); [done|].
    repeat split. by repeat case_bool_decide.
  - intros Hop.
    rewrite bool_decide_eq_false_2 in Hv by lia.
    rewrite bool_decide_eq_false_2 in Hv by lia.
    rewrite bool_decide_eq_true_2 in Hv by tauto.
    destruct (operand_missing ptr_dst prop_dst); [done|].
    destruct (operand_missing ptr_src prop_src); [done|].
    repeat split. intros H1 H2 H3.
    rewrite (bool_decide_eq_false_2 (_ ∨ _ ∨ operation opop' = 103)) by tauto.
    by repeat case_bool_decide.
Qed.

Lemma operands_validate_nested_witness :
  let here := Some (mk_PointerRNA (Some 2%nat) "Object" (Some 2%nat)) in
  let prop := Some "location"%string in
  let add := mk_opop IDOVERRIDE_LIBRARY_OP_ADD 0 0 None None (-1) (-1) in
  operand_missing here prop = false
  ∧ BKE_lib_override_library_property_operation_operands_validate leg_operation
      here here here prop prop prop = true.
Proof.
  intros here prop add.
  destruct (operands_validate_nested add leg_operation here here here prop prop prop
              eq_refl) as [Hdiff _].
  destruct Hdiff as (Hs & _ & _ & Hv); [by left|]. by split.
Defined.

(** ** The walk over the ID pointers *)

Lemma pointers_valid_lookup (m : Main) (h p : nat) (i : ID) :
  pointers_valid m → ids m !! h = Some i → Some p ∈ (id_link_slots i).*1 →
  is_Some (ids m !! p).
Proof.
  intros Hv Hi Hp. specialize (Hv h i Hi). cbn in Hv. rewrite Forall_forall in Hv.
  apply list_elem_of_fmap in Hp as (s & Hs & Hin). specialize (Hv s Hin).
  rewrite <- Hs in Hv. cbn in Hv. by apply bool_decide_eq_true in Hv.
Qed.

Lemma size_difference_step (D H : gset nat) (q : nat) :
  q ∈ D → q ∉ H → size (D ∖ H) = S (size (D ∖ ({[q]} ∪ H))).
Proof.
  intros HqD HqH.
  assert (D ∖ H = {[q]} ∪ D ∖ ({[q]} ∪ H)) as ->.
  { apply leibniz_equiv. intros x. gset_unfold.
    destruct (decide (x = q)) as [->|]; intuition. }
  rewrite size_union, size_singleton; [done|].
  intros x. gset_unfold. intuition.
Qed.

Lemma size_difference_mono (D H H' : gset nat) :
  H ⊆ H' → (size (D ∖ H') ≤ size (D ∖ H))%nat.
Proof.
  intros Hsub. apply subseteq_size. intros x. rewrite !elem_of_difference.
  intros [Hx Hn]. split; [done|]. intros Hh. apply Hn, Hsub, Hh.
Qed.

Section walk.
Variable callback : LibraryIDLinkCallback.
Variable Inv : Main → Prop.
Variable D : gset nat.
Hypothesis callback_total : ∀ m owner p flag,
  Inv m → owner ∈ D → (∀ q, p = Some q → q ∈ D) →
  ∃ m' ret, callback m owner p flag = Some (m', ret) ∧ Inv m'.
Hypothesis Inv_dom : ∀ m h, Inv m → h ∈ D → is_Some (ids m !! h).
Hypothesis Inv_slots : ∀ m h i q,
  Inv m → ids m !! h = Some i → Some q ∈ (id_link_slots i).*1 → q ∈ D.

Lemma foreach_slots_total (id_owner : nat) (slots : list (option nat * Z)) :
  ∀ (m : Main) (ids_todo : list nat) (ids_handled : gset nat),
  Inv m → id_owner ∈ D → (∀ q, Some q ∈ slots.*1 → q ∈ D) →
  (∀ q, q ∈ ids_todo → q ∈ D) →
  ∃ m' todo' handled' stop,
    library_foreach_ID_link_slots callback id_owner slots m ids_todo ids_handled
    = Some (m', todo', handled', stop)
    ∧ Inv m' ∧ (∀ q, q ∈ todo' → q ∈ D)
    ∧ (length todo' + size (D ∖ handled') ≤ length ids_todo + size (D ∖ ids_handled))%nat.
Proof.
  induction slots as [|[p flag] slots IH]; intros m todo handled Hinv Hown Hslots Htodo.
  - exists m, todo, handled, false. by repeat split.
  - cbn [library_foreach_ID_link_slots].
    destruct (callback_total m id_owner p flag Hinv Hown) as (m1 & ret & -> & Hinv1).
    { intros q ->. apply Hslots. cbn. apply elem_of_cons. by left. }
    assert (∃ todo1 handled1,
              match p with
              | Some old_id =>
                  if bool_decide (old_id ∈ handled) then (todo, handled)
                  else
                    (if flag_test ret IDWALK_RET_STOP_RECURSION then todo
                     else old_id :: todo, {[old_id]} ∪ handled)
              | None => (todo, handled)
              end = (todo1, handled1)
              ∧ (∀ q, q ∈ todo1 → q ∈ D)
              ∧ (length todo1 + size (D ∖ handled1)
                 ≤ length todo + size (D ∖ handled))%nat) as (todo1 & handled1 & -> & Ht1 & Hm1).
    { destruct p as [q|]; [|by exists todo, handled].
      case_bool_decide as Hh; [by exists todo, handled|].
      assert (q ∈ D) as HqD by (apply Hslots; cbn; apply elem_of_cons; by left).
      destruct (flag_test ret IDWALK_RET_STOP_RECURSION).
      - eexists _, _. split; [done|]. split; [done|].
        pose proof (size_difference_step D handled q HqD Hh). lia.
      - eexists _, _. split; [done|]. split.
        + intros x Hx. apply elem_of_cons in Hx as [->|Hx]; [done|by apply Htodo].
        + pose proof (size_difference_step D handled q HqD Hh). cbn [length]. lia. }
    destruct (flag_test ret IDWALK_RET_STOP_ITER).
    + exists m1, todo1, handled1, true. by repeat split.
    + destruct (IH m1 todo1 handled1 Hinv1 Hown) as (m' & todo' & handled' & stop & Hrun & ?);
        [|done|].
      { intros q Hq. apply Hslots. cbn. apply elem_of_cons. by right. }
      exists m', todo', handled', stop. split; [done|]. intuition lia.
Qed.

Lemma foreach_loop_total (fuel : nat) :
  ∀ (m : Main) (id : nat) (ids_todo : list nat) (ids_handled : gset nat),
  Inv m → id ∈ D → (∀ q, q ∈ ids_todo → q ∈ D) →
  (length ids_todo + size (D ∖ ids_handled) < fuel)%nat →
  ∃ m', library_foreach_ID_link_loop fuel callback m id ids_todo ids_handled = Some m'
    ∧ Inv m'.
Proof.
  induction fuel as [|fuel IH]; intros m id todo handled Hinv Hid Htodo Hfuel; [lia|].
  cbn [library_foreach_ID_link_loop].
  destruct (Inv_dom m id Hinv Hid) as [i Hi]. rewrite Hi.
  destruct (foreach_slots_total id (id_link_slots i) m todo handled Hinv Hid)
    as (m1 & todo1 & handled1 & stop & -> & Hinv1 & Htodo1 & Hm1); [|done|].
  { intros q Hq. by eapply Inv_slots. }
  destruct todo1 as [|next todo1]; [destruct stop; by exists m1|].
  destruct stop; [by exists m1|].
  apply IH; [done| | |].
  - apply Htodo1, elem_of_cons. by left.
  - intros q Hq. apply Htodo1, elem_of_cons. by right.
  - cbn [length] in Hm1. lia.
Qed.

Lemma foreach_ID_link_total (fuel : nat) (m : Main) (id : nat) :
  Inv m → id ∈ D → (size D ≤ fuel)%nat →
  ∃ m', BKE_library_foreach_ID_link fuel callback m id = Some m' ∧ Inv m'.
Proof.
  intros Hinv Hid Hfuel. unfold BKE_library_foreach_ID_link.
  apply foreach_loop_total; [done|done| |].
  - intros q Hq. by apply elem_of_nil in Hq.
  - cbn [length].
    assert (size D = S (size (D ∖ ({[id]} ∪ ∅)))) as Hs.
    { rewrite <- (size_difference_step D ∅ id Hid) by apply not_elem_of_empty.
      f_equal. apply leibniz_equiv. intros x. gset_unfold. intuition. }
    assert (D ∖ ({[id]} ∪ ∅) = D ∖ {[id]}) as Heq.
    { apply leibniz_equiv. intros x. gset_unfold. intuition. }
    rewrite Heq in Hs. lia.
Qed.

End walk.

(** ** The group tags *)

Lemma tags_apart_refl (m : Main) : tags_apart m m.
Proof. by split. Qed.

Lemma tags_apart_trans (m1 m2 m3 : Main) :
  tags_apart m1 m2 → tags_apart m2 m3 → tags_apart m1 m3.
Proof. intros [Ho1 H1] [Ho2 H2]. split; [congruence|]. intros h. by rewrite H2, H1. Qed.

Lemma tags_apart_tag_set (p : nat) (b : Z) (m : Main) : tags_apart m (id_tag_set p b m).
Proof.
  split; [done|]. intros h. unfold id_tag_set. rewrite lookup_update_id.
  destruct (decide (p = h)); [|done]. by destruct (ids m !! h).
Qed.

Lemma tags_apart_tag_clear (p : nat) (b : Z) (m : Main) : tags_apart m (id_tag_clear p b m).
Proof.
  split; [done|]. intros h. unfold id_tag_clear. rewrite lookup_update_id.
  destruct (decide (p = h)); [|done]. by destruct (ids m !! h).
Qed.

Lemma tags_apart_lookup (m m' : Main) (h : nat) (i : ID) :
  tags_apart m m' → ids m !! h = Some i →
  ∃ i', ids m' !! h = Some i' ∧ untagged i' = untagged i.
Proof.
  intros [_ Hv] Hi. specialize (Hv h). rewrite Hi in Hv.
  destruct (ids m' !! h) as [i'|]; [|done]. exists i'. split; [done|].
  cbn in Hv. by apply (inj Some) in Hv.
Qed.

Lemma tags_apart_sym (m m' : Main) : tags_apart m m' → tags_apart m' m.
Proof. intros [Ho Hv]. split; [done|]. intros h. by rewrite Hv. Qed.

Lemma untagged_fields (i i' : ID) :
  untagged i' = untagged i →
  name i' = name i ∧ lib i' = lib i ∧ flag i' = flag i ∧ us i' = us i ∧ newid i' = newid i
  ∧ override_library i' = override_library i ∧ contents i' = contents i.
Proof. destruct i, i'. unfold untagged, set_tag. cbn. intros [=]. by subst. Qed.

Lemma untagged_slots (i i' : ID) :
  untagged i' = untagged i → id_link_slots i' = id_link_slots i.
Proof.
  intros Hu. destruct (untagged_fields _ _ Hu) as (_ & _ & _ & _ & _ & Ho & Hc).
  unfold id_link_slots. by rewrite Ho, Hc.
Qed.

Lemma pointers_valid_tags_apart (m m' : Main) :
  tags_apart m m' → pointers_valid m → pointers_valid m'.
Proof.
  intros Hta Hv h i' Hi'. cbn.
  destruct (tags_apart_lookup _ _ h i' (tags_apart_sym _ _ Hta) Hi') as (i & Hi & Hu).
  rewrite <- (untagged_slots _ _ Hu). specialize (Hv h i Hi). cbn in Hv.
  eapply Forall_impl; [exact Hv|]. intros [p f]. cbn. unfold pointer_valid.
  destruct p as [q|]; [|done]. intros Hq. apply bool_decide_eq_true in Hq as [x Hx].
  apply bool_decide_eq_true.
  destruct (tags_apart_lookup _ _ q x Hta Hx) as (x' & -> & _). by eexists.
Qed.

Lemma group_tagged_refl (t mt : Z) (P : ID → Prop) (m : Main) : group_tagged t mt P m m.
Proof.
  split; [apply tags_apart_refl|]. split; [done|]. intros h i i' Hi Hi'. left. congruence.
Qed.

(** A tag set on an ID that had neither tag is the first one set on it. *)
Lemma flag_set_first (x b t mt : Z) :
  flag_test (flag_set x b) (Z.lor t mt) = false → b = t ∨ b = mt → flag_set x b = x.
Proof.
  unfold flag_test, flag_set. intros Hz Hb. apply negb_false_iff, Z.eqb_eq in Hz.
  apply Z.bits_inj'. intros n Hn. rewrite Z.lor_spec.
  assert (Z.testbit (Z.land (Z.lor x b) (Z.lor t mt)) n = false) as Hbit.
  { rewrite Hz. apply Z.bits_0. }
  rewrite Z.land_spec, !Z.lor_spec in Hbit.
  destruct Hb as [-> | ->];
    destruct (Z.testbit x n), (Z.testbit t n), (Z.testbit mt n); done.
Qed.

Lemma group_tagged_tag_set (t mt : Z) (P : ID → Prop) (m0 m : Main) (p : nat) (b : Z)
    (i : ID) :
  group_tagged t mt P m0 m → ids m !! p = Some i →
  flag_test (tag i) (Z.lor t mt) = false → b = t ∨ b = mt →
  (∀ i0, ids m0 !! p = Some i0 → P i0) →
  group_tagged t mt P m0 (id_tag_set p b m).
Proof.
  intros (Hta & Hrel & Htags) Hi Hun Hb HP.
  split; [eapply tags_apart_trans; [done|apply tags_apart_tag_set]|].
  split; [done|]. intros h i0 i' Hi0 Hi'.
  unfold id_tag_set in Hi'. rewrite lookup_update_id in Hi'.
  destruct (decide (p = h)) as [->|Hne]; [|by apply (Htags h)].
  rewrite Hi in Hi'. cbn in Hi'. injection Hi' as <-. cbn.
  right. split; [|by apply HP].
  destruct (Htags h i0 i Hi0 Hi) as [Heq|[[Heq|Heq] _]].
  - rewrite Heq. destruct Hb as [-> | ->]; [by left|by right].
  - rewrite Heq in Hun.
    assert (flag_set (tag i0) t = tag i0) as Hf by (apply (flag_set_first _ _ _ _ Hun); by left).
    rewrite Heq, Hf. destruct Hb as [-> | ->]; [left; by rewrite Hf|by right].
  - rewrite Heq in Hun.
    assert (flag_set (tag i0) mt = tag i0) as Hf
      by (apply (flag_set_first _ _ _ _ Hun); by right).
    rewrite Heq, Hf. destruct Hb as [-> | ->]; [by left|right; by rewrite Hf].
Qed.

Lemma dom_tags_apart (m m' : Main) (h : nat) :
  tags_apart m m' → h ∈ dom (ids m) → is_Some (ids m' !! h).
Proof.
  intros Hta Hh. apply elem_of_dom in Hh as [i Hi].
  destruct (tags_apart_lookup _ _ _ _ Hta Hi) as (i' & -> & _). by eexists.
Qed.

Lemma slots_tags_apart (m m' : Main) (h q : nat) (i : ID) :
  tags_apart m m' → pointers_valid m' → ids m' !! h = Some i →
  Some q ∈ (id_link_slots i).*1 → q ∈ dom (ids m).
Proof.
  intros Hta Hv Hi Hq. destruct (pointers_valid_lookup _ _ _ _ Hv Hi Hq) as [x Hx].
  destruct (tags_apart_lookup _ _ q x (tags_apart_sym _ _ Hta) Hx) as (x' & Hx' & _).
  apply elem_of_dom. by eexists.
Qed.

Lemma reference_in_slots (i : ID) (r : nat) :
  reference <$> override_library i = Some (Some r) → Some r ∈ (id_link_slots i).*1.
Proof.
  unfold id_link_slots. destruct (override_library i) as [o|]; [|done].
  cbn. intros [= ->]. apply elem_of_cons. by left.
Qed.

Lemma id_reference_lookup (m : Main) (h : nat) (i : ID) (o : IDOverrideLibrary) :
  ids m !! h = Some i → override_library i = Some o → id_reference m h = reference o.
Proof. intros Hi Ho. unfold id_reference, id_override. by rewrite Hi, Ho. Qed.

(** The callback of the local group, on a registry whose pointers are
    valid. *)
Lemma local_group_tag_cb_total (id_root : nat) (t mt : Z) (m0 m : Main) (iroot : ID)
    (owner : nat) (p : option nat) (flag : Z) :
  ids m0 !! id_root = Some iroot → ID_IS_OVERRIDE_LIBRARY_REAL iroot = true →
  pointers_valid m → group_tagged t mt (local_group_member m0 id_root) m0 m →
  (∀ q, p = Some q → q ∈ dom (ids m0)) →
  ∃ m' ret,
    lib_override_local_group_tag_cb id_root t mt m owner p flag = Some (m', ret)
    ∧ pointers_valid m' ∧ group_tagged t mt (local_group_member m0 id_root) m0 m'.
Proof.
  intros Hroot Hreal Hv Hg Hp. unfold lib_override_local_group_tag_cb.
  destruct (flag_test flag _); [by eexists _, _|].
  pose proof Hg as (Hta & Hrel & Htags).
  destruct (tags_apart_lookup _ _ _ _ Hta Hroot) as (iroot' & Hroot' & Hu).
  destruct (untagged_fields _ _ Hu) as (_ & _ & _ & _ & _ & Horoot & _).
  unfold ID_IS_OVERRIDE_LIBRARY_REAL in Hreal.
  destruct (override_library iroot) as [oroot|] eqn:Hor; [|done].
  destruct (reference oroot) as [rr|] eqn:Hrr; [|done].
  assert (id_reference m id_root = Some rr) as Hidr.
  { rewrite <- Hrr. by apply (id_reference_lookup m id_root iroot'). }
  assert (id_reference m0 id_root = Some rr) as Hidr0.
  { rewrite <- Hrr. by apply (id_reference_lookup m0 id_root iroot). }
  rewrite Hidr.
  destruct (pointers_valid_lookup m id_root rr iroot' Hv Hroot') as [rref' Hrref'].
  { apply reference_in_slots. rewrite Horoot. cbn. by rewrite Hrr. }
  rewrite Hrref'.
  destruct p as [id|]; [|by eexists _, _].
  destruct (bool_decide (id = owner)); [by eexists _, _|].
  destruct (dom_tags_apart _ _ id Hta (Hp id eq_refl)) as [i Hi]. rewrite Hi.
  destruct (flag_test (tag i) (Z.lor t mt)) eqn:Htag; [by eexists _, _|].
  destruct (negb (ID_IS_OVERRIDE_LIBRARY i) || ID_IS_LINKED i) eqn:Hskip; [by eexists _, _|].
  apply orb_false_iff in Hskip as [Hov Hlinked]. apply negb_false_iff in Hov.
  destruct (id_reference m id) as [r|] eqn:Hr; [|by eexists _, _].
  assert (reference <$> override_library i = Some (Some r)) as Hir.
  { unfold id_reference, id_override in Hr. rewrite Hi in Hr.
    destruct (override_library i) as [o|]; [|done]. cbn. by rewrite Hr. }
  destruct (pointers_valid_lookup m id r i Hv Hi (reference_in_slots _ _ Hir)) as [ref' Href'].
  rewrite Href'.
  destruct (decide (lib ref' = lib rref')) as [Hlib|Hlib].
  2: { rewrite bool_decide_eq_true_2 by done. by eexists _, _. }
  rewrite bool_decide_eq_false_2 by (by intros ?).
  assert (∀ i0, ids m0 !! id = Some i0 → local_group_member m0 id_root i0) as HP.
  { intros i0 Hi0.
    destruct (tags_apart_lookup _ _ _ _ Hta Hi0) as (i1 & Hi1 & Hu1).
    rewrite Hi in Hi1. injection Hi1 as <-.
    destruct (untagged_fields _ _ Hu1) as (_ & Hl & _ & _ & _ & Ho & _).
    destruct (tags_apart_lookup _ _ _ _ (tags_apart_sym _ _ Hta) Href') as (ref & Href & Hu2).
    destruct (tags_apart_lookup _ _ _ _ (tags_apart_sym _ _ Hta) Hrref')
      as (rref & Hrref & Hu3).
    destruct (untagged_fields _ _ Hu2) as (_ & Hl2 & _).
    destruct (untagged_fields _ _ Hu3) as (_ & Hl3 & _).
    split; [by rewrite <- Hlinked; apply linked_lib|].
    split.
    { unfold ID_IS_OVERRIDE_LIBRARY_REAL. rewrite <- Ho.
      destruct (override_library i) as [o|]; [|done]. cbn in Hir.
      injection Hir as Hir. rewrite Hir. by apply bool_decide_eq_true_2. }
    exists r, ref, rr, rref. rewrite <- Ho. repeat split; try done. congruence. }
  destruct (flag_test (tag ref') LIB_TAG_MISSING).
  - eexists _, _. split; [done|]. split.
    + eapply pointers_valid_tags_apart; [apply tags_apart_tag_set|done].
    + eapply group_tagged_tag_set; [done|done|done|by right|done].
  - eexists _, _. split; [done|]. split.
    + eapply pointers_valid_tags_apart; [apply tags_apart_tag_set|done].
    + eapply group_tagged_tag_set; [done|done|done|by left|done].
Qed.

Lemma local_group_tag_total (fuel : nat) (m : Main) (id_root : nat)
    (tag_ missing_tag : Z) (iroot : ID) :
  pointers_valid m →
  ids m !! id_root = Some iroot → ID_IS_OVERRIDE_LIBRARY_REAL iroot = true →
  (size (ids m) ≤ fuel)%nat →
  ∃ m', lib_override_local_group_tag fuel m id_root tag_ missing_tag = Some m'
    ∧ pointers_valid m'
    ∧ group_tagged tag_ missing_tag (local_group_member m id_root) m m'.
Proof.
  intros Hv Hroot Hreal Hfuel. unfold lib_override_local_group_tag.
  destruct (foreach_ID_link_total
              (lib_override_local_group_tag_cb id_root tag_ missing_tag)
              (λ m', pointers_valid m'
                     ∧ group_tagged tag_ missing_tag (local_group_member m id_root) m m')
              (dom (ids m))) with (fuel := fuel) (m := m) (id := id_root)
    as (m' & Hrun & Hv' & Hg').
  - intros m1 owner p flag [Hv1 Hg1] _ Hp.
    by eapply local_group_tag_cb_total.
  - intros m1 h [_ (Hta & _)] Hh. by eapply dom_tags_apart.
  - intros m1 h i q [Hv1 (Hta & _)] Hi Hq. by eapply slots_tags_apart.
  - split; [done|apply group_tagged_refl].
  - apply elem_of_dom. by eexists.
  - by rewrite size_dom.
  - by exists m'.
Qed.

(** X14. On a registry whose ID pointers all point to IDs of the registry,
    with fuel for every ID, [lib_override_local_group_tag] on a real override
    returns, and the registry it leaves differs from the one it was given by
    tags only: the tag of an ID is as it was, or has [tag] or [missing_tag]
    set, and this only for local real overrides whose reference is of the
    library of the reference of the root. Linked IDs and IDs that are not
    overrides keep their tags. *)
Theorem local_group_tag_only_overrides (fuel : nat) (m : Main) (id_root : nat)
    (tag_ missing_tag : Z) (iroot : ID) :
  pointers_valid m →
  ids m !! id_root = Some iroot → ID_IS_OVERRIDE_LIBRARY_REAL iroot = true →
  (size (ids m) ≤ fuel)%nat →
  ∃ m', lib_override_local_group_tag fuel m id_root tag_ missing_tag = Some m'
    ∧ tags_apart m m' ∧ relations m' = relations m
    ∧ ∀ h i i', ids m !! h = Some i → ids m' !! h = Some i' →
        tag i' = tag i
        ∨ ((tag i' = flag_set (tag i) tag_ ∨ tag i' = flag_set (tag i) missing_tag)
           ∧ local_group_member m id_root i).
Proof.
  intros Hv Hroot Hreal Hfuel.
  destruct (local_group_tag_total fuel m id_root tag_ missing_tag iroot Hv Hroot Hreal Hfuel)
    as (m' & Hrun & _ & Hta & Hrel & Htags).
  by exists m'.
Qed.

Lemma scene_main_valid : pointers_valid scene_main.
Proof. unfold pointers_valid. apply (bool_decide_unpack _). vm_compute. exact I. Qed.

Lemma local_group_tag_only_overrides_witness :
  ∃ m', lib_override_local_group_tag 5 scene_main 5 LIB_TAG_DOIT LIB_TAG_MISSING = Some m'
    ∧ tags_apart scene_main m' ∧ relations m' = relations scene_main
    ∧ ∀ h i i', ids scene_main !! h = Some i → ids m' !! h = Some i' →
        tag i' = tag i
        ∨ ((tag i' = flag_set (tag i) LIB_TAG_DOIT
            ∨ tag i' = flag_set (tag i) LIB_TAG_MISSING)
           ∧ local_group_member scene_main 5 i).
Proof.
  apply (local_group_tag_only_overrides 5 scene_main 5 LIB_TAG_DOIT LIB_TAG_MISSING _
           scene_main_valid eq_refl eq_refl).
  vm_compute. lia.
Defined.

(** ** The closure pass returns *)

Lemma land_outside_set (x b t mt : Z) :
  b = t ∨ b = mt →
  Z.land (flag_set x b) (Z.lnot (Z.lor t mt)) = Z.land x (Z.lnot (Z.lor t mt)).
Proof.
  intros Hb. unfold flag_set. apply Z.bits_inj'. intros n Hn.
  rewrite !Z.land_spec, Z.lor_spec, Z.lnot_spec, Z.lor_spec by done.
  destruct Hb as [-> | ->];
    by destruct (Z.testbit x n), (Z.testbit t n), (Z.testbit mt n).
Qed.

Lemma land_outside_clear (x c : Z) :
  Z.land (flag_clear x c) (Z.lnot c) = Z.land x (Z.lnot c).
Proof. unfold flag_clear. by rewrite <- Z.land_assoc, Z.land_diag. Qed.

Lemma land_clear_sub (x c : Z) : Z.land (flag_clear x c) x = flag_clear x c.
Proof.
  unfold flag_clear. apply Z.bits_inj'. intros n Hn.
  rewrite !Z.land_spec, Z.lnot_spec by done.
  by destruct (Z.testbit x n), (Z.testbit c n).
Qed.

Lemma land_sub_trans (a b c : Z) : Z.land a b = a → Z.land b c = b → Z.land a c = a.
Proof. intros Hab Hbc. by rewrite <- Hab, <- Z.land_assoc, Hbc. Qed.

Lemma library_tagged_refl (t mt : Z) (L : option nat) (m : Main) : library_tagged t mt L m m.
Proof.
  split; [apply tags_apart_refl|]. intros h i i' Hi Hi'. rewrite Hi in Hi'.
  injection Hi' as <-. split; [done|]. intros _. apply Z.land_diag.
Qed.

Lemma library_tagged_trans (t mt : Z) (L : option nat) (m1 m2 m3 : Main) :
  library_tagged t mt L m1 m2 → library_tagged t mt L m2 m3 → library_tagged t mt L m1 m3.
Proof.
  intros [Ha1 H1] [Ha2 H2]. split; [by eapply tags_apart_trans|].
  intros h i1 i3 Hi1 Hi3.
  destruct (tags_apart_lookup _ _ _ _ Ha1 Hi1) as (i2 & Hi2 & Hu).
  destruct (untagged_fields _ _ Hu) as (_ & Hl & _).
  destruct (H1 h i1 i2 Hi1 Hi2) as [Ho1 Hs1]. destruct (H2 h i2 i3 Hi2 Hi3) as [Ho2 Hs2].
  split; [congruence|]. intros Hne.
  eapply land_sub_trans; [apply Hs2; congruence|by apply Hs1].
Qed.

Lemma library_tagged_tag_set (t mt : Z) (L : option nat) (m : Main) (p : nat) (b : Z) (i : ID) :
  ids m !! p = Some i → lib i = L → b = t ∨ b = mt →
  library_tagged t mt L m (id_tag_set p b m).
Proof.
  intros Hi HL Hb. split; [apply tags_apart_tag_set|]. intros h i0 i' Hi0 Hi'.
  unfold id_tag_set in Hi'. rewrite lookup_update_id in Hi'.
  destruct (decide (p = h)) as [->|Hne].
  - rewrite Hi0 in Hi'. cbn in Hi'. injection Hi' as <-. cbn.
    rewrite Hi in Hi0. injection Hi0 as <-. split; [by apply land_outside_set|done].
  - rewrite Hi0 in Hi'. injection Hi' as <-. split; [done|]. intros _. apply Z.land_diag.
Qed.

Lemma library_tagged_tag_clear (t mt : Z) (L : option nat) (m : Main) (p : nat) :
  library_tagged t mt L m (id_tag_clear p (Z.lor t mt) m).
Proof.
  split; [apply tags_apart_tag_clear|]. intros h i0 i' Hi0 Hi'.
  unfold id_tag_clear in Hi'. rewrite lookup_update_id in Hi'.
  destruct (decide (p = h)) as [->|Hne].
  - rewrite Hi0 in Hi'. cbn in Hi'. injection Hi' as <-. cbn.
    split; [apply land_outside_clear|]. intros _. apply land_clear_sub.
  - rewrite Hi0 in Hi'. injection Hi' as <-. split; [done|]. intros _. apply Z.land_diag.
Qed.

Lemma library_tagged_relations (t mt : Z) (L : option nat) (m : Main)
    (r : option (gmap nat (list MainIDRelationsEntry))) :
  library_tagged t mt L m (set_relations r m).
Proof.
  split; [by split|]. intros h i i' Hi Hi'. cbn in Hi'. rewrite Hi in Hi'.
  injection Hi' as <-. split; [done|]. intros _. apply Z.land_diag.
Qed.

Section closure_total.
Variables (tag_ missing_tag : Z) (L : option nat).

Lemma entries_valid_step (rel : gmap nat (list MainIDRelationsEntry)) (m m' : Main) :
  relations m = Some rel → closure_step tag_ missing_tag L rel m m' → entries_valid m → entries_valid m'.
Proof.
  intros Hrel (rel' & Hrel' & Hsub & [Hta _]) Hv h entries e p Hh He Hp.
  unfold entries_of in Hh. rewrite Hrel' in Hh.
  destruct (Hv h entries e p) as [x Hx]; [|done|done|].
  - unfold entries_of. rewrite Hrel. by eapply lookup_weaken.
  - destruct (tags_apart_lookup _ _ _ _ Hta Hx) as (x' & -> & _). by eexists.
Qed.

Lemma recursive_tag_total (fuel : nat) :
  ∀ (m : Main) (id : nat) (i : ID) (rel : gmap nat (list MainIDRelationsEntry)),
  relations m = Some rel → (size rel < fuel)%nat →
  ids m !! id = Some i → lib i = L → entries_valid m →
  ∃ m' b,
    lib_override_hierarchy_dependencies_recursive_tag fuel m id tag_ missing_tag
    = Some (m', b)
    ∧ closure_step tag_ missing_tag L rel m m'.
Proof.
  induction fuel as [|fuel IH]; intros m id i rel Hrel Hsize Hi HL Hv; [lia|].
  rewrite recursive_tag_unfold, Hrel, Hi.
  destruct (rel !! id) as [entries|] eqn:Hentries.
  2: { exists m, (flag_test (tag i) tag_). split; [done|].
       exists rel. split; [done|]. split; [done|apply library_tagged_refl]. }
  set (m1 := BKE_main_relations_ID_remove id m).
  assert (closure_step tag_ missing_tag L (delete id rel) m1 m1 ∧ relations m1 = Some (delete id rel))
    as [Hstep1 Hrel1].
  { split; [|by unfold m1, BKE_main_relations_ID_remove; cbn; rewrite Hrel].
    exists (delete id rel). split; [by unfold m1, BKE_main_relations_ID_remove; cbn; rewrite Hrel|].
    split; [done|apply library_tagged_refl]. }
  assert (library_tagged tag_ missing_tag L m m1) as Hlt1
    by apply library_tagged_relations.
  assert (∀ e p, e ∈ entries → id_pointer e = Some p → p ∈ dom (ids m)) as Hptr.
  { intros e p He Hp. apply elem_of_dom. apply (Hv id entries e p); [|done|done].
    unfold entries_of. by rewrite Hrel. }
  assert (∀ (l : list MainIDRelationsEntry) (m2 : Main),
            (∀ e, e ∈ l → e ∈ entries) →
            closure_step tag_ missing_tag L (delete id rel) m1 m2 →
            ∃ m', recursive_tag_entries
                    (λ m p, lib_override_hierarchy_dependencies_recursive_tag
                              fuel m p tag_ missing_tag)
                    id i tag_ l m2 = Some m'
              ∧ closure_step tag_ missing_tag L (delete id rel) m1 m') as Hloop.
  { induction l as [|e l IHl]; intros m2 Hl Hstep2; [by exists m2|].
    rewrite recursive_tag_entries_cons.
    assert (∀ e', e' ∈ l → e' ∈ entries) as Hl'.
    { intros e' He'. apply Hl, elem_of_cons. by right. }
    destruct (flag_test (usage_flag e) IDWALK_CB_LOOPBACK); [by apply IHl|].
    destruct (id_pointer e) as [p|] eqn:Hp; [|by apply IHl].
    pose proof Hstep2 as (rel2 & Hrel2 & Hsub2 & Hlt2).
    assert (tags_apart m m2) as Hta2.
    { eapply tags_apart_trans; [apply Hlt1|apply Hlt2]. }
    destruct (dom_tags_apart _ _ p Hta2) as [target Htarget].
    { apply (Hptr e); [|done]. apply Hl, elem_of_cons. by left. }
    rewrite Htarget.
    case_bool_decide as Hlib; [|by apply IHl].
    destruct (IH m2 p target rel2 Hrel2) as (m3 & b & -> & rel3 & Hrel3 & Hsub3 & Hlt3).
    { apply map_subseteq_size in Hsub2.
      assert (size (delete id rel) = pred (size rel)) as Hd
        by (apply map_size_delete_Some; by eexists).
      assert (size rel ≠ 0%nat) as Hnz by (apply (map_size_ne_0_lookup_2 rel id); by eexists).
      lia. }
    { done. }
    { congruence. }
    { eapply entries_valid_step; [exact Hrel1|exact Hstep2|].
      eapply entries_valid_step; [exact Hrel| |exact Hv].
      exists (delete id rel). split; [done|]. split; [apply delete_subseteq|done]. }
    assert (closure_step tag_ missing_tag L (delete id rel) m1 m3) as Hstep3.
    { exists rel3. split; [done|]. split; [by etrans|].
      by eapply library_tagged_trans. }
    destruct b; [|by apply IHl].
    apply IHl; [done|].
    destruct Hstep3 as (rel3' & Hrel3' & Hsub3' & Hlt3').
    exists rel3'. split; [done|]. split; [done|].
    eapply library_tagged_trans; [exact Hlt3'|].
    assert (tags_apart m m3) as Hta3.
    { eapply tags_apart_trans; [apply Hlt1|apply Hlt3']. }
    destruct (tags_apart_lookup _ _ _ _ Hta3 Hi) as (i3 & Hi3 & Hu3).
    destruct (untagged_fields _ _ Hu3) as (_ & Hl3 & _).
    eapply library_tagged_tag_set; [exact Hi3|congruence|by left]. }
  destruct (Hloop entries m1) as (m' & -> & rel' & Hrel' & Hsub' & Hlt'); [done|done|].
  eexists _, _. split; [done|].
  exists rel'. split; [done|]. split.
  - etrans; [exact Hsub'|apply delete_subseteq].
  - eapply library_tagged_trans; [exact Hlt1|exact Hlt'].
Qed.

End closure_total.

(** ** The linked group *)

Lemma linked_group_tag_cb_total (id_root : nat) (t mt : Z) (m0 m : Main)
    (owner : nat) (p : option nat) (flag : Z) :
  id_root ∈ dom (ids m0) →
  pointers_valid m → group_tagged t mt (linked_group_member m0 id_root) m0 m →
  (∀ q, p = Some q → q ∈ dom (ids m0)) →
  ∃ m' ret,
    lib_override_linked_group_tag_cb id_root t mt m owner p flag = Some (m', ret)
    ∧ pointers_valid m' ∧ group_tagged t mt (linked_group_member m0 id_root) m0 m'.
Proof.
  intros Hroot Hv Hg Hp. unfold lib_override_linked_group_tag_cb.
  destruct (flag_test flag _); [by eexists _, _|].
  pose proof Hg as (Hta & Hrel & Htags).
  destruct (dom_tags_apart _ _ id_root Hta Hroot) as [root Hr]. rewrite Hr.
  destruct p as [id|]; [|by eexists _, _].
  destruct (bool_decide (id = owner)); [by eexists _, _|].
  destruct (dom_tags_apart _ _ id Hta (Hp id eq_refl)) as [i Hi]. rewrite Hi.
  destruct (flag_test (tag i) (Z.lor t mt)) eqn:Htag; [by eexists _, _|].
  destruct (decide (lib i = lib root)) as [Hlib|Hlib].
  2: { rewrite bool_decide_eq_true_2 by done. by eexists _, _. }
  rewrite bool_decide_eq_false_2 by (by intros ?).
  destruct (is_OB_or_GR i) eqn:Hob; [|by eexists _, _].
  assert (∀ i0, ids m0 !! id = Some i0 → linked_group_member m0 id_root i0) as HP.
  { intros i0 Hi0.
    destruct (tags_apart_lookup _ _ _ _ Hta Hi0) as (i1 & Hi1 & Hu1).
    rewrite Hi in Hi1. injection Hi1 as <-.
    destruct (untagged_fields _ _ Hu1) as (Hn & Hl & _).
    destruct (tags_apart_lookup _ _ _ _ (tags_apart_sym _ _ Hta) Hr) as (root0 & Hr0 & Hu2).
    destruct (untagged_fields _ _ Hu2) as (_ & Hl2 & _).
    split; [by unfold is_OB_or_GR in *; rewrite <- Hn|].
    exists root0. split; [done|]. congruence. }
  destruct (flag_test (tag i) LIB_TAG_MISSING).
  - eexists _, _. split; [done|]. split.
    + eapply pointers_valid_tags_apart; [apply tags_apart_tag_set|done].
    + eapply group_tagged_tag_set; [done|done|done|by right|done].
  - eexists _, _. split; [done|]. split.
    + eapply pointers_valid_tags_apart; [apply tags_apart_tag_set|done].
    + eapply group_tagged_tag_set; [done|done|done|by left|done].
Qed.

Lemma group_tagged_library (t mt : Z) (P : ID → Prop) (L : option nat) (m m' : Main) :
  (∀ i, P i → lib i = L) → group_tagged t mt P m m' → library_tagged t mt L m m'.
Proof.
  intros HP (Hta & _ & Htags). split; [done|]. intros h i i' Hi Hi'.
  destruct (Htags h i i' Hi Hi') as [->|[Hset Hp]].
  - split; [done|]. intros _. apply Z.land_diag.
  - split.
    + destruct Hset as [-> | ->]; apply land_outside_set; [by left|by right].
    + intros Hne. by apply HP in Hp.
Qed.

Lemma untag_bone_shapes_frame (t mt : Z) (L : option nat) (m : Main) :
  relations (linked_group_untag_bone_shapes t mt m) = relations m
  ∧ library_tagged t mt L m (linked_group_untag_bone_shapes t mt m).
Proof.
  unfold linked_group_untag_bone_shapes.
  apply (foldl_frame (λ m m', relations m' = relations m ∧ library_tagged t mt L m m')).
  - intros m1. split; [done|apply library_tagged_refl].
  - intros m1 m2 m3 [Hr1 H1] [Hr2 H2]. split; [congruence|by eapply library_tagged_trans].
  - intros m1 ob_ptr. destruct (ids m1 !! ob_ptr) as [ob|].
    2: { split; [done|apply library_tagged_refl]. }
    destruct (_ && _ && _). 2: { split; [done|apply library_tagged_refl]. }
    destruct (pose (contents ob)) as [p|]. 2: { split; [done|apply library_tagged_refl]. }
    apply (foldl_frame (λ m m', relations m' = relations m ∧ library_tagged t mt L m m')).
    + intros m2. split; [done|apply library_tagged_refl].
    + intros m2 m3 m4 [Hr1 H1] [Hr2 H2]. split; [congruence|by eapply library_tagged_trans].
    + intros m2 [c|]; [|split; [done|apply library_tagged_refl]].
      split; [done|apply library_tagged_tag_clear].
Qed.

Lemma relations_create_valid (m : Main) :
  pointers_valid m →
  ∃ rel, relations (BKE_main_relations_create m) = Some rel
    ∧ (size rel ≤ size (ids m))%nat
    ∧ entries_valid (BKE_main_relations_create m).
Proof.
  intros Hv.
  assert (∃ rel, relations (BKE_main_relations_create m) = Some rel) as [rel Hrel]
    by (by eexists).
  exists rel. split; [done|].
  assert (∀ h entries, rel !! h = Some entries →
            ∃ i, ids m !! h = Some i ∧ entries = relations_entries i) as Hlookup.
  { intros h entries Hh. apply relations_create_lookup. unfold entries_of. by rewrite Hrel. }
  split.
  - rewrite <- !size_dom. apply subseteq_size. intros h Hh.
    apply elem_of_dom in Hh as [entries Hh]. destruct (Hlookup h entries Hh) as (i & Hi & _).
    apply elem_of_dom. by eexists.
  - intros h entries e p Hh He Hp. unfold entries_of in Hh. rewrite Hrel in Hh.
    destruct (Hlookup h entries Hh) as (i & Hi & ->).
    apply (pointers_valid_lookup m h p i Hv Hi).
    unfold relations_entries in He. apply list_elem_of_In, in_rev, list_elem_of_In in He.
    apply list_elem_of_omap in He as ([q f] & Hin & Hq). cbn in Hq.
    destruct q as [q|]; [|done]. injection Hq as <-. cbn in Hp. injection Hp as ->.
    apply list_elem_of_fmap. by exists (Some p, f).
Qed.

Lemma linked_group_tag_total (fuel : nat) (m : Main) (id : nat)
    (tag_ missing_tag : Z) (i : ID) :
  pointers_valid m → ids m !! id = Some i → (size (ids m) < fuel)%nat →
  ∃ m', lib_override_linked_group_tag fuel m id tag_ missing_tag = Some m'
    ∧ relations m' = None
    ∧ library_tagged tag_ missing_tag (lib i) m m'.
Proof.
  intros Hv Hi Hfuel. unfold lib_override_linked_group_tag.
  set (m1 := BKE_main_relations_create m).
  destruct (relations_create_valid m Hv) as (rel & Hrel & Hsize & Hev). fold m1 in Hrel, Hev.
  assert (ids m1 !! id = Some i) as Hi1 by done. rewrite Hi1.
  assert (pointers_valid m1) as Hv1 by done.
  assert (library_tagged tag_ missing_tag (lib i) m m1) as Hl1
    by apply library_tagged_relations.
  assert (∃ m2, (if is_OB_or_GR i
                 then match BKE_library_foreach_ID_link fuel
                              (lib_override_linked_group_tag_cb id tag_ missing_tag) m1 id with
                      | Some m => Some (linked_group_untag_bone_shapes tag_ missing_tag m)
                      | None => None
                      end
                 else Some m1) = Some m2
            ∧ relations m2 = Some rel
            ∧ library_tagged tag_ missing_tag (lib i) m1 m2) as (m2 & -> & Hrel2 & Hl2).
  { destruct (is_OB_or_GR i).
    2: { exists m1. split; [done|]. split; [done|apply library_tagged_refl]. }
    destruct (foreach_ID_link_total
                (lib_override_linked_group_tag_cb id tag_ missing_tag)
                (λ m', pointers_valid m'
                       ∧ group_tagged tag_ missing_tag (linked_group_member m1 id) m1 m')
                (dom (ids m1))) with (fuel := fuel) (m := m1) (id := id)
      as (m' & -> & Hv' & Hg').
    - intros m3 owner p flag [Hv3 Hg3] _ Hp.
      eapply linked_group_tag_cb_total; [|done|done|done].
      apply elem_of_dom. by eexists.
    - intros m3 h [_ (Hta & _)] Hh. by eapply dom_tags_apart.
    - intros m3 h i3 q [Hv3 (Hta & _)] Hi3 Hq. by eapply slots_tags_apart.
    - split; [done|apply group_tagged_refl].
    - apply elem_of_dom. by eexists.
    - rewrite size_dom. change (ids m1) with (ids m). lia.
    - destruct (untag_bone_shapes_frame tag_ missing_tag (lib i) m') as [Hr Hl].
      eexists. split; [done|]. split.
      + rewrite Hr. destruct Hg' as (_ & -> & _). done.
      + eapply library_tagged_trans; [|exact Hl].
        eapply group_tagged_library; [|exact Hg'].
        intros i0 (_ & root & Hroot & ->). rewrite Hi1 in Hroot. by injection Hroot as <-. }
  assert (tags_apart m1 m2) as Hta2 by apply Hl2.
  destruct (tags_apart_lookup _ _ _ _ Hta2 Hi1) as (i2 & Hi2 & Hu2).
  destruct (untagged_fields _ _ Hu2) as (_ & Hlib2 & _).
  destruct (recursive_tag_total tag_ missing_tag (lib i) fuel m2 id i2 rel)
    as (m3 & b & -> & rel3 & Hrel3 & _ & Hl3); [done|lia|done|done| |].
  { eapply (entries_valid_step tag_ missing_tag (lib i) rel m1 m2); [done| |done].
    exists rel. split; [done|]. split; [done|exact Hl2]. }
  eexists. split; [done|]. split; [done|].
  eapply library_tagged_trans; [exact Hl1|].
  eapply library_tagged_trans; [exact Hl2|].
  eapply library_tagged_trans; [exact Hl3|]. apply library_tagged_relations.
Qed.

(** X15. On a registry whose ID pointers all point to IDs of the registry,
    with fuel for every ID, [lib_override_linked_group_tag] returns, with the
    relations freed, and the registry it leaves differs from the one it was
    given by tags only: the tag of every ID keeps its bits other than [tag]
    and [missing_tag], and an ID of another library than the root gains no
    bit (it can only lose [tag] and [missing_tag], as a bone shape). *)
Theorem linked_group_tag_stays_in_library (fuel : nat) (m : Main) (id : nat)
    (tag_ missing_tag : Z) (i : ID) :
  pointers_valid m → ids m !! id = Some i → (size (ids m) < fuel)%nat →
  ∃ m', lib_override_linked_group_tag fuel m id tag_ missing_tag = Some m'
    ∧ relations m' = None
    ∧ tags_apart m m'
    ∧ ∀ h j j', ids m !! h = Some j → ids m' !! h = Some j' →
        Z.land (tag j') (Z.lnot (Z.lor tag_ missing_tag))
        = Z.land (tag j) (Z.lnot (Z.lor tag_ missing_tag))
        ∧ (lib j ≠ lib i → Z.land (tag j') (tag j) = tag j').
Proof.
  intros Hv Hi Hfuel.
  destruct (linked_group_tag_total fuel m id tag_ missing_tag i Hv Hi Hfuel)
    as (m' & Hrun & Hrel & Hta & Htags).
  by exists m'.
Qed.

Lemma layout_main_valid : pointers_valid layout_main.
Proof. unfold pointers_valid. apply (bool_decide_unpack _). vm_compute. exact I. Qed.

Lemma linked_group_tag_stays_in_library_witness :
  ∃ m', lib_override_linked_group_tag (S (size (ids layout_main))) layout_main 1
          LIB_TAG_DOIT LIB_TAG_MISSING = Some m'
    ∧ relations m' = None
    ∧ tags_apart layout_main m'
    ∧ ∀ h j j', ids layout_main !! h = Some j → ids m' !! h = Some j' →
        Z.land (tag j') (Z.lnot (Z.lor LIB_TAG_DOIT LIB_TAG_MISSING))
        = Z.land (tag j) (Z.lnot (Z.lor LIB_TAG_DOIT LIB_TAG_MISSING))
        ∧ (lib j ≠ Some 7%nat → Z.land (tag j') (tag j) = tag j').
Proof.
  apply (linked_group_tag_stays_in_library (S (size (ids layout_main))) layout_main 1
           LIB_TAG_DOIT LIB_TAG_MISSING _ layout_main_valid eq_refl).
  lia.
Defined.

(** ** The smart deletion *)

Lemma id_relink_map_ptr (old new : nat) (i : ID) :
  id_relink old new false i = id_map_ptr (remap_ptr old new) i.
Proof. reflexivity. Qed.

Lemma id_pointers_map_ptr (f : option nat → option nat) (i : ID) :
  id_pointers (id_map_ptr f i) = f <$> id_pointers i.
Proof.
  unfold id_pointers, id_map_ptr, id_link_slots. cbn.
  rewrite !fmap_app. f_equal; [f_equal; [|f_equal]|].
  - by destruct (override_library i).
  - rewrite <- !list_fmap_compose. by apply list_fmap_ext.
  - destruct (pose (contents i)); [|done]. cbn. f_equal.
    rewrite <- !list_fmap_compose. by apply list_fmap_ext.
  - by destruct (key (contents i)).
Qed.

Lemma id_map_ptr_compose (f g : option nat → option nat) (i : ID) :
  id_map_ptr g (id_map_ptr f i) = id_map_ptr (g ∘ f) i.
Proof.
  destruct i as [n l t fl u nw o c]. unfold id_map_ptr, set_override_library, set_contents.
  cbn. f_equal.
  - destruct o as [o|]; [|done]. by destruct o.
  - destruct c as [ls k ty d p v]. unfold contents_map_ptr. cbn. f_equal.
    + rewrite <- list_fmap_compose. by apply list_fmap_ext.
    + destruct k as [k|]; [|done]. by destruct k.
    + destruct p as [p|]; [|done]. cbn. f_equal. f_equal.
      rewrite <- list_fmap_compose. by apply list_fmap_ext.
Qed.

Lemma id_map_ptr_ext (f g : option nat → option nat) (i : ID) :
  (∀ p, p ∈ id_pointers i → f p = g p) → id_map_ptr f i = id_map_ptr g i.
Proof.
  intros Hfg. destruct i as [n l t fl u nw o c].
  unfold id_map_ptr, set_override_library, set_contents. cbn.
  unfold id_pointers, id_link_slots in Hfg. cbn in Hfg.
  assert (∀ p, p ∈ (match o with
                    | Some o0 =>
                        [(reference o0, Z.lor IDWALK_CB_USER IDWALK_CB_OVERRIDE_LIBRARY_REFERENCE)]
                    | None => []
                    end).*1 → f p = g p) as Ho.
  { intros p Hp. apply Hfg. rewrite fmap_app, !elem_of_app. by left; left. }
  assert (∀ p, p ∈ (links c).*1 → f p = g p) as Hl.
  { intros p Hp. apply Hfg. rewrite !fmap_app, !elem_of_app. by left; right; left. }
  assert (f (ob_data c) = g (ob_data c)) as Hd.
  { apply Hfg. rewrite !fmap_app, !elem_of_app. left; right; right; left. }
  assert (∀ p x, pose c = Some x → p ∈ chanbase x → f p = g p) as Hp.
  { intros p x Hx Hin. apply Hfg. rewrite !fmap_app, !elem_of_app. left; right; right; right.
    rewrite Hx. apply list_elem_of_fmap. exists (p, IDWALK_CB_USER). split; [done|].
    apply list_elem_of_fmap. by exists p. }
  assert (∀ k, key c = Some k → f (from k) = g (from k)) as Hk.
  { intros k Hkey. apply Hfg. rewrite elem_of_app. right. rewrite Hkey.
    by apply list_elem_of_singleton. }
  f_equal.
  - destruct o as [o|]; [|done]. cbn. do 2 f_equal. destruct o. cbn. unfold set_reference.
    cbn. f_equal. apply Ho. cbn. by apply list_elem_of_singleton.
  - destruct c as [ls k ty d p v]. unfold contents_map_ptr. cbn in *. f_equal.
    + apply list_fmap_ext. intros j [q fl'] Hj. cbn. f_equal. apply Hl.
      apply list_elem_of_fmap. exists (q, fl'). split; [done|by eapply list_elem_of_lookup_2].
    + destruct k as [k|]; [|done]. cbn. f_equal. unfold set_from. f_equal. by apply Hk.
    + done.
    + destruct p as [p|]; [|done]. cbn. do 2 f_equal. apply list_fmap_ext.
      intros j q Hj. apply (Hp q p); [done|]. by eapply list_elem_of_lookup_2.
Qed.

Lemma id_map_ptr_id (i : ID) : id_map_ptr (λ p, p) i = i.
Proof.
  destruct i as [n l t fl u nw o c]. unfold id_map_ptr, set_override_library, set_contents.
  cbn. f_equal.
  - destruct o as [o|]; [|done]. by destruct o.
  - destruct c as [ls k ty d p v]. unfold contents_map_ptr. cbn. f_equal.
    + rewrite <- (list_fmap_id ls) at 2. apply list_fmap_ext. by intros j [q f'] _.
    + destruct k as [k|]; [|done]. by destruct k.
    + destruct p as [p|]; [|done]. cbn. f_equal. destruct p. cbn. f_equal.
      apply list_fmap_id.
Qed.

Lemma overrides_local_lookup (m : Main) (h r : nat) (i : ID) (o : IDOverrideLibrary) :
  overrides_local m → ids m !! h = Some i → override_library i = Some o →
  reference o = Some r →
  lib i = None ∧ ∃ ref, ids m !! r = Some ref ∧ ID_IS_LINKED ref = true.
Proof.
  intros Hol Hi Ho Hr. specialize (Hol h i Hi). cbn in Hol.
  unfold override_is_local in Hol. rewrite Ho, Hr in Hol.
  apply andb_true_iff in Hol as [Hl Href]. apply bool_decide_eq_true in Hl.
  split; [done|]. destruct (ids m !! r) as [ref|]; [|done]. by exists ref.
Qed.

Lemma delete_remapped_facts (m : Main) (d : nat) :
  overrides_local m → delete_remapped m d = true →
  ∃ i r ref, ids m !! d = Some i ∧ ID_IS_LINKED i = false
    ∧ id_reference m d = Some r ∧ ids m !! r = Some ref ∧ ID_IS_LINKED ref = true
    ∧ delete_remapped m r = false.
Proof.
  intros Hol Hd. unfold delete_remapped in Hd.
  destruct (ids m !! d) as [i|] eqn:Hi; [|done].
  apply andb_true_iff in Hd as [_ Hreal]. unfold ID_IS_OVERRIDE_LIBRARY_REAL in Hreal.
  destruct (override_library i) as [o|] eqn:Ho; [|done].
  destruct (reference o) as [r|] eqn:Hr; [|done].
  destruct (overrides_local_lookup m d r i o Hol Hi Ho Hr) as (Hlib & ref & Href & Hlinked).
  exists i, r, ref. split; [done|]. split.
  { unfold ID_IS_LINKED. rewrite Hlib. by apply bool_decide_eq_false_2; intros ?. }
  split; [by rewrite (id_reference_lookup m d i o)|]. split; [done|]. split; [done|].
  unfold delete_remapped. rewrite Href.
  destruct (ID_IS_OVERRIDE_LIBRARY_REAL ref) eqn:Hrr; [|by rewrite andb_false_r].
  exfalso. unfold ID_IS_OVERRIDE_LIBRARY_REAL in Hrr.
  destruct (override_library ref) as [o'|] eqn:Ho'; [|done].
  destruct (reference o') as [r'|] eqn:Hr'; [|done].
  destruct (overrides_local_lookup m r r' ref o' Hol Href Ho' Hr') as (Hlib' & _).
  unfold ID_IS_LINKED in Hlinked. rewrite Hlib' in Hlinked.
  by apply bool_decide_eq_true in Hlinked.
Qed.

Lemma delete_redirect_snoc (m : Main) (l : list nat) (x : nat) (p : option nat) :
  overrides_local m →
  delete_redirect m (l ++ [x]) p
  = if delete_remapped m x
    then match id_reference m x with
         | Some r => remap_ptr x r (delete_redirect m l p)
         | None => delete_redirect m l p
         end
    else delete_redirect m l p.
Proof.
  intros Hol. destruct p as [d|].
  { unfold delete_redirect.
    assert (bool_decide (d ∈ l ++ [x]) = bool_decide (d ∈ l) || bool_decide (d = x)) as ->.
    { apply eq_true_iff_eq. rewrite orb_true_iff, !bool_decide_eq_true, elem_of_app.
      by rewrite list_elem_of_singleton. }
    destruct (delete_remapped m x) eqn:Hx.
    - destruct (delete_remapped_facts m x Hol Hx)
        as (ix & r & ref & Hix & Hlx & Hrx & Href & Hlr & Hnr).
      rewrite Hrx.
      destruct (bool_decide (d ∈ l) && delete_remapped m d) eqn:Hd.
      + apply andb_true_iff in Hd as [Hdl Hdr]. rewrite Hdl, Hdr. cbn [orb andb].
        destruct (delete_remapped_facts m d Hol Hdr)
          as (id_ & rd & refd & Hid & Hld & Hrd & Hrefd & Hlrd & _).
        rewrite Hrd. unfold remap_ptr. rewrite bool_decide_eq_false_2; [done|].
        intros [= ->]. congruence.
      + unfold remap_ptr. destruct (decide (d = x)) as [->|Hne].
        * rewrite (bool_decide_eq_true_2 (x = x)) by done. rewrite orb_true_r, Hx.
          cbn [andb]. by rewrite bool_decide_eq_true_2.
        * rewrite (bool_decide_eq_false_2 (d = x)) by done. rewrite orb_false_r, Hd.
          rewrite bool_decide_eq_false_2; [done|]. by intros [= ?].
    - destruct (decide (d = x)) as [->|Hne].
      + rewrite Hx, !andb_false_r. done.
      + rewrite (bool_decide_eq_false_2 (d = x)) by done. by rewrite orb_false_r. }
  cbn. destruct (delete_remapped m x); [|done].
  destruct (id_reference m x); [|done]. unfold remap_ptr.
  by rewrite bool_decide_eq_false_2.
Qed.

Lemma linked_map_ptr (f : option nat → option nat) (i : ID) :
  ID_IS_LINKED (id_map_ptr f i) = ID_IS_LINKED i.
Proof. done. Qed.

(** The registry the remapping loop leaves: every local ID has its pointers
    redirected, nothing else has changed. *)
Lemma delete_remap_walk (mt : Main) (l : list nat) :
  overrides_local mt →
  order (foldl delete_remap_one mt l) = order mt
  ∧ relations (foldl delete_remap_one mt l) = relations mt
  ∧ ∀ h, ids (foldl delete_remap_one mt l) !! h
         = (λ i, if ID_IS_LINKED i then i else id_map_ptr (delete_redirect mt l) i)
             <$> ids mt !! h.
Proof.
  intros Hol. induction l as [|x l IH] using rev_ind.
  - split; [done|]. split; [done|]. intros h. cbn [foldl].
    destruct (ids mt !! h) as [i|]; [|done]. cbn. f_equal.
    destruct (ID_IS_LINKED i); [done|]. rewrite <- (id_map_ptr_id i) at 1.
    apply id_map_ptr_ext. by intros [p|] _.
  - rewrite foldl_app. cbn [foldl]. destruct IH as (Ho & Hr & Hids).
    set (ml := foldl delete_remap_one mt l) in *.
    assert (∀ i, (if ID_IS_LINKED i then i
                  else id_map_ptr (delete_redirect mt (l ++ [x])) i)
                 = if delete_remapped mt x
                   then match id_reference mt x with
                        | Some r =>
                            (λ j, if ID_IS_LINKED j then j else id_relink x r false j)
                              (if ID_IS_LINKED i then i
                               else id_map_ptr (delete_redirect mt l) i)
                        | None =>
                            if ID_IS_LINKED i then i else id_map_ptr (delete_redirect mt l) i
                        end
                   else if ID_IS_LINKED i then i else id_map_ptr (delete_redirect mt l) i)
      as Hstep.
    { intros i. destruct (ID_IS_LINKED i) eqn:Hli.
      { destruct (delete_remapped mt x); [|done].
        destruct (id_reference mt x); [|done]. cbn. by rewrite Hli. }
      destruct (delete_remapped mt x) eqn:Hx.
      - destruct (id_reference mt x) as [r|] eqn:Hrx.
        + cbn. rewrite linked_map_ptr, Hli, id_relink_map_ptr, id_map_ptr_compose.
          apply id_map_ptr_ext. intros p _. cbn.
          by rewrite delete_redirect_snoc, Hx, Hrx.
        + apply id_map_ptr_ext. intros p _. by rewrite delete_redirect_snoc, Hx, Hrx.
      - apply id_map_ptr_ext. intros p _. by rewrite delete_redirect_snoc, Hx. }
    unfold delete_remap_one. rewrite (Hids x).
    destruct (ids mt !! x) as [ix|] eqn:Hix; cbn [fmap option_fmap option_map].
    2: { split; [done|]. split; [done|]. intros h. rewrite Hids.
         destruct (ids mt !! h) as [i|]; [|done]. cbn. f_equal. rewrite Hstep.
         unfold delete_remapped. by rewrite Hix. }
    assert (flag_test (tag (if ID_IS_LINKED ix then ix
                            else id_map_ptr (delete_redirect mt l) ix)) LIB_TAG_DOIT
            && ID_IS_OVERRIDE_LIBRARY_REAL
                 (if ID_IS_LINKED ix then ix else id_map_ptr (delete_redirect mt l) ix)
            = delete_remapped mt x) as ->.
    { unfold delete_remapped. rewrite Hix. destruct (ID_IS_LINKED ix); [done|].
      f_equal. unfold ID_IS_OVERRIDE_LIBRARY_REAL, id_map_ptr. cbn.
      destruct (override_library ix) as [o|]; [|done]. cbn.
      destruct (reference o) as [r|]; [|done]. cbn.
      destruct (bool_decide (r ∈ l) && delete_remapped mt r) eqn:Hr'; [|done].
      apply andb_true_iff in Hr' as [_ Hr'].
      destruct (delete_remapped_facts mt r Hol Hr') as (_ & r' & _ & _ & _ & -> & _).
      done. }
    destruct (delete_remapped mt x) eqn:Hx.
    2: { split; [done|]. split; [done|]. intros h. rewrite Hids.
         destruct (ids mt !! h) as [i|]; [|done]. cbn. f_equal. by rewrite Hstep. }
    destruct (delete_remapped_facts mt x Hol Hx)
      as (ix' & r & ref & Hix' & Hlx & Hrx & Href & Hlr & Hnr).
    rewrite Hix in Hix'. injection Hix' as <-.
    assert (id_reference ml x = Some r) as ->.
    { unfold id_reference, id_override. rewrite (Hids x), Hix. cbn. rewrite Hlx.
      unfold id_reference, id_override in Hrx. rewrite Hix in Hrx.
      unfold id_map_ptr. cbn. destruct (override_library ix) as [o|]; [|done]. cbn.
      rewrite Hrx. cbn. unfold delete_remapped in Hnr. rewrite Href in Hnr.
      unfold delete_remapped. rewrite Href, Hnr. by rewrite andb_false_r. }
    split; [done|]. split; [done|]. intros h.
    unfold BKE_libblock_remap. cbn [ids set_ids]. rewrite lookup_fmap, (Hids h).
    destruct (ids mt !! h) as [i|]; [|done]. cbn. f_equal. by rewrite Hstep, ?Hx, ?Hrx.
Qed.

Lemma untagged_pointers (i i' : ID) : untagged i' = untagged i → id_pointers i' = id_pointers i.
Proof.
  intros Hu. destruct (untagged_fields _ _ Hu) as (_ & _ & _ & _ & _ & Ho & Hc).
  unfold id_pointers. by rewrite (untagged_slots _ _ Hu), Hc.
Qed.

Lemma overrides_local_tags_apart (m m' : Main) :
  tags_apart m m' → overrides_local m → overrides_local m'.
Proof.
  intros Hta Hol h i' Hi'. cbn.
  destruct (tags_apart_lookup _ _ h i' (tags_apart_sym _ _ Hta) Hi') as (i & Hi & Hu).
  destruct (untagged_fields _ _ Hu) as (_ & Hl & _ & _ & _ & Ho & _).
  specialize (Hol h i Hi). cbn in Hol. unfold override_is_local in *.
  rewrite <- Ho, <- Hl. destruct (override_library i) as [o|]; [|done].
  destruct (reference o) as [r|]; [|done].
  apply andb_true_iff in Hol as [H1 H2]. rewrite H1. cbn.
  destruct (ids m !! r) as [ref|] eqn:Href; [|done].
  destruct (tags_apart_lookup _ _ r ref Hta Href) as (ref' & -> & Hu').
  destruct (untagged_fields _ _ Hu') as (_ & Hl' & _).
  by rewrite (linked_lib _ _ Hl').
Qed.

Lemma all_registered_tags_apart (m m' : Main) :
  tags_apart m m' → all_registered m → all_registered m'.
Proof.
  intros Hta Har h i' Hi'. cbn.
  destruct (tags_apart_lookup _ _ h i' (tags_apart_sym _ _ Hta) Hi') as (i & Hi & _).
  destruct Hta as [-> _]. apply (Har h i Hi).
Qed.

Lemma tag_all_lookup (b : Z) (m : Main) (h : nat) :
  ∃ g : ID → ID,
    ids (BKE_main_id_tag_all b false m) !! h = g <$> ids m !! h
    ∧ ∀ i, tag (g i) = flag_clear (tag i) b ∧ id_pointers (g i) = id_pointers i
           ∧ ID_IS_LINKED (g i) = ID_IS_LINKED i.
Proof.
  eexists. split.
  - unfold BKE_main_id_tag_all, set_ids. cbn [ids]. rewrite lookup_fmap. reflexivity.
  - intros i. split; [done|]. split; [|done].
    unfold id_pointers, id_link_slots. cbn. by destruct (key (contents i)).
Qed.

Lemma size_tags_apart (m m' : Main) : tags_apart m m' → size (ids m') = size (ids m).
Proof.
  intros Hta. rewrite <- !size_dom. f_equal. apply leibniz_equiv. intros h.
  rewrite !elem_of_dom. split; intros [i Hi].
  - destruct (tags_apart_lookup _ _ h i (tags_apart_sym _ _ Hta) Hi) as (i' & -> & _).
    by eexists.
  - destruct (tags_apart_lookup _ _ h i Hta Hi) as (i' & -> & _). by eexists.
Qed.

(** The deletion, from the registry the tagging has left. *)
Lemma delete_from_tagged (mt : Main) (h : nat) :
  overrides_local mt →
  let m' := BKE_main_id_tag_all LIB_TAG_DOIT false
              (BKE_id_multi_tagged_delete (foldl delete_remap_one mt (order mt))) in
  match ids mt !! h with
  | Some i =>
      if flag_test (tag i) LIB_TAG_DOIT then ids m' !! h = None
      else ∃ i', ids m' !! h = Some i'
             ∧ flag_test (tag i') LIB_TAG_DOIT = false
             ∧ ID_IS_LINKED i' = ID_IS_LINKED i
             ∧ id_pointers i'
               = if ID_IS_LINKED i then id_pointers i
                 else delete_redirect mt (order mt) <$> id_pointers i
  | None => ids m' !! h = None
  end.
Proof.
  intros Hol m'. destruct (delete_remap_walk mt (order mt) Hol) as (_ & _ & Hids).
  destruct (tag_all_lookup LIB_TAG_DOIT
              (BKE_id_multi_tagged_delete (foldl delete_remap_one mt (order mt))) h)
    as (g & Hg & Hgi).
  fold m' in Hg. rewrite Hg. unfold BKE_id_multi_tagged_delete. cbn [ids].
  destruct (ids mt !! h) as [i|] eqn:Hi.
  2: { rewrite (proj2 (map_lookup_filter_None _ _ _)); [done|]. left.
       by rewrite Hids, Hi. }
  set (j := if ID_IS_LINKED i then i else id_map_ptr (delete_redirect mt (order mt)) i).
  assert (ids (foldl delete_remap_one mt (order mt)) !! h = Some j) as Hj
    by (by rewrite Hids, Hi).
  assert (tag j = tag i) as Htag by (unfold j; by destruct (ID_IS_LINKED i)).
  destruct (flag_test (tag i) LIB_TAG_DOIT) eqn:Ht.
  - rewrite (proj2 (map_lookup_filter_None _ _ _)); [done|]. right.
    intros x Hx. rewrite Hj in Hx. injection Hx as <-. cbn. by rewrite Htag, Ht.
  - rewrite (proj2 (map_lookup_filter_Some _ _ h j)).
    2: { split; [exact Hj|]. cbn. by rewrite Htag. }
    exists (g j). split; [done|]. destruct (Hgi j) as (Hgt & Hgp & Hgl).
    split; [rewrite Hgt; apply flag_test_clear|].
    split; [rewrite Hgl; unfold j; by destruct (ID_IS_LINKED i) eqn:Hli|].
    rewrite Hgp. unfold j. destruct (ID_IS_LINKED i); [done|].
    apply id_pointers_map_ptr.
Qed.

Lemma flag_test_set_same (x b : Z) : b ≠ 0 → flag_test (flag_set (flag_set x b) b) b = true.
Proof. intros Hb. by rewrite flag_set_idemp, flag_test_set. Qed.

(** X16. [BKE_lib_override_library_delete] on a real override, in a registry
    whose ID pointers all point to IDs of the registry, whose IDs are all
    registered, and whose real overrides are local IDs overriding linked
    ones, with fuel for every ID: the call returns, the root is deleted with
    every ID the tagging has left tagged [LIB_TAG_DOIT], no ID of the
    registry returned is tagged, linked IDs keep their pointers, and every
    pointer of a remaining local ID is as it was unless it pointed to a
    deleted real override, in which case it now points to the reference of
    that override; no remaining local ID points to a deleted real
    override. *)
Theorem delete_remaps_to_references (fuel : nat) (m : Main) (id_root : nat) (iroot : ID) :
  pointers_valid m → overrides_local m → all_registered m →
  ids m !! id_root = Some iroot → ID_IS_OVERRIDE_LIBRARY_REAL iroot = true →
  (size (ids m) ≤ fuel)%nat →
  ∃ mt m',
    lib_override_local_group_tag fuel (id_tag_set id_root LIB_TAG_DOIT m) id_root
      LIB_TAG_DOIT LIB_TAG_DOIT = Some mt
    ∧ tags_apart m mt
    ∧ BKE_lib_override_library_delete fuel m id_root = Some m'
    ∧ ids m' !! id_root = None
    ∧ ∀ h i, ids m !! h = Some i →
        if id_tagged mt LIB_TAG_DOIT h then ids m' !! h = None
        else ∃ i', ids m' !! h = Some i'
               ∧ flag_test (tag i') LIB_TAG_DOIT = false
               ∧ (id_pointers i'
                  = if ID_IS_LINKED i then id_pointers i
                    else delete_redirect mt (order m) <$> id_pointers i)
               ∧ (ID_IS_LINKED i = false →
                  ∀ d, delete_remapped mt d = true → Some d ∉ id_pointers i').
Proof.
  intros Hv Hol Har Hroot Hreal Hfuel.
  set (m0 := id_tag_set id_root LIB_TAG_DOIT m).
  assert (tags_apart m m0) as Hta0 by apply tags_apart_tag_set.
  assert (ids m0 !! id_root = Some (set_tag (flag_set (tag iroot) LIB_TAG_DOIT) iroot))
    as Hroot0.
  { unfold m0, id_tag_set. by rewrite lookup_update_id_same, Hroot. }
  destruct (local_group_tag_total fuel m0 id_root LIB_TAG_DOIT LIB_TAG_DOIT _
              (pointers_valid_tags_apart _ _ Hta0 Hv) Hroot0)
    as (mt & Hrun & Hvt & Hta & _ & Htags);
    [exact Hreal|by rewrite (size_tags_apart _ _ Hta0)|].
  assert (tags_apart m mt) as Htam by (by eapply tags_apart_trans).
  pose proof (overrides_local_tags_apart _ _ Htam Hol) as Holt.
  pose proof (all_registered_tags_apart _ _ Htam Har) as Hart.
  assert (order mt = order m) as Hord by apply Htam.
  exists mt. eexists. split; [done|]. split; [done|].
  split. { unfold BKE_lib_override_library_delete. fold m0. by rewrite Hrun. }
  assert (∀ h i, ids m !! h = Some i →
            if id_tagged mt LIB_TAG_DOIT h
            then ids (BKE_main_id_tag_all LIB_TAG_DOIT false
                        (BKE_id_multi_tagged_delete
                           (foldl delete_remap_one mt (order mt)))) !! h = None
            else ∃ i', ids (BKE_main_id_tag_all LIB_TAG_DOIT false
                              (BKE_id_multi_tagged_delete
                                 (foldl delete_remap_one mt (order mt)))) !! h = Some i'
                   ∧ flag_test (tag i') LIB_TAG_DOIT = false
                   ∧ (id_pointers i'
                      = if ID_IS_LINKED i then id_pointers i
                        else delete_redirect mt (order m) <$> id_pointers i)
                   ∧ (ID_IS_LINKED i = false →
                      ∀ d, delete_remapped mt d = true → Some d ∉ id_pointers i')) as Hall.
  { intros h i Hi.
    destruct (tags_apart_lookup _ _ _ _ Htam Hi) as (it & Hit & Hu).
    destruct (untagged_fields _ _ Hu) as (_ & Hl & _).
    pose proof (delete_from_tagged mt h Holt) as Hd. cbn zeta in Hd. rewrite Hit in Hd.
    unfold id_tagged. rewrite Hit.
    destruct (flag_test (tag it) LIB_TAG_DOIT); [done|].
    destruct Hd as (i' & Hi' & Ht' & Hl' & Hp'). exists i'.
    rewrite (linked_lib _ _ Hl), (untagged_pointers _ _ Hu), Hord in Hp'.
    split; [done|]. split; [done|]. split; [done|].
    intros Hlocal d Hd. rewrite Hp', Hlocal.
    intros Hin. apply list_elem_of_fmap in Hin as (p & Hp & _).
    destruct (delete_remapped_facts mt d Holt Hd)
      as (idd & rd & refd & Hidd & Hld & Hrd & Hrefd & Hlrd & Hnrd).
    destruct p as [q|]; [|done]. unfold delete_redirect in Hp.
    destruct (bool_decide (q ∈ order m) && delete_remapped mt q) eqn:Hq.
    - apply andb_true_iff in Hq as [_ Hq].
      destruct (delete_remapped_facts mt q Holt Hq)
        as (_ & rq & refq & _ & _ & Hrq & Hrefq & Hlrq & Hnrq).
      rewrite Hrq in Hp. injection Hp as Heq. congruence.
    - injection Hp as Heq. subst q. rewrite Hd, andb_true_r in Hq.
      apply bool_decide_eq_false in Hq. apply Hq. rewrite <- Hord.
      apply (Hart d idd Hidd). }
  split; [|exact Hall].
  specialize (Hall id_root iroot Hroot).
  assert (id_tagged mt LIB_TAG_DOIT id_root = true) as Htr; [|by rewrite Htr in Hall].
  destruct (tags_apart_lookup _ _ _ _ Hta Hroot0) as (rt & Hrt & _).
  unfold id_tagged. rewrite Hrt.
  destruct (Htags id_root _ rt Hroot0 Hrt) as [->|[[-> | ->] _]]; cbn.
  - by apply flag_test_set.
  - by apply flag_test_set_same.
  - by apply flag_test_set_same.
Qed.

Lemma scene_main_overrides_local : overrides_local scene_main.
Proof. unfold overrides_local. apply (bool_decide_unpack _). vm_compute. exact I. Qed.

Lemma scene_main_registered : all_registered scene_main.
Proof. unfold all_registered. apply (bool_decide_unpack _). vm_compute. exact I. Qed.

Lemma delete_remaps_to_references_witness :
  ∃ mt m',
    lib_override_local_group_tag 5 (id_tag_set 5 LIB_TAG_DOIT scene_main) 5
      LIB_TAG_DOIT LIB_TAG_DOIT = Some mt
    ∧ tags_apart scene_main mt
    ∧ BKE_lib_override_library_delete 5 scene_main 5 = Some m'
    ∧ ids m' !! 5%nat = None
    ∧ ∀ h i, ids scene_main !! h = Some i →
        if id_tagged mt LIB_TAG_DOIT h then ids m' !! h = None
        else ∃ i', ids m' !! h = Some i'
               ∧ flag_test (tag i') LIB_TAG_DOIT = false
               ∧ (id_pointers i'
                  = if ID_IS_LINKED i then id_pointers i
                    else delete_redirect mt (order scene_main) <$> id_pointers i)
               ∧ (ID_IS_LINKED i = false →
                  ∀ d, delete_remapped mt d = true → Some d ∉ id_pointers i').
Proof.
  apply (delete_remaps_to_references 5 scene_main 5 _ scene_main_valid
           scene_main_overrides_local scene_main_registered eq_refl eq_refl).
  vm_compute. lia.
Defined.

(** ** The tagging that opens the resync *)

Lemma id_reference_tags_apart (m m' : Main) (h : nat) :
  tags_apart m m' → id_reference m' h = id_reference m h.
Proof.
  intros [_ Hu]. specialize (Hu h). unfold id_reference, id_override.
  destruct (ids m !! h) as [i|], (ids m' !! h) as [i'|]; try done.
  cbn in Hu. apply (inj Some) in Hu.
  destruct (untagged_fields _ _ Hu) as (_ & _ & _ & _ & _ & -> & _). done.
Qed.

Lemma local_group_member_tags_apart (m m' : Main) (id_root : nat) (i i' : ID) :
  tags_apart m m' → untagged i' = untagged i →
  local_group_member m' id_root i' → local_group_member m id_root i.
Proof.
  intros Hta Hu (Hl & Hr & r & ref & rr & rref & Ho & Href & Hrr & Hrref & Hlib).
  destruct (untagged_fields _ _ Hu) as (_ & Hlibi & _ & _ & _ & Hov & _).
  destruct (tags_apart_lookup _ _ _ _ (tags_apart_sym _ _ Hta) Href) as (ref0 & Href0 & Hu0).
  destruct (tags_apart_lookup _ _ _ _ (tags_apart_sym _ _ Hta) Hrref) as (rref0 & Hrref0 & Hu1).
  destruct (untagged_fields _ _ Hu0) as (_ & Hl0 & _).
  destruct (untagged_fields _ _ Hu1) as (_ & Hl1 & _).
  split; [by rewrite <- (linked_lib _ _ Hlibi)|].
  split; [unfold ID_IS_OVERRIDE_LIBRARY_REAL in *; by rewrite <- Hov|].
  exists r, ref0, rr, rref0. rewrite <- Hov.
  split; [done|]. split; [done|].
  split; [by rewrite <- (id_reference_tags_apart _ _ id_root Hta)|].
  split; [done|]. congruence.
Qed.

(** X17. The tagging that opens [BKE_lib_override_library_resync] (lines
    777 to 782), on a real override in a registry whose ID pointers all point
    to IDs of the registry, with fuel for every ID: it returns, with the
    reference of the root, and the registry it leaves, its relations freed,
    differs from the one it was given by tags only. The tag of every ID
    keeps its bits other than [LIB_TAG_DOIT] and [LIB_TAG_MISSING]; and an ID
    gains no bit unless it is the root, a local real override whose
    reference is of the library of the reference of the root, or an ID of
    that library. *)
Theorem resync_tag_returns (fuel : nat) (m : Main) (id_root : nat) (iroot : ID) :
  pointers_valid m →
  ids m !! id_root = Some iroot → ID_IS_OVERRIDE_LIBRARY_REAL iroot = true →
  (size (ids m) < fuel)%nat →
  ∃ mt r ref,
    resync_tag fuel m id_root = Some (mt, r)
    ∧ id_reference m id_root = Some r ∧ ids m !! r = Some ref
    ∧ tags_apart m mt ∧ relations mt = None
    ∧ ∀ h j j', ids m !! h = Some j → ids mt !! h = Some j' →
        Z.land (tag j') (Z.lnot (Z.lor LIB_TAG_DOIT LIB_TAG_MISSING))
        = Z.land (tag j) (Z.lnot (Z.lor LIB_TAG_DOIT LIB_TAG_MISSING))
        ∧ (h ≠ id_root → ¬ local_group_member m id_root j → lib j ≠ lib ref →
           Z.land (tag j') (tag j) = tag j').
Proof.
  intros Hv Hroot Hreal Hfuel.
  set (m0 := id_tag_set id_root LIB_TAG_DOIT m).
  assert (tags_apart m m0) as Hta0 by apply tags_apart_tag_set.
  assert (ids m0 !! id_root = Some (set_tag (flag_set (tag iroot) LIB_TAG_DOIT) iroot))
    as Hroot0.
  { unfold m0, id_tag_set. by rewrite lookup_update_id_same, Hroot. }
  assert (∃ r, id_reference m id_root = Some r) as [r Hr].
  { unfold id_reference, id_override. rewrite Hroot.
    unfold ID_IS_OVERRIDE_LIBRARY_REAL in Hreal.
    destruct (override_library iroot) as [o|]; [|done].
    destruct (reference o) as [r|]; [by exists r|done]. }
  assert (∃ ref, ids m !! r = Some ref) as [ref Href].
  { apply (pointers_valid_lookup m id_root r iroot Hv Hroot), reference_in_slots.
    unfold id_reference, id_override in Hr. rewrite Hroot in Hr.
    destruct (override_library iroot) as [o|]; [|done]. cbn. by rewrite Hr. }
  destruct (local_group_tag_total fuel m0 id_root LIB_TAG_DOIT LIB_TAG_MISSING _
              (pointers_valid_tags_apart _ _ Hta0 Hv) Hroot0)
    as (m1 & Hrun1 & Hv1 & Hta1 & _ & Htags1);
    [exact Hreal|rewrite (size_tags_apart _ _ Hta0); lia|].
  destruct (tags_apart_lookup _ _ _ _ (tags_apart_trans _ _ _ Hta0 Hta1) Href)
    as (ref1 & Href1 & Hu1).
  destruct (untagged_fields _ _ Hu1) as (_ & Hlref & _).
  destruct (linked_group_tag_total fuel m1 r LIB_TAG_DOIT LIB_TAG_MISSING ref1 Hv1 Href1)
    as (mt & Hrunt & Hrel & Htat & Htagst).
  { by rewrite (size_tags_apart _ _ (tags_apart_trans _ _ _ Hta0 Hta1)). }
  exists mt, r, ref. split.
  { unfold resync_tag. fold m0. rewrite (id_reference_tags_apart _ _ id_root Hta0), Hr.
    by rewrite Hrun1, Hrunt. }
  split; [done|]. split; [done|].
  split; [eapply tags_apart_trans; [|exact Htat]; by eapply tags_apart_trans|].
  split; [done|]. intros h j j' Hj Hj'.
  destruct (tags_apart_lookup _ _ _ _ Hta0 Hj) as (j0 & Hj0 & Hu0).
  destruct (tags_apart_lookup _ _ _ _ Hta1 Hj0) as (j1 & Hj1 & Hu01).
  destruct (Htagst h j1 j' Hj1 Hj') as [Hout Hin].
  assert (tag j0 = if decide (id_root = h) then flag_set (tag j) LIB_TAG_DOIT else tag j)
    as Ht0.
  { unfold m0, id_tag_set in Hj0. rewrite lookup_update_id, Hj in Hj0.
    destruct (decide (id_root = h)); cbn in Hj0; by injection Hj0 as <-. }
  split.
  - rewrite Hout. transitivity (Z.land (tag j0) (Z.lnot (Z.lor LIB_TAG_DOIT LIB_TAG_MISSING))).
    + destruct (Htags1 h j0 j1 Hj0 Hj1) as [->|[[-> | ->] _]]; [done| |];
        apply land_outside_set; [by left|by right].
    + rewrite Ht0. destruct (decide (id_root = h)); [|done].
      apply land_outside_set. by left.
  - intros Hne Hnm Hlib. rewrite decide_False in Ht0 by done.
    assert (tag j1 = tag j0) as Ht1.
    { destruct (Htags1 h j0 j1 Hj0 Hj1) as [->|[_ Hm]]; [done|].
      destruct Hnm. by eapply local_group_member_tags_apart. }
    rewrite <- Ht0, <- Ht1. apply Hin.
    destruct (untagged_fields _ _ Hu0) as (_ & Hl0 & _).
    destruct (untagged_fields _ _ Hu01) as (_ & Hl1 & _). congruence.
Qed.

Lemma resync_tag_returns_witness :
  ∃ mt r ref,
    resync_tag 6 scene_main 5 = Some (mt, r)
    ∧ id_reference scene_main 5 = Some r ∧ ids scene_main !! r = Some ref
    ∧ tags_apart scene_main mt ∧ relations mt = None
    ∧ ∀ h j j', ids scene_main !! h = Some j → ids mt !! h = Some j' →
        Z.land (tag j') (Z.lnot (Z.lor LIB_TAG_DOIT LIB_TAG_MISSING))
        = Z.land (tag j) (Z.lnot (Z.lor LIB_TAG_DOIT LIB_TAG_MISSING))
        ∧ (h ≠ 5%nat → ¬ local_group_member scene_main 5 j → lib j ≠ lib ref →
           Z.land (tag j') (tag j) = tag j').
Proof.
  apply (resync_tag_returns 6 scene_main 5 _ scene_main_valid eq_refl eq_refl).
  vm_compute. lia.
Defined.

(** ** Update of every override *)

Lemma no_contents_eq (i i' : ID) :
  no_contents i' = no_contents i → i' = set_contents (contents i') i.
Proof. destruct i, i'. unfold no_contents, set_contents. cbn. intros [=]. by subst. Qed.

Lemma update_view_of_no_contents_id (i i' : ID) :
  no_contents i' = no_contents i → update_view i' = update_view i.
Proof. intros H. rewrite (no_contents_eq _ _ H). by destruct i. Qed.

(** One update, of an override whose reference is not an override. *)
Lemma update_plain_step (host : Host) (fuel : nat) (m : Main) (local : nat) (l : ID) :
  ids m !! local = Some l → reference_is_plain m l = true →
  ∃ m' l',
    BKE_lib_override_library_update host (S fuel) m local = Some m'
    ∧ same_shape m m'
    ∧ (∀ h, h ≠ local → no_contents <$> ids m' !! h = no_contents <$> ids m !! h)
    ∧ ids m' !! local = Some l' ∧ update_view l' = update_view l
    ∧ (no_contents l' = no_contents l ∨ up_to_date l')
    ∧ (can_update host m l → up_to_date l').
Proof.
  intros Hl Hplain. cbn [BKE_lib_override_library_update]. rewrite Hl.
  assert (∀ P : Prop, can_update host m l → (ID_IS_OVERRIDE_LIBRARY_REAL l = true → P) → P)
    as Hreal_of.
  { intros P (o & r & ref & Ho & Hr & _) HP. apply HP.
    unfold ID_IS_OVERRIDE_LIBRARY_REAL. rewrite Ho, Hr. by apply bool_decide_eq_true. }
  destruct (ID_IS_OVERRIDE_LIBRARY_REAL l) eqn:Hreal; cbn [negb].
  2: { exists m, l. split; [done|]. split; [done|]. split; [done|]. split; [done|].
       split; [done|]. split; [by left|]. intros Hc. by apply (Hreal_of _ Hc). }
  unfold ID_IS_OVERRIDE_LIBRARY_REAL in Hreal. unfold reference_is_plain in Hplain.
  destruct (override_library l) as [o|] eqn:Ho; [|done].
  destruct (reference o) as [r|] eqn:Hr; [|done].
  destruct (ids m !! r) as [ref|] eqn:Href; [|done].
  destruct (override_library ref) eqn:Horef; [done|].
  rewrite (id_reference_lookup m local l o Hl Ho), Hr, Href.
  destruct (ID_MISSING ref) eqn:Hmiss.
  { exists m, l. split; [done|]. split; [done|]. split; [done|]. split; [done|].
    split; [done|]. split; [by left|].
    intros (o' & r' & ref' & Ho' & Hr' & Href' & Hm' & _). congruence. }
  rewrite Horef.
  destruct (BKE_id_copy host m r) as [[m2 tmp_id]|] eqn:Hcopy.
  - destruct (id_copy_spec _ _ _ _ _ Hcopy) as (_ & _ & _ & _ & _ & _ & i & d & _ & Hd & _).
    destruct (update_apply_spec host m local l o r m2 tmp_id d Hl Ho Hr Hcopy Hd)
      as (m' & Hrun & _ & Hshape & Hl' & Hother).
    eexists m', _. split; [done|]. split; [done|]. split; [done|]. split; [exact Hl'|].
    split.
    { unfold update_view. cbn. rewrite Ho. cbn. by rewrite flag_set_idemp. }
    assert (up_to_date
              (set_tag (flag_set (tag l) LIB_TAG_OVERRIDE_LIBRARY_REFOK)
                 (set_override_library (Some (set_storage None o))
                    (set_contents
                       (update_merged_contents local (contents l) (contents d)
                          (RNA_struct_override_apply host
                             (update_duplicate_contents (contents l) (contents d))
                             (contents l) (storage o) o)) l)))) as Hup.
    { split; [by apply flag_test_set|done]. }
    split; [by right|done].
  - exists m, l. split.
    { unfold lib_override_library_update_apply. by rewrite Hl, Ho, Hr, Hcopy. }
    split; [done|]. split; [done|]. split; [done|]. split; [done|]. split; [by left|].
    intros (o' & r' & ref' & Ho' & Hr' & Href' & _ & Hcan).
    assert (r' = r) as -> by congruence. assert (ref' = ref) as -> by congruence.
    unfold BKE_id_copy in Hcopy. rewrite Href in Hcopy.
    specialize (Hcan (contents ref)). destruct ref. unfold set_contents in Hcan.
    cbn in Hcan, Hcopy. by rewrite Hcan in Hcopy.
Qed.

Lemma up_to_date_no_contents (i i' : ID) :
  no_contents i' = no_contents i → up_to_date i → up_to_date i'.
Proof. intros H. rewrite (no_contents_eq _ _ H). by destruct i. Qed.

Lemma update_view_override (i i' : ID) :
  update_view i' = update_view i →
  name i' = name i ∧ lib i' = lib i
  ∧ set_storage None <$> override_library i' = set_storage None <$> override_library i.
Proof. unfold update_view. by intros [=]. Qed.

Lemma update_view_reference (i i' : ID) (o' : IDOverrideLibrary) :
  update_view i' = update_view i → override_library i' = Some o' →
  ∃ o, override_library i = Some o ∧ reference o = reference o'.
Proof.
  intros Hv Ho'. destruct (update_view_override _ _ Hv) as (_ & _ & Hov).
  rewrite Ho' in Hov. destruct (override_library i) as [o|]; [|done].
  exists o. split; [done|]. cbn in Hov. apply (inj Some) in Hov.
  by apply (f_equal reference) in Hov.
Qed.

Lemma main_update_step (host : Host) (fuel : nat) (m0 m : Main) (visited : list nat)
    (x : nat) :
  references_plain m0 → main_update_state host m0 visited m →
  ∃ m', match ids m !! x with
        | Some i =>
            match override_library i with
            | Some _ => BKE_lib_override_library_update host (S fuel) m x
            | None => Some m
            end
        | None => Some m
        end = Some m'
    ∧ main_update_state host m0 (visited ++ [x]) m'.
Proof.
  intros Hplain [Hshape Hst].
  destruct (ids m !! x) as [lk|] eqn:Hlk.
  2: { exists m. split; [done|]. split; [done|]. intros h. specialize (Hst h).
       destruct (ids m0 !! h) as [i|] eqn:Hi; [|done].
       destruct Hst as (i' & Hi' & Hv & Hp & Hd). exists i'.
       split; [done|]. split; [done|]. split; [done|].
       intros Hin. apply elem_of_app in Hin as [Hin|Hin]; [by apply Hd|].
       apply list_elem_of_singleton in Hin as ->. congruence. }
  pose proof (Hst x) as Hx. destruct (ids m0 !! x) as [l0|] eqn:Hl0; [|congruence].
  destruct Hx as (lk' & Hlk' & Hvk & Hpk & Hdk). rewrite Hlk in Hlk'. injection Hlk' as <-.
  destruct (override_library lk) as [ok|] eqn:Hok.
  2: { exists m. split; [done|]. split; [done|]. intros h. specialize (Hst h).
       destruct (ids m0 !! h) as [i|] eqn:Hi; [|done].
       destruct Hst as (i' & Hi' & Hv & Hp & Hd). exists i'.
       split; [done|]. split; [done|]. split; [done|].
       intros Hin. apply elem_of_app in Hin as [Hin|Hin]; [by apply Hd|].
       apply list_elem_of_singleton in Hin as ->.
       intros (o & r & ref & Ho & _). rewrite Hl0 in Hi. injection Hi as <-.
       destruct (update_view_override _ _ Hvk) as (_ & _ & Hov).
       rewrite Hok, Ho in Hov. done. }
  destruct (update_view_reference _ _ ok Hvk Hok) as (o0 & Ho0 & Hr0).
  (* the reference is as it was, up to what it owns *)
  assert (∀ r, reference ok = Some r →
            ∃ ref0 refk, ids m0 !! r = Some ref0 ∧ ids m !! r = Some refk
              ∧ override_library ref0 = None ∧ no_contents refk = no_contents ref0) as Href.
  { intros r Hr. pose proof (Hplain x l0 Hl0) as Hp0. cbn in Hp0.
    unfold reference_is_plain in Hp0. rewrite Ho0, Hr0, Hr in Hp0.
    destruct (ids m0 !! r) as [ref0|] eqn:Href0; [|done].
    destruct (override_library ref0) eqn:Horef0; [done|].
    pose proof (Hst r) as Hstr. rewrite Href0 in Hstr.
    destruct Hstr as (refk & Hrefk & _ & Hnc & _).
    exists ref0, refk. split; [done|]. split; [done|]. split; [done|]. by apply Hnc. }
  assert (reference_is_plain m lk = true) as Hplk.
  { unfold reference_is_plain. rewrite Hok. destruct (reference ok) as [r|] eqn:Hr; [|done].
    destruct (Href r eq_refl) as (ref0 & refk & _ & -> & Ho & Hnc).
    rewrite (no_contents_eq _ _ Hnc). cbn. by rewrite Ho. }
  destruct (update_plain_step host fuel m x lk Hlk Hplk)
    as (m' & l' & Hrun & Hshape' & Hother & Hl' & Hv' & Hkeep & Hcan).
  exists m'. split; [done|]. split; [by eapply same_shape_trans|].
  intros h. destruct (decide (h = x)) as [->|Hne].
  - rewrite Hl0. exists l'. split; [done|]. split; [congruence|].
    split; [intros Hn; by rewrite Hn in Ho0|].
    intros _ (o & r & ref & Ho & Hr & Href0 & Hmiss & Hcopy). apply Hcan.
    assert (o = o0) as -> by congruence.
    destruct (Href r) as (ref0 & refk & Href0' & Hrefk & _ & Hnc); [congruence|].
    assert (ref0 = ref) as -> by congruence.
    exists ok, r, refk. split; [done|]. split; [congruence|]. split; [done|].
    rewrite (no_contents_eq _ _ Hnc). split; [by destruct ref|].
    intros c. specialize (Hcopy c). by destruct ref.
  - specialize (Hst h). specialize (Hother h Hne).
    destruct (ids m0 !! h) as [i|] eqn:Hi.
    + destruct Hst as (i' & Hi' & Hv & Hp & Hd). rewrite Hi' in Hother.
      destruct (ids m' !! h) as [i''|] eqn:Hi''; [|done].
      cbn in Hother. apply (inj Some) in Hother.
      exists i''. split; [done|].
      split; [by rewrite (update_view_of_no_contents_id _ _ Hother)|].
      split; [intros Hn; by rewrite Hother, Hp|].
      intros Hin Hc. apply (up_to_date_no_contents _ _ Hother). apply Hd; [|done].
      apply elem_of_app in Hin as [Hin|Hin]; [done|].
      by apply list_elem_of_singleton in Hin.
    + rewrite Hst in Hother. by destruct (ids m' !! h).
Qed.

Lemma main_update_walk (host : Host) (fuel : nat) (m0 : Main) (l visited : list nat)
    (m : Main) :
  references_plain m0 → main_update_state host m0 visited m →
  ∃ m', foldl (λ m id,
                 match m with
                 | Some m =>
                     match ids m !! id with
                     | Some i =>
                         match override_library i with
                         | Some _ => BKE_lib_override_library_update host (S fuel) m id
                         | None => Some m
                         end
                     | None => Some m
                     end
                 | None => None
                 end) (Some m) l = Some m'
    ∧ main_update_state host m0 (visited ++ l) m'.
Proof.
  intros Hplain. revert visited m. induction l as [|x l IH]; intros visited m Hst.
  - exists m. by rewrite app_nil_r.
  - destruct (main_update_step host fuel m0 m visited x Hplain Hst) as (m1 & Hrun & Hst1).
    destruct (IH _ _ Hst1) as (m' & Hrun' & Hst').
    exists m'. cbn [foldl]. rewrite Hrun. split; [done|].
    by rewrite <- app_assoc in Hst'.
Qed.

(** X18. [BKE_lib_override_library_main_update], in a registry where the
    reference of every override is an ID of the registry that is not an
    override itself, returns; it adds, removes, renames and reorders no ID,
    and changes of an ID nothing but what the ID owns, the storage of its
    override and its REFOK tag; an ID that is not an override also keeps its
    tags; and every registered real override whose reference is not a
    placeholder for missing data and can be duplicated is left with REFOK
    set and no storage. *)
Theorem main_update_brings_up_to_date (host : Host) (fuel : nat) (m : Main) :
  references_plain m →
  ∃ m', BKE_lib_override_library_main_update host (S fuel) m = Some m'
    ∧ order m' = order m ∧ relations m' = relations m
    ∧ ∀ h, match ids m !! h with
           | Some i =>
               ∃ i', ids m' !! h = Some i' ∧ update_view i' = update_view i
                 ∧ (override_library i = None → no_contents i' = no_contents i)
                 ∧ (h ∈ order m → can_update host m i → up_to_date i')
           | None => ids m' !! h = None
           end.
Proof.
  intros Hplain.
  destruct (main_update_walk host fuel m (order m) [] m Hplain) as (m' & Hrun & Hshape & Hst).
  { split; [done|]. intros h. destruct (ids m !! h) as [i|]; [|done].
    exists i. split; [done|]. split; [done|]. split; [done|]. intros Hin.
    by apply not_elem_of_nil in Hin. }
  exists m'. split; [done|]. destruct Hshape as [Hord Hrel]. by repeat split.
Qed.

Lemma scene_main_references_plain : references_plain scene_main.
Proof. unfold references_plain. apply (bool_decide_unpack _). vm_compute. exact I. Qed.

Lemma main_update_brings_up_to_date_witness :
  ∃ m', BKE_lib_override_library_main_update example_host 1 scene_main = Some m'
    ∧ order m' = order scene_main ∧ relations m' = relations scene_main
    ∧ ∀ h, match ids scene_main !! h with
           | Some i =>
               ∃ i', ids m' !! h = Some i' ∧ update_view i' = update_view i
                 ∧ (override_library i = None → no_contents i' = no_contents i)
                 ∧ (h ∈ order scene_main → can_update example_host scene_main i
                    → up_to_date i')
           | None => ids m' !! h = None
           end.
Proof.
  apply (main_update_brings_up_to_date example_host 0 scene_main
           scene_main_references_plain).
Defined.

(** ** Reset of an override *)

Lemma reset_do_op_delete_kept (rna : RNA) (m : Main) (id_root : nat) (r : option nat)
    (op : IDOverrideLibraryProperty) :
  reset_do_op_delete rna m id_root r op = Some false → is_relation_property op.
Proof.
  unfold reset_do_op_delete, is_relation_property. intros H.
  destruct (bool_decide (rna_prop_type op = PROP_COLLECTION)) eqn:Hc.
  { right. by apply bool_decide_eq_true in Hc. }
  destruct (bool_decide (rna_prop_type op = PROP_POINTER)) eqn:Hp; [|done].
  left. by apply bool_decide_eq_true in Hp.
Qed.

Lemma reset_frame_refl (id_root : nat) (m : Main) : reset_frame id_root m m.
Proof.
  split; [done|]. split; [done|]. split; [done|]. split; [done|].
  intros o Ho. exists o. split; [done|]. split; [done|]. split; [done|].
  split; [reflexivity|done].
Qed.

Lemma reset_frame_trans (id_root : nat) (m1 m2 m3 : Main) :
  reset_frame id_root m1 m2 → reset_frame id_root m2 m3 → reset_frame id_root m1 m3.
Proof.
  intros (Ho1 & Hr1 & Hf1 & Hh1 & Hov1) (Ho2 & Hr2 & Hf2 & Hh2 & Hov2).
  split; [congruence|]. split; [congruence|].
  split; [intros h Hh; by rewrite Hf2, Hf1|]. split; [congruence|].
  intros o Ho. destruct (Hov1 o Ho) as (o2 & Ho2' & Hr & Hs & Hsub & Hc).
  destruct (Hov2 o2 Ho2') as (o3 & Ho3 & Hr' & Hs' & Hsub' & Hc').
  exists o3. split; [done|]. split; [congruence|]. split; [congruence|].
  split; [by etrans|]. intros Hco. by apply Hc', Hc.
Qed.

(** Writing the override of the root back. *)
Lemma reset_frame_write (id_root : nat) (m : Main) (o o' : IDOverrideLibrary) :
  id_override m id_root = Some o →
  reference o' = reference o → storage o' = storage o →
  sublist (properties o') (properties o) → (ghash_coherent o → ghash_coherent o') →
  reset_frame id_root m (update_id id_root (set_override_library (Some o')) m)
  ∧ id_override (update_id id_root (set_override_library (Some o')) m) id_root = Some o'.
Proof.
  intros Ho Hr Hs Hsub Hc. unfold id_override in Ho.
  destruct (ids m !! id_root) as [i|] eqn:Hi; [|done].
  assert (id_override (update_id id_root (set_override_library (Some o')) m) id_root
          = Some o') as Ho'.
  { unfold id_override. by rewrite lookup_update_id_same, Hi. }
  split; [|done]. split; [done|]. split; [done|].
  split; [intros h Hh; by rewrite lookup_update_id_ne|].
  split; [by rewrite lookup_update_id_same, Hi|].
  intros o1 Ho1. unfold id_override in Ho1. rewrite Hi in Ho1.
  assert (o1 = o) as -> by congruence. by exists o'.
Qed.

(** [BKE_lib_override_library_property_delete] on a property of the
    override. *)
Lemma property_delete_spec (o : IDOverrideLibrary) (k : nat) (p : IDOverrideLibraryProperty) :
  properties o !! k = Some p →
  ∃ o', BKE_lib_override_library_property_delete o k = Some o'
    ∧ properties o' = delete k (properties o)
    ∧ reference o' = reference o ∧ storage o' = storage o
    ∧ (ghash_coherent o → ghash_coherent o').
Proof.
  intros Hp. unfold BKE_lib_override_library_property_delete. rewrite Hp.
  eexists. split; [done|].
  split; [by destruct (override_ghash o)|].
  split; [by destruct (override_ghash o)|].
  split; [by destruct (override_ghash o)|].
  intros Hc. destruct (property_delete_coherent o k p Hc Hp)
    as (o1' & Hd & _ & _ & _ & _ & Hc' & _).
  unfold BKE_lib_override_library_property_delete in Hd. rewrite Hp in Hd.
  injection Hd as <-. exact Hc'.
Qed.

(** The loop of [lib_override_library_id_reset_do]. *)
Lemma reset_do_loop (rna : RNA) (id_root : nat) (todo k : nat) (m : Main) (w : bool)
    (o : IDOverrideLibrary) (m' : Main) (w' : bool) :
  id_override m id_root = Some o →
  length (properties o) = (k + todo)%nat →
  Forall is_relation_property (take k (properties o)) →
  LISTBASE_FOREACH_MUTABLE (reset_do_property rna id_root) todo k (m, w) = Some (m', w') →
  reset_frame id_root m m'
  ∧ (∃ o', id_override m' id_root = Some o' ∧ Forall is_relation_property (properties o')
           ∧ (length (properties o') ≤ length (properties o))%nat
           ∧ (w = false → w' = true →
              length (properties o') < length (properties o))%nat)
  ∧ (w = true → w' = true)
  ∧ (w' = false → m' = m).
Proof.
  revert k m w o. induction todo as [|todo IH]; intros k m w o Ho Hlen Hrel Hrun.
  - cbn in Hrun. injection Hrun as <- <-. split; [apply reset_frame_refl|].
    split; [|done]. exists o. split; [done|].
    split; [by rewrite take_ge in Hrel by lia|]. split; [done|]. by intros ->.
  - cbn [LISTBASE_FOREACH_MUTABLE] in Hrun.
    destruct (lookup_lt_is_Some_2 (properties o) k) as [p Hp]; [lia|].
    unfold reset_do_property in Hrun at 1. cbn [fst] in Hrun. rewrite Ho, Hp in Hrun.
    destruct (reset_do_op_delete rna m id_root (reference o) p) as [[|]|] eqn:Hdel;
      [| |done].
    + destruct (property_delete_spec o k p Hp) as (o1 & Hd & Hp1 & Hr1 & Hs1 & Hc1).
      rewrite Hd in Hrun.
      destruct (reset_frame_write id_root m o o1 Ho Hr1 Hs1) as [Hfr Ho1]; [|done|].
      { rewrite Hp1. apply sublist_delete. }
      assert (length (properties o1) = (k + todo)%nat) as Hlen1.
      { rewrite Hp1, length_delete by (by eexists). lia. }
      assert (take k (properties o1) = take k (properties o)) as Htake.
      { rewrite Hp1, delete_take_drop.
        rewrite take_app_le by (rewrite length_take; lia).
        by rewrite take_take, Nat.min_id. }
      assert (Forall is_relation_property (take k (properties o1))) as Hrel1
        by (by rewrite Htake).
      destruct (IH k _ true o1 Ho1 Hlen1 Hrel1 Hrun) as (Hfr' & Hov' & Hw & _).
      destruct Hov' as (o' & Ho' & Hall & Hle & _).
      rewrite Hp1, length_delete in Hle by (by eexists).
      split; [by eapply reset_frame_trans|].
      split.
      { exists o'. split; [done|]. split; [done|]. split; [lia|]. intros _ _.
        assert (length (properties o) ≠ 0)%nat; [|lia].
        apply lookup_lt_Some in Hp. lia. }
      split; [intros _; by apply Hw|].
      intros ->. by specialize (Hw eq_refl).
    + assert (Forall is_relation_property (take (S k) (properties o))) as Hrel1.
      { rewrite (take_S_r _ _ _ Hp). apply Forall_app. split; [done|].
        apply Forall_singleton. by eapply reset_do_op_delete_kept. }
      apply (IH (S k) m w o Ho); [lia|done|done].
Qed.

(** Writing the runtime data of the override of the root. *)
Lemma reset_frame_runtime (id_root : nat) (m : Main) (o : IDOverrideLibrary)
    (r : option IDOverrideLibraryRuntime) :
  id_override m id_root = Some o →
  (rna_path_to_override_properties <$> r) = (rna_path_to_override_properties <$> runtime o)
  ∨ (runtime o = None ∧ r ≫= rna_path_to_override_properties = None) →
  reset_frame id_root m (update_override id_root (λ _, set_runtime r o) m)
  ∧ id_override (update_override id_root (λ _, set_runtime r o) m) id_root
    = Some (set_runtime r o).
Proof.
  intros Ho Hr. pose proof Ho as Ho'. unfold id_override in Ho'.
  destruct (ids m !! id_root) as [i|] eqn:Hi; [|done].
  assert (id_override (update_override id_root (λ _, set_runtime r o) m) id_root
          = Some (set_runtime r o)) as Hnew.
  { unfold id_override, update_override. rewrite lookup_update_id_same, Hi. cbn.
    by rewrite Ho'. }
  split; [|done]. split; [done|]. split; [done|].
  split; [intros h Hh; unfold update_override; by rewrite lookup_update_id_ne|].
  split; [unfold update_override; by rewrite lookup_update_id_same, Hi|].
  intros o1 Ho1. assert (o1 = o) as -> by congruence.
  exists (set_runtime r o). split; [done|]. split; [done|]. split; [done|].
  split; [reflexivity|]. intros [Hnd Hgh]. split; [done|].
  intros gh Hg. apply Hgh. unfold override_ghash in *. cbn in Hg.
  destruct Hr as [Hr|[Hr1 Hr2]].
  - destruct r as [r|], (runtime o) as [ro|]; try done. cbn in *. congruence.
  - congruence.
Qed.

(** [lib_override_library_id_reset_do], when it returns. *)
Lemma id_reset_do_spec (rna : RNA) (m : Main) (id_root : nat)
    (o : IDOverrideLibrary) (m' : Main) (b : bool) :
  id_override m id_root = Some o →
  lib_override_library_id_reset_do rna m id_root = Some (m', b) →
  reset_frame id_root m m'
  ∧ ∃ o', id_override m' id_root = Some o'
      ∧ Forall is_relation_property (properties o')
      ∧ if b
        then (length (properties o') < length (properties o))%nat
             ∧ ∃ r, runtime o' = Some r
                 ∧ flag_test (runtime_tag r) IDOVERRIDE_LIBRARY_RUNTIME_TAG_NEEDS_RELOAD = true
        else m' = m.
Proof.
  intros Ho Hrun. unfold lib_override_library_id_reset_do in Hrun. rewrite Ho in Hrun.
  destruct (LISTBASE_FOREACH_MUTABLE (reset_do_property rna id_root)
              (length (properties o)) 0 (m, false)) as [[m1 w]|] eqn:Hloop; [|done].
  destruct (reset_do_loop rna id_root _ 0 m false o m1 w Ho eq_refl) with (2 := Hloop)
    as (Hfr & (o1 & Ho1 & Hall & Hle & Hlt) & _ & Hsame).
  { rewrite take_0. apply Forall_nil_2. }
  destruct w.
  - injection Hrun as <- <-.
    set (o2 := override_library_rna_path_runtime_ensure o1).
    assert (∃ r2, runtime o2 = Some r2
              ∧ (rna_path_to_override_properties <$> Some r2
                 = rna_path_to_override_properties <$> runtime o1
                 ∨ runtime o1 = None ∧ rna_path_to_override_properties r2 = None))
      as (r2 & Hr2 & Hgh2).
    { unfold o2, override_library_rna_path_runtime_ensure.
      destruct (runtime o1) as [r1|] eqn:Hr1.
      - exists r1. split; [done|]. by left.
      - eexists. split; [done|]. by right. }
    set (r3 := mk_runtime (rna_path_to_override_properties r2)
                 (flag_set (runtime_tag r2) IDOVERRIDE_LIBRARY_RUNTIME_TAG_NEEDS_RELOAD)).
    assert (update_override id_root
              (λ o, set_runtime
                      ((λ r, mk_runtime (rna_path_to_override_properties r)
                               (flag_set (runtime_tag r)
                                  IDOVERRIDE_LIBRARY_RUNTIME_TAG_NEEDS_RELOAD))
                         <$> runtime (override_library_rna_path_runtime_ensure o))
                      (override_library_rna_path_runtime_ensure o)) m1
            = update_override id_root (λ _, set_runtime (Some r3) o1) m1) as ->.
    { unfold update_override, update_id. f_equal. apply map_eq. intros h.
      destruct (decide (h = id_root)) as [->|Hne].
      - rewrite !lookup_alter_eq. unfold id_override in Ho1.
        destruct (ids m1 !! id_root) as [i1|]; [|done]. cbn. rewrite Ho1. cbn.
        do 3 f_equal. fold o2. rewrite Hr2. cbn. unfold r3, set_runtime, o2.
        unfold override_library_rna_path_runtime_ensure.
        by destruct (runtime o1).
      - by rewrite !lookup_alter_ne. }
    destruct (reset_frame_runtime id_root m1 o1 (Some r3) Ho1) as [Hfr3 Ho3].
    { destruct Hgh2 as [Hg|[Hn Hg]]; [left|right; by split].
      cbn in *. by destruct (runtime o1). }
    split; [by eapply reset_frame_trans|].
    exists (set_runtime (Some r3) o1). split; [done|]. split; [done|].
    split; [by apply Hlt|]. exists r3. split; [done|]. by apply flag_test_set.
  - injection Hrun as <- <-. split; [done|]. exists o1. split; [done|]. split; [done|].
    by apply Hsame.
Qed.

(** X19. When [lib_override_library_id_reset_do] returns, whatever the RNA
    layer answers: the override of the root keeps its reference and its
    storage, its properties are properties it had, in their order, and all
    of them are pointers or collections (a property of any other type is
    always deleted); every other ID, the rest of the root, the list of the
    registered IDs and the relations are as they were; a path hash that
    agreed with the properties still does. The value returned is true
    exactly when a property was deleted: then the runtime data exist and
    carry NEEDS_RELOAD; otherwise the registry is as it was. *)
Theorem id_reset_do_keeps_relations (rna : RNA) (m : Main) (id_root : nat)
    (o : IDOverrideLibrary) (m' : Main) (b : bool) :
  id_override m id_root = Some o →
  lib_override_library_id_reset_do rna m id_root = Some (m', b) →
  reset_frame id_root m m'
  ∧ ∃ o', id_override m' id_root = Some o'
      ∧ Forall is_relation_property (properties o')
      ∧ if b
        then (length (properties o') < length (properties o))%nat
             ∧ ∃ r, runtime o' = Some r
                 ∧ flag_test (runtime_tag r) IDOVERRIDE_LIBRARY_RUNTIME_TAG_NEEDS_RELOAD = true
        else m' = m.
Proof. apply id_reset_do_spec. Qed.

Lemma id_reset_do_keeps_relations_witness :
  ∃ m' o',
    lib_override_library_id_reset_do example_rna armchair_main 2 = Some (m', true)
    ∧ reset_frame 2 armchair_main m'
    ∧ id_override m' 2 = Some o'
    ∧ Forall is_relation_property (properties o')
    ∧ (length (properties o') < 2)%nat
    ∧ ∃ r, runtime o' = Some r
        ∧ flag_test (runtime_tag r) IDOVERRIDE_LIBRARY_RUNTIME_TAG_NEEDS_RELOAD = true.
Proof.
  destruct (lib_override_library_id_reset_do example_rna armchair_main 2)
    as [[m' b]|] eqn:Hrun; [|by vm_compute in Hrun].
  assert (b = true) as -> by (vm_compute in Hrun; by injection Hrun as _ <-).
  destruct (id_reset_do_keeps_relations example_rna armchair_main 2 _ m' true eq_refl Hrun)
    as (Hfr & o' & Ho' & Hall & Hlen & Hr).
  by exists m', o'.
Defined.

(** X20. When [BKE_lib_override_library_id_reset] returns: an ID that is not
    a real override is left alone; a real override keeps its reference, its
    properties are properties it had, in their order, all of them pointers
    or collections; and either nothing was deleted and the registry is as it
    was, or a property was deleted, the override was updated from its
    reference by [BKE_lib_override_library_update] (the test of the runtime
    tag in between never fails) and NEEDS_RELOAD is clear at the end. *)
Theorem id_reset_updates_when_deleted (host : Host) (rna : RNA) (fuel : nat) (m : Main)
    (id_root : nat) (i : ID) (m' : Main) :
  ids m !! id_root = Some i →
  BKE_lib_override_library_id_reset host rna fuel m id_root = Some m' →
  if ID_IS_OVERRIDE_LIBRARY_REAL i then
    ∃ o o', override_library i = Some o ∧ id_override m' id_root = Some o'
      ∧ reference o' = reference o
      ∧ sublist (properties o') (properties o)
      ∧ Forall is_relation_property (properties o')
      ∧ (m' = m
         ∨ ∃ m1 m2 r,
             lib_override_library_id_reset_do rna m id_root = Some (m1, true)
             ∧ BKE_lib_override_library_update host fuel m1 id_root = Some m2
             ∧ (length (properties o') < length (properties o))%nat
             ∧ runtime o' = Some r
             ∧ flag_test (runtime_tag r) IDOVERRIDE_LIBRARY_RUNTIME_TAG_NEEDS_RELOAD = false)
  else m' = m.
Proof.
  intros Hi Hrun. unfold BKE_lib_override_library_id_reset in Hrun. rewrite Hi in Hrun.
  destruct (ID_IS_OVERRIDE_LIBRARY_REAL i) eqn:Hreal; cbn [negb] in Hrun;
    [|by injection Hrun as <-].
  unfold ID_IS_OVERRIDE_LIBRARY_REAL in Hreal.
  destruct (override_library i) as [o|] eqn:Ho; [|done].
  assert (id_override m id_root = Some o) as Hov
    by (unfold id_override; by rewrite Hi).
  destruct (lib_override_library_id_reset_do rna m id_root) as [[m1 b]|] eqn:Hdo; [|done].
  destruct (id_reset_do_spec rna m id_root o m1 b Hov Hdo)
    as ((_ & _ & _ & _ & Hfr) & o1 & Ho1 & Hall & Hb).
  destruct (Hfr o Hov) as (o1' & Ho1' & Hr1 & _ & Hsub & _).
  assert (o1' = o1) as -> by congruence.
  destruct b.
  2: { injection Hrun as <-. subst m1. exists o, o1.
       split; [done|]. split; [done|]. split; [done|]. split; [done|]. split; [done|].
       by left. }
  destruct Hb as (Hlt & r1 & Hrt1 & Htag1).
  rewrite Ho1 in Hrun. cbn in Hrun. rewrite Hrt1, Htag1 in Hrun.
  destruct (BKE_lib_override_library_update host fuel m1 id_root) as [m2|] eqn:Hup; [|done].
  destruct (update_frame _ _ _ _ _ Hup) as [_ Hview]. specialize (Hview id_root).
  unfold id_override in Ho1.
  destruct (ids m1 !! id_root) as [i1|] eqn:Hi1; [|done].
  destruct (ids m2 !! id_root) as [i2|] eqn:Hi2; [|done].
  cbn in Hview. apply (inj Some) in Hview.
  destruct (update_view_override _ _ Hview) as (_ & _ & Hov2). rewrite Ho1 in Hov2.
  destruct (override_library i2) as [o2|] eqn:Ho2; [|done].
  cbn in Hov2. apply (inj Some) in Hov2.
  assert (reference o2 = reference o1 ∧ properties o2 = properties o1
          ∧ runtime o2 = runtime o1) as (Hr2 & Hp2 & Hrt2).
  { split; [by apply (f_equal reference) in Hov2|].
    split; [by apply (f_equal properties) in Hov2|by apply (f_equal runtime) in Hov2]. }
  assert (id_override m2 id_root = Some o2) as Hov2'
    by (unfold id_override; by rewrite Hi2).
  rewrite Hov2' in Hrun. cbn in Hrun. rewrite Hrt2, Hrt1 in Hrun. injection Hrun as <-.
  eexists o, _. split; [done|]. split.
  { unfold id_override, update_override. rewrite lookup_update_id_same, Hi2. cbn.
    by rewrite Ho2. }
  cbn. split; [congruence|]. split; [by rewrite Hp2|]. split; [by rewrite Hp2|].
  right. exists m1, m2. eexists. split; [done|]. split; [done|].
  split; [by rewrite Hp2|]. rewrite Hrt2, Hrt1. split; [done|]. cbn.
  apply flag_test_clear.
Qed.

Lemma id_reset_updates_when_deleted_witness :
  ∃ m',
    BKE_lib_override_library_id_reset example_host example_rna 1 armchair_main 2 = Some m'
    ∧ ∃ o o', id_override armchair_main 2 = Some o ∧ id_override m' 2 = Some o'
        ∧ reference o' = reference o
        ∧ sublist (properties o') (properties o)
        ∧ Forall is_relation_property (properties o')
        ∧ (m' = armchair_main
           ∨ ∃ m1 m2 r,
               lib_override_library_id_reset_do example_rna armchair_main 2 = Some (m1, true)
               ∧ BKE_lib_override_library_update example_host 1 m1 2 = Some m2
               ∧ (length (properties o') < length (properties o))%nat
               ∧ runtime o' = Some r
               ∧ flag_test (runtime_tag r) IDOVERRIDE_LIBRARY_RUNTIME_TAG_NEEDS_RELOAD
                 = false).
Proof.
  destruct (BKE_lib_override_library_id_reset example_host example_rna 1 armchair_main 2)
    as [m'|] eqn:Hrun; [|by vm_compute in Hrun].
  exists m'. split; [done|].
  destruct (id_reset_updates_when_deleted example_host example_rna 1 armchair_main 2 _ m'
              eq_refl Hrun) as (o & o' & Ho & Hrest).
  exists o, o'. split; [exact Ho|exact Hrest].
Defined.

(** ** Reset of a hierarchy of overrides *)

Lemma hierarchy_reset_unfold (rna : RNA) (fuel : nat) (m : Main) (id_root : nat) :
  lib_override_library_id_hierarchy_recursive_reset rna (S fuel) m id_root
  = match ids m !! id_root with
    | Some i =>
        if negb (ID_IS_OVERRIDE_LIBRARY_REAL i) then Some m
        else
          match relations m with
          | Some id_user_to_used =>
              match id_user_to_used !! id_root with
              | None => Some m
              | Some entries =>
                  match lib_override_library_id_reset_do rna m id_root with
                  | Some (m, _) =>
                      hierarchy_reset_entries
                        (lib_override_library_id_hierarchy_recursive_reset rna fuel)
                        entries (BKE_main_relations_ID_remove id_root m)
                  | None => None
                  end
              end
          | None => None
          end
    | None => None
    end.
Proof. reflexivity. Qed.

Lemma reset_kept_refl (i : ID) : reset_kept i i.
Proof. split; [done|]. by destruct (override_library i). Qed.

Lemma reset_kept_trans (i1 i2 i3 : ID) : reset_kept i1 i2 → reset_kept i2 i3 → reset_kept i1 i3.
Proof.
  intros [Hv1 Ho1] [Hv2 Ho2]. split; [congruence|].
  destruct (override_library i1), (override_library i2), (override_library i3); try done.
  destruct Ho1 as [Hr1 Hs1], Ho2 as [Hr2 Hs2]. split; [congruence|by etrans].
Qed.

Lemma hierarchy_frame_refl (m : Main) : hierarchy_frame m m.
Proof.
  split; [done|]. intros h. destruct (ids m !! h) as [i|]; [|done].
  exists i. split; [done|apply reset_kept_refl].
Qed.

Lemma hierarchy_frame_trans (m1 m2 m3 : Main) :
  hierarchy_frame m1 m2 → hierarchy_frame m2 m3 → hierarchy_frame m1 m3.
Proof.
  intros [Ho1 H1] [Ho2 H2]. split; [congruence|]. intros h.
  specialize (H1 h). specialize (H2 h).
  destruct (ids m1 !! h) as [i1|].
  - destruct H1 as (i2 & Hi2 & Hk1). rewrite Hi2 in H2.
    destruct H2 as (i3 & Hi3 & Hk2). exists i3. split; [done|by eapply reset_kept_trans].
  - by rewrite H1 in H2.
Qed.

Lemma hierarchy_frame_same_ids (m m' : Main) :
  ids m' = ids m → order m' = order m → hierarchy_frame m m'.
Proof.
  intros Hi Ho. split; [done|]. intros h. rewrite Hi.
  destruct (ids m !! h) as [i|]; [|done]. exists i. split; [done|apply reset_kept_refl].
Qed.

Lemma hierarchy_frame_reset (id_root : nat) (m m' : Main) (o : IDOverrideLibrary) :
  id_override m id_root = Some o → reset_frame id_root m m' → hierarchy_frame m m'.
Proof.
  intros Ho (Hord & _ & Hother & Hroot & Hov). split; [done|]. intros h.
  destruct (decide (h = id_root)) as [->|Hne].
  - destruct (Hov o Ho) as (o' & Ho' & Hr & _ & Hsub & _).
    unfold id_override in Ho, Ho'.
    destruct (ids m !! id_root) as [i|]; [|done].
    destruct (ids m' !! id_root) as [i'|]; [|done].
    exists i'. split; [done|]. cbn in Hroot. apply (inj Some) in Hroot.
    split; [by rewrite Hroot|]. by rewrite Ho, Ho'.
  - rewrite (Hother h Hne). destruct (ids m !! h) as [i|]; [|done].
    exists i. split; [done|apply reset_kept_refl].
Qed.

Lemma reset_kept_update_view (i i' : ID) : update_view i' = update_view i → reset_kept i i'.
Proof.
  intros Hv. destruct (update_view_override _ _ Hv) as (_ & _ & Hov).
  split.
  - unfold update_view in *. cbn. injection Hv as -> -> -> -> -> _ ->. done.
  - destruct (override_library i) as [o|], (override_library i') as [o'|]; try done.
    cbn in Hov. apply (inj Some) in Hov.
    split; [by apply (f_equal reference) in Hov|].
    apply (f_equal properties) in Hov. cbn in Hov. by rewrite Hov.
Qed.

Lemma hierarchy_frame_update_view (m m' : Main) :
  order m' = order m →
  (∀ h, update_view <$> ids m' !! h = update_view <$> ids m !! h) →
  hierarchy_frame m m'.
Proof.
  intros Ho Hv. split; [done|]. intros h. specialize (Hv h).
  destruct (ids m !! h) as [i|], (ids m' !! h) as [i'|]; try done.
  cbn in Hv. apply (inj Some) in Hv. exists i'. split; [done|].
  by apply reset_kept_update_view.
Qed.

Lemma Forall_sublist_of {A : Type} (P : A → Prop) (l l' : list A) :
  sublist l' l → Forall P l → Forall P l'.
Proof.
  intros Hs Hl. apply Forall_forall. intros x Hx.
  rewrite Forall_forall in Hl. apply Hl. by eapply elem_of_sublist.
Qed.

(** The properties of an override once they are all relations stay so. *)
Lemma hierarchy_frame_relations (m m' : Main) (h : nat) (o : IDOverrideLibrary) :
  hierarchy_frame m m' → id_override m h = Some o →
  Forall is_relation_property (properties o) →
  ∃ o', id_override m' h = Some o' ∧ Forall is_relation_property (properties o').
Proof.
  intros [_ Hf] Ho Hall. specialize (Hf h). unfold id_override in *.
  destruct (ids m !! h) as [i|]; [|done]. destruct Hf as (i' & -> & _ & Hk).
  rewrite Ho in Hk. destruct (override_library i') as [o'|]; [|done].
  exists o'. split; [done|]. destruct Hk as [_ Hsub]. by eapply Forall_sublist_of.
Qed.

Lemma hierarchy_reset_entries_frame (recur : Main → nat → option Main)
    (entries : list MainIDRelationsEntry) (m m' : Main) :
  (∀ m1 p m2, recur m1 p = Some m2 → hierarchy_frame m1 m2) →
  hierarchy_reset_entries recur entries m = Some m' → hierarchy_frame m m'.
Proof.
  intros Hrec. revert m. induction entries as [|e entries IH]; intros m Hrun.
  - cbn in Hrun. injection Hrun as <-. apply hierarchy_frame_refl.
  - cbn [hierarchy_reset_entries] in Hrun.
    destruct (flag_test (usage_flag e) IDWALK_CB_LOOPBACK); [by apply IH|].
    destruct (id_pointer e) as [p|]; [|by apply IH].
    destruct (ids m !! p) as [id_entry|]; [|done].
    destruct (override_library id_entry); [|by apply IH].
    destruct (recur m p) as [m1|] eqn:Hr; [|done].
    eapply hierarchy_frame_trans; [by eapply Hrec|by apply IH].
Qed.

(** The recursion: what it leaves of the registry, and the properties of
    an ID it resets. *)
Lemma hierarchy_recursive_reset_frame (rna : RNA) (fuel : nat) (m : Main) (id_root : nat)
    (m' : Main) :
  lib_override_library_id_hierarchy_recursive_reset rna fuel m id_root = Some m' →
  hierarchy_frame m m'
  ∧ ∀ i, ids m !! id_root = Some i → ID_IS_OVERRIDE_LIBRARY_REAL i = true →
      is_Some (entries_of m id_root) →
      ∃ o', id_override m' id_root = Some o' ∧ Forall is_relation_property (properties o').
Proof.
  revert m id_root m'. induction fuel as [|fuel IH]; intros m id_root m' Hrun; [done|].
  rewrite hierarchy_reset_unfold in Hrun.
  destruct (ids m !! id_root) as [i|] eqn:Hi; [|done].
  destruct (ID_IS_OVERRIDE_LIBRARY_REAL i) eqn:Hreal; cbn [negb] in Hrun.
  2: { injection Hrun as <-. split; [apply hierarchy_frame_refl|]. intros i' [= <-]. congruence. }
  destruct (relations m) as [rel|] eqn:Hrel; [|done].
  destruct (rel !! id_root) as [entries|] eqn:Hent.
  2: { injection Hrun as <-. split; [apply hierarchy_frame_refl|].
       intros _ _ _ [x Hx]. unfold entries_of in Hx. rewrite Hrel in Hx. congruence. }
  destruct (lib_override_library_id_reset_do rna m id_root) as [[m1 b]|] eqn:Hdo; [|done].
  assert (∃ o, id_override m id_root = Some o) as [o Ho].
  { unfold id_override. rewrite Hi. unfold ID_IS_OVERRIDE_LIBRARY_REAL in Hreal.
    destruct (override_library i) as [o|]; [by exists o|done]. }
  destruct (id_reset_do_spec rna m id_root o m1 b Ho Hdo) as (Hfr & o1 & Ho1 & Hall & _).
  pose proof (hierarchy_frame_reset id_root m m1 o Ho Hfr) as Hf1.
  assert (hierarchy_frame m1 (BKE_main_relations_ID_remove id_root m1)) as Hf2
    by (by apply hierarchy_frame_same_ids).
  assert (hierarchy_frame (BKE_main_relations_ID_remove id_root m1) m') as Hf3.
  { eapply hierarchy_reset_entries_frame; [|exact Hrun].
    intros m2 p m3 Hr. by apply (IH m2 p m3). }
  split.
  { eapply hierarchy_frame_trans; [exact Hf1|].
    eapply hierarchy_frame_trans; [exact Hf2|exact Hf3]. }
  intros _ _ _ _.
  apply (hierarchy_frame_relations (BKE_main_relations_ID_remove id_root m1) m' id_root o1);
    done.
Qed.

Lemma reset_kept_real (i i' : ID) :
  reset_kept i i' → ID_IS_OVERRIDE_LIBRARY_REAL i' = ID_IS_OVERRIDE_LIBRARY_REAL i.
Proof.
  intros [_ Hk]. unfold ID_IS_OVERRIDE_LIBRARY_REAL.
  destruct (override_library i), (override_library i'); try done.
  destruct Hk as [-> _]. done.
Qed.

Lemma update_view_runtime (i i' : ID) :
  update_view i' = update_view i →
  override_library i' ≫= runtime = override_library i ≫= runtime.
Proof.
  intros Hv. destruct (update_view_override _ _ Hv) as (_ & _ & Hov).
  destruct (override_library i) as [o|], (override_library i') as [o'|]; try done.
  cbn in Hov. apply (inj Some) in Hov. by apply (f_equal runtime) in Hov.
Qed.

(** Clearing NEEDS_RELOAD on the override of an ID. *)
Lemma reload_clear_spec (m : Main) (x : nat) :
  let m' := update_override x
              (λ o, set_runtime
                      ((λ r, mk_runtime (rna_path_to_override_properties r)
                               (flag_clear (runtime_tag r)
                                  IDOVERRIDE_LIBRARY_RUNTIME_TAG_NEEDS_RELOAD))
                         <$> runtime o) o) m in
  same_shape m m' ∧ hierarchy_frame m m'
  ∧ (∀ h i i', ids m !! h = Some i → ids m' !! h = Some i' → reloaded i → reloaded i')
  ∧ ∀ i', ids m' !! x = Some i' → reloaded i'.
Proof.
  intros m'.
  assert (∀ i : ID,
            reloaded (set_override_library
                        ((λ o, set_runtime
                                 ((λ r, mk_runtime (rna_path_to_override_properties r)
                                          (flag_clear (runtime_tag r)
                                             IDOVERRIDE_LIBRARY_RUNTIME_TAG_NEEDS_RELOAD))
                                    <$> runtime o) o) <$> override_library i) i)) as Hclear.
  { intros i r Hr. cbn in Hr. destruct (override_library i) as [o|]; [|done].
    cbn in Hr. destruct (runtime o) as [r0|]; [|done]. cbn in Hr. injection Hr as <-.
    cbn. apply flag_test_clear. }
  split; [done|]. split; [|split].
  - split; [done|]. intros h. unfold m', update_override. rewrite lookup_update_id.
    destruct (decide (x = h)) as [->|Hne].
    + destruct (ids m !! h) as [i|]; [|done]. eexists. split; [done|].
      split; [done|]. cbn. destruct (override_library i) as [o|]; [|done]. by cbn.
    + destruct (ids m !! h) as [i|]; [|done]. exists i. split; [done|apply reset_kept_refl].
  - intros h i i' Hi Hi' Hre. unfold m', update_override in Hi'.
    rewrite lookup_update_id, Hi in Hi'. destruct (decide (x = h)).
    + cbn in Hi'. injection Hi' as <-. apply Hclear.
    + by injection Hi' as <-.
  - intros i' Hi'. unfold m', update_override in Hi'. rewrite lookup_update_id_same in Hi'.
    destruct (ids m !! x) as [i|]; [|done]. cbn in Hi'. injection Hi' as <-. apply Hclear.
Qed.

(** One turn of the loop of [BKE_lib_override_library_id_hierarchy_reset]
    over the IDs. *)
Lemma hierarchy_reload_step (host : Host) (fuel : nat) (m : Main) (x : nat) (m' : Main) :
  hierarchy_reset_reload host fuel m x = Some m' →
  same_shape m m' ∧ hierarchy_frame m m'
  ∧ (∀ h i i', ids m !! h = Some i → ids m' !! h = Some i' → reloaded i → reloaded i')
  ∧ ∀ i', ids m' !! x = Some i' → ID_IS_OVERRIDE_LIBRARY_REAL i' = true → reloaded i'.
Proof.
  intros Hrun. unfold hierarchy_reset_reload in Hrun.
  destruct (ids m !! x) as [i|] eqn:Hi.
  2: { injection Hrun as <-. split; [done|]. split; [apply hierarchy_frame_refl|].
       split; [intros h i1 i2 H1 H2 Hre; by assert (i2 = i1) as -> by congruence|].
       intros i' Hi'. congruence. }
  destruct (negb (ID_IS_OVERRIDE_LIBRARY_REAL i) || negb _) eqn:Hskip.
  { injection Hrun as <-. split; [done|]. split; [apply hierarchy_frame_refl|].
    split; [intros h i1 i2 H1 H2 Hre; by assert (i2 = i1) as -> by congruence|].
    intros i' Hi' Hreal.
    assert (i' = i) as -> by congruence. rewrite Hreal in Hskip. cbn in Hskip.
    apply negb_true_iff in Hskip. intros r Hr. by rewrite Hr in Hskip. }
  destruct (BKE_lib_override_library_update host fuel m x) as [m2|] eqn:Hup; [|done].
  destruct (id_override m2 x ≫= runtime) as [r2|]; [|done]. injection Hrun as <-.
  destruct (update_frame _ _ _ _ _ Hup) as [Hshape Hview].
  destruct (reload_clear_spec m2 x) as (Hshape' & Hf' & Hpre' & Hx').
  split; [by eapply same_shape_trans|].
  split.
  { eapply hierarchy_frame_trans; [|exact Hf'].
    apply hierarchy_frame_update_view; [apply Hshape|done]. }
  split; [|intros i' Hi' _; by apply Hx'].
  intros h i1 i3 Hi1 Hi3 Hre. pose proof (Hview h) as Hv. rewrite Hi1 in Hv.
  destruct (ids m2 !! h) as [i2|] eqn:Hi2; [|done].
  cbn in Hv. apply (inj Some) in Hv.
  apply (Hpre' h i2 i3 Hi2 Hi3). intros r Hr. apply Hre.
  by rewrite <- (update_view_runtime _ _ Hv).
Qed.

Lemma hierarchy_reload_walk (host : Host) (fuel : nat) (l visited : list nat)
    (m m' : Main) :
  foldl (λ m id,
           match m with
           | Some m => hierarchy_reset_reload host fuel m id
           | None => None
           end) (Some m) l = Some m' →
  (∀ h i, h ∈ visited → ids m !! h = Some i → ID_IS_OVERRIDE_LIBRARY_REAL i = true →
     reloaded i) →
  same_shape m m' ∧ hierarchy_frame m m'
  ∧ ∀ h i, h ∈ visited ++ l → ids m' !! h = Some i → ID_IS_OVERRIDE_LIBRARY_REAL i = true →
      reloaded i.
Proof.
  revert visited m. induction l as [|x l IH]; intros visited m Hrun Hvis.
  - cbn in Hrun. injection Hrun as <-. rewrite app_nil_r.
    split; [done|]. split; [apply hierarchy_frame_refl|done].
  - cbn [foldl] in Hrun.
    destruct (hierarchy_reset_reload host fuel m x) as [m1|] eqn:Hstep.
    2: { exfalso. clear -Hrun. induction l as [|y l IHl]; [done|]. by apply IHl. }
    destruct (hierarchy_reload_step host fuel m x m1 Hstep) as (Hs1 & Hf1 & Hpre & Hx).
    destruct (IH (visited ++ [x]) m1 Hrun) as (Hs & Hf & Hall).
    { intros h i1 Hin Hi1 Hreal. apply elem_of_app in Hin as [Hin|Hin].
      - destruct Hf1 as [_ Hf1]. specialize (Hf1 h).
        destruct (ids m !! h) as [i|] eqn:Hi; [|congruence].
        destruct Hf1 as (i1' & Hi1' & Hk). assert (i1' = i1) as -> by congruence.
        apply (Hpre h i i1 Hi Hi1). apply (Hvis h i Hin Hi).
        by rewrite <- (reset_kept_real _ _ Hk).
      - apply list_elem_of_singleton in Hin as ->. by apply Hx. }
    split; [by eapply same_shape_trans|]. split; [by eapply hierarchy_frame_trans|].
    by rewrite <- app_assoc in Hall.
Qed.

Lemma relations_entries_real (i : ID) :
  ID_IS_OVERRIDE_LIBRARY_REAL i = true → relations_entries i ≠ [].
Proof.
  unfold ID_IS_OVERRIDE_LIBRARY_REAL, relations_entries, id_link_slots.
  destruct (override_library i) as [o|]; [|done].
  destruct (reference o) as [r|]; [|done]. intros _. cbn.
  intros H. apply (f_equal length) in H. rewrite length_app in H. cbn in H. lia.
Qed.

Lemma relations_create_registered (m : Main) (h : nat) (i : ID) :
  h ∈ order m → ids m !! h = Some i → relations_entries i ≠ [] →
  entries_of (BKE_main_relations_create m) h = Some (relations_entries i).
Proof.
  unfold entries_of, BKE_main_relations_create. cbn. intros Hin Hi Hne.
  induction (order m) as [|x l IH]; [by apply not_elem_of_nil in Hin|].
  cbn. destruct (decide (x = h)) as [->|Hx].
  - rewrite Hi. destruct (relations_entries i) eqn:He; [done|]. by rewrite lookup_insert_eq.
  - apply elem_of_cons in Hin as [->|Hin]; [done|].
    destruct (ids m !! x) as [ix|]; [|by apply IH].
    destruct (relations_entries ix); [by apply IH|].
    rewrite lookup_insert_ne by done. by apply IH.
Qed.


